(** * A two-stage front end for a small C-like language

    Shallow embedding of [compiler_front_end.py]: the regular-expression
    driven scanner ([Lexer.tokenize]) and the recursive-descent grammar
    walker ([Parser.parse]), followed by the properties proved about them.

    Conventions of the embedding.
    - Source text is a [string]; each [ascii] stands for one code point in
      0..255, and the classes [\w], [\d], [\s] and [str.isspace] are those
      of Python's Unicode tables restricted to that range.
    - A token is the Python pair [(token_type, token_value)] of two strings.
    - The walker's procedures mutate [self]; here they are state
      transformers on the record [Parser].  Loops and mutual recursion get a
      [fuel] argument; [None] means the fuel ran out before the procedure
      returned.
    - The grammar procedures come twice.  Module [Parser] has them as they
      run with stack to spare.  Module [Bounded] has them under the
      interpreter's recursion limit, given as the number of frames of the
      script's own methods that may still be entered (calls of built-ins
      such as [len] and [append] are not counted: since Python 3.12 the
      limit applies to Python code only), and [parse] with its [except]
      clause is defined over these.  The first are what the second
      compute when no call is cut short; memory is not bounded. *)

From Stdlib Require Import String Ascii List Arith Bool Lia PeanoNat Sorted.
From Stdlib Require Import DecimalString.
Import ListNotations.
Open Scope string_scope.
Open Scope nat_scope.

(* ================================================================== *)
(** ** Character classes *)

Definition code (c : ascii) : nat := nat_of_ascii c.

Definition between (lo hi : nat) (c : ascii) : bool :=
  (lo <=? code c) && (code c <=? hi).

Definition is_lower (c : ascii) : bool := between 97 122 c.
Definition is_upper (c : ascii) : bool := between 65 90 c.
Definition is_ascii_digit (c : ascii) : bool := between 48 57 c.

(** [\d]: decimal digits; below 256 these are ['0'..'9'] only. *)
Definition is_digit (c : ascii) : bool := is_ascii_digit c.

(** [\w]: alphanumeric code points and the underscore.  Above 127 the
    alphanumerics are the letters, superscript digits and vulgar fractions
    of the Latin-1 supplement. *)
Definition is_word (c : ascii) : bool :=
  is_lower c || is_upper c || is_ascii_digit c || (code c =? 95)
  || (code c =? 170) || (code c =? 178) || (code c =? 179) || (code c =? 181)
  || (code c =? 185) || (code c =? 186) || between 188 190 c
  || between 192 214 c || between 216 246 c || between 248 255 c.

(** [\s] and [str.lstrip()]: tab..carriage return, the four separators
    0x1c..0x1f, space, NEL and the no-break space. *)
Definition is_space (c : ascii) : bool :=
  between 9 13 c || between 28 32 c || (code c =? 133) || (code c =? 160).

Definition is_newline (c : ascii) : bool := code c =? 10.

Definition dquote : ascii := ascii_of_nat 34.
Definition backslash : ascii := ascii_of_nat 92.

Definition one_of (s : string) (c : ascii) : bool :=
  existsb (Ascii.eqb c) (list_ascii_of_string s).

(* ================================================================== *)
(** ** Regular expressions with Python's backtracking semantics *)

Module Re.

Inductive regex : Type :=
| Eps
| Chr (c : ascii)
| Cls (p : ascii -> bool)
| Bnd
| Seq (r1 r2 : regex)
| Alt (r1 r2 : regex)
| Star (r : regex)
| LazyStar (r : regex).

(** A literal word, character by character. *)
Fixpoint lit (s : string) : regex :=
  match s with
  | EmptyString => Eps
  | String c s' => Seq (Chr c) (lit s')
  end.

(** [a|b|c], tried left to right. *)
Fixpoint alts (rs : list regex) : regex :=
  match rs with
  | [] => Cls (fun _ => false)
  | [r] => r
  | r :: rs' => Alt r (alts rs')
  end.

Definition plus (r : regex) : regex := Seq r (Star r).

Fixpoint seqs (rs : list regex) : regex :=
  match rs with
  | [] => Eps
  | [r] => r
  | r :: rs' => Seq r (seqs rs')
  end.

Section Matcher.

(** The subject string; positions are indices into it. *)
Variable t : string.

Definition word_at (i : nat) : bool :=
  match get i t with Some c => is_word c | None => false end.

(** [\b]: exactly one of the two neighbours is a word character. *)
Definition at_boundary (i : nat) : bool :=
  xorb (match i with 0 => false | S j => word_at j end) (word_at i).

(** Greedy repetition: one more round of [step] first, the continuation
    only when that fails.  A round that consumes nothing is cut. *)
Fixpoint star (step : nat -> (nat -> option nat) -> option nat)
         (fuel i : nat) (k : nat -> option nat) : option nat :=
  match fuel with
  | 0 => k i
  | S f =>
      match step i (fun j => if i <? j then star step f j k else None) with
      | Some e => Some e
      | None => k i
      end
  end.

(** Lazy repetition: the continuation first. *)
Fixpoint lazy_star (step : nat -> (nat -> option nat) -> option nat)
         (fuel i : nat) (k : nat -> option nat) : option nat :=
  match fuel with
  | 0 => k i
  | S f =>
      match k i with
      | Some e => Some e
      | None => step i (fun j => if i <? j then lazy_star step f j k else None)
      end
  end.

(** [run r i k]: match [r] at position [i], then [k] at the position
    reached; the result is the end of the whole match. *)
Fixpoint run (r : regex) (i : nat) (k : nat -> option nat) : option nat :=
  match r with
  | Eps => k i
  | Chr c =>
      match get i t with
      | Some d => if Ascii.eqb c d then k (S i) else None
      | None => None
      end
  | Cls p =>
      match get i t with
      | Some d => if p d then k (S i) else None
      | None => None
      end
  | Bnd => if at_boundary i then k i else None
  | Seq a b => run a i (fun j => run b j k)
  | Alt a b =>
      match run a i k with
      | Some e => Some e
      | None => run b i k
      end
  | Star a => star (run a) (S (String.length t - i)) i k
  | LazyStar a => lazy_star (run a) (S (String.length t - i)) i k
  end.

End Matcher.

(** [re.match(pattern, s)]: anchored at position 0; the result is
    [match.end()]. *)
Definition re_match (pattern : regex) (s : string) : option nat :=
  run s pattern 0 Some.

(** [re.sub(pattern, '', s)]: leftmost matches are cut out, the text
    between them is kept. *)
Fixpoint sub_loop (fuel : nat) (pattern : regex) (s : string) (pos : nat)
  : string :=
  match fuel with
  | 0 => EmptyString
  | S f =>
      let keep :=
        match get pos s with
        | Some c => String c (sub_loop f pattern s (S pos))
        | None => EmptyString
        end in
      match run s pattern pos Some with
      | Some e => if pos <? e then sub_loop f pattern s e else keep
      | None => keep
      end
  end.

Definition re_sub_empty (pattern : regex) (s : string) : string :=
  sub_loop (S (String.length s)) pattern s 0.

End Re.

Import Re.

(* ================================================================== *)
(** ** The scanner *)

Definition token : Type := (string * string)%type.

Definition any_char (_ : ascii) : bool := true.
Definition dot (c : ascii) : bool := negb (is_newline c).

Definition KEYWORD_re : regex :=
  seqs [Bnd;
        alts (map lit ["int"; "float"; "double"; "char"; "return"; "if";
                       "else"; "for"; "while"; "namespace"; "template";
                       "include"; "define"]);
        Bnd].

Definition IDENTIFIER_re : regex :=
  seqs [Bnd;
        Cls (fun c => is_lower c || is_upper c || (code c =? 95));
        Star (Cls (fun c => is_lower c || is_upper c || is_ascii_digit c
                            || (code c =? 95)));
        Bnd].

Definition PREPROCESSOR_re : regex :=
  seqs [Chr "#"; Star (Cls is_space);
        alts (map lit ["include"; "define"]); Bnd].

Definition CONSTANT_FLOAT_re : regex :=
  seqs [Bnd; plus (Cls is_digit); Chr "."; plus (Cls is_digit); Bnd].

Definition CONSTANT_INT_re : regex :=
  seqs [Bnd; plus (Cls is_digit); Bnd].

Definition OPERATOR_re : regex :=
  alts (map lit ["=="; "!="; "<="; ">="; "++"; "--"; "+="; "-="; "*="; "/=";
                 "&&"; "||"; "<<"; ">>"]
        ++ [Cls (one_of "+-*/=<>!&|%^~")]).

Definition PUNCTUATOR_re : regex := Cls (one_of "{}();,<>").

Definition STRING_LITERAL_re : regex :=
  seqs [Chr dquote;
        Star (Alt (Seq (Chr backslash) (Cls dot))
                  (Cls (fun c => negb (Ascii.eqb c dquote
                                       || Ascii.eqb c backslash))));
        Chr dquote].

Definition COMMENT_SINGLE_re : regex :=
  seqs [Chr "/"; Chr "/"; Star (Cls dot)].

Definition COMMENT_MULTI_re : regex :=
  seqs [Chr "/"; Chr "*"; LazyStar (Cls any_char); Chr "*"; Chr "/"].

(** The table, in the order the dictionary literal lists its keys. *)
Definition TOKEN_TYPES : list (string * regex) :=
  [ ("KEYWORD", KEYWORD_re);
    ("IDENTIFIER", IDENTIFIER_re);
    ("PREPROCESSOR", PREPROCESSOR_re);
    ("CONSTANT_FLOAT", CONSTANT_FLOAT_re);
    ("CONSTANT_INT", CONSTANT_INT_re);
    ("OPERATOR", OPERATOR_re);
    ("PUNCTUATOR", PUNCTUATOR_re);
    ("STRING_LITERAL", STRING_LITERAL_re);
    ("COMMENT_SINGLE", COMMENT_SINGLE_re);
    ("COMMENT_MULTI", COMMENT_MULTI_re) ].

Module Lexer.

Fixpoint lstrip (s : string) : string :=
  match s with
  | EmptyString => EmptyString
  | String c s' => if is_space c then lstrip s' else s
  end.

(** [s[:n]] and [s[n:]]. *)
Fixpoint slice_to (n : nat) (s : string) : string :=
  match n, s with
  | S n', String c s' => String c (slice_to n' s')
  | _, _ => EmptyString
  end.

Fixpoint slice_from (n : nat) (s : string) : string :=
  match n, s with
  | S n', String _ s' => slice_from n' s'
  | _, _ => s
  end.

Definition is_empty (s : string) : bool :=
  match s with EmptyString => true | _ => false end.

Definition is_comment_type (token_type : string) : bool :=
  (token_type =? "COMMENT_SINGLE")%string
  || (token_type =? "COMMENT_MULTI")%string.

(** The [for token_type, pattern in TOKEN_TYPES.items()] loop: the first
    rule that matches at the start of [text], with the end of its match. *)
Fixpoint first_match (rules : list (string * regex)) (text : string)
  : option (string * nat) :=
  match rules with
  | [] => None
  | (token_type, pattern) :: rest =>
      if is_comment_type token_type then first_match rest text
      else
        match re_match pattern text with
        | Some e => Some (token_type, e)
        | None => first_match rest text
        end
  end.

(** One round of the [while self.code] loop, on the text already
    stripped of leading white space. *)
Inductive scan_result : Type :=
| Emit (tok : token) (rest : string)
| Skip (rest : string).

Definition scan (text : string) : scan_result :=
  match first_match TOKEN_TYPES text with
  | Some (token_type, e) =>
      Emit (token_type, slice_to e text) (slice_from e text)
  | None => Skip (slice_from 1 text)
  end.

Fixpoint tokenize_loop (fuel : nat) (text : string) (tokens : list token)
  : option (list token) :=
  match fuel with
  | 0 => None
  | S f =>
      if is_empty text then Some tokens
      else
        let text := lstrip text in
        if is_empty text then Some tokens
        else
          match scan text with
          | Emit tok rest => tokenize_loop f rest (tokens ++ [tok])
          | Skip rest => tokenize_loop f rest tokens
          end
  end.

Definition strip_comments (text : string) : string :=
  re_sub_empty COMMENT_SINGLE_re (re_sub_empty COMMENT_MULTI_re text).

Definition tokenize_fuel (fuel : nat) (text : string) : option (list token) :=
  tokenize_loop fuel (strip_comments text) [].

(** The fuel is one more than the number of characters left after the
    comments are removed; [tokenize_total] shows it is always enough. *)
Definition tokenize (text : string) : option (list token) :=
  tokenize_fuel (S (String.length (strip_comments text))) text.

End Lexer.

(* ================================================================== *)
(** ** The grammar walker *)

Module Parser.

(** The instance attributes of [Parser].  [cursor_trace] is a ghost
    field: it lists every value [token_index] has taken, oldest first; no
    procedure reads it. *)
Record Parser : Type := mkParser {
  tokens : list token;
  token_index : nat;
  current_token : option token;
  errors : list string;
  cursor_trace : list nat
}.

(** [__init__] *)
Definition init (toks : list token) : Parser :=
  {| tokens := toks;
     token_index := 0;
     current_token := match toks with [] => None | t :: _ => Some t end;
     errors := [];
     cursor_trace := [0] |}.

(** [str(n)] for a natural number. *)
Definition str_nat (n : nat) : string :=
  NilEmpty.string_of_uint (Nat.to_uint n).

Definition consume (self : Parser) : Parser :=
  let i := token_index self + 1 in
  {| tokens := tokens self;
     token_index := i;
     current_token :=
       if i <? List.length (tokens self) then nth_error (tokens self) i
       else None;
     errors := errors self;
     cursor_trace := cursor_trace self ++ [i] |}.

Definition error (message : string) (self : Parser) : Parser :=
  {| tokens := tokens self;
     token_index := token_index self;
     current_token := current_token self;
     errors :=
       errors self
       ++ ["Syntax Error at token index " ++ str_nat (token_index self)
           ++ ": " ++ message];
     cursor_trace := cursor_trace self |}.

(** [f'({expected_value})' if expected_value else ''] *)
Definition fmt_value (expected_value : option string) : string :=
  match expected_value with
  | None => ""
  | Some v => if Lexer.is_empty v then "" else "(" ++ v ++ ")"
  end.

Definition fmt_expected (expected_type : string)
           (expected_value : option string) : string :=
  expected_type ++ " " ++ fmt_value expected_value.

Definition fmt_token (t : token) : string :=
  "<" ++ fst t ++ ", " ++ snd t ++ ">".

(** [match]: the returned flag and the updated walker. *)
Definition match_ (expected_type : string) (expected_value : option string)
           (self : Parser) : bool * Parser :=
  match current_token self with
  | None =>
      (false,
       error ("Expected " ++ fmt_expected expected_type expected_value
              ++ ", but found end of file.") self)
  | Some (token_type, token_value) =>
      let type_match := (token_type =? expected_type)%string in
      let value_match :=
        match expected_value with
        | None => true
        | Some v => (token_value =? v)%string
        end in
      if type_match && value_match then (true, consume self)
      else
        (false,
         error ("Expected " ++ fmt_expected expected_type expected_value
                ++ ", but found " ++ fmt_token (token_type, token_value)
                ++ ".") self)
  end.

(** A call whose result the caller drops. *)
Definition expect (expected_type : string) (expected_value : option string)
           (self : Parser) : Parser :=
  snd (match_ expected_type expected_value self).

Definition mem (v : string) (l : list string) : bool :=
  existsb (String.eqb v) l.

Definition type_names : list string := ["int"; "float"; "double"; "char"].

(** [self.current_token and self.current_token[1] in l] *)
Definition value_in (l : list string) (self : Parser) : bool :=
  match current_token self with
  | Some (_, token_value) => mem token_value l
  | None => false
  end.

Definition has_errors (self : Parser) : bool :=
  match errors self with [] => false | _ => true end.

Definition type (self : Parser) : Parser :=
  match current_token self with
  | Some (token_type, token_value) =>
      if (token_type =? "KEYWORD")%string && mem token_value type_names
      then consume self
      else error "Expected a Type (int, float, double, char)." self
  | None => error "Expected a Type (int, float, double, char)." self
  end.

Definition compare_op (self : Parser) : Parser :=
  match current_token self with
  | Some (token_type, token_value) =>
      if (token_type =? "OPERATOR")%string
         && mem token_value ["=="; "!="; "<"; ">"; "<="; ">="]
      then consume self
      else error "Expected a Comparison Operator (==, !=, <, >, <=, >=)." self
  | None => error "Expected a Comparison Operator (==, !=, <, >, <=, >=)." self
  end.

Definition output_item (self : Parser) : Parser :=
  match current_token self with
  | None => error "Expected an Output Item (String, Identifier, or endl)." self
  | Some (token_type, token_value) =>
      if (token_type =? "STRING_LITERAL")%string then consume self
      else if (token_type =? "IDENTIFIER")%string then
        if (token_value =? "endl")%string then consume self
        else consume self
      else error "Expected a String Literal, Identifier, or 'endl'." self
  end.

(** The [while] loop of [identifier_list]. *)
Fixpoint identifier_list_loop (fuel : nat) (self : Parser) : option Parser :=
  match fuel with
  | 0 => None
  | S f =>
      if value_in [","] self then
        identifier_list_loop f
          (expect "IDENTIFIER" None (expect "PUNCTUATOR" (Some ",") self))
      else Some self
  end.

Definition identifier_list (fuel : nat) (self : Parser) : option Parser :=
  identifier_list_loop fuel (expect "IDENTIFIER" None self).

Definition declaration_statement (fuel : nat) (self : Parser)
  : option Parser :=
  identifier_list fuel (type self).

(** The [while] loop of [output_list]. *)
Fixpoint output_list_loop (fuel : nat) (self : Parser) : option Parser :=
  match fuel with
  | 0 => None
  | S f =>
      if value_in ["<<"] self then
        output_list_loop f (output_item (expect "OPERATOR" (Some "<<") self))
      else Some self
  end.

Definition output_list (fuel : nat) (self : Parser) : option Parser :=
  output_list_loop fuel (output_item (expect "OPERATOR" (Some "<<") self)).

Definition output_statement (fuel : nat) (self : Parser) : option Parser :=
  output_list fuel (expect "IDENTIFIER" None self).

Definition bind {A B : Type} (m : option A) (k : A -> option B) : option B :=
  match m with
  | Some a => k a
  | None => None
  end.

Arguments bind : simpl never.

Notation "'call' x <- m ;; k" := (bind m (fun x => k))
  (at level 10, x name, m at level 100, k at level 200).

Definition factor_error : string :=
  "Expected Factor (Identifier, Constant, or '(' Expression ')').".

(** [expression], [term] and [factor] with the two operator loops. *)
Fixpoint expression (fuel : nat) (self : Parser) : option Parser :=
  match fuel with
  | 0 => None
  | S f =>
      call self <- term f self;;
      expression_loop f self
  end

with expression_loop (fuel : nat) (self : Parser) : option Parser :=
  match fuel with
  | 0 => None
  | S f =>
      if value_in ["+"; "-"] self then
        call self <- term f (consume self);;
        expression_loop f self
      else Some self
  end

with term (fuel : nat) (self : Parser) : option Parser :=
  match fuel with
  | 0 => None
  | S f =>
      call self <- factor f self;;
      term_loop f self
  end

with term_loop (fuel : nat) (self : Parser) : option Parser :=
  match fuel with
  | 0 => None
  | S f =>
      if value_in ["*"; "/"] self then
        call self <- factor f (consume self);;
        term_loop f self
      else Some self
  end

with factor (fuel : nat) (self : Parser) : option Parser :=
  match fuel with
  | 0 => None
  | S f =>
      match current_token self with
      | None => Some (error factor_error self)
      | Some (token_type, token_value) =>
          if (token_type =? "IDENTIFIER")%string
             || (token_type =? "CONSTANT_INT")%string
             || (token_type =? "CONSTANT_FLOAT")%string
          then Some (consume self)
          else if (token_value =? "(")%string then
            call self <- expression f (expect "PUNCTUATOR" (Some "(") self);;
            Some (expect "PUNCTUATOR" (Some ")") self)
          else Some (error factor_error self)
      end
  end.

Definition return_statement (fuel : nat) (self : Parser) : option Parser :=
  expression fuel (expect "KEYWORD" (Some "return") self).

Definition assignment_statement (fuel : nat) (self : Parser)
  : option Parser :=
  expression fuel
    (expect "OPERATOR" (Some "=") (expect "IDENTIFIER" None self)).

Definition condition (fuel : nat) (self : Parser) : option Parser :=
  call self <- expression fuel self;;
  expression fuel (compare_op self).

Definition statement_error : string :=
  "Expected a valid Statement (Declaration, Assignment, If, Output, or Return).".

(** [statement_list], [statement], [if_statement] and [block]. *)
Fixpoint statement_list (fuel : nat) (self : Parser) : option Parser :=
  match fuel with
  | 0 => None
  | S f =>
      match current_token self with
      | None => Some self
      | Some (_, token_value) =>
          if negb (mem token_value ["}"]) then
            call self <- statement f self;;
            if has_errors self then Some self
            else statement_list f self
          else Some self
      end
  end

with statement (fuel : nat) (self : Parser) : option Parser :=
  match fuel with
  | 0 => None
  | S f =>
      match current_token self with
      | None => Some self
      | Some (token_type, token_value) =>
          if (token_type =? "KEYWORD")%string && mem token_value type_names
          then
            call self <- declaration_statement f self;;
            Some (expect "PUNCTUATOR" (Some ";") self)
          else if (token_type =? "IDENTIFIER")%string then
            if token_index self + 1 <? List.length (tokens self) then
              let next := nth (token_index self + 1) (tokens self) ("", "") in
              let next_token_value := snd next in
              let next_token_type := fst next in
              if (next_token_value =? "=")%string then
                call self <- assignment_statement f self;;
                Some (expect "PUNCTUATOR" (Some ";") self)
              else if (next_token_type =? "OPERATOR")%string
                      && (next_token_value =? "<<")%string then
                call self <- output_statement f self;;
                Some (expect "PUNCTUATOR" (Some ";") self)
              else
                Some (error "Expected AssignmentStatement or OutputStatement."
                            self)
            else
              Some (error
                "Expected AssignmentStatement or OutputStatement, but found end of file."
                self)
          else if (token_type =? "KEYWORD")%string
                  && (token_value =? "if")%string then
            if_statement f self
          else if (token_type =? "KEYWORD")%string
                  && (token_value =? "return")%string then
            call self <- return_statement f self;;
            Some (expect "PUNCTUATOR" (Some ";") self)
          else
            Some (consume (error statement_error self))
      end
  end

with if_statement (fuel : nat) (self : Parser) : option Parser :=
  match fuel with
  | 0 => None
  | S f =>
      let self := expect "KEYWORD" (Some "if") self in
      let self := expect "PUNCTUATOR" (Some "(") self in
      call self <- condition f self;;
      let self := expect "PUNCTUATOR" (Some ")") self in
      call self <- block f self;;
      if value_in ["else"] self then
        block f (expect "KEYWORD" (Some "else") self)
      else Some self
  end

with block (fuel : nat) (self : Parser) : option Parser :=
  match fuel with
  | 0 => None
  | S f =>
      call self <- statement_list f (expect "PUNCTUATOR" (Some "{") self);;
      Some (expect "PUNCTUATOR" (Some "}") self)
  end.

Definition function_definition (fuel : nat) (self : Parser) : option Parser :=
  let self := type self in
  let self := expect "IDENTIFIER" None self in
  let self := expect "PUNCTUATOR" (Some "(") self in
  let self := expect "PUNCTUATOR" (Some ")") self in
  block fuel self.

Definition program (fuel : nat) (self : Parser) : option Parser :=
  function_definition fuel self.

(** The check [parse] makes once [program] has returned. *)
Definition after_program (self : Parser) : Parser :=
  match current_token self with
  | Some t =>
      error ("Unexpected token " ++ fmt_token t ++ " after program end.") self
  | None => self
  end.

(** The [try] block of [parse] followed by the verdict, on a walk that no
    exception cuts short: [program] returns, the left-over check is made,
    and the verdict is read off the log.  [None]: the walk has not returned
    within the fuel.  [parse] itself, with the [except] clause, is defined
    further down, once calls that can be cut short are in place. *)
Definition unbounded_parse (fuel : nat) (toks : list token)
  : option (bool * Parser) :=
  call self <- program fuel (init toks);;
  let self := after_program self in
  Some (negb (has_errors self), self).

End Parser.

Import Parser.
Import Lexer.

(* ================================================================== *)
(** ** Specification vocabulary *)

(** The current token exists and matches the category, and the literal
    when one is given. *)
Definition token_matches (expected_type : string)
           (expected_value : option string) (self : Parser) : Prop :=
  exists v, current_token self = Some (expected_type, v)
            /\ (expected_value = None \/ expected_value = Some v).

(** What holds of the walker between any two steps: the current token is
    the one under the cursor, the cursor is within the sequence, and the
    cursor values recorded so far never went down nor past the cursor. *)
Definition Inv (self : Parser) : Prop :=
  current_token self = nth_error (tokens self) (token_index self)
  /\ token_index self <= List.length (tokens self)
  /\ StronglySorted le (cursor_trace self)
  /\ Forall (fun i => i <= token_index self) (cursor_trace self).

(** [b] is reached from [a] by walking: same tokens, cursor not lower, both
    logs extended at the end only, and [b] is consistent again. *)
Record step_ok (a b : Parser) : Prop := mk_step_ok {
  so_tokens : tokens b = tokens a;
  so_index : token_index a <= token_index b;
  so_errors : exists l, errors b = (errors a ++ l)%list;
  so_trace : exists l, cursor_trace b = (cursor_trace a ++ l)%list;
  so_inv : Inv b
}.

(** Tokens as the scanner classifies them: a comma or an opening
    parenthesis is a punctuator and [<<] is an operator. *)
Definition lexeme_ok (t : token) : Prop :=
  (snd t = "," -> fst t = "PUNCTUATOR")
  /\ (snd t = "(" -> fst t = "PUNCTUATOR")
  /\ (snd t = "<<" -> fst t = "OPERATOR").

Definition remaining (self : Parser) : nat :=
  List.length (tokens self) - token_index self.

Definition mono (p : nat -> Parser -> option Parser) (f : nat) : Prop :=
  forall f' a b, f <= f' -> p f a = Some b -> p f' a = Some b.

Definition sound (p : nat -> Parser -> option Parser) (f : nat) : Prop :=
  forall a b, Inv a -> p f a = Some b -> step_ok a b.

(** Fuel that suffices for a procedure of rank [k] with [r] tokens left. *)
Definition need (r k : nat) : nat := 10 * r + k.

(** [p] returns from every consistent walker with at most [r] tokens left
    over well-classified tokens, given [n] units of fuel. *)
Definition halts (p : nat -> Parser -> option Parser) (n r : nat) : Prop :=
  forall a, Inv a -> Forall lexeme_ok (tokens a) -> remaining a <= r ->
            exists b, p n a = Some b.

(** [if_statement] entered, as [statement] does, on the keyword [if]. *)
Definition halts_if (n r : nat) : Prop :=
  forall a, Inv a -> Forall lexeme_ok (tokens a) -> remaining a <= r ->
            current_token a = Some ("KEYWORD", "if") ->
            exists b, if_statement n a = Some b.

(** The least number of characters a match of [r] consumes. *)
Fixpoint min_len (r : regex) : nat :=
  match r with
  | Eps | Bnd | Star _ | LazyStar _ => 0
  | Chr _ | Cls _ => 1
  | Seq a b => min_len a + min_len b
  | Alt a b => Nat.min (min_len a) (min_len b)
  end.

(** Whether [r] can match without consuming anything. *)
Fixpoint nullable (r : regex) : bool :=
  match r with
  | Eps | Bnd | Star _ | LazyStar _ => true
  | Chr _ | Cls _ => false
  | Seq a b => nullable a && nullable b
  | Alt a b => nullable a || nullable b
  end.

(** Whether a non-empty match of [r] can begin with [c]. *)
Fixpoint first (r : regex) (c : ascii) : bool :=
  match r with
  | Eps | Bnd => false
  | Chr d => Ascii.eqb d c
  | Cls p => p c
  | Seq a b => first a c || (nullable a && first b c)
  | Alt a b => first a c || first b c
  | Star a | LazyStar a => first a c
  end.

(** A rule of the table is sound when its matches are non-empty and the
    token it would emit is classified as [lexeme_ok] asks. *)
Definition rule_ok (rule : string * regex) : Prop :=
  forall s e, re_match (snd rule) s = Some e ->
    1 <= e /\ lexeme_ok (fst rule, slice_to e s).

(** The three lexemes [lexeme_ok] speaks about begin with one of these. *)
Definition special (c : ascii) : bool := one_of ",(<" c.

Definition nonempty_lexeme (t : token) : Prop := snd t <> "".

Definition return_zero_tokens : list token :=
  [("KEYWORD", "int"); ("IDENTIFIER", "main"); ("PUNCTUATOR", "(");
   ("PUNCTUATOR", ")"); ("PUNCTUATOR", "{"); ("KEYWORD", "return");
   ("CONSTANT_INT", "0"); ("PUNCTUATOR", ";"); ("PUNCTUATOR", "}")].

(** The current token is neither an identifier nor a keyword that opens a
    statement. *)
Definition unrecognized (t : token) : Prop :=
  fst t <> "IDENTIFIER"
  /\ ~ (fst t = "KEYWORD"
        /\ In (snd t) ["int"; "float"; "double"; "char"; "if"; "return"]).

(** A step that logged exactly one error without moving the cursor, or
    moved the cursor by one without logging. *)
Definition logs_or_moves (self after : Parser) : Prop :=
  (token_index after = token_index self
   /\ exists line, errors after = (errors self ++ [line])%list)
  \/ (token_index after = token_index self + 1
      /\ errors after = errors self).

(** The current token cannot begin a factor. *)
Definition not_a_factor (t : token) : Prop :=
  fst t <> "IDENTIFIER" /\ fst t <> "CONSTANT_INT"
  /\ fst t <> "CONSTANT_FLOAT" /\ snd t <> "(".

Definition stray_identifier : Parser :=
  init [("IDENTIFIER", "x"); ("PUNCTUATOR", ";")].

Definition missing_semicolon_text : string := "int main ( ) { x = 5 }".

Definition missing_semicolon_tokens : list token :=
  [("KEYWORD", "int"); ("IDENTIFIER", "main"); ("PUNCTUATOR", "(");
   ("PUNCTUATOR", ")"); ("PUNCTUATOR", "{"); ("IDENTIFIER", "x");
   ("OPERATOR", "="); ("CONSTANT_INT", "5"); ("PUNCTUATOR", "}")].

(** The operations the cursor is moved by, and their effect in sequence. *)
Inductive cursor_op : Type :=
| Advance
| Expect (expected_type : string) (expected_value : option string).

Definition apply_op (self : Parser) (op : cursor_op) : Parser :=
  match op with
  | Advance => consume self
  | Expect ty ev => expect ty ev self
  end.

Definition apply_ops (ops : list cursor_op) (self : Parser) : Parser :=
  fold_left apply_op ops self.

(** A step of the matcher hands its continuation a position at least [n]
    further on. *)
Definition advances (n : nat)
           (step : nat -> (nat -> option nat) -> option nat) : Prop :=
  forall i k e, step i k = Some e -> exists j, i + n <= j /\ k j = Some e.

(** Two continuations that agree on every position within the subject. *)
Definition agree (t : string) (k1 k2 : nat -> option nat) : Prop :=
  forall j, j <= String.length t -> k1 j = k2 j.

(** A step that looks at its continuation only within the subject. *)
Definition local_step (t : string)
           (step : nat -> (nat -> option nat) -> option nat) : Prop :=
  forall i k1 k2, i <= String.length t -> agree t k1 k2 ->
                  step i k1 = step i k2.

(** A step on the subject [t] either passes its own position on or starts
    on a character accepted by [ok]. *)
Definition starts (t : string) (nul : bool) (ok : ascii -> bool)
           (step : nat -> (nat -> option nat) -> option nat) : Prop :=
  forall i k e, step i k = Some e ->
    (nul = true /\ k i = Some e)
    \/ (exists c, get i t = Some c /\ ok c = true).

(* ================================================================== *)
(** ** The grammar the walker recognises *)

(** The tokens still to be read. *)
Definition rest (self : Parser) : list token :=
  skipn (token_index self) (tokens self).

(** The first token of [r], if any, does not carry one of the lexemes [l]. *)
Definition head_not_in (l : list string) (r : list token) : Prop :=
  match r with
  | [] => True
  | t :: _ => ~ In (snd t) l
  end.

(** Nothing follows, or a token with the lexeme of a closing brace. *)
Definition at_block_end (r : list token) : Prop :=
  match r with
  | [] => True
  | t :: _ => snd t = "}"
  end.

(** An identifier as the scanner produces it is neither a closing brace
    nor the word [else]. *)
Definition identifier_ok (t : token) : Prop :=
  fst t = "IDENTIFIER" -> snd t <> "}" /\ snd t <> "else".

Module Grammar.

(** Terminals, as the successful tests of the procedures read them. *)
Definition is_type_token (t : token) : Prop :=
  fst t = "KEYWORD" /\ In (snd t) type_names.

Definition is_identifier (t : token) : Prop := fst t = "IDENTIFIER".

Definition is_atom (t : token) : Prop :=
  fst t = "IDENTIFIER" \/ fst t = "CONSTANT_INT" \/ fst t = "CONSTANT_FLOAT".

Definition is_add_op (t : token) : Prop := In (snd t) ["+"; "-"].

Definition is_mul_op (t : token) : Prop := In (snd t) ["*"; "/"].

Definition is_compare_op (t : token) : Prop :=
  fst t = "OPERATOR" /\ In (snd t) ["=="; "!="; "<"; ">"; "<="; ">="].

Definition is_output_item (t : token) : Prop :=
  fst t = "STRING_LITERAL" \/ fst t = "IDENTIFIER".

Definition lparen : token := ("PUNCTUATOR", "(").
Definition rparen : token := ("PUNCTUATOR", ")").
Definition lbrace : token := ("PUNCTUATOR", "{").
Definition rbrace : token := ("PUNCTUATOR", "}").
Definition semicolon : token := ("PUNCTUATOR", ";").
Definition comma : token := ("PUNCTUATOR", ",").
Definition assign : token := ("OPERATOR", "=").
Definition shift : token := ("OPERATOR", "<<").
Definition kw_if : token := ("KEYWORD", "if").
Definition kw_else : token := ("KEYWORD", "else").
Definition kw_return : token := ("KEYWORD", "return").

(** Expression -> Term { ("+" | "-") Term }
    Term       -> Factor { ("*" | "/") Factor }
    Factor     -> IDENTIFIER | CONSTANT_INT | CONSTANT_FLOAT
                | "(" Expression ")" *)
Inductive Factor : list token -> Prop :=
| Factor_atom t : is_atom t -> Factor [t]
| Factor_paren ts : Expression ts -> Factor (lparen :: ts ++ [rparen])

with TermTail : list token -> Prop :=
| TermTail_nil : TermTail []
| TermTail_cons op ts more :
    is_mul_op op -> Factor ts -> TermTail more -> TermTail (op :: ts ++ more)

with Term : list token -> Prop :=
| Term_intro ts more : Factor ts -> TermTail more -> Term (ts ++ more)

with ExpressionTail : list token -> Prop :=
| ExpressionTail_nil : ExpressionTail []
| ExpressionTail_cons op ts more :
    is_add_op op -> Term ts -> ExpressionTail more ->
    ExpressionTail (op :: ts ++ more)

with Expression : list token -> Prop :=
| Expression_intro ts more :
    Term ts -> ExpressionTail more -> Expression (ts ++ more).

Scheme Factor_ind' := Minimality for Factor Sort Prop
  with TermTail_ind' := Minimality for TermTail Sort Prop
  with Term_ind' := Minimality for Term Sort Prop
  with ExpressionTail_ind' := Minimality for ExpressionTail Sort Prop
  with Expression_ind' := Minimality for Expression Sort Prop.

Combined Scheme expression_mutind from
  Factor_ind', TermTail_ind', Term_ind', ExpressionTail_ind', Expression_ind'.

(** IdentifierList -> IDENTIFIER { "," IDENTIFIER } *)
Inductive IdentifierTail : list token -> Prop :=
| IdentifierTail_nil : IdentifierTail []
| IdentifierTail_cons t more :
    is_identifier t -> IdentifierTail more ->
    IdentifierTail (comma :: t :: more).

Inductive IdentifierList : list token -> Prop :=
| IdentifierList_intro t more :
    is_identifier t -> IdentifierTail more -> IdentifierList (t :: more).

Inductive DeclarationStatement : list token -> Prop :=
| DeclarationStatement_intro t ts :
    is_type_token t -> IdentifierList ts -> DeclarationStatement (t :: ts).

Inductive AssignmentStatement : list token -> Prop :=
| AssignmentStatement_intro t ts :
    is_identifier t -> Expression ts ->
    AssignmentStatement (t :: assign :: ts).

(** OutputList -> "<<" OutputItem { "<<" OutputItem }
    OutputItem -> STRING_LITERAL | IDENTIFIER | "endl" *)
Inductive OutputTail : list token -> Prop :=
| OutputTail_nil : OutputTail []
| OutputTail_cons t more :
    is_output_item t -> OutputTail more -> OutputTail (shift :: t :: more).

Inductive OutputList : list token -> Prop :=
| OutputList_intro t more :
    is_output_item t -> OutputTail more -> OutputList (shift :: t :: more).

Inductive OutputStatement : list token -> Prop :=
| OutputStatement_intro t ts :
    is_identifier t -> OutputList ts -> OutputStatement (t :: ts).

(** ReturnStatement -> "return" Expression *)
Inductive ReturnStatement : list token -> Prop :=
| ReturnStatement_intro ts :
    Expression ts -> ReturnStatement (kw_return :: ts).

Inductive Condition : list token -> Prop :=
| Condition_intro l op r :
    Expression l -> is_compare_op op -> Expression r ->
    Condition (l ++ op :: r).

Inductive Statement : list token -> Prop :=
| Statement_declaration ts :
    DeclarationStatement ts -> Statement (ts ++ [semicolon])
| Statement_assignment ts :
    AssignmentStatement ts -> Statement (ts ++ [semicolon])
| Statement_output ts :
    OutputStatement ts -> Statement (ts ++ [semicolon])
| Statement_if ts : IfStatement ts -> Statement ts
| Statement_return ts :
    ReturnStatement ts -> Statement (ts ++ [semicolon])

with IfStatement : list token -> Prop :=
| IfStatement_then c b :
    Condition c -> Block b ->
    IfStatement (kw_if :: lparen :: c ++ rparen :: b)
| IfStatement_else c b1 b2 :
    Condition c -> Block b1 -> Block b2 ->
    IfStatement (kw_if :: lparen :: c ++ rparen :: b1 ++ kw_else :: b2)

with Block : list token -> Prop :=
| Block_intro ts : StatementList ts -> Block (lbrace :: ts ++ [rbrace])

with StatementList : list token -> Prop :=
| StatementList_nil : StatementList []
| StatementList_cons s more :
    Statement s -> StatementList more -> StatementList (s ++ more).

Scheme Statement_ind' := Minimality for Statement Sort Prop
  with IfStatement_ind' := Minimality for IfStatement Sort Prop
  with Block_ind' := Minimality for Block Sort Prop
  with StatementList_ind' := Minimality for StatementList Sort Prop.

Combined Scheme statement_mutind from
  Statement_ind', IfStatement_ind', Block_ind', StatementList_ind'.

(** The whole program: a type, a name, an empty parameter list and a
    block. *)
Inductive Program : list token -> Prop :=
| Program_intro t name b :
    is_type_token t -> is_identifier name -> Block b ->
    Program (t :: name :: lparen :: rparen :: b).

End Grammar.

(** Whenever [p] returns without having logged anything, the tokens it
    read make up a phrase of [N]. *)
Definition derives (N : list token -> Prop)
           (p : nat -> Parser -> option Parser) (f : nat) : Prop :=
  forall a b, Inv a -> p f a = Some b -> errors b = errors a ->
              exists ts, N ts /\ rest a = (ts ++ rest b)%list.

(** [statement] is entered on a current token only. *)
Definition derives_statement (f : nat) : Prop :=
  forall a b t, Inv a -> current_token a = Some t ->
                statement f a = Some b -> errors b = errors a ->
                exists ts, Grammar.Statement ts /\ rest a = (ts ++ rest b)%list.

(** Every phrase [ts] of [N] under the cursor, followed by tokens [r] that
    [follow] admits, is read by [p] in full and without an error. *)
Definition reads (N : list token -> Prop) (follow : list token -> Prop)
           (p : nat -> Parser -> option Parser) : Prop :=
  forall ts, N ts ->
  forall a r, Inv a -> rest a = (ts ++ r)%list -> follow r ->
              exists f b, p f a = Some b /\ errors b = errors a /\ rest b = r.

(** The same for the statement level, where the walker must not have logged
    anything yet and identifiers are as the scanner produces them. *)
Definition reads_statements (N : list token -> Prop)
           (follow : list token -> Prop)
           (p : nat -> Parser -> option Parser) : Prop :=
  forall ts, N ts ->
  forall a r, Inv a -> Forall identifier_ok (tokens a) -> errors a = [] ->
              rest a = (ts ++ r)%list -> follow r ->
              exists f b, p f a = Some b /\ errors b = errors a /\ rest b = r.

Definition any_follow (_ : list token) : Prop := True.

Definition operator_lexemes : list string := ["+"; "-"; "*"; "/"].

(** The tokens a statement can begin with. *)
Definition statement_start (t : token) : Prop :=
  Grammar.is_type_token t \/ Grammar.is_identifier t
  \/ t = Grammar.kw_if \/ t = Grammar.kw_return.

(* ================================================================== *)
(** ** Vocabulary for the scanner's output *)

(** The reserved words of the keyword rule, in its order. *)
Definition keywords : list string :=
  ["int"; "float"; "double"; "char"; "return"; "if"; "else"; "for"; "while";
   "namespace"; "template"; "include"; "define"].

(** The two-character forms of the operator rule, in its order. *)
Definition long_operators : list string :=
  ["=="; "!="; "<="; ">="; "++"; "--"; "+="; "-="; "*="; "/="; "&&"; "||";
   "<<"; ">>"].

(** The categories a token can carry. *)
Definition categories : list string :=
  ["KEYWORD"; "IDENTIFIER"; "PREPROCESSOR"; "CONSTANT_FLOAT"; "CONSTANT_INT";
   "OPERATOR"; "PUNCTUATOR"; "STRING_LITERAL"].

(** Whether the literal [w] stands in [t] at position [i]. *)
Fixpoint has_at (t : string) (i : nat) (w : string) : bool :=
  match w with
  | EmptyString => true
  | String c w' =>
      match get i t with
      | Some d => Ascii.eqb c d && has_at t (S i) w'
      | None => false
      end
  end.

(** The first alternative of [rs] whose match lets the continuation
    [k] succeed. *)
Fixpoint first_alt (t : string) (rs : list Re.regex) (i : nat)
         (k : nat -> option nat) : option nat :=
  match rs with
  | [] => None
  | r :: rs' =>
      match Re.run t r i k with
      | Some e => Some e
      | None => first_alt t rs' i k
      end
  end.

(** [s] is [t] with some characters left out. *)
Inductive subsequence : string -> string -> Prop :=
| subsequence_nil : subsequence EmptyString EmptyString
| subsequence_skip c s t : subsequence s t -> subsequence s (String c t)
| subsequence_take c s t :
    subsequence s t -> subsequence (String c s) (String c t).

(** The lexemes of a token sequence, one after the other. *)
Definition lexemes (toks : list token) : string :=
  fold_right (fun t s => (snd t ++ s)%string) EmptyString toks.

(** The one-character operators and the punctuators that reach the
    output. *)
Definition short_operators : list string :=
  ["+"; "-"; "*"; "/"; "="; "<"; ">"; "!"; "&"; "|"; "%"; "^"; "~"].

Definition punctuators : list string := ["{"; "}"; "("; ")"; ";"; ","].

Definition starts_identifier (c : ascii) : bool :=
  is_lower c || is_upper c || (code c =? 95).

(** What a token of the scanner looks like, category by category. *)
Definition token_shape (t : token) : Prop :=
  In (fst t) categories
  /\ (fst t = "KEYWORD" -> In (snd t) keywords)
  /\ (fst t = "IDENTIFIER" ->
      ~ In (snd t) keywords
      /\ exists c s, snd t = String c s /\ starts_identifier c = true)
  /\ (fst t = "OPERATOR" -> In (snd t) (long_operators ++ short_operators))
  /\ (fst t = "PUNCTUATOR" -> In (snd t) punctuators).

(* ================================================================== *)
(** ** What a walk is made of *)

(** [b] comes from [a] by steps of two kinds only: moving past a current
    token that exists, and appending one line to the error log. *)
Inductive walk : Parser -> Parser -> Prop :=
| walk_done a : walk a a
| walk_consume a b t :
    current_token a = Some t -> walk (consume a) b -> walk a b
| walk_error a b msg : walk (error msg a) b -> walk a b.

Definition walks (p : nat -> Parser -> option Parser) (f : nat) : Prop :=
  forall a b, p f a = Some b -> walk a b.

(** A line of the error log written at cursor position [i]. *)
Definition error_line (i : nat) (line : string) : Prop :=
  exists msg,
    line = ("Syntax Error at token index " ++ str_nat i ++ ": " ++ msg)%string.

(** The error log consists of lines written at the positions [idxs], which
    never go down and never pass the cursor. *)
Definition log_in_order (self : Parser) (idxs : list nat) : Prop :=
  Forall2 error_line idxs (errors self)
  /\ StronglySorted le idxs
  /\ Forall (fun i => i <= token_index self) idxs.

(** The grammar procedures of the walker. *)
Definition procedures : list (nat -> Parser -> option Parser) :=
  [program; function_definition; block; statement_list; statement;
   declaration_statement; identifier_list; assignment_statement;
   if_statement; condition; output_statement; output_list; return_statement;
   expression; term; factor].

Definition type_error_line : string :=
  "Syntax Error at token index 0: Expected a Type (int, float, double, char).".

(** The line [parse] adds for a token left over at position [i]. *)
Definition leftover_line (i : nat) (t : token) : string :=
  ("Syntax Error at token index " ++ str_nat i ++ ": Unexpected token "
   ++ fmt_token t ++ " after program end.")%string.

(* ================================================================== *)
(** ** Vocabulary for comments *)

Definition newline : ascii := ascii_of_nat 10.

(** [w in s]: the word [w] occurs somewhere in [s]. *)
Fixpoint occurs (w s : string) : bool :=
  has_at s 0 w
  || match s with
     | EmptyString => false
     | String _ s' => occurs w s'
     end.

(** [s] is empty or begins a new line. *)
Definition at_line_end (s : string) : Prop :=
  match s with
  | EmptyString => True
  | String c _ => c = newline
  end.

(* ================================================================== *)
(** ** Vocabulary for constants and literals *)

Fixpoint all_in (p : ascii -> bool) (s : string) : bool :=
  match s with
  | EmptyString => true
  | String c s' => p c && all_in p s'
  end.

(** A non-empty string of decimal digits. *)
Definition is_number (s : string) : Prop :=
  s <> "" /\ all_in is_digit s = true.

(** What a token of the four literal categories looks like. *)
Definition literal_shape (t : token) : Prop :=
  (fst t = "CONSTANT_INT" -> is_number (snd t))
  /\ (fst t = "CONSTANT_FLOAT" ->
      exists d1 d2, snd t = (d1 ++ "." ++ d2)%string
                    /\ is_number d1 /\ is_number d2)
  /\ (fst t = "STRING_LITERAL" ->
      exists body, snd t = String dquote (body ++ String dquote ""))
  /\ (fst t = "PREPROCESSOR" ->
      exists sp w, snd t = String "#" (sp ++ w)
                   /\ all_in is_space sp = true
                   /\ (w = "include" \/ w = "define")).

(** The characters of [t] at the positions [i], ..., [j - 1] all satisfy
    [p]. *)
Definition stretch (t : string) (p : ascii -> bool) (i j : nat) : Prop :=
  forall x, i <= x < j -> exists c, get x t = Some c /\ p c = true.

(** [s] is empty or begins with a character outside [p]. *)
Definition head_outside (p : ascii -> bool) (s : string) : Prop :=
  match s with
  | EmptyString => True
  | String c _ => p c = false
  end.

(** The characters with which no rule of the table can begin a match:
    neither a word character, nor an operator or punctuator character, nor
    a hash sign or a double quote. *)
Definition unknown_character (c : ascii) : bool :=
  negb (is_word c)
  && negb (one_of "+-*/=<>!&|%^~{}();,#" c)
  && negb (Ascii.eqb c dquote).


(* ================================================================== *)
(** ** Calls under the recursion limit *)

(** How a call ends: it returns, or a [RecursionError] travels up through
    it.  Either way [self] is the object as the call left it. *)
Inductive outcome : Type :=
| Returned (self : Parser)
| Raised (self : Parser).

Definition state (o : outcome) : Parser :=
  match o with
  | Returned self => self
  | Raised self => self
  end.

Definition raised (o : outcome) : bool :=
  match o with
  | Returned _ => false
  | Raised _ => true
  end.

(** Statements in sequence: what follows a call runs when the call
    returns; an exception skips it. *)
Definition then_ (m : option outcome) (k : Parser -> option outcome)
  : option outcome :=
  match m with
  | Some (Returned self) => k self
  | Some (Raised self) => Some (Raised self)
  | None => None
  end.

Arguments then_ : simpl never.

Notation "'within' x <- m ;; k" := (then_ m (fun x => k))
  (at level 10, x name, m at level 100, k at level 200).

(** A call of a method that loops over nothing and calls no deeper than
    [frames] levels: [consume] and [error] take one frame, and [match],
    [type], [compare_op] and [output_item] a second one for the [consume]
    or [error] they call.  With [depth] frames left, the call is cut before
    anything is written when that is not enough. *)
Definition leaf (frames : nat) (f : Parser -> Parser) (depth : nat)
           (self : Parser) : option outcome :=
  Some (if frames <=? depth then Returned (f self) else Raised self).

(** Entering a procedure takes one frame; its body runs with the rest. *)
Definition entered (depth : nat) (self : Parser)
           (body : nat -> option outcome) : option outcome :=
  match depth with
  | 0 => Some (Raised self)
  | S d => body d
  end.

(** The grammar procedures once more, now with the number of frames the
    interpreter still grants: [depth] counts the frames of the script's own
    methods that may still be entered.  A procedure called with none left
    raises [RecursionError] at once; nothing catches it below [parse], so
    it travels up through every caller.  [fuel] is as before. *)
Module Bounded.

(** The [while] loop of [identifier_list], in the frame of its procedure. *)
Fixpoint identifier_list_loop (fuel depth : nat) (self : Parser)
  : option outcome :=
  match fuel with
  | 0 => None
  | S f =>
      if value_in [","] self then
        within self <- leaf 2 (expect "PUNCTUATOR" (Some ",")) depth self;;
        within self <- leaf 2 (expect "IDENTIFIER" None) depth self;;
        identifier_list_loop f depth self
      else Some (Returned self)
  end.

Definition identifier_list (fuel depth : nat) (self : Parser)
  : option outcome :=
  entered depth self (fun depth =>
    within self <- leaf 2 (expect "IDENTIFIER" None) depth self;;
    identifier_list_loop fuel depth self).

Definition declaration_statement (fuel depth : nat) (self : Parser)
  : option outcome :=
  entered depth self (fun depth =>
    within self <- leaf 2 type depth self;;
    identifier_list fuel depth self).

(** The [while] loop of [output_list]. *)
Fixpoint output_list_loop (fuel depth : nat) (self : Parser)
  : option outcome :=
  match fuel with
  | 0 => None
  | S f =>
      if value_in ["<<"] self then
        within self <- leaf 2 (expect "OPERATOR" (Some "<<")) depth self;;
        within self <- leaf 2 output_item depth self;;
        output_list_loop f depth self
      else Some (Returned self)
  end.

Definition output_list (fuel depth : nat) (self : Parser) : option outcome :=
  entered depth self (fun depth =>
    within self <- leaf 2 (expect "OPERATOR" (Some "<<")) depth self;;
    within self <- leaf 2 output_item depth self;;
    output_list_loop fuel depth self).

Definition output_statement (fuel depth : nat) (self : Parser)
  : option outcome :=
  entered depth self (fun depth =>
    within self <- leaf 2 (expect "IDENTIFIER" None) depth self;;
    output_list fuel depth self).

Fixpoint expression (fuel depth : nat) (self : Parser) : option outcome :=
  match fuel with
  | 0 => None
  | S f =>
      entered depth self (fun depth =>
        within self <- term f depth self;;
        expression_loop f depth self)
  end

with expression_loop (fuel depth : nat) (self : Parser) : option outcome :=
  match fuel with
  | 0 => None
  | S f =>
      if value_in ["+"; "-"] self then
        within self <- leaf 1 consume depth self;;
        within self <- term f depth self;;
        expression_loop f depth self
      else Some (Returned self)
  end

with term (fuel depth : nat) (self : Parser) : option outcome :=
  match fuel with
  | 0 => None
  | S f =>
      entered depth self (fun depth =>
        within self <- factor f depth self;;
        term_loop f depth self)
  end

with term_loop (fuel depth : nat) (self : Parser) : option outcome :=
  match fuel with
  | 0 => None
  | S f =>
      if value_in ["*"; "/"] self then
        within self <- leaf 1 consume depth self;;
        within self <- factor f depth self;;
        term_loop f depth self
      else Some (Returned self)
  end

with factor (fuel depth : nat) (self : Parser) : option outcome :=
  match fuel with
  | 0 => None
  | S f =>
      entered depth self (fun depth =>
        match current_token self with
        | None => leaf 1 (error factor_error) depth self
        | Some (token_type, token_value) =>
            if (token_type =? "IDENTIFIER")%string
               || (token_type =? "CONSTANT_INT")%string
               || (token_type =? "CONSTANT_FLOAT")%string
            then leaf 1 consume depth self
            else if (token_value =? "(")%string then
              within self <- leaf 2 (expect "PUNCTUATOR" (Some "(")) depth self;;
              within self <- expression f depth self;;
              leaf 2 (expect "PUNCTUATOR" (Some ")")) depth self
            else leaf 1 (error factor_error) depth self
        end)
  end.

Definition return_statement (fuel depth : nat) (self : Parser)
  : option outcome :=
  entered depth self (fun depth =>
    within self <- leaf 2 (expect "KEYWORD" (Some "return")) depth self;;
    expression fuel depth self).

Definition assignment_statement (fuel depth : nat) (self : Parser)
  : option outcome :=
  entered depth self (fun depth =>
    within self <- leaf 2 (expect "IDENTIFIER" None) depth self;;
    within self <- leaf 2 (expect "OPERATOR" (Some "=")) depth self;;
    expression fuel depth self).

Definition condition (fuel depth : nat) (self : Parser) : option outcome :=
  entered depth self (fun depth =>
    within self <- expression fuel depth self;;
    within self <- leaf 2 compare_op depth self;;
    expression fuel depth self).

Fixpoint statement_list (fuel depth : nat) (self : Parser) : option outcome :=
  match fuel with
  | 0 => None
  | S f =>
      entered depth self (fun inner =>
        match current_token self with
        | None => Some (Returned self)
        | Some (_, token_value) =>
            if negb (mem token_value ["}"]) then
              within self <- statement f inner self;;
              if has_errors self then Some (Returned self)
              else statement_list f depth self
            else Some (Returned self)
        end)
  end

with statement (fuel depth : nat) (self : Parser) : option outcome :=
  match fuel with
  | 0 => None
  | S f =>
      entered depth self (fun depth =>
        match current_token self with
        | None => Some (Returned self)
        | Some (token_type, token_value) =>
            if (token_type =? "KEYWORD")%string && mem token_value type_names
            then
              within self <- declaration_statement f depth self;;
              leaf 2 (expect "PUNCTUATOR" (Some ";")) depth self
            else if (token_type =? "IDENTIFIER")%string then
              if token_index self + 1 <? List.length (tokens self) then
                let next :=
                  nth (token_index self + 1) (tokens self) ("", "") in
                let next_token_value := snd next in
                let next_token_type := fst next in
                if (next_token_value =? "=")%string then
                  within self <- assignment_statement f depth self;;
                  leaf 2 (expect "PUNCTUATOR" (Some ";")) depth self
                else if (next_token_type =? "OPERATOR")%string
                        && (next_token_value =? "<<")%string then
                  within self <- output_statement f depth self;;
                  leaf 2 (expect "PUNCTUATOR" (Some ";")) depth self
                else
                  leaf 1
                    (error "Expected AssignmentStatement or OutputStatement.")
                    depth self
              else
                leaf 1
                  (error
                     "Expected AssignmentStatement or OutputStatement, but found end of file.")
                  depth self
            else if (token_type =? "KEYWORD")%string
                    && (token_value =? "if")%string then
              if_statement f depth self
            else if (token_type =? "KEYWORD")%string
                    && (token_value =? "return")%string then
              within self <- return_statement f depth self;;
              leaf 2 (expect "PUNCTUATOR" (Some ";")) depth self
            else
              within self <- leaf 1 (error statement_error) depth self;;
              leaf 1 consume depth self
        end)
  end

with if_statement (fuel depth : nat) (self : Parser) : option outcome :=
  match fuel with
  | 0 => None
  | S f =>
      entered depth self (fun depth =>
        within self <- leaf 2 (expect "KEYWORD" (Some "if")) depth self;;
        within self <- leaf 2 (expect "PUNCTUATOR" (Some "(")) depth self;;
        within self <- condition f depth self;;
        within self <- leaf 2 (expect "PUNCTUATOR" (Some ")")) depth self;;
        within self <- block f depth self;;
        if value_in ["else"] self then
          within self <- leaf 2 (expect "KEYWORD" (Some "else")) depth self;;
          block f depth self
        else Some (Returned self))
  end

with block (fuel depth : nat) (self : Parser) : option outcome :=
  match fuel with
  | 0 => None
  | S f =>
      entered depth self (fun depth =>
        within self <- leaf 2 (expect "PUNCTUATOR" (Some "{")) depth self;;
        within self <- statement_list f depth self;;
        leaf 2 (expect "PUNCTUATOR" (Some "}")) depth self)
  end.

Definition function_definition (fuel depth : nat) (self : Parser)
  : option outcome :=
  entered depth self (fun depth =>
    within self <- leaf 2 type depth self;;
    within self <- leaf 2 (expect "IDENTIFIER" None) depth self;;
    within self <- leaf 2 (expect "PUNCTUATOR" (Some "(")) depth self;;
    within self <- leaf 2 (expect "PUNCTUATOR" (Some ")")) depth self;;
    block fuel depth self).

Definition program (fuel depth : nat) (self : Parser) : option outcome :=
  entered depth self (fun depth => function_definition fuel depth self).

End Bounded.

(** The [try] block of [parse], in the frame of [parse]: [program], then
    the check for a token left over. *)
Definition try_block (fuel depth : nat) (self : Parser) : option outcome :=
  within self <- Bounded.program fuel depth self;;
  match current_token self with
  | Some t =>
      leaf 1
        (error ("Unexpected token " ++ fmt_token t ++ " after program end."))
        depth self
  | None => Some (Returned self)
  end.

(** [parse] on a walker freshly built from [toks], with [depth] frames
    left for the calls it makes.  The [except] clause lets an exception
    pass, so the verdict is read off the log as it stands either way.  The
    result is the verdict and how the [try] block ended, with the walker as
    it was left; [None]: the walk has not ended within the fuel. *)
Definition parse (fuel depth : nat) (toks : list token)
  : option (bool * outcome) :=
  match try_block fuel depth (init toks) with
  | Some o => Some (negb (has_errors (state o)), o)
  | None => None
  end.

(* ================================================================== *)
(** ** The command-line driver *)

Module Driver.

(** [s * n] *)
Fixpoint times (s : string) (n : nat) : string :=
  match n with
  | 0 => EmptyString
  | S n' => (s ++ times s n')%string
  end.

Definition usage_line : string :=
  "Usage: python compiler_front_end.py source_file.c".
Definition scanning_line : string := "--- Lexical Analysis (Scanning) ---".
Definition no_tokens_line : string :=
  "Error: No tokens generated from the source file.".
Definition separator : string :=
  String newline (times "=" 30 ++ String newline "").
Definition parsing_line : string := "--- Syntactic Analysis (Parsing) ---".
Definition success_line : string :=
  "Parsing successful! No syntax errors found.".
Definition failure_line : string := "Parsing failed! Syntax errors found:".

(** The script from the point where the source text has been read: the
    arguments of the [print] calls in order, and the exit status (1 where
    the script calls [sys.exit(1)], 0 where it runs to its end).  [depth]
    is the number of frames left to [parse] for its calls: the
    interpreter's recursion limit less the frames of the script and of
    [parse], 998 unless the limit was changed. *)
Definition report (fuel depth : nat) (code : string)
  : option (list string * nat) :=
  call tokens <- tokenize code;;
  match tokens with
  | [] => Some ([scanning_line; no_tokens_line], 1)
  | _ =>
      call r <- parse fuel depth tokens;;
      let (is_valid, o) := r in
      let parser := state o in
      let shown :=
        (scanning_line :: map fmt_token tokens
         ++ [separator; parsing_line])%list in
      if is_valid
      then Some ((shown ++ [success_line])%list, 0)
      else Some ((shown ++ failure_line
                         :: map (fun error => "- " ++ error)%string
                                (errors parser))%list, 0)
  end.

(** The whole script.  [argv] is [sys.argv]; [read_file] stands for the
    file system: the text of the file at a path, or [None] where [open]
    raises [FileNotFoundError]. *)
Definition main (fuel depth : nat) (argv : list string)
           (read_file : string -> option string)
  : option (list string * nat) :=
  match argv with
  | [_; source_file_path] =>
      match read_file source_file_path with
      | Some code => report fuel depth code
      | None =>
          Some (["Error: Source file not found at " ++ source_file_path]%string,
                1)
      end
  | _ => Some ([usage_line], 1)
  end.

End Driver.

Import Driver.

(* ================================================================== *)
(** ** Vocabulary for calls that can be cut short *)

(** A call under the limit, [o], against the same call with stack to
    spare, [r], both started from [a].  Where the second returns, it has
    walked from [a].  The first returns exactly what the second does, and
    where it is cut instead, it stops on the way: it has walked from [a] to
    where it stands, and the second, if it returns, walks on from there. *)
Definition sim (a : Parser) (o : option outcome) (r : option Parser) : Prop :=
  (forall b, r = Some b -> walk a b)
  /\ match o with
     | None => r = None
     | Some (Returned b) => r = Some b
     | Some (Raised c) => walk a c /\ forall b, r = Some b -> walk c b
     end.

Definition sims (pb : nat -> nat -> Parser -> option outcome)
           (p : nat -> Parser -> option Parser) (fuel : nat) : Prop :=
  forall depth a, sim a (pb fuel depth a) (p fuel a).

(** More fuel changes nothing, and more frames change nothing for a call
    that returned. *)
Definition stable (pb : nat -> nat -> Parser -> option outcome)
           (fuel : nat) : Prop :=
  forall depth a o fuel' depth',
    pb fuel depth a = Some o ->
    fuel <= fuel' -> depth <= depth' ->
    (raised o = true -> depth' = depth) ->
    pb fuel' depth' a = Some o.

(** With [margin] frames more than units of fuel, no call is cut. *)
Definition roomy (margin : nat)
           (pb : nat -> nat -> Parser -> option outcome) (fuel : nat) : Prop :=
  forall depth a o,
    fuel + margin <= depth -> pb fuel depth a = Some o -> raised o = false.

(** The two lexemes on which a loop decides by the text alone, classified
    as the scanner classifies them: a comma is a punctuator, [<<] an
    operator. *)
Definition separator_ok (t : token) : Prop :=
  (snd t = "," -> fst t = "PUNCTUATOR")
  /\ (snd t = "<<" -> fst t = "OPERATOR").

(** A consistent walker over such tokens, with at most [r] of them left. *)
Definition fit (self : Parser) (r : nat) : Prop :=
  Inv self /\ Forall separator_ok (tokens self) /\ remaining self <= r.

(** [pb] ends from every such walker, given more fuel than tokens and
    frames are left. *)
Definition ends (pb : nat -> nat -> Parser -> option outcome)
           (fuel : nat) : Prop :=
  forall depth a r,
    fit a r -> r + depth < fuel -> exists o, pb fuel depth a = Some o.

(** [n] opening parentheses after [return], as the scanner hands them
    over: the expression nests [n] deep and is never closed. *)
Definition open_parentheses (n : nat) : list token :=
  [("KEYWORD", "int"); ("IDENTIFIER", "main"); ("PUNCTUATOR", "(");
   ("PUNCTUATOR", ")"); ("PUNCTUATOR", "{"); ("KEYWORD", "return")]
  ++ repeat ("PUNCTUATOR", "(") n.

(** The text of [open_parentheses]. *)
Definition open_parentheses_text (n : nat) : string :=
  ("int main ( ) { return " ++ Driver.times "(" n)%string.

(** A function whose body returns a parenthesis that the token list calls
    an operator. *)
Definition stuck_parenthesis : list token :=
  [("KEYWORD", "int"); ("IDENTIFIER", "main"); ("PUNCTUATOR", "(");
   ("PUNCTUATOR", ")"); ("PUNCTUATOR", "{"); ("KEYWORD", "return");
   ("OPERATOR", "(")].

(** A function that returns [0] inside [n] pairs of parentheses: a program
    of the grammar, nested [n] deep. *)
Definition nested_return (n : nat) : list token :=
  [("KEYWORD", "int"); ("IDENTIFIER", "main"); ("PUNCTUATOR", "(");
   ("PUNCTUATOR", ")"); ("PUNCTUATOR", "{"); ("KEYWORD", "return")]
  ++ repeat ("PUNCTUATOR", "(") n
  ++ [("CONSTANT_INT", "0")]
  ++ repeat ("PUNCTUATOR", ")") n
  ++ [("PUNCTUATOR", ";"); ("PUNCTUATOR", "}")].

(* ================================================================== *)
(** ** Unfolding and fuel *)

Lemma bind_Some {A B} (m : option A) (k : A -> option B) (b : B) :
  bind m k = Some b -> exists a, m = Some a /\ k a = Some b.
Proof.
  unfold bind. destruct m as [a|]; [|discriminate]. intros H. now exists a.
Qed.

Lemma bind_eq {A B} (m : option A) (k : A -> option B) (a : A) :
  m = Some a -> bind m k = k a.
Proof. intros ->. reflexivity. Qed.

(** Break a hypothesis [bind m k = Some _] into its two halves. *)
Ltac unbind H :=
  let a := fresh "s" in
  let Ha := fresh "Hs" in
  apply bind_Some in H; destruct H as (a & Ha & H).

(** Split on the test of the conditional a hypothesis starts with. *)
Ltac case_if H E :=
  match type of H with
  | (if ?c then _ else _) = _ => destruct c eqn:E
  end.

Ltac case_goal E :=
  match goal with
  | |- exists _, (if ?c then _ else _) = _ => destruct c eqn:E
  end.

Ltac inv_some :=
  repeat match goal with
         | H : Some _ = Some _ |- _ => inversion H; subst; clear H
         | H : None = Some _ |- _ => discriminate H
         end.

Lemma identifier_list_loop_mono (f : nat) :
  forall f' a b, f <= f' ->
    identifier_list_loop f a = Some b -> identifier_list_loop f' a = Some b.
Proof.
  induction f as [|f IH]; intros f' a b Hle H; [discriminate|].
  destruct f' as [|f']; [lia|]. simpl in *.
  destruct (value_in [","] a); [|assumption].
  apply IH; [lia|assumption].
Qed.

Lemma output_list_loop_mono (f : nat) :
  forall f' a b, f <= f' ->
    output_list_loop f a = Some b -> output_list_loop f' a = Some b.
Proof.
  induction f as [|f IH]; intros f' a b Hle H; [discriminate|].
  destruct f' as [|f']; [lia|]. simpl in *.
  destruct (value_in ["<<"] a); [|assumption].
  apply IH; [lia|assumption].
Qed.

Lemma expression_group_mono (f : nat) :
  mono expression f /\ mono expression_loop f /\ mono term f
  /\ mono term_loop f /\ mono factor f.
Proof.
  unfold mono. induction f as [|f (IHe & IHel & IHt & IHtl & IHf)].
  { repeat split; intros; discriminate. }
  repeat split; intros f' a b Hle H; (destruct f' as [|f']; [lia|]);
    assert (Hf : f <= f') by lia; simpl in *.
  - unbind H. rewrite (bind_eq _ _ _ (IHt _ _ _ Hf Hs)). eauto.
  - destruct (value_in ["+"; "-"] a); [|assumption].
    unbind H. rewrite (bind_eq _ _ _ (IHt _ _ _ Hf Hs)). eauto.
  - unbind H. rewrite (bind_eq _ _ _ (IHf _ _ _ Hf Hs)). eauto.
  - destruct (value_in ["*"; "/"] a); [|assumption].
    unbind H. rewrite (bind_eq _ _ _ (IHf _ _ _ Hf Hs)). eauto.
  - destruct (current_token a) as [[ty v]|]; [|assumption].
    destruct (_ || _); [assumption|].
    destruct (v =? "(")%string; [|assumption].
    unbind H. rewrite (bind_eq _ _ _ (IHe _ _ _ Hf Hs)). assumption.
Qed.

Lemma expression_mono f : mono expression f.
Proof. apply expression_group_mono. Qed.

Lemma statement_group_mono (f : nat) :
  mono statement_list f /\ mono statement f /\ mono if_statement f
  /\ mono block f.
Proof.
  unfold mono. induction f as [|f (IHsl & IHs & IHi & IHb)].
  { repeat split; intros; discriminate. }
  repeat split; intros f' a b Hle H; (destruct f' as [|f']; [lia|]);
    assert (Hf : f <= f') by lia; simpl in *.
  - destruct (current_token a) as [[ty v]|]; [|assumption].
    destruct (negb _); [|assumption].
    unbind H. rewrite (bind_eq _ _ _ (IHs _ _ _ Hf Hs)).
    destruct (has_errors s); eauto.
  - destruct (current_token a) as [[ty v]|]; [|assumption].
    destruct (_ && _).
    { unbind H. unfold declaration_statement, identifier_list in *.
      rewrite (bind_eq _ _ _ (identifier_list_loop_mono _ _ _ _ Hf Hs)).
      assumption. }
    destruct (ty =? "IDENTIFIER")%string.
    { destruct (_ <? _); [|assumption].
      destruct (_ =? "=")%string.
      { unbind H. unfold assignment_statement in *.
        rewrite (bind_eq _ _ _ (expression_mono _ _ _ _ Hf Hs)). assumption. }
      destruct (_ && _); [|assumption].
      unbind H. unfold output_statement, output_list in *.
      rewrite (bind_eq _ _ _ (output_list_loop_mono _ _ _ _ Hf Hs)).
      assumption. }
    destruct (_ && _); [eauto|].
    destruct (_ && _); [|assumption].
    unbind H. unfold return_statement in *.
    rewrite (bind_eq _ _ _ (expression_mono _ _ _ _ Hf Hs)). assumption.
  - unbind H. unfold condition in *. unbind Hs.
    rewrite (bind_eq _ _ _ (expression_mono _ _ _ _ Hf Hs0)).
    rewrite (bind_eq _ _ _ (expression_mono _ _ _ _ Hf Hs)).
    unbind H. rewrite (bind_eq _ _ _ (IHb _ _ _ Hf Hs1)).
    destruct (value_in ["else"] s1); eauto.
  - unbind H. rewrite (bind_eq _ _ _ (IHsl _ _ _ Hf Hs)). assumption.
Qed.

Lemma unbounded_parse_mono (f f' : nat) (toks : list token) (r : bool * Parser) :
  f <= f' -> unbounded_parse f toks = Some r -> unbounded_parse f' toks = Some r.
Proof.
  unfold unbounded_parse, program, function_definition. intros Hle H. unbind H.
  destruct (statement_group_mono f) as (_ & _ & _ & Hb).
  rewrite (bind_eq _ _ _ (Hb _ _ _ Hle Hs)). assumption.
Qed.

(* ================================================================== *)
(** ** The walker keeps its state consistent *)

Lemma StronglySorted_snoc (l : list nat) (x : nat) :
  StronglySorted le l -> Forall (fun i => i <= x) l ->
  StronglySorted le (l ++ [x]).
Proof.
  induction 1 as [|y l Hs IH Hy]; intros Hall; simpl.
  - constructor; constructor.
  - inversion Hall; subst. constructor; [now apply IH|].
    apply Forall_app. split; [assumption|]. constructor; [assumption|constructor].
Qed.

Lemma init_inv (toks : list token) : Inv (init toks).
Proof.
  unfold Inv, init; simpl. split; [|split; [|split]].
  - destruct toks; reflexivity.
  - lia.
  - repeat constructor.
  - repeat constructor.
Qed.

Lemma step_refl (a : Parser) : Inv a -> step_ok a a.
Proof.
  intros H. constructor; auto; exists []; now rewrite app_nil_r.
Qed.

Lemma step_trans (a b c : Parser) : step_ok a b -> step_ok b c -> step_ok a c.
Proof.
  intros [T1 I1 [e1 E1] [c1 C1] _] [T2 I2 [e2 E2] [c2 C2] V].
  constructor; auto.
  - congruence.
  - lia.
  - exists (e1 ++ e2)%list. now rewrite E2, E1, app_assoc.
  - exists (c1 ++ c2)%list. now rewrite C2, C1, app_assoc.
Qed.

Lemma current_in_range (a : Parser) (t : token) :
  Inv a -> current_token a = Some t -> token_index a < List.length (tokens a).
Proof.
  intros (Hc & _) Ht. apply nth_error_Some. rewrite <- Hc, Ht. discriminate.
Qed.

Lemma consume_step (a : Parser) (t : token) :
  Inv a -> current_token a = Some t -> step_ok a (consume a).
Proof.
  intros HI Ht. pose proof (current_in_range _ _ HI Ht) as Hlt.
  destruct HI as (Hc & Hle & Hs & Hall).
  constructor; simpl; try lia; auto.
  - exists []. now rewrite app_nil_r.
  - now exists [token_index a + 1].
  - unfold Inv; simpl. split; [|split; [|split]].
    + destruct (Nat.ltb_spec (token_index a + 1) (List.length (tokens a)))
        as [_|Hge]; [reflexivity|].
      symmetry. now apply nth_error_None.
    + lia.
    + apply StronglySorted_snoc; [assumption|].
      eapply Forall_impl; [|exact Hall]. simpl; intros; lia.
    + apply Forall_app. split.
      * eapply Forall_impl; [|exact Hall]. simpl; intros; lia.
      * repeat constructor.
Qed.

Lemma error_step (a : Parser) (msg : string) : Inv a -> step_ok a (error msg a).
Proof.
  intros HI. constructor; simpl; auto.
  - eexists; reflexivity.
  - exists []. now rewrite app_nil_r.
Qed.

Lemma expect_step (ty : string) (ev : option string) (a : Parser) :
  Inv a -> step_ok a (expect ty ev a).
Proof.
  intros HI. unfold expect, match_.
  destruct (current_token a) as [[ty' v]|] eqn:Hc; simpl.
  - destruct (_ && _); simpl;
      [eapply consume_step; eauto | now apply error_step].
  - now apply error_step.
Qed.

Lemma type_step (a : Parser) : Inv a -> step_ok a (type a).
Proof.
  intros HI. unfold type.
  destruct (current_token a) as [[ty v]|] eqn:Hc.
  - destruct (_ && _); [eapply consume_step; eauto | now apply error_step].
  - now apply error_step.
Qed.

Lemma compare_op_step (a : Parser) : Inv a -> step_ok a (compare_op a).
Proof.
  intros HI. unfold compare_op.
  destruct (current_token a) as [[ty v]|] eqn:Hc.
  - destruct (_ && _); [eapply consume_step; eauto | now apply error_step].
  - now apply error_step.
Qed.

Lemma output_item_step (a : Parser) : Inv a -> step_ok a (output_item a).
Proof.
  intros HI. unfold output_item.
  destruct (current_token a) as [[ty v]|] eqn:Hc; [|now apply error_step].
  destruct (ty =? "STRING_LITERAL")%string; [eapply consume_step; eauto|].
  destruct (ty =? "IDENTIFIER")%string; [|now apply error_step].
  destruct (v =? "endl")%string; eapply consume_step; eauto.
Qed.

Lemma after_program_step (a : Parser) : Inv a -> step_ok a (after_program a).
Proof.
  intros HI. unfold after_program.
  destruct (current_token a); [now apply error_step | now apply step_refl].
Qed.

Create HintDb walker.

#[local] Hint Resolve step_refl error_step expect_step type_step
  compare_op_step output_item_step after_program_step so_inv : walker.

(** Chain steps: from [step_ok a b] go on from [b]. *)
Ltac then_step H := eapply step_trans; [exact H|].

Lemma identifier_list_loop_sound f : sound identifier_list_loop f.
Proof.
  unfold sound. induction f as [|f IH]; intros a b HI H; [discriminate|].
  simpl in H. destruct (value_in [","] a).
  - pose proof (expect_step "PUNCTUATOR" (Some ",") a HI) as H1.
    pose proof (expect_step "IDENTIFIER" None _ (so_inv _ _ H1)) as H2.
    then_step H1. then_step H2. apply IH; eauto with walker.
  - inv_some. now apply step_refl.
Qed.

Lemma declaration_statement_sound f : sound declaration_statement f.
Proof.
  intros a b HI H. unfold declaration_statement, identifier_list in H.
  pose proof (type_step a HI) as H1.
  pose proof (expect_step "IDENTIFIER" None _ (so_inv _ _ H1)) as H2.
  then_step H1. then_step H2.
  eapply identifier_list_loop_sound; eauto with walker.
Qed.

Lemma output_list_loop_sound f : sound output_list_loop f.
Proof.
  unfold sound. induction f as [|f IH]; intros a b HI H; [discriminate|].
  simpl in H. destruct (value_in ["<<"] a).
  - pose proof (expect_step "OPERATOR" (Some "<<") a HI) as H1.
    pose proof (output_item_step _ (so_inv _ _ H1)) as H2.
    then_step H1. then_step H2. apply IH; eauto with walker.
  - inv_some. now apply step_refl.
Qed.

Lemma output_statement_sound f : sound output_statement f.
Proof.
  intros a b HI H. unfold output_statement, output_list in H.
  pose proof (expect_step "IDENTIFIER" None a HI) as H0.
  pose proof (expect_step "OPERATOR" (Some "<<") _ (so_inv _ _ H0)) as H1.
  pose proof (output_item_step _ (so_inv _ _ H1)) as H2.
  then_step H0. then_step H1. then_step H2.
  eapply output_list_loop_sound; eauto with walker.
Qed.

Lemma expression_group_sound (f : nat) :
  sound expression f /\ sound expression_loop f /\ sound term f
  /\ sound term_loop f /\ sound factor f.
Proof.
  unfold sound. induction f as [|f (IHe & IHel & IHt & IHtl & IHf)].
  { repeat split; intros; discriminate. }
  split; [|split; [|split; [|split]]]; intros a b HI H; simpl in H.
  - unbind H. pose proof (IHt _ _ HI Hs) as H1.
    then_step H1. eauto with walker.
  - destruct (value_in ["+"; "-"] a) eqn:Hv; [|inv_some; now apply step_refl].
    unfold value_in in Hv.
    destruct (current_token a) as [[ty v]|] eqn:Hc; [|discriminate].
    pose proof (consume_step _ _ HI Hc) as H0.
    unbind H. pose proof (IHt _ _ (so_inv _ _ H0) Hs) as H1.
    then_step H0. then_step H1. eauto with walker.
  - unbind H. pose proof (IHf _ _ HI Hs) as H1.
    then_step H1. eauto with walker.
  - destruct (value_in ["*"; "/"] a) eqn:Hv; [|inv_some; now apply step_refl].
    unfold value_in in Hv.
    destruct (current_token a) as [[ty v]|] eqn:Hc; [|discriminate].
    pose proof (consume_step _ _ HI Hc) as H0.
    unbind H. pose proof (IHf _ _ (so_inv _ _ H0) Hs) as H1.
    then_step H0. then_step H1. eauto with walker.
  - destruct (current_token a) as [[ty v]|] eqn:Hc;
      [|inv_some; now apply error_step].
    destruct (_ || _); [inv_some; eapply consume_step; eauto|].
    destruct (v =? "(")%string; [|inv_some; now apply error_step].
    pose proof (expect_step "PUNCTUATOR" (Some "(") a HI) as H0.
    unbind H. pose proof (IHe _ _ (so_inv _ _ H0) Hs) as H1.
    inv_some. then_step H0. then_step H1. eauto with walker.
Qed.

Lemma expression_sound f : sound expression f.
Proof. apply expression_group_sound. Qed.

Lemma return_statement_sound f : sound return_statement f.
Proof.
  intros a b HI H. unfold return_statement in H.
  pose proof (expect_step "KEYWORD" (Some "return") a HI) as H0.
  then_step H0. eapply expression_sound; eauto with walker.
Qed.

Lemma assignment_statement_sound f : sound assignment_statement f.
Proof.
  intros a b HI H. unfold assignment_statement in H.
  pose proof (expect_step "IDENTIFIER" None a HI) as H0.
  pose proof (expect_step "OPERATOR" (Some "=") _ (so_inv _ _ H0)) as H1.
  then_step H0. then_step H1. eapply expression_sound; eauto with walker.
Qed.

Lemma condition_sound f : sound condition f.
Proof.
  intros a b HI H. unfold condition in H. unbind H.
  pose proof (expression_sound _ _ _ HI Hs) as H0.
  pose proof (compare_op_step _ (so_inv _ _ H0)) as H1.
  then_step H0. then_step H1. eapply expression_sound; eauto with walker.
Qed.

Lemma statement_group_sound (f : nat) :
  sound statement_list f /\ sound statement f /\ sound if_statement f
  /\ sound block f.
Proof.
  unfold sound. induction f as [|f (IHsl & IHs & IHi & IHb)].
  { repeat split; intros; discriminate. }
  split; [|split; [|split]]; intros a b HI H; simpl in H.
  - destruct (current_token a) as [[ty v]|]; [|inv_some; now apply step_refl].
    destruct (negb _); [|inv_some; now apply step_refl].
    unbind H. pose proof (IHs _ _ HI Hs) as H1.
    destruct (has_errors s); [inv_some; assumption|].
    then_step H1. eauto with walker.
  - destruct (current_token a) as [[ty v]|] eqn:Hc;
      [|inv_some; now apply step_refl].
    destruct (_ && _).
    { unbind H. inv_some.
      pose proof (declaration_statement_sound _ _ _ HI Hs) as H1.
      then_step H1. eauto with walker. }
    destruct (ty =? "IDENTIFIER")%string.
    { destruct (_ <? _); [|inv_some; now apply error_step].
      destruct (_ =? "=")%string.
      { unbind H. inv_some.
        pose proof (assignment_statement_sound _ _ _ HI Hs) as H1.
        then_step H1. eauto with walker. }
      destruct (_ && _); [|inv_some; now apply error_step].
      unbind H. inv_some.
      pose proof (output_statement_sound _ _ _ HI Hs) as H1.
      then_step H1. eauto with walker. }
    destruct (_ && _); [eauto|].
    destruct (_ && _).
    { unbind H. inv_some.
      pose proof (return_statement_sound _ _ _ HI Hs) as H1.
      then_step H1. eauto with walker. }
    inv_some. pose proof (error_step a statement_error HI) as H0.
    then_step H0. eapply consume_step; eauto with walker.
  - pose proof (expect_step "KEYWORD" (Some "if") a HI) as H0.
    pose proof (expect_step "PUNCTUATOR" (Some "(") _ (so_inv _ _ H0)) as H1.
    unbind H. pose proof (condition_sound _ _ _ (so_inv _ _ H1) Hs) as H2.
    pose proof (expect_step "PUNCTUATOR" (Some ")") _ (so_inv _ _ H2)) as H3.
    unbind H. pose proof (IHb _ _ (so_inv _ _ H3) Hs0) as H4.
    then_step H0. then_step H1. then_step H2. then_step H3. then_step H4.
    destruct (value_in ["else"] s0); [|inv_some; eauto with walker].
    pose proof (expect_step "KEYWORD" (Some "else") _ (so_inv _ _ H4)) as H5.
    then_step H5. eauto with walker.
  - pose proof (expect_step "PUNCTUATOR" (Some "{") a HI) as H0.
    unbind H. pose proof (IHsl _ _ (so_inv _ _ H0) Hs) as H1.
    inv_some. then_step H0. then_step H1. eauto with walker.
Qed.

Lemma block_sound f : sound block f.
Proof. apply statement_group_sound. Qed.

Lemma program_sound f : sound program f.
Proof.
  intros a b HI H. unfold program, function_definition in H.
  pose proof (type_step a HI) as H0.
  pose proof (expect_step "IDENTIFIER" None _ (so_inv _ _ H0)) as H1.
  pose proof (expect_step "PUNCTUATOR" (Some "(") _ (so_inv _ _ H1)) as H2.
  pose proof (expect_step "PUNCTUATOR" (Some ")") _ (so_inv _ _ H2)) as H3.
  then_step H0. then_step H1. then_step H2. then_step H3.
  eapply block_sound; eauto with walker.
Qed.

Lemma unbounded_parse_sound (f : nat) (toks : list token) (v : bool) (b : Parser) :
  unbounded_parse f toks = Some (v, b) ->
  step_ok (init toks) b /\ v = negb (has_errors b)
  /\ (has_errors b = false -> current_token b = None).
Proof.
  unfold unbounded_parse. intros H. unbind H. inv_some.
  pose proof (program_sound _ _ _ (init_inv toks) Hs) as H0.
  split; [|split].
  - then_step H0. eauto with walker.
  - reflexivity.
  - unfold after_program. destruct (current_token s) eqn:Hc; [|now rewrite Hc].
    unfold has_errors, error; simpl. destruct (errors s); discriminate.
Qed.

(* ================================================================== *)
(** ** Progress: which steps move the cursor *)

Lemma expect_consumes (ty v : string) (ev : option string) (a : Parser) :
  current_token a = Some (ty, v) -> ev = None \/ ev = Some v ->
  match_ ty ev a = (true, consume a).
Proof.
  intros Hc Hv. unfold match_. rewrite Hc, String.eqb_refl.
  destruct Hv as [->| ->]; [reflexivity|]. now rewrite String.eqb_refl.
Qed.

Lemma expect_consume_eq (ty v : string) (ev : option string) (a : Parser) :
  current_token a = Some (ty, v) -> ev = None \/ ev = Some v ->
  expect ty ev a = consume a.
Proof. intros Hc Hv. unfold expect. now rewrite (expect_consumes _ _ _ _ Hc Hv). Qed.

Lemma remaining_step (a b : Parser) :
  step_ok a b -> remaining b <= remaining a.
Proof. intros [T I _ _ _]. unfold remaining. rewrite T. lia. Qed.

Lemma remaining_consume (a : Parser) (t : token) :
  Inv a -> current_token a = Some t ->
  S (remaining (consume a)) = remaining a.
Proof.
  intros HI Hc. pose proof (current_in_range _ _ HI Hc).
  unfold remaining; simpl. lia.
Qed.

Lemma nothing_left (a : Parser) :
  Inv a -> remaining a = 0 -> current_token a = None.
Proof.
  intros (Hc & Hle & _) Hr. rewrite Hc. apply nth_error_None.
  unfold remaining in Hr. lia.
Qed.

Lemma current_lexeme_ok (a : Parser) (t : token) :
  Inv a -> Forall lexeme_ok (tokens a) -> current_token a = Some t ->
  lexeme_ok t.
Proof.
  intros (Hc & _) Hall Ht. rewrite Hc in Ht.
  eapply Forall_forall; [exact Hall|]. eapply nth_error_In; eassumption.
Qed.

Lemma value_in_one (v : string) (a : Parser) :
  value_in [v] a = true -> exists ty, current_token a = Some (ty, v).
Proof.
  unfold value_in, mem. destruct (current_token a) as [[ty w]|]; [|discriminate].
  simpl. rewrite orb_false_r. intros H. apply String.eqb_eq in H. subst.
  now exists ty.
Qed.

Lemma value_in_some (l : list string) (a : Parser) :
  value_in l a = true -> exists t, current_token a = Some t.
Proof.
  unfold value_in. destruct (current_token a) as [t|]; [|discriminate]. eauto.
Qed.

Lemma has_errors_error (msg : string) (a : Parser) :
  has_errors (error msg a) = true.
Proof. unfold has_errors, error; simpl. now destruct (errors a). Qed.

Lemma has_errors_step (a b : Parser) :
  step_ok a b -> has_errors a = true -> has_errors b = true.
Proof.
  intros [_ _ [l E] _ _]. unfold has_errors. rewrite E.
  now destruct (errors a).
Qed.

(* ================================================================== *)
(** ** Enough fuel: the walker returns on well-classified tokens *)

Lemma identifier_list_loop_halts (r : nat) :
  halts identifier_list_loop (S r) r.
Proof.
  unfold halts. induction r as [|r IH]; intros a HI Hok Hr;
    cbn [identifier_list_loop];
    (destruct (value_in [","] a) eqn:Hv; [|eauto]);
    apply value_in_one in Hv as [ty Hc].
  - rewrite (nothing_left a HI) in Hc by lia. discriminate.
  - destruct (current_lexeme_ok _ _ HI Hok Hc) as (Hty & _). simpl in Hty.
    rewrite (Hty eq_refl) in Hc.
    pose proof (consume_step _ _ HI Hc) as H0.
    pose proof (remaining_consume _ _ HI Hc) as Hr0.
    rewrite (expect_consume_eq _ _ (Some ",") _ Hc) by auto.
    pose proof (expect_step "IDENTIFIER" None _ (so_inv _ _ H0)) as H1.
    apply IH; eauto with walker.
    + rewrite (so_tokens _ _ H1). simpl. assumption.
    + apply remaining_step in H1. lia.
Qed.

Lemma output_list_loop_halts (r : nat) : halts output_list_loop (S r) r.
Proof.
  unfold halts. induction r as [|r IH]; intros a HI Hok Hr;
    cbn [output_list_loop];
    (destruct (value_in ["<<"] a) eqn:Hv; [|eauto]);
    apply value_in_one in Hv as [ty Hc].
  - rewrite (nothing_left a HI) in Hc by lia. discriminate.
  - destruct (current_lexeme_ok _ _ HI Hok Hc) as (_ & _ & Hty). simpl in Hty.
    rewrite (Hty eq_refl) in Hc.
    pose proof (consume_step _ _ HI Hc) as H0.
    pose proof (remaining_consume _ _ HI Hc) as Hr0.
    rewrite (expect_consume_eq _ _ (Some "<<") _ Hc) by auto.
    pose proof (output_item_step _ (so_inv _ _ H0)) as H1.
    apply IH; eauto with walker.
    + rewrite (so_tokens _ _ H1). simpl. assumption.
    + apply remaining_step in H1. lia.
Qed.

(** Use a callee's result at the larger fuel the caller hands it. *)
Lemma halts_at (p : nat -> Parser -> option Parser) (n r f : nat) (a : Parser) :
  halts p n r -> mono p n -> n <= f ->
  Inv a -> Forall lexeme_ok (tokens a) -> remaining a <= r ->
  exists b, p f a = Some b.
Proof.
  intros Hh Hm Hle HI Hok Hr. destruct (Hh a HI Hok Hr) as [b Hb].
  exists b. eapply Hm; eassumption.
Qed.

Lemma expression_group_halts (r : nat) :
  halts expression (need r 5) r /\ halts expression_loop (need r 4) r
  /\ halts term (need r 3) r /\ halts term_loop (need r 2) r
  /\ halts factor (need r 1) r.
Proof.
  induction r as [r IH] using lt_wf_ind.
  assert (Hfac : halts factor (need r 1) r).
  { intros a HI Hok Hr. replace (need r 1) with (S (10 * r)) by (unfold need; lia).
    simpl. destruct (current_token a) as [[ty v]|] eqn:Hc; [|eauto].
    destruct (_ || _); [eauto|].
    destruct (v =? "(")%string eqn:Hv; [|eauto].
    apply String.eqb_eq in Hv. subst v.
    destruct (current_lexeme_ok _ _ HI Hok Hc) as (_ & Hty & _). simpl in Hty.
    rewrite (Hty eq_refl) in Hc.
    pose proof (consume_step _ _ HI Hc) as H0.
    pose proof (remaining_consume _ _ HI Hc) as Hr0.
    rewrite (expect_consume_eq _ _ (Some "(") _ Hc) by auto.
    destruct r as [|r]; [lia|].
    destruct (IH r (Nat.lt_succ_diag_r r)) as (He & _).
    destruct (halts_at expression _ _ (10 * S r) (consume a) He
                (expression_mono _)) as [b Hb];
      unfold need; eauto with walker; try lia.
    rewrite (bind_eq _ _ _ Hb). eauto. }
  assert (Htl : halts term_loop (need r 2) r).
  { intros a HI Hok Hr. replace (need r 2) with (S (need r 1)) by (unfold need; lia).
    simpl. destruct (value_in ["*"; "/"] a) eqn:Hv; [|eauto].
    apply value_in_some in Hv as [t Hc].
    pose proof (consume_step _ _ HI Hc) as H0.
    pose proof (remaining_consume _ _ HI Hc) as Hr0.
    destruct r as [|r]; [lia|].
    destruct (IH r (Nat.lt_succ_diag_r r)) as (_ & _ & _ & Htl & Hf).
    destruct (halts_at factor _ _ (need (S r) 1) (consume a) Hf
                (proj2 (proj2 (proj2 (proj2 (expression_group_mono _))))))
      as [b Hb]; unfold need; eauto with walker; try lia.
    rewrite (bind_eq _ _ _ Hb).
    pose proof (proj2 (proj2 (proj2 (proj2 (expression_group_sound _))))
                  _ _ (so_inv _ _ H0) Hb) as H1.
    apply (halts_at term_loop _ _ _ b Htl
             (proj1 (proj2 (proj2 (proj2 (expression_group_mono _))))));
      unfold need; eauto with walker; try lia.
    + now rewrite (so_tokens _ _ H1).
    + apply remaining_step in H1. lia. }
  assert (Ht : halts term (need r 3) r).
  { intros a HI Hok Hr. replace (need r 3) with (S (need r 2)) by (unfold need; lia).
    simpl.
    destruct (halts_at factor _ _ (need r 2) a Hfac
                (proj2 (proj2 (proj2 (proj2 (expression_group_mono _))))))
      as [b Hb]; unfold need; eauto with walker; try lia.
    rewrite (bind_eq _ _ _ Hb).
    pose proof (proj2 (proj2 (proj2 (proj2 (expression_group_sound _))))
                  _ _ HI Hb) as H1.
    apply Htl; eauto with walker.
    + now rewrite (so_tokens _ _ H1).
    + apply remaining_step in H1. lia. }
  assert (Hel : halts expression_loop (need r 4) r).
  { intros a HI Hok Hr. replace (need r 4) with (S (need r 3)) by (unfold need; lia).
    simpl. destruct (value_in ["+"; "-"] a) eqn:Hv; [|eauto].
    apply value_in_some in Hv as [t Hc].
    pose proof (consume_step _ _ HI Hc) as H0.
    pose proof (remaining_consume _ _ HI Hc) as Hr0.
    destruct r as [|r]; [lia|].
    destruct (IH r (Nat.lt_succ_diag_r r)) as (_ & Hel & Ht' & _).
    destruct (halts_at term _ _ (need (S r) 3) (consume a) Ht'
                (proj1 (proj2 (proj2 (expression_group_mono _)))))
      as [b Hb]; unfold need; eauto with walker; try lia.
    rewrite (bind_eq _ _ _ Hb).
    pose proof (proj1 (proj2 (proj2 (expression_group_sound _)))
                  _ _ (so_inv _ _ H0) Hb) as H1.
    apply (halts_at expression_loop _ _ _ b Hel
             (proj1 (proj2 (expression_group_mono _))));
      unfold need; eauto with walker; try lia.
    + now rewrite (so_tokens _ _ H1).
    + apply remaining_step in H1. lia. }
  split; [|auto].
  intros a HI Hok Hr. replace (need r 5) with (S (need r 4)) by (unfold need; lia).
  simpl.
  destruct (halts_at term _ _ (need r 4) a Ht
              (proj1 (proj2 (proj2 (expression_group_mono _)))))
    as [b Hb]; unfold need; eauto with walker; try lia.
  rewrite (bind_eq _ _ _ Hb).
  pose proof (proj1 (proj2 (proj2 (expression_group_sound _))) _ _ HI Hb) as H1.
  apply Hel; eauto with walker.
  + now rewrite (so_tokens _ _ H1).
  + apply remaining_step in H1. lia.
Qed.

Lemma expression_halts r : halts expression (need r 5) r.
Proof. apply expression_group_halts. Qed.

Lemma condition_mono f : mono condition f.
Proof.
  intros f' a b Hle H. unfold condition in *. unbind H.
  rewrite (bind_eq _ _ _ (expression_mono _ _ _ _ Hle Hs)).
  eapply expression_mono; eassumption.
Qed.

Lemma block_mono f : mono block f.
Proof. apply statement_group_mono. Qed.

Lemma statement_mono f : mono statement f.
Proof. apply statement_group_mono. Qed.

Lemma statement_list_mono f : mono statement_list f.
Proof. apply statement_group_mono. Qed.

Lemma statement_sound f : sound statement f.
Proof. apply statement_group_sound. Qed.

Lemma statement_list_sound f : sound statement_list f.
Proof. apply statement_group_sound. Qed.

(** Carry the side conditions of [halts] along a step. *)
Lemma carry (a b : Parser) (r : nat) :
  step_ok a b -> Forall lexeme_ok (tokens a) -> remaining a <= r ->
  Inv b /\ Forall lexeme_ok (tokens b) /\ remaining b <= r.
Proof.
  intros H Hok Hr. split; [eauto with walker|]. split.
  - now rewrite (so_tokens _ _ H).
  - apply remaining_step in H. lia.
Qed.

Lemma condition_halts r : halts condition (need r 5) r.
Proof.
  intros a HI Hok Hr. unfold condition.
  destruct (expression_halts r a HI Hok Hr) as [b Hb].
  rewrite (bind_eq _ _ _ Hb).
  pose proof (expression_sound _ _ _ HI Hb) as H0.
  pose proof (compare_op_step _ (so_inv _ _ H0)) as H1.
  destruct (carry _ _ r (step_trans _ _ _ H0 H1) Hok Hr) as (I & O & R).
  now apply expression_halts.
Qed.

Lemma declaration_statement_halts r : halts declaration_statement (S r) r.
Proof.
  intros a HI Hok Hr. unfold declaration_statement, identifier_list.
  pose proof (type_step a HI) as H0.
  pose proof (expect_step "IDENTIFIER" None _ (so_inv _ _ H0)) as H1.
  destruct (carry _ _ r (step_trans _ _ _ H0 H1) Hok Hr) as (I & O & R).
  now apply identifier_list_loop_halts.
Qed.

Lemma output_statement_halts r : halts output_statement (S r) r.
Proof.
  intros a HI Hok Hr. unfold output_statement, output_list.
  pose proof (expect_step "IDENTIFIER" None a HI) as H0.
  pose proof (expect_step "OPERATOR" (Some "<<") _ (so_inv _ _ H0)) as H1.
  pose proof (output_item_step _ (so_inv _ _ H1)) as H2.
  destruct (carry _ _ r (step_trans _ _ _ H0 (step_trans _ _ _ H1 H2)) Hok Hr)
    as (I & O & R).
  now apply output_list_loop_halts.
Qed.

Lemma assignment_statement_halts r : halts assignment_statement (need r 5) r.
Proof.
  intros a HI Hok Hr. unfold assignment_statement.
  pose proof (expect_step "IDENTIFIER" None a HI) as H0.
  pose proof (expect_step "OPERATOR" (Some "=") _ (so_inv _ _ H0)) as H1.
  destruct (carry _ _ r (step_trans _ _ _ H0 H1) Hok Hr) as (I & O & R).
  now apply expression_halts.
Qed.

Lemma return_statement_halts r : halts return_statement (need r 5) r.
Proof.
  intros a HI Hok Hr. unfold return_statement.
  pose proof (expect_step "KEYWORD" (Some "return") a HI) as H0.
  destruct (carry _ _ r H0 Hok Hr) as (I & O & R).
  now apply expression_halts.
Qed.

Lemma declaration_statement_mono f : mono declaration_statement f.
Proof.
  intros f' a b Hle H. unfold declaration_statement, identifier_list in *.
  eapply identifier_list_loop_mono; eassumption.
Qed.

Lemma output_statement_mono f : mono output_statement f.
Proof.
  intros f' a b Hle H. unfold output_statement, output_list in *.
  eapply output_list_loop_mono; eassumption.
Qed.

Lemma assignment_statement_mono f : mono assignment_statement f.
Proof.
  intros f' a b Hle H. unfold assignment_statement in *.
  eapply expression_mono; eassumption.
Qed.

Lemma return_statement_mono f : mono return_statement f.
Proof.
  intros f' a b Hle H. unfold return_statement in *.
  eapply expression_mono; eassumption.
Qed.

(** Where each compound statement stands after its first token. *)
Lemma declaration_statement_from (f : nat) (a b : Parser) :
  Inv a -> declaration_statement f a = Some b -> step_ok (type a) b.
Proof.
  intros HI H. unfold declaration_statement, identifier_list in H.
  pose proof (type_step a HI) as H0.
  pose proof (expect_step "IDENTIFIER" None _ (so_inv _ _ H0)) as H1.
  then_step H1. eapply identifier_list_loop_sound; eauto with walker.
Qed.

Lemma assignment_statement_from (f : nat) (a b : Parser) :
  Inv a -> assignment_statement f a = Some b ->
  step_ok (expect "IDENTIFIER" None a) b.
Proof.
  intros HI H. unfold assignment_statement in H.
  pose proof (expect_step "IDENTIFIER" None a HI) as H0.
  pose proof (expect_step "OPERATOR" (Some "=") _ (so_inv _ _ H0)) as H1.
  then_step H1. eapply expression_sound; eauto with walker.
Qed.

Lemma output_statement_from (f : nat) (a b : Parser) :
  Inv a -> output_statement f a = Some b ->
  step_ok (expect "IDENTIFIER" None a) b.
Proof.
  intros HI H. unfold output_statement, output_list in H.
  pose proof (expect_step "IDENTIFIER" None a HI) as H0.
  pose proof (expect_step "OPERATOR" (Some "<<") _ (so_inv _ _ H0)) as H1.
  pose proof (output_item_step _ (so_inv _ _ H1)) as H2.
  then_step H1. then_step H2.
  eapply output_list_loop_sound; eauto with walker.
Qed.

Lemma return_statement_from (f : nat) (a b : Parser) :
  Inv a -> return_statement f a = Some b ->
  step_ok (expect "KEYWORD" (Some "return") a) b.
Proof.
  intros HI H. unfold return_statement in H.
  pose proof (expect_step "KEYWORD" (Some "return") a HI) as H0.
  eapply expression_sound; eauto with walker.
Qed.

Lemma if_statement_from (f : nat) (a b : Parser) :
  Inv a -> if_statement f a = Some b ->
  step_ok (expect "KEYWORD" (Some "if") a) b.
Proof.
  intros HI H. destruct f as [|f]; [discriminate|]. cbn [if_statement] in H.
  pose proof (expect_step "KEYWORD" (Some "if") a HI) as H0.
  pose proof (expect_step "PUNCTUATOR" (Some "(") _ (so_inv _ _ H0)) as H1.
  unbind H. pose proof (condition_sound _ _ _ (so_inv _ _ H1) Hs) as H2.
  pose proof (expect_step "PUNCTUATOR" (Some ")") _ (so_inv _ _ H2)) as H3.
  unbind H. pose proof (block_sound _ _ _ (so_inv _ _ H3) Hs0) as H4.
  then_step H1. then_step H2. then_step H3. then_step H4.
  destruct (value_in ["else"] s0); [|inv_some; eauto with walker].
  pose proof (expect_step "KEYWORD" (Some "else") _ (so_inv _ _ H4)) as H5.
  then_step H5. eapply block_sound; eauto with walker.
Qed.

Lemma index_consume_step (a b : Parser) :
  step_ok (consume a) b -> token_index a < token_index b.
Proof. intros H. apply so_index in H. simpl in H. lia. Qed.

Lemma type_consumes (a : Parser) (ty v : string) :
  current_token a = Some (ty, v) ->
  (ty =? "KEYWORD")%string && mem v type_names = true ->
  type a = consume a.
Proof. intros Hc Hb. unfold type. now rewrite Hc, Hb. Qed.

(** A statement that leaves the log empty has moved the cursor. *)
Lemma statement_progress (f : nat) (a b : Parser) (t : token) :
  Inv a -> current_token a = Some t -> statement f a = Some b ->
  has_errors b = false -> token_index a < token_index b.
Proof.
  intros HI Hc H Hb. destruct f as [|f]; [discriminate|].
  cbn [statement] in H. rewrite Hc in H. destruct t as [ty v].
  case_if H Hty.
  { unbind H. inv_some. apply declaration_statement_from in Hs; [|assumption].
    rewrite (type_consumes _ _ _ Hc Hty) in Hs.
    pose proof (expect_step "PUNCTUATOR" (Some ";") _ (so_inv _ _ Hs)) as H1.
    apply index_consume_step. eapply step_trans; eassumption. }
  case_if H Hid.
  { apply String.eqb_eq in Hid. subst ty.
    case_if H Hlt; [|inv_some; now rewrite has_errors_error in Hb].
    case_if H Heq.
    { unbind H. inv_some. apply assignment_statement_from in Hs; [|assumption].
      rewrite (expect_consume_eq _ _ None _ Hc) in Hs by auto.
      pose proof (expect_step "PUNCTUATOR" (Some ";") _ (so_inv _ _ Hs)) as H1.
      apply index_consume_step. eapply step_trans; eassumption. }
    case_if H Hop; [|inv_some; now rewrite has_errors_error in Hb].
    unbind H. inv_some. apply output_statement_from in Hs; [|assumption].
    rewrite (expect_consume_eq _ _ None _ Hc) in Hs by auto.
    pose proof (expect_step "PUNCTUATOR" (Some ";") _ (so_inv _ _ Hs)) as H1.
    apply index_consume_step. eapply step_trans; eassumption. }
  case_if H Hif.
  { apply andb_prop in Hif as [Hk Hv].
    apply String.eqb_eq in Hk, Hv. subst.
    apply if_statement_from in H; [|assumption].
    rewrite (expect_consume_eq _ _ (Some "if") _ Hc) in H by auto.
    now apply index_consume_step. }
  case_if H Hret.
  { apply andb_prop in Hret as [Hk Hv].
    apply String.eqb_eq in Hk, Hv. subst.
    unbind H. inv_some. apply return_statement_from in Hs; [|assumption].
    rewrite (expect_consume_eq _ _ (Some "return") _ Hc) in Hs by auto.
    pose proof (expect_step "PUNCTUATOR" (Some ";") _ (so_inv _ _ Hs)) as H1.
    apply index_consume_step. eapply step_trans; eassumption. }
  inv_some. simpl. lia.
Qed.

Lemma statement_group_halts (r : nat) :
  halts_if (need r 6) r /\ halts statement (need r 7) r
  /\ halts statement_list (need r 8) r /\ halts block (need r 9) r.
Proof.
  induction r as [r IH] using lt_wf_ind.
  assert (Hif : halts_if (need r 6) r).
  { intros a HI Hok Hr Hc.
    replace (need r 6) with (S (need r 5)) by (unfold need; lia).
    cbn [if_statement].
    rewrite (expect_consume_eq _ _ (Some "if") _ Hc) by auto.
    pose proof (consume_step _ _ HI Hc) as H0.
    pose proof (remaining_consume _ _ HI Hc) as Hr0.
    destruct r as [|r]; [lia|].
    destruct (IH r (Nat.lt_succ_diag_r r)) as (_ & _ & _ & Hblk).
    pose proof (expect_step "PUNCTUATOR" (Some "(") _ (so_inv _ _ H0)) as H1.
    destruct (carry _ _ (S r) (step_trans _ _ _ H0 H1) Hok Hr) as (I1 & O1 & R1).
    destruct (condition_halts _ _ I1 O1 R1) as [c Hcond].
    rewrite (bind_eq _ _ _ Hcond).
    pose proof (condition_sound _ _ _ I1 Hcond) as H2.
    pose proof (expect_step "PUNCTUATOR" (Some ")") _ (so_inv _ _ H2)) as H3.
    assert (R1' : remaining (expect "PUNCTUATOR" (Some "(") (consume a)) <= r)
      by (apply remaining_step in H1; lia).
    destruct (carry _ _ r (step_trans _ _ _ H2 H3) O1 R1') as (I3 & O3 & R3).
    destruct (halts_at block _ _ (need (S r) 5)
                (expect "PUNCTUATOR" (Some ")") c) Hblk (block_mono _))
      as [d Hd]; unfold need; auto; try lia.
    rewrite (bind_eq _ _ _ Hd).
    destruct (value_in ["else"] d); [|eauto].
    pose proof (block_sound _ _ _ I3 Hd) as H4.
    pose proof (expect_step "KEYWORD" (Some "else") _ (so_inv _ _ H4)) as H5.
    destruct (carry _ _ r (step_trans _ _ _ H4 H5) O3 R3) as (I5 & O5 & R5).
    apply (halts_at block _ _ _ _ Hblk (block_mono _));
      unfold need; auto; try lia. }
  assert (Hst : halts statement (need r 7) r).
  { intros a HI Hok Hr.
    replace (need r 7) with (S (need r 6)) by (unfold need; lia).
    cbn [statement].
    destruct (current_token a) as [[ty v]|] eqn:Hc; [|eauto].
    case_goal Hty.
    { destruct (halts_at _ _ _ (need r 6) a (declaration_statement_halts r)
                  (declaration_statement_mono _)) as [b Hb];
        unfold need; auto; try lia.
      rewrite (bind_eq _ _ _ Hb). eauto. }
    case_goal Hid.
    { case_goal Hlt; [|eauto].
      case_goal Heq.
      { destruct (halts_at _ _ _ (need r 6) a (assignment_statement_halts r)
                    (assignment_statement_mono _)) as [b Hb];
          unfold need; auto; try lia.
        rewrite (bind_eq _ _ _ Hb). eauto. }
      case_goal Hop; [|eauto].
      destruct (halts_at _ _ _ (need r 6) a (output_statement_halts r)
                  (output_statement_mono _)) as [b Hb];
        unfold need; auto; try lia.
      rewrite (bind_eq _ _ _ Hb). eauto. }
    case_goal Hkw.
    { apply andb_prop in Hkw as [Hk Hv].
      apply String.eqb_eq in Hk, Hv. subst. now apply Hif. }
    case_goal Hret; [|eauto].
    destruct (halts_at _ _ _ (need r 6) a (return_statement_halts r)
                (return_statement_mono _)) as [b Hb];
      unfold need; auto; try lia.
    rewrite (bind_eq _ _ _ Hb). eauto. }
  assert (Hsl : halts statement_list (need r 8) r).
  { intros a HI Hok Hr.
    replace (need r 8) with (S (need r 7)) by (unfold need; lia).
    cbn [statement_list].
    destruct (current_token a) as [[ty v]|] eqn:Hc; [|eauto].
    destruct (negb _); [|eauto].
    destruct (Hst a HI Hok Hr) as [b Hb]. rewrite (bind_eq _ _ _ Hb).
    destruct (has_errors b) eqn:He; [eauto|].
    pose proof (statement_progress _ _ _ _ HI Hc Hb He) as Hlt.
    pose proof (statement_sound _ _ _ HI Hb) as H1.
    pose proof (current_in_range _ _ HI Hc) as Hin.
    destruct r as [|r]; [unfold remaining in Hr; lia|].
    destruct (IH r (Nat.lt_succ_diag_r r)) as (_ & _ & Hsl & _).
    apply (halts_at statement_list _ _ _ _ Hsl (statement_list_mono _));
      unfold need; eauto with walker; try lia.
    - now rewrite (so_tokens _ _ H1).
    - unfold remaining in *. rewrite (so_tokens _ _ H1). lia. }
  split; [assumption|]. split; [assumption|]. split; [assumption|].
  intros a HI Hok Hr.
  replace (need r 9) with (S (need r 8)) by (unfold need; lia).
  cbn [block].
  pose proof (expect_step "PUNCTUATOR" (Some "{") a HI) as H0.
  destruct (carry _ _ r H0 Hok Hr) as (I0 & O0 & R0).
  destruct (Hsl _ I0 O0 R0) as [b Hb]. rewrite (bind_eq _ _ _ Hb). eauto.
Qed.

Lemma program_halts (r : nat) : halts program (need r 9) r.
Proof.
  intros a HI Hok Hr. unfold program, function_definition.
  pose proof (type_step a HI) as H0.
  pose proof (expect_step "IDENTIFIER" None _ (so_inv _ _ H0)) as H1.
  pose proof (expect_step "PUNCTUATOR" (Some "(") _ (so_inv _ _ H1)) as H2.
  pose proof (expect_step "PUNCTUATOR" (Some ")") _ (so_inv _ _ H2)) as H3.
  destruct (carry _ _ r
              (step_trans _ _ _ H0
                 (step_trans _ _ _ H1 (step_trans _ _ _ H2 H3))) Hok Hr)
    as (I & O & R).
  now apply statement_group_halts.
Qed.

Lemma unbounded_parse_total (toks : list token) (fuel : nat) :
  Forall lexeme_ok toks -> need (List.length toks) 9 <= fuel ->
  exists v b, unbounded_parse fuel toks = Some (v, b).
Proof.
  intros Hok Hle.
  destruct (program_halts (List.length toks) (init toks)) as [b Hb].
  - apply init_inv.
  - assumption.
  - unfold remaining; simpl. lia.
  - exists (negb (has_errors (after_program b))), (after_program b).
    unfold unbounded_parse. unfold program, function_definition in *.
    rewrite (bind_eq _ _ _ (block_mono _ _ _ _ Hle Hb)). reflexivity.
Qed.

(* ================================================================== *)
(** ** Regular expressions: how much and what a match consumes *)

Section MatcherFacts.

Variable t : string.

Lemma star_advances step : advances 0 step ->
  forall fuel, advances 0 (fun i k => star step fuel i k).
Proof.
  intros Hstep fuel. induction fuel as [|f IH]; intros i k e H; simpl in H.
  - exists i. split; [lia|assumption].
  - destruct (step i _) as [e'|] eqn:Hs.
    + inv_some. apply Hstep in Hs as (j & Hj & Hk).
      destruct (i <? j); [|discriminate].
      apply IH in Hk as (j' & Hj' & Hk'). exists j'. split; [lia|assumption].
    + exists i. split; [lia|assumption].
Qed.

Lemma lazy_star_advances step : advances 0 step ->
  forall fuel, advances 0 (fun i k => lazy_star step fuel i k).
Proof.
  intros Hstep fuel. induction fuel as [|f IH]; intros i k e H; simpl in H.
  - exists i. split; [lia|assumption].
  - destruct (k i) as [e'|] eqn:Hk.
    + inv_some. exists i. split; [lia|assumption].
    + apply Hstep in H as (j & Hj & Hk').
      destruct (i <? j); [|discriminate].
      apply IH in Hk' as (j' & Hj' & Hk''). exists j'. split; [lia|assumption].
Qed.

Lemma advances_weaken n step : advances n step -> advances 0 step.
Proof.
  intros H i k e Hs. apply H in Hs as (j & Hj & Hk). exists j. split; [lia|auto].
Qed.

Lemma run_advances (r : regex) : advances (min_len r) (run t r).
Proof.
  induction r as [ |c|p| |a IHa b IHb|a IHa b IHb|a IHa|a IHa];
    intros i k e H; cbn [run] in H.
  - exists i. split; [simpl; lia|assumption].
  - destruct (get i t) as [d|]; [|discriminate].
    destruct (Ascii.eqb c d); [|discriminate].
    exists (S i). split; [simpl; lia|assumption].
  - destruct (get i t) as [d|]; [|discriminate].
    destruct (p d); [|discriminate].
    exists (S i). split; [simpl; lia|assumption].
  - destruct (at_boundary t i); [|discriminate].
    exists i. split; [simpl; lia|assumption].
  - apply IHa in H as (j & Hj & H). apply IHb in H as (j' & Hj' & H).
    exists j'. split; [simpl; lia|assumption].
  - destruct (run t a i k) as [e'|] eqn:Ha.
    + inv_some. apply IHa in Ha as (j & Hj & H).
      exists j. split; [simpl; lia|assumption].
    + apply IHb in H as (j & Hj & H).
      exists j. split; [simpl; lia|assumption].
  - eapply (star_advances _ (advances_weaken _ _ IHa)); eassumption.
  - eapply (lazy_star_advances _ (advances_weaken _ _ IHa)); eassumption.
Qed.

Lemma run_starts (r : regex) : starts t (nullable r) (first r) (run t r).
Proof.
  induction r as [ |c|p| |a IHa b IHb|a IHa b IHb|a IHa|a IHa];
    intros i k e H; cbn [run] in H; simpl.
  - auto.
  - destruct (get i t) as [d|]; [|discriminate].
    destruct (Ascii.eqb c d) eqn:E; [|discriminate]. right. eauto.
  - destruct (get i t) as [d|]; [|discriminate].
    destruct (p d) eqn:E; [|discriminate]. right. eauto.
  - destruct (at_boundary t i); [|discriminate]. auto.
  - apply IHa in H as [(Hn & H)|(c & Hc & Hf)].
    + apply IHb in H as [(Hn' & H)|(c & Hc & Hf)].
      * left. rewrite Hn, Hn'. auto.
      * right. exists c. rewrite Hn, Hf. split; [assumption|].
        now rewrite orb_true_r.
    + right. exists c. rewrite Hf. auto.
  - destruct (run t a i k) as [e'|] eqn:Ha.
    + inv_some. apply IHa in Ha as [(Hn & H)|(c & Hc & Hf)].
      * left. rewrite Hn. auto.
      * right. exists c. rewrite Hf. auto.
    + apply IHb in H as [(Hn & H)|(c & Hc & Hf)].
      * left. rewrite Hn, orb_true_r. auto.
      * right. exists c. rewrite Hf, orb_true_r. auto.
  - simpl in H. destruct (run t a i _) as [e'|] eqn:Ha.
    + inv_some. apply IHa in Ha as [(Hn & H)|(c & Hc & Hf)].
      * rewrite Nat.ltb_irrefl in H. discriminate.
      * right. eauto.
    + auto.
  - simpl in H. destruct (k i) as [e'|] eqn:Hk.
    + inv_some. auto.
    + apply IHa in H as [(Hn & H)|(c & Hc & Hf)].
      * rewrite Nat.ltb_irrefl in H. discriminate.
      * right. eauto.
Qed.

Lemma get_in_range (i : nat) (c : ascii) :
  get i t = Some c -> i < String.length t.
Proof.
  revert i. induction t as [|d s IH]; intros [|i] H; simpl in *;
    try discriminate; try lia.
  apply IH in H. lia.
Qed.

Lemma star_local step fuel : local_step t step -> local_step t (star step fuel).
Proof.
  intros Hstep. induction fuel as [|f IH]; intros i k1 k2 Hi Hk; simpl.
  - now apply Hk.
  - rewrite (Hstep i _ (fun j => if i <? j then star step f j k2 else None));
      [now rewrite (Hk i Hi)|assumption|].
    intros j Hj. destruct (i <? j); [now apply IH|reflexivity].
Qed.

Lemma lazy_star_local step fuel :
  local_step t step -> local_step t (lazy_star step fuel).
Proof.
  intros Hstep. induction fuel as [|f IH]; intros i k1 k2 Hi Hk; simpl.
  - now apply Hk.
  - rewrite (Hk i Hi). destruct (k2 i); [reflexivity|].
    apply Hstep; [assumption|].
    intros j Hj. destruct (i <? j); [now apply IH|reflexivity].
Qed.

(** The matcher never calls its continuation past the end of the
    subject. *)
Lemma run_local (r : regex) : local_step t (run t r).
Proof.
  induction r as [ |c|p| |a IHa b IHb|a IHa b IHb|a IHa|a IHa];
    intros i k1 k2 Hi Hk; cbn [run].
  - now apply Hk.
  - destruct (get i t) as [d|] eqn:Hg; [|reflexivity].
    apply get_in_range in Hg. destruct (Ascii.eqb c d); [|reflexivity].
    apply Hk. lia.
  - destruct (get i t) as [d|] eqn:Hg; [|reflexivity].
    apply get_in_range in Hg. destruct (p d); [|reflexivity].
    apply Hk. lia.
  - destruct (at_boundary t i); [now apply Hk|reflexivity].
  - apply IHa; [assumption|]. intros j Hj. now apply IHb.
  - rewrite (IHa i k1 k2 Hi Hk), (IHb i k1 k2 Hi Hk). reflexivity.
  - now apply star_local.
  - now apply lazy_star_local.
Qed.

(** Any fuel above the number of characters left gives the same
    repetition: the fuel of [star] is never what stops it. *)
Lemma star_fuel step (k : nat -> option nat) :
  local_step t step ->
  forall d i f1 f2,
    i <= String.length t -> String.length t - i <= d -> d < f1 -> d < f2 ->
    star step f1 i k = star step f2 i k.
Proof.
  intros Hstep. induction d as [|d IH]; intros i f1 f2 Hi Hd H1 H2;
    (destruct f1 as [|f1]; [lia|]); (destruct f2 as [|f2]; [lia|]); simpl.
  - rewrite (Hstep i _ (fun j => if i <? j then star step f2 j k else None));
      [reflexivity|assumption|].
    intros j Hj. destruct (Nat.ltb_spec i j); [lia|reflexivity].
  - rewrite (Hstep i _ (fun j => if i <? j then star step f2 j k else None));
      [reflexivity|assumption|].
    intros j Hj. destruct (Nat.ltb_spec i j); [|reflexivity].
    apply IH; lia.
Qed.

(** Greedy repetition, read without fuel: one more round and then the
    repetition again, or else the continuation. *)
Lemma star_unfold (a : regex) (i : nat) (k : nat -> option nat) :
  i <= String.length t ->
  run t (Star a) i k =
  match run t a i (fun j => if i <? j then run t (Star a) j k else None) with
  | Some e => Some e
  | None => k i
  end.
Proof.
  intros Hi. cbn [run]. cbn [star].
  rewrite (run_local a i _
             (fun j => if i <? j
                       then star (run t a) (S (String.length t - j)) j k
                       else None)); [reflexivity|assumption|].
  intros j Hj. destruct (Nat.ltb_spec i j); [|reflexivity].
  apply (star_fuel _ _ (run_local a) (String.length t - j)); lia.
Qed.

End MatcherFacts.

Lemma run_end_in_range (t : string) (r : regex) (i e : nat) :
  i <= String.length t -> run t r i Some = Some e -> e <= String.length t.
Proof.
  intros Hi H.
  rewrite (run_local t r i Some
             (fun j => if j <=? String.length t then Some j else None))
    in H; [|assumption|].
  - apply run_advances in H as (j & _ & Hj).
    destruct (Nat.leb_spec j (String.length t)); [|discriminate].
    inv_some. assumption.
  - intros j Hj. apply Nat.leb_le in Hj. now rewrite Hj.
Qed.

(** Likewise for the substitution loop: any fuel above the number of
    characters left gives the same text. *)
Lemma sub_loop_fuel (pattern : regex) (s : string) :
  forall d pos f1 f2,
    pos <= String.length s -> String.length s - pos <= d ->
    d < f1 -> d < f2 ->
    sub_loop f1 pattern s pos = sub_loop f2 pattern s pos.
Proof.
  induction d as [|d IH]; intros pos f1 f2 Hp Hd H1 H2;
    (destruct f1 as [|f1]; [lia|]); (destruct f2 as [|f2]; [lia|]);
    cbn [sub_loop].
  - destruct (get pos s) as [c|] eqn:Hg;
      [apply get_in_range in Hg; lia|].
    destruct (run s pattern pos Some) as [e|] eqn:Hr; [|reflexivity].
    apply run_end_in_range in Hr; [|assumption].
    destruct (Nat.ltb_spec pos e); [lia|reflexivity].
  - assert (Hkeep :
        match get pos s with
        | Some c => String c (sub_loop f1 pattern s (S pos))
        | None => EmptyString
        end =
        match get pos s with
        | Some c => String c (sub_loop f2 pattern s (S pos))
        | None => EmptyString
        end).
    { destruct (get pos s) as [c|] eqn:Hg; [|reflexivity].
      apply get_in_range in Hg. f_equal. apply IH; lia. }
    destruct (run s pattern pos Some) as [e|] eqn:Hr; [|exact Hkeep].
    apply run_end_in_range in Hr; [|assumption].
    destruct (Nat.ltb_spec pos e); [|exact Hkeep].
    apply IH; lia.
Qed.

Lemma re_match_min_len (r : regex) (s : string) (e : nat) :
  re_match r s = Some e -> min_len r <= e.
Proof.
  unfold re_match. intros H. apply run_advances in H as (j & Hj & H).
  inv_some. lia.
Qed.

Lemma re_match_first (r : regex) (s : string) (e : nat) :
  re_match r s = Some e -> nullable r = false ->
  exists c rest, s = String c rest /\ first r c = true.
Proof.
  unfold re_match. intros H Hn. apply run_starts in H as [(Hn' & _)|(c & Hc & Hf)].
  - congruence.
  - destruct s as [|d rest]; [discriminate|]. simpl in Hc. inv_some. eauto.
Qed.

(* ================================================================== *)
(** ** The scanner makes progress and classifies consistently *)

Lemma slice_join (n : nat) (s : string) : slice_to n s ++ slice_from n s = s.
Proof.
  revert s. induction n as [|n IH]; intros [|c s]; simpl; try reflexivity.
  now rewrite IH.
Qed.

Lemma slice_from_length (n : nat) (s : string) :
  String.length (slice_from n s) = String.length s - n.
Proof.
  revert s. induction n as [|n IH]; intros [|c s]; simpl; auto.
Qed.

Lemma slice_to_length (n : nat) (s : string) :
  String.length (slice_to n s) = Nat.min n (String.length s).
Proof.
  revert s. induction n as [|n IH]; intros [|c s]; simpl; auto.
Qed.

Lemma lstrip_length (s : string) :
  String.length (lstrip s) <= String.length s.
Proof.
  induction s as [|c s IH]; simpl; [lia|].
  destruct (is_space c); simpl; lia.
Qed.

Lemma is_empty_length (s : string) :
  is_empty s = false -> 1 <= String.length s.
Proof. destruct s; simpl; [discriminate|lia]. Qed.

Lemma lexeme_ok_by_first (name : string) (r : regex) :
  1 <= min_len r -> nullable r = false ->
  (forall c, special c = true -> first r c = false) ->
  rule_ok (name, r).
Proof.
  intros Hmin Hnul Hfirst s e H; simpl in *.
  pose proof (re_match_min_len _ _ _ H) as He.
  split; [lia|].
  destruct (re_match_first _ _ _ H Hnul) as (c & rest & -> & Hc).
  destruct e as [|e]; [lia|]. simpl.
  unfold lexeme_ok; simpl.
  repeat split; intros Heq; inversion Heq; subst;
    rewrite Hfirst in Hc by reflexivity; discriminate.
Qed.

Lemma special_cases (P : ascii -> Prop) :
  P ","%char -> P "("%char -> P "<"%char ->
  forall c, special c = true -> P c.
Proof.
  intros H1 H2 H3 c Hc. unfold special, one_of in Hc. simpl in Hc.
  repeat rewrite orb_true_iff in Hc.
  destruct Hc as [Hc|[Hc|[Hc|Hc]]]; try discriminate;
    apply Ascii.eqb_eq in Hc; subst; assumption.
Qed.

Lemma TOKEN_TYPES_ok :
  Forall (fun rule => is_comment_type (fst rule) = true \/ rule_ok rule)
         TOKEN_TYPES.
Proof.
  unfold TOKEN_TYPES.
  repeat (apply Forall_cons; [|]); try apply Forall_nil;
    try (left; reflexivity); right.
  - apply lexeme_ok_by_first; [vm_compute; lia|reflexivity|].
    apply special_cases; reflexivity.
  - apply lexeme_ok_by_first; [vm_compute; lia|reflexivity|].
    apply special_cases; reflexivity.
  - apply lexeme_ok_by_first; [vm_compute; lia|reflexivity|].
    apply special_cases; reflexivity.
  - apply lexeme_ok_by_first; [vm_compute; lia|reflexivity|].
    apply special_cases; reflexivity.
  - apply lexeme_ok_by_first; [vm_compute; lia|reflexivity|].
    apply special_cases; reflexivity.
  - (* OPERATOR: may begin with [<]; commas and parentheses are excluded *)
    intros s e H; simpl in *.
    pose proof (re_match_min_len _ _ _ H) as He.
    assert (Hmin : min_len OPERATOR_re = 1) by reflexivity.
    split; [lia|].
    destruct (re_match_first _ _ _ H eq_refl) as (c & rest & -> & Hc).
    destruct e as [|e]; [lia|]. unfold lexeme_ok; simpl.
    repeat split; intros Heq; inversion Heq; subst; discriminate.
  - (* PUNCTUATOR: one character, so never [<<] *)
    intros s e H; simpl in *. unfold re_match, PUNCTUATOR_re in H.
    cbn [run] in H. destruct s as [|c s]; [discriminate|]. simpl in H.
    destruct (one_of _ c); [|discriminate]. inv_some.
    split; [lia|]. unfold lexeme_ok; simpl.
    repeat split; intros Heq; destruct s; discriminate.
  - apply lexeme_ok_by_first; [vm_compute; lia|reflexivity|].
    apply special_cases; reflexivity.
Qed.

Lemma first_match_ok (rules : list (string * regex)) (s name : string)
      (e : nat) :
  Forall (fun rule => is_comment_type (fst rule) = true \/ rule_ok rule) rules ->
  first_match rules s = Some (name, e) ->
  1 <= e /\ lexeme_ok (name, slice_to e s).
Proof.
  induction 1 as [|[n r] rules Hr _ IH]; intros H; simpl in H; [discriminate|].
  destruct (is_comment_type n) eqn:Hcom; [auto|].
  destruct Hr as [Hr|Hr]; [simpl in Hr; congruence|].
  destruct (re_match r s) as [e'|] eqn:Hm; [|auto].
  inv_some. apply (Hr s e Hm).
Qed.

(** One round of the scanning loop on non-empty text: the token has a
    non-empty lexeme, lexeme and rest make up the text, and the rest is
    shorter; or exactly the first character is dropped. *)
Lemma scan_makes_progress (text : string) :
  is_empty text = false ->
  match scan text with
  | Emit (token_type, value) rest =>
      value <> "" /\ text = value ++ rest
      /\ String.length rest < String.length text
      /\ lexeme_ok (token_type, value)
  | Skip rest =>
      (exists c, text = String c rest)
      /\ String.length rest < String.length text
  end.
Proof.
  intros Hne. apply is_empty_length in Hne as Hlen. unfold scan.
  destruct (first_match TOKEN_TYPES text) as [[name e]|] eqn:Hm.
  - destruct (first_match_ok _ _ _ _ TOKEN_TYPES_ok Hm) as (He & Hok).
    split; [|split; [|split]].
    + intros Hv. apply (f_equal String.length) in Hv.
      rewrite slice_to_length in Hv. simpl in Hv. lia.
    + now rewrite slice_join.
    + rewrite slice_from_length. lia.
    + assumption.
  - destruct text as [|c rest]; [discriminate|]. simpl. split; [eauto|lia].
Qed.

Lemma tokenize_loop_total (fuel : nat) :
  forall text acc, String.length text < fuel ->
    exists toks, tokenize_loop fuel text acc = Some toks
      /\ (Forall nonempty_lexeme acc -> Forall nonempty_lexeme toks)
      /\ (Forall lexeme_ok acc -> Forall lexeme_ok toks).
Proof.
  induction fuel as [|fuel IH]; intros text acc Hlen; [lia|].
  cbn [tokenize_loop].
  destruct (is_empty text); [eauto|].
  pose proof (lstrip_length text) as Hstrip.
  destruct (is_empty (lstrip text)) eqn:Hne; [eauto|].
  pose proof (scan_makes_progress _ Hne) as Hscan.
  destruct (scan (lstrip text)) as [[name value] rest|rest].
  - destruct Hscan as (Hv & _ & Hlt & Hok).
    destruct (IH rest (acc ++ [(name, value)])%list) as (toks & Ht & Hn & Hl);
      [lia|].
    exists toks. split; [assumption|]. split; intros Hacc.
    + apply Hn, Forall_app. split; [assumption|]. now constructor.
    + apply Hl, Forall_app. split; [assumption|]. now constructor.
  - destruct Hscan as (_ & Hlt).
    apply IH. lia.
Qed.

(** The scanning loop only appends to the tokens it was given. *)
Lemma tokenize_loop_extends (fuel : nat) :
  forall text acc toks,
    tokenize_loop fuel text acc = Some toks ->
    exists l, toks = (acc ++ l)%list.
Proof.
  induction fuel as [|fuel IH]; intros text acc toks H; [discriminate|].
  cbn [tokenize_loop] in H.
  destruct (is_empty text); [inv_some; exists []; now rewrite app_nil_r|].
  destruct (is_empty (lstrip text));
    [inv_some; exists []; now rewrite app_nil_r|].
  destruct (scan (lstrip text)) as [tok rest|rest]; [|eauto].
  apply IH in H as [l ->]. exists (tok :: l). now rewrite <- app_assoc.
Qed.

Lemma tokenize_total (text : string) :
  exists toks, tokenize text = Some toks
    /\ Forall nonempty_lexeme toks /\ Forall lexeme_ok toks.
Proof.
  unfold tokenize, tokenize_fuel.
  destruct (tokenize_loop_total (S (String.length (strip_comments text)))
              (strip_comments text) []) as (toks & H & Hn & Hl); [lia|].
  exists toks. auto.
Qed.


(* ================================================================== *)
(** ** Properties of the walker and the scanner *)

(** C2. [match] on a current token of the expected category (and literal,
    when one is given) consumes exactly that token and logs nothing; in
    every other case it appends exactly one error and leaves the cursor
    and the current token as they were. *)
Theorem match_consumes_or_logs (expected_type : string)
        (expected_value : option string) (self : Parser) :
  (token_matches expected_type expected_value self ->
     match_ expected_type expected_value self = (true, consume self)
     /\ token_index (consume self) = token_index self + 1
     /\ errors (consume self) = errors self)
  /\ (~ token_matches expected_type expected_value self ->
      let after := snd (match_ expected_type expected_value self) in
      fst (match_ expected_type expected_value self) = false
      /\ token_index after = token_index self
      /\ current_token after = current_token self
      /\ exists line, errors after = (errors self ++ [line])%list).
Proof.
  split.
  - intros (v & Hc & Hv). split; [|split; reflexivity].
    eapply expect_consumes; eassumption.
  - intros Hno. unfold match_.
    destruct (current_token self) as [[ty v]|] eqn:Hc.
    + destruct (_ && _) eqn:Hb.
      * exfalso. apply Hno. apply andb_prop in Hb as [Ht Hv].
        apply String.eqb_eq in Ht. subst ty. exists v. split; [assumption|].
        destruct expected_value as [w|]; [|now left].
        apply String.eqb_eq in Hv. subst. now right.
      * simpl. repeat split; eauto.
    + simpl. repeat split; eauto.
Qed.

Lemma match_consumes_or_logs_witness :
  (match_ "PUNCTUATOR" (Some ";") (init [("PUNCTUATOR", ";")])
   = (true, consume (init [("PUNCTUATOR", ";")])))
  /\ (token_index
        (snd (match_ "PUNCTUATOR" (Some ";") (init [("PUNCTUATOR", "}")])))
      = 0).
Proof.
  split.
  - apply (match_consumes_or_logs "PUNCTUATOR" (Some ";")
             (init [("PUNCTUATOR", ";")])).
    exists ";". split; [reflexivity|now right].
  - apply (match_consumes_or_logs "PUNCTUATOR" (Some ";")
             (init [("PUNCTUATOR", "}")])).
    intros (v & Hc & [Hv|Hv]); simpl in *; congruence.
Defined.

(** C3, as the code has it.  An identifier followed by a token that is
    neither [=] nor the operator [<<] makes [statement] log one error and
    return with the cursor where it was; this is not the generic path, and
    neither is the error for an identifier that is the last token.  The
    generic path, taken on an unrecognized token, logs one error and then
    advances the cursor by one.  No other place that logs an error moves
    the cursor: [factor] on a token that cannot begin a factor logs only,
    and [match], [type], [compare_op] and [output_item] either log or
    consume, never both. *)
Theorem statement_error_paths (fuel : nat) (self : Parser) :
  (forall x next_type next_value,
     current_token self = Some ("IDENTIFIER", x) ->
     nth_error (tokens self) (token_index self + 1)
       = Some (next_type, next_value) ->
     next_value <> "=" ->
     ~ (next_type = "OPERATOR" /\ next_value = "<<") ->
     exists after,
       statement (S fuel) self = Some after
       /\ after = error "Expected AssignmentStatement or OutputStatement." self
       /\ token_index after = token_index self
       /\ current_token after = current_token self
       /\ exists line, errors after = (errors self ++ [line])%list)
  /\ (forall x,
        current_token self = Some ("IDENTIFIER", x) ->
        List.length (tokens self) <= token_index self + 1 ->
        exists after,
          statement (S fuel) self = Some after
          /\ token_index after = token_index self
          /\ exists line, errors after = (errors self ++ [line])%list)
  /\ (forall t,
        current_token self = Some t -> unrecognized t ->
        exists after,
          statement (S fuel) self = Some after
          /\ after = consume (error statement_error self)
          /\ token_index after = token_index self + 1
          /\ exists line, errors after = (errors self ++ [line])%list)
  /\ (current_token self = None
      \/ (exists t, current_token self = Some t /\ not_a_factor t) ->
      factor (S fuel) self = Some (error factor_error self))
  /\ (forall ty ev, logs_or_moves self (expect ty ev self))
  /\ logs_or_moves self (type self)
  /\ logs_or_moves self (compare_op self)
  /\ logs_or_moves self (output_item self).
Proof.
  split; [|split; [|split; [|split]]].
  - intros x nt nv Hc Hn Hne Hnop. eexists. cbn [statement]. rewrite Hc.
    replace ("IDENTIFIER" =? "KEYWORD")%string with false by reflexivity.
    rewrite String.eqb_refl. cbn [andb].
    assert (Hlt : token_index self + 1 < List.length (tokens self)).
    { apply nth_error_Some. rewrite Hn. discriminate. }
    apply Nat.ltb_lt in Hlt. rewrite Hlt.
    rewrite (nth_error_nth _ _ _ Hn). simpl.
    destruct (nv =? "=")%string eqn:E1;
      [apply String.eqb_eq in E1; contradiction|].
    destruct ((nt =? "OPERATOR")%string && (nv =? "<<")%string) eqn:E2.
    { apply andb_prop in E2 as [E2 E3]. apply String.eqb_eq in E2, E3.
      exfalso. auto. }
    repeat split; simpl; eauto.
  - intros x Hc Hlen. eexists. cbn [statement]. rewrite Hc.
    replace ("IDENTIFIER" =? "KEYWORD")%string with false by reflexivity.
    rewrite String.eqb_refl. cbn [andb].
    apply Nat.ltb_ge in Hlen. rewrite Hlen.
    repeat split; simpl; eauto.
  - intros [ty v] Hc (Hid & Hkw). simpl in Hid, Hkw. eexists. cbn [statement].
    rewrite Hc.
    destruct ((ty =? "KEYWORD")%string && mem v type_names) eqn:E1.
    { exfalso. apply andb_prop in E1 as [E1 E2]. apply String.eqb_eq in E1.
      apply Hkw. split; [assumption|]. unfold mem, type_names in E2.
      apply existsb_exists in E2 as (w & Hin & Hw).
      apply String.eqb_eq in Hw. subst w. simpl in *. intuition. }
    destruct (ty =? "IDENTIFIER")%string eqn:E2;
      [apply String.eqb_eq in E2; contradiction|].
    destruct ((ty =? "KEYWORD")%string && (v =? "if")%string) eqn:E3.
    { exfalso. apply andb_prop in E3 as [E3 E4]. apply String.eqb_eq in E3, E4.
      apply Hkw. subst. simpl. intuition. }
    destruct ((ty =? "KEYWORD")%string && (v =? "return")%string) eqn:E4.
    { exfalso. apply andb_prop in E4 as [E4 E5]. apply String.eqb_eq in E4, E5.
      apply Hkw. subst. simpl. intuition. }
    repeat split; simpl; eauto.
  - intros [Hc|([ty v] & Hc & H1 & H2 & H3 & H4)]; cbn [factor]; rewrite Hc;
      [reflexivity|]. simpl in H1, H2, H3, H4.
    apply String.eqb_neq in H1, H2, H3, H4. now rewrite H1, H2, H3, H4.
  - unfold logs_or_moves.
    repeat split; intros;
      unfold expect, match_, type, compare_op, output_item;
      destruct (current_token self) as [[ty' v]|]; simpl;
      repeat match goal with
             | |- context [if ?c then _ else _] => destruct c; simpl
             end; eauto.
Qed.

Lemma statement_error_paths_witness :
  (exists after,
     statement 1 stray_identifier = Some after
     /\ token_index after = 0)
  /\ (exists after,
        statement 1 (init [("PUNCTUATOR", ";")]) = Some after
        /\ token_index after = 1).
Proof.
  split.
  - destruct (proj1 (statement_error_paths 0 stray_identifier)
                "x" "PUNCTUATOR" ";" eq_refl eq_refl)
      as (after & H & _ & Hi & _).
    + discriminate.
    + intros [Ht _]. discriminate.
    + exists after. split; assumption.
  - destruct (proj1 (proj2 (proj2 (statement_error_paths 0
                                     (init [("PUNCTUATOR", ";")]))))
                ("PUNCTUATOR", ";") eq_refl)
      as (after & H & _ & Hi & _).
    + split; simpl; [discriminate|]. intros [Ht _]. discriminate.
    + exists after. split; assumption.
Defined.

(** C3 as stated fails: on the identifier [x] followed by [;] the walker
    logs the identifier error only, never enters the generic path, and
    the cursor does not move forward by one. *)
Lemma identifier_error_does_not_advance :
  current_token stray_identifier = Some ("IDENTIFIER", "x")
  /\ nth_error (tokens stray_identifier) (token_index stray_identifier + 1)
     = Some ("PUNCTUATOR", ";")
  /\ exists after,
       statement 1 stray_identifier = Some after
       /\ token_index after <> token_index stray_identifier + 1
       /\ token_index after = token_index stray_identifier
       /\ errors after =
          ["Syntax Error at token index 0: Expected AssignmentStatement or OutputStatement."]
       /\ after <> consume (error statement_error stray_identifier).
Proof.
  split; [reflexivity|]. split; [reflexivity|].
  eexists. split; [vm_compute; reflexivity|].
  split; [discriminate|]. split; [reflexivity|]. split; [reflexivity|].
  discriminate.
Qed.

(** C4. [statement_list] goes round only while a current token exists and
    its lexeme is not a closing brace; after a [statement] that leaves the
    error log non-empty it returns at once, so no further statement is
    tried at that level, and otherwise it goes round again. *)
Theorem statement_list_stops_at_first_error (fuel : nat) (self : Parser) :
  (current_token self = None \/ (exists ty, current_token self = Some (ty, "}")) ->
   statement_list (S fuel) self = Some self)
  /\ (forall ty v after,
        current_token self = Some (ty, v) -> v <> "}" ->
        statement fuel self = Some after ->
        (errors after <> [] -> statement_list (S fuel) self = Some after)
        /\ (errors after = [] ->
            statement_list (S fuel) self = statement_list fuel after)).
Proof.
  split.
  - intros [Hc|(ty & Hc)]; cbn [statement_list]; rewrite Hc; reflexivity.
  - intros ty v after Hc Hv Hs. cbn [statement_list]. rewrite Hc.
    assert (Hm : negb (mem v ["}"]) = true).
    { unfold mem; simpl. rewrite orb_false_r.
      destruct (v =? "}")%string eqn:E; [|reflexivity].
      apply String.eqb_eq in E. contradiction. }
    rewrite Hm, (bind_eq _ _ _ Hs). unfold has_errors.
    split; intros He; destruct (errors after); congruence.
Qed.

Lemma statement_list_stops_at_first_error_witness :
  statement_list 1 (init []) = Some (init [])
  /\ statement_list 2 (init [("PUNCTUATOR", ";"); ("KEYWORD", "int")])
     = Some (consume (error statement_error
                        (init [("PUNCTUATOR", ";"); ("KEYWORD", "int")]))).
Proof.
  split.
  - apply (statement_list_stops_at_first_error 0 (init [])). now left.
  - apply (proj2 (statement_list_stops_at_first_error 1
                    (init [("PUNCTUATOR", ";"); ("KEYWORD", "int")]))
             "PUNCTUATOR" ";").
    + reflexivity.
    + discriminate.
    + reflexivity.
    + discriminate.
Defined.

(** C6. When the keyword rule and the identifier rule both match at the
    start of the remaining text, the round emits the keyword rule's match
    with category [KEYWORD], which is not [IDENTIFIER]; the scanning loop
    appends that token and goes on behind it, so the token it contributes
    to the result at that place is the keyword; and the text [if] is
    scanned into the single token [<KEYWORD, if>]. *)
Theorem keyword_wins_over_identifier :
  (forall text e1 e2,
     re_match KEYWORD_re text = Some e1 ->
     re_match IDENTIFIER_re text = Some e2 ->
     scan text = Emit ("KEYWORD", slice_to e1 text) (slice_from e1 text)
     /\ "KEYWORD" <> "IDENTIFIER")
  /\ (forall fuel text acc e1 e2,
        re_match KEYWORD_re (lstrip text) = Some e1 ->
        re_match IDENTIFIER_re (lstrip text) = Some e2 ->
        tokenize_loop (S fuel) text acc
        = tokenize_loop fuel (slice_from e1 (lstrip text))
            (acc ++ [("KEYWORD", slice_to e1 (lstrip text))])
        /\ forall toks,
             tokenize_loop (S fuel) text acc = Some toks ->
             nth_error toks (List.length acc)
             = Some ("KEYWORD", slice_to e1 (lstrip text)))
  /\ tokenize "if" = Some [("KEYWORD", "if")].
Proof.
  assert (Hscan : forall text e1,
             re_match KEYWORD_re text = Some e1 ->
             scan text = Emit ("KEYWORD", slice_to e1 text) (slice_from e1 text)).
  { intros text e1 H. unfold scan, TOKEN_TYPES. cbn [first_match].
    replace (is_comment_type "KEYWORD") with false by reflexivity.
    now rewrite H. }
  split; [|split].
  - intros text e1 e2 H1 _. split; [now apply Hscan|discriminate].
  - intros fuel text acc e1 e2 H1 _.
    assert (Hne : is_empty (lstrip text) = false).
    { destruct (lstrip text); [vm_compute in H1; discriminate|reflexivity]. }
    assert (Hne' : is_empty text = false).
    { destruct text; [discriminate|reflexivity]. }
    assert (Heq : tokenize_loop (S fuel) text acc
                  = tokenize_loop fuel (slice_from e1 (lstrip text))
                      (acc ++ [("KEYWORD", slice_to e1 (lstrip text))])).
    { cbn [tokenize_loop]. now rewrite Hne', Hne, (Hscan _ _ H1). }
    split; [exact Heq|].
    intros toks Ht. rewrite Heq in Ht.
    apply tokenize_loop_extends in Ht as [l ->].
    rewrite <- app_assoc. rewrite nth_error_app2 by lia.
    now rewrite Nat.sub_diag.
  - vm_compute. reflexivity.
Qed.

Lemma keyword_wins_over_identifier_witness :
  scan "if" = Emit ("KEYWORD", "if") "" /\ "KEYWORD" <> "IDENTIFIER".
Proof.
  apply (proj1 keyword_wins_over_identifier "if" 2 2); vm_compute; reflexivity.
Defined.

Lemma apply_op_index (self : Parser) (op : cursor_op) :
  token_index self <= token_index (apply_op self op).
Proof.
  destruct op as [|ty ev]; simpl; [lia|].
  unfold expect, match_. destruct (current_token self) as [[ty' v]|]; simpl;
    [|lia]. destruct (_ && _); simpl; lia.
Qed.

(** C8. On every text [tokenize] returns, and no token it emits has an
    empty lexeme.  Each round of the scanning loop, on the non-empty text
    left after stripping white space, either emits a token whose lexeme is
    a non-empty prefix of the text and goes on with the rest, or drops
    exactly the first character; either way the text gets shorter. *)
Theorem tokenize_terminates_without_empty_tokens :
  (forall text,
     exists toks, tokenize text = Some toks
                  /\ Forall (fun t => snd t <> "") toks)
  /\ (forall text,
        is_empty text = false ->
        match scan text with
        | Emit (token_type, value) rest =>
            value <> "" /\ text = value ++ rest
            /\ String.length rest < String.length text
        | Skip rest =>
            (exists c, text = String c rest)
            /\ String.length rest < String.length text
        end)
  /\ (forall text, String.length (lstrip text) <= String.length text).
Proof.
  split; [|split].
  - intros text. destruct (tokenize_total text) as (toks & H & Hn & _).
    exists toks. split; assumption.
  - intros text Hne. pose proof (scan_makes_progress text Hne) as H.
    destruct (scan text) as [[ty v] rest|rest]; [|assumption].
    destruct H as (H1 & H2 & H3 & _). auto.
  - apply lstrip_length.
Qed.

Lemma tokenize_terminates_without_empty_tokens_witness :
  match scan "x = 5" with
  | Emit (token_type, value) rest =>
      value <> "" /\ "x = 5" = value ++ rest
      /\ String.length rest < String.length "x = 5"
  | Skip rest =>
      (exists c, "x = 5" = String c rest)
      /\ String.length rest < String.length "x = 5"
  end.
Proof.
  apply (proj1 (proj2 tokenize_terminates_without_empty_tokens) "x = 5").
  reflexivity.
Defined.


(* ================================================================== *)
(** ** What a clean step has read *)

Import Grammar.

Lemma hd_error_skipn {A : Type} (l : list A) (n : nat) :
  nth_error l n = hd_error (skipn n l).
Proof.
  revert l. induction n as [|n IH]; intros [|x l]; simpl; auto.
Qed.

Lemma skipn_cons_nth {A : Type} (l : list A) (n : nat) (x : A) :
  nth_error l n = Some x -> skipn n l = x :: skipn (n + 1) l.
Proof.
  revert l. induction n as [|n IH]; intros [|y l] H; simpl in *;
    try discriminate.
  - now inv_some.
  - now apply IH.
Qed.

Lemma rest_head (a : Parser) : Inv a -> current_token a = hd_error (rest a).
Proof. intros (Hc & _). rewrite Hc. apply hd_error_skipn. Qed.

Lemma rest_consume (a : Parser) (t : token) :
  Inv a -> current_token a = Some t -> rest a = t :: rest (consume a).
Proof.
  intros (Hc & _) Ht. unfold rest. simpl. apply skipn_cons_nth. congruence.
Qed.

Lemma rest_cons_current (a : Parser) (t : token) (r : list token) :
  Inv a -> rest a = t :: r ->
  current_token a = Some t /\ rest (consume a) = r.
Proof.
  intros HI Hr. pose proof (rest_head a HI) as Hc. rewrite Hr in Hc.
  simpl in Hc. split; [assumption|].
  pose proof (rest_consume a t HI Hc) as Hr'. congruence.
Qed.

Lemma rest_nil_current (a : Parser) :
  Inv a -> rest a = [] -> current_token a = None.
Proof. intros HI Hr. rewrite (rest_head a HI), Hr. reflexivity. Qed.

Lemma mem_In (v : string) (l : list string) : mem v l = true <-> In v l.
Proof.
  unfold mem. rewrite existsb_exists. split.
  - intros (w & Hin & Hw). apply String.eqb_eq in Hw. now subst.
  - intros Hin. exists v. split; [assumption|apply String.eqb_refl].
Qed.

Lemma errors_length_step (a b : Parser) :
  step_ok a b -> List.length (errors a) <= List.length (errors b).
Proof. intros [_ _ [l E] _ _]. rewrite E, length_app. lia. Qed.

Lemma clean_step (a b : Parser) :
  step_ok a b -> List.length (errors b) <= List.length (errors a) ->
  errors b = errors a.
Proof.
  intros [_ _ [l E] _ _] Hlen. rewrite E, length_app in Hlen.
  destruct l; [now rewrite E, app_nil_r|simpl in Hlen; lia].
Qed.

Lemma error_grows (msg : string) (a : Parser) :
  List.length (errors (error msg a)) = S (List.length (errors a)).
Proof. unfold error; simpl. rewrite length_app. simpl. lia. Qed.

Lemma expect_clean (ty : string) (ev : option string) (a : Parser) :
  List.length (errors (expect ty ev a)) <= List.length (errors a) ->
  exists v, current_token a = Some (ty, v)
            /\ (ev = None \/ ev = Some v)
            /\ expect ty ev a = consume a.
Proof.
  unfold expect, match_. destruct (current_token a) as [[ty' v]|].
  - destruct (_ && _) eqn:Hb; cbn [snd].
    + intros _. apply andb_prop in Hb as [Ht Hv].
      apply String.eqb_eq in Ht. subst ty'. exists v.
      split; [reflexivity|]. split; [|reflexivity].
      destruct ev as [w|]; [|now left].
      apply String.eqb_eq in Hv. subst. now right.
    + rewrite error_grows. lia.
  - cbn [snd]. rewrite error_grows. lia.
Qed.

Lemma type_clean (a : Parser) :
  List.length (errors (type a)) <= List.length (errors a) ->
  exists t, current_token a = Some t /\ is_type_token t /\ type a = consume a.
Proof.
  unfold type. destruct (current_token a) as [[ty v]|];
    [|rewrite error_grows; lia].
  destruct (_ && _) eqn:Hb; [|rewrite error_grows; lia].
  intros _. apply andb_prop in Hb as [Ht Hv]. apply String.eqb_eq in Ht.
  apply mem_In in Hv. exists (ty, v). repeat split; assumption.
Qed.

Lemma compare_op_clean (a : Parser) :
  List.length (errors (compare_op a)) <= List.length (errors a) ->
  exists t, current_token a = Some t /\ is_compare_op t
            /\ compare_op a = consume a.
Proof.
  unfold compare_op. destruct (current_token a) as [[ty v]|];
    [|rewrite error_grows; lia].
  destruct (_ && _) eqn:Hb; [|rewrite error_grows; lia].
  intros _. apply andb_prop in Hb as [Ht Hv]. apply String.eqb_eq in Ht.
  apply mem_In in Hv. exists (ty, v). repeat split; assumption.
Qed.

Lemma output_item_clean (a : Parser) :
  List.length (errors (output_item a)) <= List.length (errors a) ->
  exists t, current_token a = Some t /\ is_output_item t
            /\ output_item a = consume a.
Proof.
  unfold output_item. destruct (current_token a) as [[ty v]|];
    [|rewrite error_grows; lia].
  destruct (ty =? "STRING_LITERAL")%string eqn:E1.
  { intros _. apply String.eqb_eq in E1. exists (ty, v).
    split; [reflexivity|]. split; [now left|reflexivity]. }
  destruct (ty =? "IDENTIFIER")%string eqn:E2; [|rewrite error_grows; lia].
  intros _. apply String.eqb_eq in E2. exists (ty, v).
  split; [reflexivity|]. split; [now right|].
  now destruct (v =? "endl")%string.
Qed.

(** Record, for every step in the context, that the log did not shrink. *)
Ltac log_lengths :=
  repeat match goal with
         | H : step_ok ?x ?y |- _ =>
             lazymatch goal with
             | _ : List.length (errors x) <= List.length (errors y) |- _ => fail
             | _ => pose proof (errors_length_step x y H)
             end
         end.

(* ================================================================== *)
(** ** A clean walk reads a phrase of the grammar *)

Lemma identifier_list_loop_derives f :
  derives IdentifierTail identifier_list_loop f.
Proof.
  unfold derives. induction f as [|f IH]; intros a b HI H He; [discriminate|].
  cbn [identifier_list_loop] in H.
  destruct (value_in [","] a) eqn:Hv;
    [|inv_some; exists []; split; [constructor|reflexivity]].
  pose proof (expect_step "PUNCTUATOR" (Some ",") a HI) as H1.
  pose proof (expect_step "IDENTIFIER" None _ (so_inv _ _ H1)) as H2.
  pose proof (identifier_list_loop_sound _ _ _ (so_inv _ _ H2) H) as H3.
  apply (f_equal (@List.length string)) in He. log_lengths.
  destruct (expect_clean "PUNCTUATOR" (Some ",") a) as (v & Hc & Hev & E1);
    [lia|]. destruct Hev as [Hev|Hev]; [discriminate|]. inv_some.
  rewrite E1 in *.
  destruct (expect_clean "IDENTIFIER" None (consume a)) as (w & Hc2 & _ & E2);
    [lia|]. rewrite E2 in *.
  destruct (IH _ _ (so_inv _ _ H2) H) as (ts & Hts & Hr);
    [apply clean_step; [assumption|lia]|].
  exists (comma :: ("IDENTIFIER", w) :: ts). split.
  - constructor; [reflexivity|assumption].
  - rewrite (rest_consume a _ HI Hc).
    rewrite (rest_consume _ _ (so_inv _ _ H1) Hc2), Hr. reflexivity.
Qed.

Lemma declaration_statement_derives f :
  derives DeclarationStatement declaration_statement f.
Proof.
  intros a b HI H He. unfold declaration_statement, identifier_list in H.
  pose proof (type_step a HI) as H1.
  pose proof (expect_step "IDENTIFIER" None _ (so_inv _ _ H1)) as H2.
  pose proof (identifier_list_loop_sound _ _ _ (so_inv _ _ H2) H) as H3.
  apply (f_equal (@List.length string)) in He. log_lengths.
  destruct (type_clean a) as (t & Hc & Ht & E1); [lia|]. rewrite E1 in *.
  destruct (expect_clean "IDENTIFIER" None (consume a)) as (w & Hc2 & _ & E2);
    [lia|]. rewrite E2 in *.
  destruct (identifier_list_loop_derives _ _ _ (so_inv _ _ H2) H)
    as (ts & Hts & Hr); [apply clean_step; [assumption|lia]|].
  exists (t :: ("IDENTIFIER", w) :: ts). split.
  - constructor; [assumption|]. constructor; [reflexivity|assumption].
  - rewrite (rest_consume a _ HI Hc).
    rewrite (rest_consume _ _ (so_inv _ _ H1) Hc2), Hr. reflexivity.
Qed.

Lemma output_list_loop_derives f : derives OutputTail output_list_loop f.
Proof.
  unfold derives. induction f as [|f IH]; intros a b HI H He; [discriminate|].
  cbn [output_list_loop] in H.
  destruct (value_in ["<<"] a) eqn:Hv;
    [|inv_some; exists []; split; [constructor|reflexivity]].
  pose proof (expect_step "OPERATOR" (Some "<<") a HI) as H1.
  pose proof (output_item_step _ (so_inv _ _ H1)) as H2.
  pose proof (output_list_loop_sound _ _ _ (so_inv _ _ H2) H) as H3.
  apply (f_equal (@List.length string)) in He. log_lengths.
  destruct (expect_clean "OPERATOR" (Some "<<") a) as (v & Hc & Hev & E1);
    [lia|]. destruct Hev as [Hev|Hev]; [discriminate|]. inv_some.
  rewrite E1 in *.
  destruct (output_item_clean (consume a)) as (t & Hc2 & Ht & E2); [lia|].
  rewrite E2 in *.
  destruct (IH _ _ (so_inv _ _ H2) H) as (ts & Hts & Hr);
    [apply clean_step; [assumption|lia]|].
  exists (shift :: t :: ts). split.
  - constructor; assumption.
  - rewrite (rest_consume a _ HI Hc).
    rewrite (rest_consume _ _ (so_inv _ _ H1) Hc2), Hr. reflexivity.
Qed.

Lemma output_statement_derives f : derives OutputStatement output_statement f.
Proof.
  intros a b HI H He. unfold output_statement, output_list in H.
  pose proof (expect_step "IDENTIFIER" None a HI) as H0.
  pose proof (expect_step "OPERATOR" (Some "<<") _ (so_inv _ _ H0)) as H1.
  pose proof (output_item_step _ (so_inv _ _ H1)) as H2.
  pose proof (output_list_loop_sound _ _ _ (so_inv _ _ H2) H) as H3.
  apply (f_equal (@List.length string)) in He. log_lengths.
  destruct (expect_clean "IDENTIFIER" None a) as (w & Hc0 & _ & E0); [lia|].
  rewrite E0 in *.
  destruct (expect_clean "OPERATOR" (Some "<<") (consume a))
    as (v & Hc & Hev & E1); [lia|].
  destruct Hev as [Hev|Hev]; [discriminate|]. inv_some. rewrite E1 in *.
  destruct (output_item_clean (consume (consume a))) as (t & Hc2 & Ht & E2);
    [lia|]. rewrite E2 in *.
  destruct (output_list_loop_derives _ _ _ (so_inv _ _ H2) H)
    as (ts & Hts & Hr); [apply clean_step; [assumption|lia]|].
  exists (("IDENTIFIER", w) :: shift :: t :: ts). split.
  - constructor; [reflexivity|]. constructor; assumption.
  - rewrite (rest_consume a _ HI Hc0).
    rewrite (rest_consume _ _ (so_inv _ _ H0) Hc).
    rewrite (rest_consume _ _ (so_inv _ _ H1) Hc2), Hr. reflexivity.
Qed.

Lemma atom_types (ty v : string) :
  (ty =? "IDENTIFIER")%string || (ty =? "CONSTANT_INT")%string
  || (ty =? "CONSTANT_FLOAT")%string = true <-> is_atom (ty, v).
Proof.
  unfold is_atom; simpl. rewrite !orb_true_iff, !String.eqb_eq. tauto.
Qed.

Lemma expression_group_derives (f : nat) :
  derives Expression expression f
  /\ derives ExpressionTail expression_loop f
  /\ derives Term term f /\ derives TermTail term_loop f
  /\ derives Factor factor f.
Proof.
  unfold derives. induction f as [|f (IHe & IHel & IHt & IHtl & IHf)].
  { repeat split; intros; discriminate. }
  destruct (expression_group_sound f) as (Se & Sel & St & Stl & Sf).
  split; [|split; [|split; [|split]]]; intros a b HI H He;
    apply (f_equal (@List.length string)) in He.
  - cbn [expression] in H. unbind H.
    pose proof (St _ _ HI Hs) as H1.
    pose proof (Sel _ _ (so_inv _ _ H1) H) as H2. log_lengths.
    destruct (IHt _ _ HI Hs) as (ts & Hts & Hr);
      [apply clean_step; [assumption|lia]|].
    destruct (IHel _ _ (so_inv _ _ H1) H) as (us & Hus & Hr');
      [apply clean_step; [assumption|lia]|].
    exists (ts ++ us)%list. split; [now constructor|].
    now rewrite Hr, Hr', app_assoc.
  - cbn [expression_loop] in H.
    destruct (value_in ["+"; "-"] a) eqn:Hv;
      [|inv_some; exists []; split; [constructor|reflexivity]].
    unfold value_in in Hv.
    destruct (current_token a) as [[ty v]|] eqn:Hc; [|discriminate].
    apply mem_In in Hv. unbind H.
    pose proof (consume_step _ _ HI Hc) as H0.
    pose proof (St _ _ (so_inv _ _ H0) Hs) as H1.
    pose proof (Sel _ _ (so_inv _ _ H1) H) as H2. log_lengths.
    simpl in *.
    destruct (IHt _ _ (so_inv _ _ H0) Hs) as (ts & Hts & Hr);
      [apply clean_step; [assumption|simpl; lia]|].
    destruct (IHel _ _ (so_inv _ _ H1) H) as (us & Hus & Hr');
      [apply clean_step; [assumption|lia]|].
    exists ((ty, v) :: ts ++ us)%list. split; [now constructor|].
    rewrite (rest_consume a _ HI Hc), Hr, Hr'. simpl. now rewrite app_assoc.
  - cbn [term] in H. unbind H.
    pose proof (Sf _ _ HI Hs) as H1.
    pose proof (Stl _ _ (so_inv _ _ H1) H) as H2. log_lengths.
    destruct (IHf _ _ HI Hs) as (ts & Hts & Hr);
      [apply clean_step; [assumption|lia]|].
    destruct (IHtl _ _ (so_inv _ _ H1) H) as (us & Hus & Hr');
      [apply clean_step; [assumption|lia]|].
    exists (ts ++ us)%list. split; [now constructor|].
    now rewrite Hr, Hr', app_assoc.
  - cbn [term_loop] in H.
    destruct (value_in ["*"; "/"] a) eqn:Hv;
      [|inv_some; exists []; split; [constructor|reflexivity]].
    unfold value_in in Hv.
    destruct (current_token a) as [[ty v]|] eqn:Hc; [|discriminate].
    apply mem_In in Hv. unbind H.
    pose proof (consume_step _ _ HI Hc) as H0.
    pose proof (Sf _ _ (so_inv _ _ H0) Hs) as H1.
    pose proof (Stl _ _ (so_inv _ _ H1) H) as H2. log_lengths.
    simpl in *.
    destruct (IHf _ _ (so_inv _ _ H0) Hs) as (ts & Hts & Hr);
      [apply clean_step; [assumption|simpl; lia]|].
    destruct (IHtl _ _ (so_inv _ _ H1) H) as (us & Hus & Hr');
      [apply clean_step; [assumption|lia]|].
    exists ((ty, v) :: ts ++ us)%list. split; [now constructor|].
    rewrite (rest_consume a _ HI Hc), Hr, Hr'. simpl. now rewrite app_assoc.
  - cbn [factor] in H.
    destruct (current_token a) as [[ty v]|] eqn:Hc;
      [|inv_some; rewrite error_grows in He; lia].
    case_if H Hat.
    { inv_some. apply atom_types with (v := v) in Hat.
      exists [(ty, v)]. split; [now constructor|].
      now rewrite (rest_consume a _ HI Hc). }
    case_if H Hp; [|inv_some; rewrite error_grows in He; lia].
    unbind H. inv_some.
    pose proof (expect_step "PUNCTUATOR" (Some "(") a HI) as H0.
    pose proof (Se _ _ (so_inv _ _ H0) Hs) as H1.
    pose proof (expect_step "PUNCTUATOR" (Some ")") _ (so_inv _ _ H1)) as H2.
    log_lengths.
    destruct (expect_clean "PUNCTUATOR" (Some "(") a) as (w & Hc' & Hev & E1);
      [lia|]. destruct Hev as [Hev|Hev]; [discriminate|]. inv_some.
    rewrite E1 in *.
    destruct (expect_clean "PUNCTUATOR" (Some ")") s) as (w & Hc2 & Hev & E2);
      [lia|]. destruct Hev as [Hev|Hev]; [discriminate|]. inv_some.
    rewrite E2 in *.
    destruct (IHe _ _ (so_inv _ _ H0) Hs) as (ts & Hts & Hr);
      [apply clean_step; [assumption|simpl; lia]|].
    exists (lparen :: ts ++ [rparen])%list. split; [now constructor|].
    rewrite (rest_consume a _ HI Hc'), Hr.
    rewrite (rest_consume s _ (so_inv _ _ H1) Hc2). simpl.
    now rewrite <- app_assoc.
Qed.

Lemma expression_derives f : derives Expression expression f.
Proof. apply expression_group_derives. Qed.

Lemma return_statement_derives f : derives ReturnStatement return_statement f.
Proof.
  intros a b HI H He. unfold return_statement in H.
  pose proof (expect_step "KEYWORD" (Some "return") a HI) as H0.
  pose proof (expression_sound _ _ _ (so_inv _ _ H0) H) as H1.
  apply (f_equal (@List.length string)) in He. log_lengths.
  destruct (expect_clean "KEYWORD" (Some "return") a) as (w & Hc & Hev & E1);
    [lia|]. destruct Hev as [Hev|Hev]; [discriminate|]. inv_some.
  rewrite E1 in *.
  destruct (expression_derives _ _ _ (so_inv _ _ H0) H) as (ts & Hts & Hr);
    [apply clean_step; [assumption|simpl; lia]|].
  exists (kw_return :: ts). split; [now constructor|].
  now rewrite (rest_consume a _ HI Hc), Hr.
Qed.

Lemma assignment_statement_derives f :
  derives AssignmentStatement assignment_statement f.
Proof.
  intros a b HI H He. unfold assignment_statement in H.
  pose proof (expect_step "IDENTIFIER" None a HI) as H0.
  pose proof (expect_step "OPERATOR" (Some "=") _ (so_inv _ _ H0)) as H1.
  pose proof (expression_sound _ _ _ (so_inv _ _ H1) H) as H2.
  apply (f_equal (@List.length string)) in He. log_lengths.
  destruct (expect_clean "IDENTIFIER" None a) as (w & Hc0 & _ & E0); [lia|].
  rewrite E0 in *.
  destruct (expect_clean "OPERATOR" (Some "=") (consume a))
    as (v & Hc & Hev & E1); [lia|].
  destruct Hev as [Hev|Hev]; [discriminate|]. inv_some. rewrite E1 in *.
  destruct (expression_derives _ _ _ (so_inv _ _ H1) H) as (ts & Hts & Hr);
    [apply clean_step; [assumption|simpl; lia]|].
  exists (("IDENTIFIER", w) :: assign :: ts). split.
  - constructor; [reflexivity|assumption].
  - rewrite (rest_consume a _ HI Hc0).
    now rewrite (rest_consume _ _ (so_inv _ _ H0) Hc), Hr.
Qed.

Lemma condition_derives f : derives Condition condition f.
Proof.
  intros a b HI H He. unfold condition in H. unbind H.
  pose proof (expression_sound _ _ _ HI Hs) as H0.
  pose proof (compare_op_step _ (so_inv _ _ H0)) as H1.
  pose proof (expression_sound _ _ _ (so_inv _ _ H1) H) as H2.
  apply (f_equal (@List.length string)) in He. log_lengths.
  destruct (compare_op_clean s) as (t & Hc & Ht & E1); [lia|].
  rewrite E1 in *.
  destruct (expression_derives _ _ _ HI Hs) as (l & Hl & Hr);
    [apply clean_step; [assumption|simpl in *; lia]|].
  destruct (expression_derives _ _ _ (so_inv _ _ H1) H) as (r & Hr1 & Hr');
    [apply clean_step; [assumption|simpl in *; lia]|].
  exists (l ++ t :: r)%list. split; [now constructor|].
  rewrite Hr, (rest_consume s _ (so_inv _ _ H0) Hc), Hr'.
  now rewrite <- app_assoc.
Qed.

Lemma statement_group_derives (f : nat) :
  derives StatementList statement_list f /\ derives_statement f
  /\ derives IfStatement if_statement f /\ derives Block block f.
Proof.
  unfold derives, derives_statement.
  induction f as [|f (IHsl & IHs & IHi & IHb)].
  { repeat split; intros; discriminate. }
  destruct (statement_group_sound f) as (Ssl & Ss & Si & Sb).
  split; [|split; [|split]].
  - intros a b HI H He. apply (f_equal (@List.length string)) in He.
    cbn [statement_list] in H.
    destruct (current_token a) as [[ty v]|] eqn:Hc;
      [|inv_some; exists []; split; [constructor|reflexivity]].
    case_if H Hv; [|inv_some; exists []; split; [constructor|reflexivity]].
    unbind H. pose proof (Ss _ _ HI Hs) as H1.
    case_if H Herr.
    + inv_some.
      destruct (IHs _ _ _ HI Hc Hs) as (ts & Hts & Hr);
        [apply clean_step; [assumption|lia]|].
      exists (ts ++ [])%list. split; [constructor; [assumption|constructor]|].
      now rewrite app_nil_r.
    + pose proof (Ssl _ _ (so_inv _ _ H1) H) as H2. log_lengths.
      destruct (IHs _ _ _ HI Hc Hs) as (ts & Hts & Hr);
        [apply clean_step; [assumption|lia]|].
      destruct (IHsl _ _ (so_inv _ _ H1) H) as (us & Hus & Hr');
        [apply clean_step; [assumption|lia]|].
      exists (ts ++ us)%list. split; [now constructor|].
      now rewrite Hr, Hr', app_assoc.
  - intros a b t HI Hc H He. apply (f_equal (@List.length string)) in He.
    cbn [statement] in H. rewrite Hc in H. destruct t as [ty v].
    case_if H Hty.
    { unbind H. inv_some.
      pose proof (declaration_statement_sound _ _ _ HI Hs) as H1.
      pose proof (expect_step "PUNCTUATOR" (Some ";") _ (so_inv _ _ H1)) as H2.
      log_lengths.
      destruct (expect_clean "PUNCTUATOR" (Some ";") s) as (w & Hc2 & Hev & E);
        [lia|]. destruct Hev as [Hev|Hev]; [discriminate|]. inv_some.
      rewrite E in *.
      destruct (declaration_statement_derives _ _ _ HI Hs) as (ts & Hts & Hr);
        [apply clean_step; [assumption|simpl in *; lia]|].
      exists (ts ++ [semicolon])%list. split; [now constructor|].
      rewrite Hr, (rest_consume s _ (so_inv _ _ H1) Hc2).
      now rewrite <- app_assoc. }
    case_if H Hid.
    { case_if H Hlt; [|inv_some; rewrite error_grows in He; lia].
      case_if H Heq.
      { unbind H. inv_some.
        pose proof (assignment_statement_sound _ _ _ HI Hs) as H1.
        pose proof (expect_step "PUNCTUATOR" (Some ";") _ (so_inv _ _ H1))
          as H2. log_lengths.
        destruct (expect_clean "PUNCTUATOR" (Some ";") s)
          as (w & Hc2 & Hev & E); [lia|].
        destruct Hev as [Hev|Hev]; [discriminate|]. inv_some. rewrite E in *.
        destruct (assignment_statement_derives _ _ _ HI Hs)
          as (ts & Hts & Hr);
          [apply clean_step; [assumption|simpl in *; lia]|].
        exists (ts ++ [semicolon])%list.
        split; [now apply Statement_assignment|].
        rewrite Hr, (rest_consume s _ (so_inv _ _ H1) Hc2).
        now rewrite <- app_assoc. }
      case_if H Hop; [|inv_some; rewrite error_grows in He; lia].
      unbind H. inv_some.
      pose proof (output_statement_sound _ _ _ HI Hs) as H1.
      pose proof (expect_step "PUNCTUATOR" (Some ";") _ (so_inv _ _ H1)) as H2.
      log_lengths.
      destruct (expect_clean "PUNCTUATOR" (Some ";") s) as (w & Hc2 & Hev & E);
        [lia|]. destruct Hev as [Hev|Hev]; [discriminate|]. inv_some.
      rewrite E in *.
      destruct (output_statement_derives _ _ _ HI Hs) as (ts & Hts & Hr);
        [apply clean_step; [assumption|simpl in *; lia]|].
      exists (ts ++ [semicolon])%list. split; [now apply Statement_output|].
      rewrite Hr, (rest_consume s _ (so_inv _ _ H1) Hc2).
      now rewrite <- app_assoc. }
    case_if H Hif.
    { destruct (IHi _ _ HI H) as (ts & Hts & Hr);
        [apply clean_step; [now apply Si|lia]|].
      exists ts. split; [now apply Statement_if|assumption]. }
    case_if H Hret.
    { unbind H. inv_some.
      pose proof (return_statement_sound _ _ _ HI Hs) as H1.
      pose proof (expect_step "PUNCTUATOR" (Some ";") _ (so_inv _ _ H1)) as H2.
      log_lengths.
      destruct (expect_clean "PUNCTUATOR" (Some ";") s) as (w & Hc2 & Hev & E);
        [lia|]. destruct Hev as [Hev|Hev]; [discriminate|]. inv_some.
      rewrite E in *.
      destruct (return_statement_derives _ _ _ HI Hs) as (ts & Hts & Hr);
        [apply clean_step; [assumption|simpl in *; lia]|].
      exists (ts ++ [semicolon])%list. split; [now apply Statement_return|].
      rewrite Hr, (rest_consume s _ (so_inv _ _ H1) Hc2).
      now rewrite <- app_assoc. }
    inv_some. simpl in He. rewrite length_app in He. simpl in He. lia.
  - intros a b HI H He. apply (f_equal (@List.length string)) in He.
    cbn [if_statement] in H.
    pose proof (expect_step "KEYWORD" (Some "if") a HI) as H0.
    pose proof (expect_step "PUNCTUATOR" (Some "(") _ (so_inv _ _ H0)) as H1.
    unbind H. pose proof (condition_sound _ _ _ (so_inv _ _ H1) Hs) as H2.
    pose proof (expect_step "PUNCTUATOR" (Some ")") _ (so_inv _ _ H2)) as H3.
    unbind H. pose proof (Sb _ _ (so_inv _ _ H3) Hs0) as H4.
    assert (H5 : step_ok s0 b).
    { destruct (value_in ["else"] s0); [|inv_some; eauto with walker].
      pose proof (expect_step "KEYWORD" (Some "else") _ (so_inv _ _ H4)) as X.
      eapply step_trans; [exact X|]. eapply Sb; eauto with walker. }
    log_lengths.
    destruct (expect_clean "KEYWORD" (Some "if") a) as (w & Hc & Hev & E0);
      [lia|]. destruct Hev as [Hev|Hev]; [discriminate|]. inv_some.
    rewrite E0 in *.
    destruct (expect_clean "PUNCTUATOR" (Some "(") (consume a))
      as (w & Hc1 & Hev & E1); [lia|].
    destruct Hev as [Hev|Hev]; [discriminate|]. inv_some. rewrite E1 in *.
    destruct (expect_clean "PUNCTUATOR" (Some ")") s) as (w & Hc3 & Hev & E3);
      [lia|]. destruct Hev as [Hev|Hev]; [discriminate|]. inv_some.
    rewrite E3 in *.
    destruct (condition_derives _ _ _ (so_inv _ _ H1) Hs) as (c & Hcnd & Hr);
      [apply clean_step; [assumption|simpl in *; lia]|].
    destruct (IHb _ _ (so_inv _ _ H3) Hs0) as (b1 & Hb1 & Hr1);
      [apply clean_step; [assumption|simpl in *; lia]|].
    assert (Hpre : rest a
                   = (kw_if :: lparen :: c ++ rparen :: b1 ++ rest s0)%list).
    { rewrite (rest_consume a _ HI Hc).
      rewrite (rest_consume _ _ (so_inv _ _ H0) Hc1), Hr.
      rewrite (rest_consume s _ (so_inv _ _ H2) Hc3), Hr1. reflexivity. }
    case_if H Hel.
    + pose proof (expect_step "KEYWORD" (Some "else") _ (so_inv _ _ H4)) as Ke.
      pose proof (Sb _ _ (so_inv _ _ Ke) H) as Kb. log_lengths.
      destruct (expect_clean "KEYWORD" (Some "else") s0)
        as (w & Hc6 & Hev & E6); [lia|].
      destruct Hev as [Hev|Hev]; [discriminate|]. inv_some. rewrite E6 in *.
      destruct (IHb _ _ (so_inv _ _ Ke) H) as (b2 & Hb2 & Hr2);
        [apply clean_step; [assumption|simpl in *; lia]|].
      exists (kw_if :: lparen :: c ++ rparen :: b1 ++ kw_else :: b2)%list.
      split; [now constructor|].
      rewrite Hpre, (rest_consume s0 _ (so_inv _ _ H4) Hc6), Hr2. simpl.
      rewrite <- !app_assoc. simpl. rewrite <- !app_assoc. reflexivity.
    + inv_some.
      exists (kw_if :: lparen :: c ++ rparen :: b1)%list.
      split; [now constructor|].
      rewrite Hpre. simpl. rewrite <- !app_assoc. reflexivity.
  - intros a b HI H He. apply (f_equal (@List.length string)) in He.
    cbn [block] in H.
    pose proof (expect_step "PUNCTUATOR" (Some "{") a HI) as H0.
    unbind H. inv_some. pose proof (Ssl _ _ (so_inv _ _ H0) Hs) as H1.
    pose proof (expect_step "PUNCTUATOR" (Some "}") _ (so_inv _ _ H1)) as H2.
    log_lengths.
    destruct (expect_clean "PUNCTUATOR" (Some "{") a) as (w & Hc & Hev & E0);
      [lia|]. destruct Hev as [Hev|Hev]; [discriminate|]. inv_some.
    rewrite E0 in *.
    destruct (expect_clean "PUNCTUATOR" (Some "}") s) as (w & Hc2 & Hev & E2);
      [lia|]. destruct Hev as [Hev|Hev]; [discriminate|]. inv_some.
    rewrite E2 in *.
    destruct (IHsl _ _ (so_inv _ _ H0) Hs) as (ts & Hts & Hr);
      [apply clean_step; [assumption|simpl in *; lia]|].
    exists (lbrace :: ts ++ [rbrace])%list. split; [now constructor|].
    rewrite (rest_consume a _ HI Hc), Hr.
    rewrite (rest_consume s _ (so_inv _ _ H1) Hc2). simpl.
    now rewrite <- app_assoc.
Qed.

Lemma program_derives f : derives Program program f.
Proof.
  intros a b HI H He. unfold program, function_definition in H.
  pose proof (type_step a HI) as H0.
  pose proof (expect_step "IDENTIFIER" None _ (so_inv _ _ H0)) as H1.
  pose proof (expect_step "PUNCTUATOR" (Some "(") _ (so_inv _ _ H1)) as H2.
  pose proof (expect_step "PUNCTUATOR" (Some ")") _ (so_inv _ _ H2)) as H3.
  pose proof (block_sound _ _ _ (so_inv _ _ H3) H) as H4.
  apply (f_equal (@List.length string)) in He. log_lengths.
  destruct (type_clean a) as (t & Hc0 & Ht & E0); [lia|]. rewrite E0 in *.
  destruct (expect_clean "IDENTIFIER" None (consume a)) as (n & Hc1 & _ & E1);
    [lia|]. rewrite E1 in *.
  destruct (expect_clean "PUNCTUATOR" (Some "(") (consume (consume a)))
    as (w & Hc2 & Hev & E2); [lia|].
  destruct Hev as [Hev|Hev]; [discriminate|]. inv_some. rewrite E2 in *.
  destruct (expect_clean "PUNCTUATOR" (Some ")")
              (consume (consume (consume a))))
    as (w & Hc3 & Hev & E3); [lia|].
  destruct Hev as [Hev|Hev]; [discriminate|]. inv_some. rewrite E3 in *.
  destruct (proj2 (proj2 (proj2 (statement_group_derives f)))
              _ _ (so_inv _ _ H3) H) as (blk & Hblk & Hr);
    [apply clean_step; [assumption|simpl in *; lia]|].
  exists (t :: ("IDENTIFIER", n) :: lparen :: rparen :: blk). split.
  - constructor; [assumption|reflexivity|assumption].
  - rewrite (rest_consume a _ HI Hc0).
    rewrite (rest_consume _ _ (so_inv _ _ H0) Hc1).
    rewrite (rest_consume _ _ (so_inv _ _ H1) Hc2).
    rewrite (rest_consume _ _ (so_inv _ _ H2) Hc3), Hr. reflexivity.
Qed.

Lemma accepted_is_program (fuel : nat) (toks : list token) (b : Parser) :
  unbounded_parse fuel toks = Some (true, b) -> Program toks.
Proof.
  intros H. pose proof (unbounded_parse_sound _ _ _ _ H) as (Hstep & Hv & Hend).
  unfold unbounded_parse in H. unbind H. inv_some.
  assert (He : has_errors (after_program s) = false)
    by (destruct (has_errors (after_program s)); [discriminate|reflexivity]).
  specialize (Hend He).
  assert (Hs' : after_program s = s).
  { unfold after_program in *. destruct (current_token s) eqn:Hc;
      [|reflexivity]. now rewrite has_errors_error in He. }
  rewrite Hs' in *.
  assert (Herr : errors s = errors (init toks)).
  { unfold has_errors in He. simpl. now destruct (errors s). }
  destruct (program_derives _ _ _ (init_inv toks) Hs Herr) as (ts & Hts & Hr).
  assert (Hnil : rest s = []).
  { destruct (rest s) as [|t r] eqn:Hrs; [reflexivity|].
    pose proof (rest_head s (so_inv _ _ Hstep)) as Hh.
    rewrite Hrs, Hend in Hh. discriminate. }
  rewrite Hnil, app_nil_r in Hr. unfold rest in Hr. simpl in Hr. now subst.
Qed.

(* ================================================================== *)
(** ** Every phrase of the grammar is read without an error *)

Lemma value_in_true (l : list string) (a : Parser) (t : token) :
  current_token a = Some t -> In (snd t) l -> value_in l a = true.
Proof.
  intros Hc Hin. unfold value_in. rewrite Hc. destruct t. now apply mem_In.
Qed.

Lemma value_in_false (l : list string) (a : Parser) :
  Inv a -> head_not_in l (rest a) -> value_in l a = false.
Proof.
  intros HI Hh. unfold value_in. rewrite (rest_head a HI).
  destruct (rest a) as [|[ty v] r]; [reflexivity|]. simpl in *.
  destruct (mem v l) eqn:Hm; [|reflexivity]. apply mem_In in Hm. contradiction.
Qed.

Lemma head_not_in_weaken (l l' : list string) (r : list token) :
  (forall v, In v l -> In v l') -> head_not_in l' r -> head_not_in l r.
Proof. intros Hsub. destruct r; simpl; auto. Qed.

Lemma consume_reads (a : Parser) (t : token) (r : list token) :
  Inv a -> rest a = t :: r ->
  current_token a = Some t /\ Inv (consume a) /\ rest (consume a) = r
  /\ errors (consume a) = errors a.
Proof.
  intros HI Hr. destruct (rest_cons_current a t r HI Hr) as (Hc & Hr').
  pose proof (consume_step _ _ HI Hc) as H. eauto with walker.
Qed.

Lemma expect_reads (ty v : string) (ev : option string) (a : Parser)
      (r : list token) :
  Inv a -> rest a = (ty, v) :: r -> ev = None \/ ev = Some v ->
  expect ty ev a = consume a /\ Inv (consume a) /\ rest (consume a) = r
  /\ errors (consume a) = errors a.
Proof.
  intros HI Hr Hev. destruct (consume_reads a _ r HI Hr) as (Hc & H).
  split; [|exact H]. now apply (expect_consume_eq ty v).
Qed.

Lemma identifier_shape (t : token) :
  is_identifier t -> t = ("IDENTIFIER", snd t).
Proof. destruct t as [ty v]. unfold is_identifier; simpl. now intros ->. Qed.

Lemma tail_follow (more r : list token) :
  ExpressionTail more -> head_not_in operator_lexemes r ->
  head_not_in ["*"; "/"] (more ++ r).
Proof.
  intros Hm Hr. destruct Hm as [|op ts more Hop _ _]; simpl.
  - eapply head_not_in_weaken; [|exact Hr]. unfold operator_lexemes.
    simpl. tauto.
  - unfold is_add_op in Hop. simpl in Hop. intros [H|[H|[]]];
      destruct Hop as [Hop|[Hop|[]]]; congruence.
Qed.

Lemma term_mono f : mono term f.
Proof. apply expression_group_mono. Qed.

Lemma term_loop_mono f : mono term_loop f.
Proof. apply expression_group_mono. Qed.

Lemma expression_loop_mono f : mono expression_loop f.
Proof. apply expression_group_mono. Qed.

Lemma factor_mono f : mono factor f.
Proof. apply expression_group_mono. Qed.

Lemma factor_sound f : sound factor f.
Proof. apply expression_group_sound. Qed.

Lemma term_sound f : sound term f.
Proof. apply expression_group_sound. Qed.

Lemma expression_group_reads :
  reads Factor any_follow factor
  /\ reads TermTail (head_not_in ["*"; "/"]) term_loop
  /\ reads Term (head_not_in ["*"; "/"]) term
  /\ reads ExpressionTail (head_not_in operator_lexemes) expression_loop
  /\ reads Expression (head_not_in operator_lexemes) expression.
Proof.
  unfold reads.
  apply (expression_mutind
           (fun ts => forall a r, Inv a -> rest a = (ts ++ r)%list ->
                      any_follow r -> exists f b,
                        factor f a = Some b /\ errors b = errors a
                        /\ rest b = r)
           (fun ts => forall a r, Inv a -> rest a = (ts ++ r)%list ->
                      head_not_in ["*"; "/"] r -> exists f b,
                        term_loop f a = Some b /\ errors b = errors a
                        /\ rest b = r)
           (fun ts => forall a r, Inv a -> rest a = (ts ++ r)%list ->
                      head_not_in ["*"; "/"] r -> exists f b,
                        term f a = Some b /\ errors b = errors a
                        /\ rest b = r)
           (fun ts => forall a r, Inv a -> rest a = (ts ++ r)%list ->
                      head_not_in operator_lexemes r -> exists f b,
                        expression_loop f a = Some b /\ errors b = errors a
                        /\ rest b = r)
           (fun ts => forall a r, Inv a -> rest a = (ts ++ r)%list ->
                      head_not_in operator_lexemes r -> exists f b,
                        expression f a = Some b /\ errors b = errors a
                        /\ rest b = r)).
  - (* an atom *)
    intros [ty v] Hat a r HI Hr _. simpl in Hr.
    destruct (consume_reads a _ r HI Hr) as (Hc & _ & Hr' & He).
    exists 1, (consume a). split; [|auto].
    cbn [factor]. rewrite Hc. apply atom_types in Hat. now rewrite Hat.
  - (* a parenthesised expression *)
    intros ts _ IH a r HI Hr _. simpl in Hr. rewrite <- app_assoc in Hr.
    destruct (expect_reads "PUNCTUATOR" "(" (Some "(") a _ HI Hr)
      as (E0 & I1 & R1 & L1); [now right|].
    destruct (IH (consume a) (rparen :: r) I1 R1) as (f1 & s & Hs & Ls & Rs).
    { simpl. unfold operator_lexemes. simpl.
      intros [H|[H|[H|[H|[]]]]]; discriminate. }
    pose proof (expression_sound _ _ _ I1 Hs) as S1.
    destruct (expect_reads "PUNCTUATOR" ")" (Some ")") s _ (so_inv _ _ S1) Rs)
      as (E2 & I2 & R2 & L2); [now right|].
    exists (S f1), (consume s). split; [|split; [congruence|assumption]].
    cbn [factor]. destruct (consume_reads a _ _ HI Hr) as (Hc & _).
    rewrite Hc. cbn. rewrite E0, (bind_eq _ _ _ Hs), E2. reflexivity.
  - (* no further factor *)
    intros a r HI Hr Hf. simpl in Hr. exists 1, a.
    split; [|auto]. cbn [term_loop].
    rewrite value_in_false; [reflexivity|assumption|now rewrite Hr].
  - (* one more factor *)
    intros op ts more Hop _ IHf _ IHt a r HI Hr Hf. simpl in Hr.
    rewrite <- app_assoc in Hr.
    destruct (consume_reads a _ _ HI Hr) as (Hc & I1 & R1 & L1).
    destruct (IHf (consume a) (more ++ r)%list I1 R1 I) as (f1 & s & Hs & Ls & Rs).
    pose proof (factor_sound _ _ _ I1 Hs) as S1.
    destruct (IHt s r (so_inv _ _ S1) Rs Hf) as (f2 & b & Hb & Lb & Rb).
    exists (S (Nat.max f1 f2)), b. split; [|split; [congruence|assumption]].
    cbn [term_loop]. rewrite (value_in_true _ _ _ Hc Hop).
    rewrite (bind_eq _ _ _ (factor_mono _ _ _ _ (Nat.le_max_l f1 f2) Hs)).
    exact (term_loop_mono _ _ _ _ (Nat.le_max_r f1 f2) Hb).
  - (* a term *)
    intros ts more _ IHf _ IHt a r HI Hr Hf. rewrite <- app_assoc in Hr.
    destruct (IHf a (more ++ r)%list HI Hr I) as (f1 & s & Hs & Ls & Rs).
    pose proof (factor_sound _ _ _ HI Hs) as S1.
    destruct (IHt s r (so_inv _ _ S1) Rs Hf) as (f2 & b & Hb & Lb & Rb).
    exists (S (Nat.max f1 f2)), b. split; [|split; [congruence|assumption]].
    cbn [term].
    rewrite (bind_eq _ _ _ (factor_mono _ _ _ _ (Nat.le_max_l f1 f2) Hs)).
    exact (term_loop_mono _ _ _ _ (Nat.le_max_r f1 f2) Hb).
  - (* no further term *)
    intros a r HI Hr Hf. simpl in Hr. exists 1, a.
    split; [|auto]. cbn [expression_loop].
    rewrite value_in_false; [reflexivity|assumption|].
    rewrite Hr. eapply head_not_in_weaken; [|exact Hf].
    unfold operator_lexemes; simpl; tauto.
  - (* one more term *)
    intros op ts more Hop _ IHt Hmore IHe a r HI Hr Hf. simpl in Hr.
    rewrite <- app_assoc in Hr.
    destruct (consume_reads a _ _ HI Hr) as (Hc & I1 & R1 & L1).
    destruct (IHt (consume a) (more ++ r)%list I1 R1 (tail_follow _ _ Hmore Hf))
      as (f1 & s & Hs & Ls & Rs).
    pose proof (term_sound _ _ _ I1 Hs) as S1.
    destruct (IHe s r (so_inv _ _ S1) Rs Hf) as (f2 & b & Hb & Lb & Rb).
    exists (S (Nat.max f1 f2)), b. split; [|split; [congruence|assumption]].
    cbn [expression_loop]. rewrite (value_in_true _ _ _ Hc).
    + rewrite (bind_eq _ _ _ (term_mono _ _ _ _ (Nat.le_max_l f1 f2) Hs)).
      exact (expression_loop_mono _ _ _ _ (Nat.le_max_r f1 f2) Hb).
    + exact Hop.
  - (* an expression *)
    intros ts more _ IHt Hmore IHe a r HI Hr Hf. rewrite <- app_assoc in Hr.
    destruct (IHt a (more ++ r)%list HI Hr (tail_follow _ _ Hmore Hf))
      as (f1 & s & Hs & Ls & Rs).
    pose proof (term_sound _ _ _ HI Hs) as S1.
    destruct (IHe s r (so_inv _ _ S1) Rs Hf) as (f2 & b & Hb & Lb & Rb).
    exists (S (Nat.max f1 f2)), b. split; [|split; [congruence|assumption]].
    cbn [expression].
    rewrite (bind_eq _ _ _ (term_mono _ _ _ _ (Nat.le_max_l f1 f2) Hs)).
    exact (expression_loop_mono _ _ _ _ (Nat.le_max_r f1 f2) Hb).
Qed.

Lemma expression_reads :
  reads Expression (head_not_in operator_lexemes) expression.
Proof. apply expression_group_reads. Qed.

Lemma type_token_test (t : token) :
  is_type_token t ->
  (fst t =? "KEYWORD")%string && mem (snd t) type_names = true.
Proof.
  intros (Hk & Hv). rewrite Hk. apply mem_In in Hv. now rewrite Hv.
Qed.

Lemma type_reads (a : Parser) (t : token) (r : list token) :
  Inv a -> rest a = t :: r -> is_type_token t ->
  type a = consume a /\ Inv (consume a) /\ rest (consume a) = r
  /\ errors (consume a) = errors a.
Proof.
  intros HI Hr Ht. destruct (consume_reads a _ r HI Hr) as (Hc & H).
  split; [|exact H]. destruct t as [ty v].
  apply (type_consumes a ty v Hc). exact (type_token_test _ Ht).
Qed.

Lemma identifier_reads (a : Parser) (t : token) (r : list token) :
  Inv a -> rest a = t :: r -> is_identifier t ->
  expect "IDENTIFIER" None a = consume a /\ Inv (consume a)
  /\ rest (consume a) = r /\ errors (consume a) = errors a.
Proof.
  intros HI Hr Ht. rewrite (identifier_shape t Ht) in Hr.
  apply (expect_reads _ _ None a r HI Hr). now left.
Qed.

Lemma not_comma (r : list token) : head_not_in [","] (semicolon :: r).
Proof. simpl. intros [H|[]]. discriminate. Qed.

Lemma not_shift (r : list token) : head_not_in ["<<"] (semicolon :: r).
Proof. simpl. intros [H|[]]. discriminate. Qed.

Lemma not_operator (t : token) (r : list token) :
  t = semicolon \/ t = rparen \/ is_compare_op t ->
  head_not_in operator_lexemes (t :: r).
Proof.
  unfold operator_lexemes. simpl.
  intros [->|[->|(_ & Hv)]] Hin; simpl in *;
    repeat match goal with
           | H : _ \/ _ |- _ => destruct H
           | H : False |- _ => destruct H
           end; congruence.
Qed.

Lemma identifier_tail_reads :
  reads IdentifierTail (head_not_in [","]) identifier_list_loop.
Proof.
  unfold reads. induction 1 as [|t more Ht _ IH]; intros a r HI Hr Hf.
  - simpl in Hr. exists 1, a. split; [|auto]. cbn [identifier_list_loop].
    rewrite value_in_false; [reflexivity|assumption|now rewrite Hr].
  - simpl in Hr.
    destruct (expect_reads "PUNCTUATOR" "," (Some ",") a _ HI Hr)
      as (E0 & I1 & R1 & L1); [now right|].
    destruct (identifier_reads _ _ _ I1 R1 Ht) as (E1 & I2 & R2 & L2).
    destruct (IH _ r I2 R2 Hf) as (f & b & Hb & Lb & Rb).
    exists (S f), b. split; [|split; [congruence|assumption]].
    cbn [identifier_list_loop].
    destruct (consume_reads a _ _ HI Hr) as (Hc & _).
    rewrite (value_in_true [","] _ _ Hc) by (simpl; auto).
    now rewrite E0, E1.
Qed.

Lemma declaration_statement_reads :
  reads DeclarationStatement (head_not_in [","]) declaration_statement.
Proof.
  intros ts [t ids Ht [i more Hi Hmore]] a r HI Hr Hf. simpl in Hr.
  destruct (type_reads _ _ _ HI Hr Ht) as (E0 & I1 & R1 & L1).
  destruct (identifier_reads _ _ _ I1 R1 Hi) as (E1 & I2 & R2 & L2).
  destruct (identifier_tail_reads _ Hmore _ r I2 R2 Hf)
    as (f & b & Hb & Lb & Rb).
  exists f, b. split; [|split; [congruence|assumption]].
  unfold declaration_statement, identifier_list. now rewrite E0, E1.
Qed.

Lemma output_item_reads (a : Parser) (t : token) (r : list token) :
  Inv a -> rest a = t :: r -> is_output_item t ->
  output_item a = consume a /\ Inv (consume a) /\ rest (consume a) = r
  /\ errors (consume a) = errors a.
Proof.
  intros HI Hr Ht. destruct (consume_reads a _ r HI Hr) as (Hc & H).
  split; [|exact H]. unfold output_item. rewrite Hc. destruct t as [ty v].
  destruct Ht as [Ht|Ht]; simpl in Ht; subst ty; simpl;
    now destruct (v =? "endl")%string.
Qed.

Lemma output_tail_reads :
  reads OutputTail (head_not_in ["<<"]) output_list_loop.
Proof.
  unfold reads. induction 1 as [|t more Ht _ IH]; intros a r HI Hr Hf.
  - simpl in Hr. exists 1, a. split; [|auto]. cbn [output_list_loop].
    rewrite value_in_false; [reflexivity|assumption|now rewrite Hr].
  - simpl in Hr.
    destruct (expect_reads "OPERATOR" "<<" (Some "<<") a _ HI Hr)
      as (E0 & I1 & R1 & L1); [now right|].
    destruct (output_item_reads _ _ _ I1 R1 Ht) as (E1 & I2 & R2 & L2).
    destruct (IH _ r I2 R2 Hf) as (f & b & Hb & Lb & Rb).
    exists (S f), b. split; [|split; [congruence|assumption]].
    cbn [output_list_loop].
    destruct (consume_reads a _ _ HI Hr) as (Hc & _).
    rewrite (value_in_true ["<<"] _ _ Hc) by (simpl; auto).
    now rewrite E0, E1.
Qed.

Lemma output_statement_reads :
  reads OutputStatement (head_not_in ["<<"]) output_statement.
Proof.
  intros ts [t l Ht [i more Hi Hmore]] a r HI Hr Hf. simpl in Hr.
  destruct (identifier_reads _ _ _ HI Hr Ht) as (E0 & I1 & R1 & L1).
  destruct (expect_reads "OPERATOR" "<<" (Some "<<") _ _ I1 R1)
    as (E1 & I2 & R2 & L2); [now right|].
  destruct (output_item_reads _ _ _ I2 R2 Hi) as (E2 & I3 & R3 & L3).
  destruct (output_tail_reads _ Hmore _ r I3 R3 Hf) as (f & b & Hb & Lb & Rb).
  exists f, b. split; [|split; [congruence|assumption]].
  unfold output_statement, output_list. now rewrite E0, E1, E2.
Qed.

Lemma assignment_statement_reads :
  reads AssignmentStatement (head_not_in operator_lexemes)
        assignment_statement.
Proof.
  intros ts [t e Ht He] a r HI Hr Hf. simpl in Hr.
  destruct (identifier_reads _ _ _ HI Hr Ht) as (E0 & I1 & R1 & L1).
  destruct (expect_reads "OPERATOR" "=" (Some "=") _ _ I1 R1)
    as (E1 & I2 & R2 & L2); [now right|].
  destruct (expression_reads _ He _ r I2 R2 Hf) as (f & b & Hb & Lb & Rb).
  exists f, b. split; [|split; [congruence|assumption]].
  unfold assignment_statement. now rewrite E0, E1.
Qed.

Lemma return_statement_reads :
  reads ReturnStatement (head_not_in operator_lexemes) return_statement.
Proof.
  intros ts [e He] a r HI Hr Hf. simpl in Hr.
  destruct (expect_reads "KEYWORD" "return" (Some "return") _ _ HI Hr)
    as (E0 & I1 & R1 & L1); [now right|].
  destruct (expression_reads _ He _ r I1 R1 Hf) as (f & b & Hb & Lb & Rb).
  exists f, b. split; [|split; [congruence|assumption]].
  unfold return_statement. now rewrite E0.
Qed.

Lemma compare_op_reads (a : Parser) (t : token) (r : list token) :
  Inv a -> rest a = t :: r -> is_compare_op t ->
  compare_op a = consume a /\ Inv (consume a) /\ rest (consume a) = r
  /\ errors (consume a) = errors a.
Proof.
  intros HI Hr (Hk & Hv). destruct (consume_reads a _ r HI Hr) as (Hc & H).
  split; [|exact H]. unfold compare_op. rewrite Hc. destruct t as [ty v].
  cbn [fst snd] in Hk, Hv. subst ty. apply mem_In in Hv. now rewrite Hv.
Qed.

Lemma condition_reads :
  reads Condition (head_not_in operator_lexemes) condition.
Proof.
  intros ts [l op e Hl Hop He] a r HI Hr Hf. rewrite <- app_assoc in Hr.
  simpl in Hr.
  destruct (expression_reads _ Hl _ _ HI Hr) as (f1 & s & Hs & Ls & Rs).
  { apply not_operator. auto. }
  pose proof (expression_sound _ _ _ HI Hs) as S1.
  destruct (compare_op_reads _ _ _ (so_inv _ _ S1) Rs Hop)
    as (E1 & I2 & R2 & L2).
  destruct (expression_reads _ He _ r I2 R2 Hf) as (f2 & b & Hb & Lb & Rb).
  exists (Nat.max f1 f2), b. split; [|split; [congruence|assumption]].
  unfold condition.
  rewrite (bind_eq _ _ _ (expression_mono _ _ _ _ (Nat.le_max_l f1 f2) Hs)).
  rewrite E1. exact (expression_mono _ _ _ _ (Nat.le_max_r f1 f2) Hb).
Qed.

Lemma In_skipn {A : Type} (n : nat) (l : list A) (x : A) :
  In x (skipn n l) -> In x l.
Proof.
  revert l. induction n as [|n IH]; intros [|y l]; simpl; auto.
Qed.

Lemma rest_tokens (a : Parser) (t : token) : In t (rest a) -> In t (tokens a).
Proof. apply In_skipn. Qed.

Lemma rest_identifier_ok (a : Parser) (t : token) :
  Forall identifier_ok (tokens a) -> In t (rest a) -> identifier_ok t.
Proof.
  intros Hok Hin. eapply Forall_forall; [exact Hok|]. now apply rest_tokens.
Qed.

(** The token after the current one, as [statement] peeks at it. *)
Lemma rest_second (a : Parser) (t u d : token) (r : list token) :
  Inv a -> rest a = t :: u :: r ->
  (token_index a + 1 <? List.length (tokens a)) = true
  /\ nth (token_index a + 1) (tokens a) d = u.
Proof.
  intros HI Hr. destruct (rest_cons_current a t _ HI Hr) as (_ & Hr').
  unfold rest in Hr'. simpl in Hr'.
  assert (Hn : nth_error (tokens a) (token_index a + 1) = Some u)
    by (rewrite hd_error_skipn, Hr'; reflexivity).
  split; [|now apply nth_error_nth].
  apply Nat.ltb_lt, nth_error_Some. rewrite Hn. discriminate.
Qed.

Lemma statement_on_type (f : nat) (a : Parser) (t : token) :
  current_token a = Some t -> is_type_token t ->
  statement (S f) a
  = call self <- declaration_statement f a;;
    Some (expect "PUNCTUATOR" (Some ";") self).
Proof.
  intros Hc Ht. cbn [statement]. rewrite Hc. destruct t as [ty v].
  pose proof (type_token_test _ Ht) as Hb. cbn [fst snd] in Hb.
  now rewrite Hb.
Qed.

Lemma statement_on_assignment (f : nat) (a : Parser) (t : token)
      (r : list token) :
  Inv a -> rest a = t :: assign :: r -> is_identifier t ->
  statement (S f) a
  = call self <- assignment_statement f a;;
    Some (expect "PUNCTUATOR" (Some ";") self).
Proof.
  intros HI Hr Ht. destruct (rest_cons_current a t _ HI Hr) as (Hc & _).
  destruct (rest_second a t assign ("", "") r HI Hr) as (Hlt & Hn).
  cbn [statement]. rewrite Hc, (identifier_shape t Ht), Hlt, Hn. reflexivity.
Qed.

Lemma statement_on_output (f : nat) (a : Parser) (t : token)
      (r : list token) :
  Inv a -> rest a = t :: shift :: r -> is_identifier t ->
  statement (S f) a
  = call self <- output_statement f a;;
    Some (expect "PUNCTUATOR" (Some ";") self).
Proof.
  intros HI Hr Ht. destruct (rest_cons_current a t _ HI Hr) as (Hc & _).
  destruct (rest_second a t shift ("", "") r HI Hr) as (Hlt & Hn).
  cbn [statement]. rewrite Hc, (identifier_shape t Ht), Hlt, Hn. reflexivity.
Qed.

Lemma statement_on_if (f : nat) (a : Parser) :
  current_token a = Some kw_if -> statement (S f) a = if_statement f a.
Proof. intros Hc. cbn [statement]. now rewrite Hc. Qed.

Lemma statement_on_return (f : nat) (a : Parser) :
  current_token a = Some kw_return ->
  statement (S f) a
  = call self <- return_statement f a;;
    Some (expect "PUNCTUATOR" (Some ";") self).
Proof. intros Hc. cbn [statement]. now rewrite Hc. Qed.

Lemma Statement_starts (s : list token) :
  Statement s -> exists t s', s = t :: s' /\ statement_start t.
Proof.
  unfold statement_start.
  intros [ts [t ids Ht _]|ts [t e Ht _]|ts [t l Ht _]|ts Hi|ts [e _]];
    simpl; eauto 7.
  destruct Hi; simpl; eauto 7.
Qed.

Lemma start_lexeme (t : token) :
  statement_start t -> identifier_ok t -> snd t <> "}" /\ snd t <> "else".
Proof.
  intros [(_ & Hv)|[Hi|[->| ->]]] Hok.
  - unfold type_names in Hv. simpl in Hv.
    split; intros E; rewrite E in Hv;
      repeat destruct Hv as [Hv|Hv]; try discriminate; auto.
  - now apply Hok.
  - split; discriminate.
  - split; discriminate.
Qed.

Lemma statements_follow (more r : list token) :
  StatementList more -> at_block_end r ->
  (forall t, In t (more ++ r) -> identifier_ok t) ->
  head_not_in ["else"] (more ++ r).
Proof.
  intros Hm Hr Hok. destruct Hm as [|s more Hs _].
  - simpl in *. destruct r as [|t r]; simpl in *; [exact I|].
    rewrite Hr. intros [H|[]]. discriminate.
  - destruct (Statement_starts _ Hs) as (t & s' & -> & Ht). simpl.
    destruct (start_lexeme t Ht) as (_ & He); [apply Hok; now left|].
    intros [H|[]]. congruence.
Qed.

Lemma not_else_after_block (r : list token) :
  at_block_end r -> head_not_in ["else"] r.
Proof.
  destruct r as [|t r]; simpl; [auto|]. intros -> [H|[]]. discriminate.
Qed.

Lemma statement_group_reads :
  reads_statements Statement (head_not_in ["else"]) statement
  /\ reads_statements IfStatement (head_not_in ["else"]) if_statement
  /\ reads_statements Block any_follow block
  /\ reads_statements StatementList at_block_end statement_list.
Proof.
  unfold reads_statements.
  apply (statement_mutind
           (fun ts => forall a r, Inv a -> Forall identifier_ok (tokens a) ->
                      errors a = [] -> rest a = (ts ++ r)%list ->
                      head_not_in ["else"] r -> exists f b,
                        statement f a = Some b /\ errors b = errors a
                        /\ rest b = r)
           (fun ts => forall a r, Inv a -> Forall identifier_ok (tokens a) ->
                      errors a = [] -> rest a = (ts ++ r)%list ->
                      head_not_in ["else"] r -> exists f b,
                        if_statement f a = Some b /\ errors b = errors a
                        /\ rest b = r)
           (fun ts => forall a r, Inv a -> Forall identifier_ok (tokens a) ->
                      errors a = [] -> rest a = (ts ++ r)%list ->
                      any_follow r -> exists f b,
                        block f a = Some b /\ errors b = errors a
                        /\ rest b = r)
           (fun ts => forall a r, Inv a -> Forall identifier_ok (tokens a) ->
                      errors a = [] -> rest a = (ts ++ r)%list ->
                      at_block_end r -> exists f b,
                        statement_list f a = Some b /\ errors b = errors a
                        /\ rest b = r)).
  - (* a declaration *)
    intros ts Hd a r HI Hok He Hr _. rewrite <- app_assoc in Hr. simpl in Hr.
    destruct (declaration_statement_reads _ Hd _ _ HI Hr (not_comma r))
      as (f & s & Hs & Ls & Rs).
    pose proof (declaration_statement_sound _ _ _ HI Hs) as S1.
    destruct (expect_reads "PUNCTUATOR" ";" (Some ";") s _ (so_inv _ _ S1) Rs)
      as (E1 & I1 & R1 & L1); [now right|].
    exists (S f), (consume s). split; [|split; [congruence|assumption]].
    destruct Hd as [t ids Ht _]. simpl in Hr.
    destruct (rest_cons_current a t _ HI Hr) as (Hc & _).
    now rewrite (statement_on_type f a t Hc Ht), (bind_eq _ _ _ Hs), E1.
  - (* an assignment *)
    intros ts Ha a r HI Hok He Hr _. rewrite <- app_assoc in Hr. simpl in Hr.
    destruct (assignment_statement_reads _ Ha _ _ HI Hr)
      as (f & s & Hs & Ls & Rs); [apply not_operator; auto|].
    pose proof (assignment_statement_sound _ _ _ HI Hs) as S1.
    destruct (expect_reads "PUNCTUATOR" ";" (Some ";") s _ (so_inv _ _ S1) Rs)
      as (E1 & I1 & R1 & L1); [now right|].
    exists (S f), (consume s). split; [|split; [congruence|assumption]].
    destruct Ha as [t e Ht _]. simpl in Hr.
    now rewrite (statement_on_assignment f a t _ HI Hr Ht),
      (bind_eq _ _ _ Hs), E1.
  - (* an output statement *)
    intros ts Ho a r HI Hok He Hr _. rewrite <- app_assoc in Hr. simpl in Hr.
    destruct (output_statement_reads _ Ho _ _ HI Hr (not_shift r))
      as (f & s & Hs & Ls & Rs).
    pose proof (output_statement_sound _ _ _ HI Hs) as S1.
    destruct (expect_reads "PUNCTUATOR" ";" (Some ";") s _ (so_inv _ _ S1) Rs)
      as (E1 & I1 & R1 & L1); [now right|].
    exists (S f), (consume s). split; [|split; [congruence|assumption]].
    destruct Ho as [t l Ht [i more _ _]]. simpl in Hr.
    now rewrite (statement_on_output f a t _ HI Hr Ht),
      (bind_eq _ _ _ Hs), E1.
  - (* a conditional *)
    intros ts Hi IH a r HI Hok He Hr Hf.
    destruct (IH a r HI Hok He Hr Hf) as (f & b & Hb & Lb & Rb).
    exists (S f), b. split; [|auto].
    assert (Hc : current_token a = Some kw_if).
    { destruct Hi; simpl in Hr; now destruct (rest_cons_current a _ _ HI Hr). }
    now rewrite (statement_on_if f a Hc).
  - (* a return statement *)
    intros ts Hret a r HI Hok He Hr _. rewrite <- app_assoc in Hr.
    simpl in Hr.
    destruct (return_statement_reads _ Hret _ _ HI Hr)
      as (f & s & Hs & Ls & Rs); [apply not_operator; auto|].
    pose proof (return_statement_sound _ _ _ HI Hs) as S1.
    destruct (expect_reads "PUNCTUATOR" ";" (Some ";") s _ (so_inv _ _ S1) Rs)
      as (E1 & I1 & R1 & L1); [now right|].
    exists (S f), (consume s). split; [|split; [congruence|assumption]].
    destruct Hret as [e _]. simpl in Hr.
    destruct (rest_cons_current a _ _ HI Hr) as (Hc & _).
    now rewrite (statement_on_return f a Hc), (bind_eq _ _ _ Hs), E1.
  - (* if without else *)
    intros c blk Hcnd _ IHb a r HI Hok He Hr Hf. simpl in Hr.
    rewrite <- app_assoc in Hr. simpl in Hr.
    destruct (expect_reads "KEYWORD" "if" (Some "if") a _ HI Hr)
      as (E0 & I1 & R1 & L1); [now right|].
    destruct (expect_reads "PUNCTUATOR" "(" (Some "(") _ _ I1 R1)
      as (E1 & I2 & R2 & L2); [now right|].
    destruct (condition_reads _ Hcnd _ _ I2 R2) as (f1 & s & Hs & Ls & Rs);
      [apply not_operator; auto|].
    pose proof (condition_sound _ _ _ I2 Hs) as S2.
    destruct (expect_reads "PUNCTUATOR" ")" (Some ")") s _ (so_inv _ _ S2) Rs)
      as (E3 & I3 & R3 & L3); [now right|].
    destruct (IHb (consume s) r I3) as (f2 & d & Hd & Ld & Rd);
      [simpl; now rewrite (so_tokens _ _ S2)|congruence|assumption|exact I|].
    pose proof (block_sound _ _ _ I3 Hd) as S4.
    exists (S (Nat.max f1 f2)), d. split; [|split; [congruence|assumption]].
    cbn [if_statement]. rewrite E0, E1.
    rewrite (bind_eq _ _ _ (condition_mono _ _ _ _ (Nat.le_max_l f1 f2) Hs)).
    rewrite E3.
    rewrite (bind_eq _ _ _ (block_mono _ _ _ _ (Nat.le_max_r f1 f2) Hd)).
    rewrite value_in_false; [reflexivity|eauto with walker|now rewrite Rd].
  - (* if with else *)
    intros c b1 b2 Hcnd _ IHb1 _ IHb2 a r HI Hok He Hr Hf. simpl in Hr.
    rewrite <- app_assoc in Hr. simpl in Hr. rewrite <- app_assoc in Hr.
    simpl in Hr.
    destruct (expect_reads "KEYWORD" "if" (Some "if") a _ HI Hr)
      as (E0 & I1 & R1 & L1); [now right|].
    destruct (expect_reads "PUNCTUATOR" "(" (Some "(") _ _ I1 R1)
      as (E1 & I2 & R2 & L2); [now right|].
    destruct (condition_reads _ Hcnd _ _ I2 R2) as (f1 & s & Hs & Ls & Rs);
      [apply not_operator; auto|].
    pose proof (condition_sound _ _ _ I2 Hs) as S2.
    destruct (expect_reads "PUNCTUATOR" ")" (Some ")") s _ (so_inv _ _ S2) Rs)
      as (E3 & I3 & R3 & L3); [now right|].
    destruct (IHb1 (consume s) (kw_else :: b2 ++ r)%list I3)
      as (f2 & d & Hd & Ld & Rd);
      [simpl; now rewrite (so_tokens _ _ S2)|congruence|assumption|exact I|].
    pose proof (block_sound _ _ _ I3 Hd) as S4.
    destruct (expect_reads "KEYWORD" "else" (Some "else") d _
                (so_inv _ _ S4) Rd) as (E5 & I5 & R5 & L5); [now right|].
    destruct (IHb2 (consume d) r I5) as (f3 & b & Hb & Lb & Rb);
      [simpl; rewrite (so_tokens _ _ S4); simpl;
       now rewrite (so_tokens _ _ S2)
      |congruence|assumption|exact I|].
    exists (S (Nat.max f1 (Nat.max f2 f3))), b.
    split; [|split; [congruence|assumption]].
    cbn [if_statement]. rewrite E0, E1.
    rewrite (bind_eq _ _ _ (condition_mono _ _ _ _
                              (Nat.le_max_l f1 (Nat.max f2 f3)) Hs)).
    rewrite E3.
    assert (Hle2 : f2 <= Nat.max f1 (Nat.max f2 f3)) by lia.
    assert (Hle3 : f3 <= Nat.max f1 (Nat.max f2 f3)) by lia.
    rewrite (bind_eq _ _ _ (block_mono _ _ _ _ Hle2 Hd)).
    destruct (consume_reads d _ _ (so_inv _ _ S4) Rd) as (Hcd & _).
    rewrite (value_in_true ["else"] _ _ Hcd) by (simpl; auto).
    rewrite E5. exact (block_mono _ _ _ _ Hle3 Hb).
  - (* a block *)
    intros ts _ IH a r HI Hok He Hr _. simpl in Hr.
    rewrite <- app_assoc in Hr. simpl in Hr.
    destruct (expect_reads "PUNCTUATOR" "{" (Some "{") a _ HI Hr)
      as (E0 & I1 & R1 & L1); [now right|].
    destruct (IH (consume a) (rbrace :: r) I1) as (f & s & Hs & Ls & Rs);
      [assumption|congruence|assumption|reflexivity|].
    pose proof (statement_list_sound _ _ _ I1 Hs) as S1.
    destruct (expect_reads "PUNCTUATOR" "}" (Some "}") s _ (so_inv _ _ S1) Rs)
      as (E2 & I2 & R2 & L2); [now right|].
    exists (S f), (consume s). split; [|split; [congruence|assumption]].
    cbn [block]. now rewrite E0, (bind_eq _ _ _ Hs), E2.
  - (* no further statement *)
    intros a r HI Hok He Hr Hf. simpl in Hr. exists 1, a. split; [|auto].
    cbn [statement_list]. rewrite (rest_head a HI), Hr.
    destruct r as [|[ty v] r]; [reflexivity|]. simpl in Hf. subst v.
    reflexivity.
  - (* one more statement *)
    intros s more Hs IHs Hmore IHl a r HI Hok He Hr Hf.
    rewrite <- app_assoc in Hr.
    assert (Hall : forall t, In t (more ++ r)%list -> identifier_ok t).
    { intros t Hin. apply (rest_identifier_ok a); [assumption|].
      rewrite Hr. apply in_or_app. now right. }
    destruct (IHs a (more ++ r)%list HI Hok He Hr
                (statements_follow _ _ Hmore Hf Hall))
      as (f1 & s1 & Hs1 & L1 & R1).
    pose proof (statement_sound _ _ _ HI Hs1) as S1.
    destruct (IHl s1 r (so_inv _ _ S1)) as (f2 & b & Hb & Lb & Rb);
      [now rewrite (so_tokens _ _ S1)|congruence|assumption|assumption|].
    exists (S (Nat.max f1 f2)), b. split; [|split; [congruence|assumption]].
    destruct (Statement_starts _ Hs) as (t & s' & -> & Ht). simpl in Hr.
    destruct (rest_cons_current a t _ HI Hr) as (Hc & _).
    destruct (start_lexeme t Ht) as (Hbrace & _).
    { apply (rest_identifier_ok a); [assumption|]. rewrite Hr. now left. }
    cbn [statement_list]. rewrite Hc. destruct t as [ty v]. simpl in Hbrace.
    assert (Hm : negb (mem v ["}"]) = true).
    { unfold mem; simpl. rewrite orb_false_r.
      destruct (v =? "}")%string eqn:E; [|reflexivity].
      apply String.eqb_eq in E. contradiction. }
    rewrite Hm.
    rewrite (bind_eq _ _ _ (statement_mono _ _ _ _ (Nat.le_max_l f1 f2) Hs1)).
    assert (Hne : has_errors s1 = false)
      by (unfold has_errors; now rewrite L1, He).
    rewrite Hne. exact (statement_list_mono _ _ _ _ (Nat.le_max_r f1 f2) Hb).
Qed.

Lemma block_reads : reads_statements Block any_follow block.
Proof. apply statement_group_reads. Qed.

Lemma program_is_accepted (toks : list token) :
  Program toks -> Forall identifier_ok toks ->
  exists fuel0 b,
    errors b = []
    /\ forall fuel, fuel0 <= fuel -> unbounded_parse fuel toks = Some (true, b).
Proof.
  intros [t name blk Ht Hn Hblk] Hok.
  set (all := t :: name :: lparen :: rparen :: blk) in *.
  pose proof (init_inv all) as I0.
  assert (R0 : rest (init all) = t :: name :: lparen :: rparen :: blk)
    by reflexivity.
  destruct (type_reads _ _ _ I0 R0 Ht) as (E0 & I1 & R1 & L1).
  destruct (identifier_reads _ _ _ I1 R1 Hn) as (E1 & I2 & R2 & L2).
  destruct (expect_reads "PUNCTUATOR" "(" (Some "(") _ _ I2 R2)
    as (E2 & I3 & R3 & L3); [now right|].
  destruct (expect_reads "PUNCTUATOR" ")" (Some ")") _ _ I3 R3)
    as (E3 & I4 & R4 & L4); [now right|].
  rewrite <- (app_nil_r blk) in R4.
  destruct (block_reads _ Hblk _ [] I4) as (f & b & Hb & Lb & Rb);
    [assumption|simpl in *; congruence|assumption|exact I|].
  pose proof (block_sound _ _ _ I4 Hb) as S5.
  assert (Hc : current_token b = None)
    by (apply rest_nil_current; eauto with walker).
  assert (He : errors b = []) by (simpl in *; congruence).
  exists f, b. split; [assumption|]. intros fuel Hle.
  apply (unbounded_parse_mono f); [assumption|].
  unfold unbounded_parse, program, function_definition.
  rewrite E0, E1, E2, E3, (bind_eq _ _ _ Hb).
  unfold after_program, has_errors. now rewrite Hc, He.
Qed.

(* ================================================================== *)
(** ** What the scanner's tokens look like *)

(** A property every emitted token has is a property of all tokens of the
    result. *)
Lemma tokenize_loop_forall (P : token -> Prop) :
  (forall text tok rest,
     is_empty text = false -> scan text = Emit tok rest -> P tok) ->
  forall fuel text acc toks,
    tokenize_loop fuel text acc = Some toks -> Forall P acc -> Forall P toks.
Proof.
  intros Hscan. induction fuel as [|fuel IH]; intros text acc toks H Hacc;
    [discriminate|]. cbn [tokenize_loop] in H.
  destruct (is_empty text); [now inv_some|].
  destruct (is_empty (lstrip text)) eqn:Hne; [now inv_some|].
  destruct (scan (lstrip text)) as [tok rest|rest] eqn:Hs.
  - apply (IH _ _ _ H). apply Forall_app. split; [assumption|].
    constructor; [|constructor]. eapply Hscan; eassumption.
  - now apply (IH _ _ _ H).
Qed.

Lemma tokenize_forall (P : token -> Prop) :
  (forall text tok rest,
     is_empty text = false -> scan text = Emit tok rest -> P tok) ->
  forall text toks, tokenize text = Some toks -> Forall P toks.
Proof.
  intros Hscan text toks H. unfold tokenize, tokenize_fuel in H.
  eapply tokenize_loop_forall; eauto.
Qed.

Lemma run_lit (t : string) (w : string) :
  forall i k, run t (lit w) i k
              = if has_at t i w then k (i + String.length w) else None.
Proof.
  induction w as [|c w IH]; intros i k; cbn [lit run has_at String.length].
  - now rewrite Nat.add_0_r.
  - destruct (get i t) as [d|]; [|reflexivity].
    destruct (Ascii.eqb c d); [|reflexivity]. cbn [andb].
    now rewrite IH, Nat.add_succ_r.
Qed.

Lemma run_alts (t : string) (rs : list regex) (i : nat)
      (k : nat -> option nat) :
  run t (alts rs) i k = first_alt t rs i k.
Proof.
  induction rs as [|r rs IH]; cbn [alts first_alt].
  - cbn [run]. now destruct (get i t).
  - destruct rs as [|r' rs].
    + cbn [first_alt]. now destruct (run t r i k).
    + cbn [run]. now rewrite IH.
Qed.

Lemma first_alt_lit_inv (t : string) (ws : list string) (i e : nat)
      (k : nat -> option nat) :
  first_alt t (map lit ws) i k = Some e ->
  exists w, In w ws /\ has_at t i w = true /\ k (i + String.length w) = Some e.
Proof.
  induction ws as [|w ws IH]; cbn [map first_alt]; [discriminate|].
  rewrite run_lit. destruct (has_at t i w) eqn:Hw.
  - destruct (k (i + String.length w)) as [e'|] eqn:Hk.
    + intros H. inv_some. exists w. simpl. auto.
    + intros H. destruct (IH H) as (w' & Hin & H'). exists w'. simpl. auto.
  - intros H. destruct (IH H) as (w' & Hin & H'). exists w'. simpl. auto.
Qed.

Lemma first_alt_lit_some (t : string) (ws : list string) (i e : nat)
      (k : nat -> option nat) (w : string) :
  In w ws -> has_at t i w = true -> k (i + String.length w) = Some e ->
  exists e', first_alt t (map lit ws) i k = Some e'.
Proof.
  induction ws as [|u ws IH]; intros Hin Hw Hk; [destruct Hin|].
  cbn [map first_alt]. destruct (run t (lit u) i k) as [e'|] eqn:Hu; [eauto|].
  destruct Hin as [->|Hin]; [|now apply IH].
  rewrite run_lit, Hw, Hk in Hu. discriminate.
Qed.

Lemma get_slice_from (t : string) (i : nat) :
  get i t = match slice_from i t with
            | String c _ => Some c
            | EmptyString => None
            end.
Proof.
  revert t. induction i as [|i IH]; intros [|c t]; simpl; auto.
Qed.

Lemma slice_from_S (t : string) (i : nat) (c : ascii) (r : string) :
  slice_from i t = String c r -> slice_from (S i) t = r.
Proof.
  revert t. induction i as [|i IH]; intros [|d t] H;
    cbn [slice_from] in *; try discriminate.
  - inversion H. now destruct r.
  - now apply IH.
Qed.

(** [has_at] is the test that [w] is what the text begins with there. *)
Lemma has_at_prefix (t w : string) :
  forall i, has_at t i w = true <->
            exists r, slice_from i t = (w ++ r)%string.
Proof.
  induction w as [|c w IH]; intros i; cbn [has_at].
  - split; [intros _; now exists (slice_from i t)|reflexivity].
  - rewrite get_slice_from. destruct (slice_from i t) as [|d r] eqn:Hs.
    + split; [discriminate|]. intros (r & Hr). discriminate.
    + rewrite andb_true_iff, Ascii.eqb_eq, IH.
      rewrite (slice_from_S _ _ _ _ Hs). simpl. split.
      * intros (-> & r' & ->). now exists r'.
      * intros (r' & Hr). inversion Hr. subst. eauto.
Qed.

Lemma slice_to_app (w r : string) : slice_to (String.length w) (w ++ r) = w.
Proof. induction w as [|c w IH]; simpl; [now destruct r|now rewrite IH]. Qed.

Lemma slice_from_app (w r : string) :
  slice_from (String.length w) (w ++ r) = r.
Proof. induction w as [|c w IH]; simpl; [now destruct r|assumption]. Qed.

Lemma has_at_slice (t w : string) :
  has_at t 0 w = true -> slice_to (String.length w) t = w.
Proof.
  intros H. apply has_at_prefix in H as (r & Hr). simpl in Hr.
  assert (Ht : t = (w ++ r)%string) by now destruct t.
  rewrite Ht. apply slice_to_app.
Qed.

Lemma KEYWORD_re_unfold (t : string) :
  re_match KEYWORD_re t
  = if at_boundary t 0
    then first_alt t (map lit keywords) 0
           (fun j => if at_boundary t j then Some j else None)
    else None.
Proof.
  unfold re_match, KEYWORD_re. cbn [seqs run].
  destruct (at_boundary t 0); [|reflexivity]. now rewrite run_alts.
Qed.

(** The keyword rule matches exactly a reserved word up to a word
    boundary. *)
Lemma keyword_match (t : string) (e : nat) :
  re_match KEYWORD_re t = Some e ->
  exists w, In w keywords /\ slice_to e t = w /\ e = String.length w.
Proof.
  rewrite KEYWORD_re_unfold. destruct (at_boundary t 0); [|discriminate].
  intros H. apply first_alt_lit_inv in H as (w & Hin & Hw & Hk).
  simpl in Hk. destruct (at_boundary t (String.length w)); [|discriminate].
  inv_some. exists w. split; [assumption|]. split; [|reflexivity].
  now apply has_at_slice.
Qed.

Lemma keyword_matches (t w : string) :
  In w keywords -> has_at t 0 w = true ->
  at_boundary t 0 = true -> at_boundary t (String.length w) = true ->
  exists e, re_match KEYWORD_re t = Some e.
Proof.
  intros Hin Hw H0 He. rewrite KEYWORD_re_unfold, H0.
  eapply first_alt_lit_some; [exact Hin|exact Hw|]. simpl. now rewrite He.
Qed.

Lemma run_seq (t : string) (a b : regex) (i : nat) (k : nat -> option nat) :
  run t (Seq a b) i k = run t a i (fun j => run t b j k).
Proof. reflexivity. Qed.

Lemma run_bnd (t : string) (i : nat) (k : nat -> option nat) :
  run t Bnd i k = if at_boundary t i then k i else None.
Proof. reflexivity. Qed.

(** The identifier rule ends at a word boundary and begins at one. *)
Lemma identifier_match (t : string) (e : nat) :
  re_match IDENTIFIER_re t = Some e ->
  at_boundary t 0 = true /\ at_boundary t e = true
  /\ 1 <= e <= String.length t.
Proof.
  intros H. pose proof (re_match_min_len _ _ _ H) as Hmin.
  pose proof (run_end_in_range t _ 0 e (Nat.le_0_l _) H) as Hend.
  unfold re_match, IDENTIFIER_re in H. cbn [seqs] in H.
  rewrite run_seq, run_bnd in H. destruct (at_boundary t 0); [|discriminate].
  rewrite run_seq in H. apply run_advances in H as (j1 & _ & H).
  rewrite run_seq in H. apply run_advances in H as (j2 & _ & H).
  rewrite run_bnd in H. destruct (at_boundary t j2) eqn:Hb; [|discriminate].
  inv_some. split; [reflexivity|]. split; [assumption|]. simpl in Hmin. lia.
Qed.

(** The table, rule by rule (the two comment entries are passed over). *)
Lemma first_match_TOKEN_TYPES (text : string) :
  first_match TOKEN_TYPES text =
  match re_match KEYWORD_re text with
  | Some e => Some ("KEYWORD", e)
  | None =>
  match re_match IDENTIFIER_re text with
  | Some e => Some ("IDENTIFIER", e)
  | None =>
  match re_match PREPROCESSOR_re text with
  | Some e => Some ("PREPROCESSOR", e)
  | None =>
  match re_match CONSTANT_FLOAT_re text with
  | Some e => Some ("CONSTANT_FLOAT", e)
  | None =>
  match re_match CONSTANT_INT_re text with
  | Some e => Some ("CONSTANT_INT", e)
  | None =>
  match re_match OPERATOR_re text with
  | Some e => Some ("OPERATOR", e)
  | None =>
  match re_match PUNCTUATOR_re text with
  | Some e => Some ("PUNCTUATOR", e)
  | None =>
  match re_match STRING_LITERAL_re text with
  | Some e => Some ("STRING_LITERAL", e)
  | None => None
  end end end end end end end end.
Proof. reflexivity. Qed.

Lemma first_alt_any (t : string) (rs : list regex) (r : regex) (i e : nat)
      (k : nat -> option nat) :
  In r rs -> run t r i k = Some e -> exists e', first_alt t rs i k = Some e'.
Proof.
  induction rs as [|u rs IH]; intros Hin Hr; [destruct Hin|].
  cbn [first_alt]. destruct (run t u i k) as [e'|] eqn:Hu; [eauto|].
  destruct Hin as [->|Hin]; [congruence|now apply IH].
Qed.

Lemma first_alt_app_inv (t : string) (rs : list regex) (r : regex) (i e : nat)
      (k : nat -> option nat) :
  first_alt t (rs ++ [r]) i k = Some e ->
  first_alt t rs i k = Some e \/ run t r i k = Some e.
Proof.
  induction rs as [|u rs IH]; cbn [app first_alt].
  - destruct (run t r i k); [auto|discriminate].
  - destruct (run t u i k); auto.
Qed.

Lemma one_char_match (p : ascii -> bool) (t : string) (e : nat) :
  run t (Cls p) 0 Some = Some e ->
  e = 1 /\ exists c r, t = String c r /\ p c = true.
Proof.
  cbn [run]. destruct t as [|c r]; [discriminate|]. simpl.
  destruct (p c) eqn:Hp; [|discriminate]. intros H. inv_some. eauto.
Qed.

Lemma one_of_In (s : string) (c : ascii) :
  one_of s c = true ->
  In (String c EmptyString)
     (map (fun d => String d EmptyString) (list_ascii_of_string s)).
Proof.
  unfold one_of. rewrite existsb_exists. intros (d & Hin & Hd).
  apply Ascii.eqb_eq in Hd. subst d.
  exact (in_map (fun d => String d EmptyString) _ _ Hin).
Qed.

(** The operator rule matches one of its two-character forms or one
    character of its class. *)
Lemma operator_match (t : string) (e : nat) :
  re_match OPERATOR_re t = Some e ->
  In (slice_to e t) (long_operators ++ short_operators).
Proof.
  unfold re_match, OPERATOR_re. rewrite run_alts. intros H.
  apply first_alt_app_inv in H as [H|H].
  - apply first_alt_lit_inv in H as (w & Hin & Hw & Hk). simpl in Hk.
    inv_some. rewrite (has_at_slice _ _ Hw). apply in_or_app. now left.
  - apply one_char_match in H as (-> & c & r & -> & Hc).
    apply in_or_app. right. simpl slice_to. destruct r; exact (one_of_In _ _ Hc).
Qed.

Lemma operator_matches_angle (c : ascii) (r : string) :
  c = "<"%char \/ c = ">"%char ->
  exists e, re_match OPERATOR_re (String c r) = Some e.
Proof.
  intros Hc. unfold re_match, OPERATOR_re. rewrite run_alts.
  eapply first_alt_any; [apply in_or_app; right; now left|].
  cbn [run get]. destruct Hc as [->| ->]; reflexivity.
Qed.

Lemma punctuator_match (t : string) (e : nat) :
  re_match OPERATOR_re t = None -> re_match PUNCTUATOR_re t = Some e ->
  In (slice_to e t) punctuators.
Proof.
  intros Hop H. unfold re_match, PUNCTUATOR_re in H.
  apply one_char_match in H as (-> & c & r & -> & Hc).
  assert (Hna : c <> "<"%char /\ c <> ">"%char).
  { split; intros ->.
    - destruct (operator_matches_angle "<" r (or_introl eq_refl)) as [e He].
      congruence.
    - destruct (operator_matches_angle ">" r (or_intror eq_refl)) as [e He].
      congruence. }
  apply one_of_In in Hc. simpl in Hc. simpl slice_to.
  replace (match r with "" => "" | String _ _ => "" end)%string
    with EmptyString by now destruct r.
  unfold punctuators. simpl.
  destruct Hna as (Hl & Hg).
  repeat destruct Hc as [Hc|Hc]; try tauto;
    inversion Hc; subst; contradiction.
Qed.

Lemma identifier_first (t : string) (e : nat) :
  re_match IDENTIFIER_re t = Some e ->
  exists c s, slice_to e t = String c s /\ starts_identifier c = true.
Proof.
  intros H. pose proof (re_match_min_len _ _ _ H) as Hmin. simpl in Hmin.
  destruct (re_match_first _ _ _ H eq_refl) as (c & r & -> & Hc).
  destruct e as [|e]; [lia|]. simpl slice_to. exists c, (slice_to e r).
  split; [reflexivity|]. unfold IDENTIFIER_re in Hc.
  cbn [seqs first nullable orb andb] in Hc. rewrite orb_false_r in Hc.
  exact Hc.
Qed.

Lemma keyword_starts_word (w : string) :
  In w keywords ->
  forall t, has_at t 0 w = true -> at_boundary t 0 = true.
Proof.
  intros Hin t Hw. unfold at_boundary, word_at.
  unfold keywords in Hin. simpl in Hin.
  repeat destruct Hin as [<-|Hin]; try contradiction;
    cbn [has_at] in Hw; destruct (get 0 t) as [d|]; try discriminate;
    apply andb_prop in Hw as [Hd _]; apply Ascii.eqb_eq in Hd; subst d;
    reflexivity.
Qed.

(** A word the identifier rule matches in full is not reserved when the
    keyword rule has failed on the same text. *)
Lemma identifier_not_keyword (t : string) (e : nat) :
  re_match KEYWORD_re t = None -> re_match IDENTIFIER_re t = Some e ->
  ~ In (slice_to e t) keywords.
Proof.
  intros Hk Hi Hin. destruct (identifier_match _ _ Hi) as (H0 & He & H1 & H2).
  set (w := slice_to e t) in *.
  assert (Hlen : String.length w = e)
    by (unfold w; rewrite slice_to_length; lia).
  assert (Hw : has_at t 0 w = true).
  { apply has_at_prefix. exists (slice_from e t). simpl.
    unfold w. rewrite slice_join. now destruct t. }
  rewrite <- Hlen in He.
  destruct (keyword_matches t w Hin Hw H0 He) as [e' He']. congruence.
Qed.

Lemma scan_token_shape (text : string) (tok : token) (r : string) :
  is_empty text = false -> scan text = Emit tok r -> token_shape tok.
Proof.
  intros _. unfold scan. rewrite first_match_TOKEN_TYPES.
  unfold token_shape, categories.
  destruct (re_match KEYWORD_re text) as [e|] eqn:H1.
  { intros H. inversion H; subst; simpl.
    destruct (keyword_match _ _ H1) as (w & Hin & Hw & _).
    repeat split; auto; try discriminate. intros _. now rewrite Hw. }
  destruct (re_match IDENTIFIER_re text) as [e|] eqn:H2.
  { intros H. inversion H; subst; simpl.
    repeat split; auto; try discriminate.
    - now apply identifier_not_keyword.
    - now apply identifier_first. }
  destruct (re_match PREPROCESSOR_re text) as [e|] eqn:H3.
  { intros H. inversion H; subst; simpl.
    repeat split; auto 10; discriminate. }
  destruct (re_match CONSTANT_FLOAT_re text) as [e|] eqn:H4.
  { intros H. inversion H; subst; simpl.
    repeat split; auto 10; discriminate. }
  destruct (re_match CONSTANT_INT_re text) as [e|] eqn:H5.
  { intros H. inversion H; subst; simpl.
    repeat split; auto 10; discriminate. }
  destruct (re_match OPERATOR_re text) as [e|] eqn:H6.
  { intros H. inversion H; subst; simpl.
    repeat split; auto 10; try discriminate.
    intros _. now apply operator_match. }
  destruct (re_match PUNCTUATOR_re text) as [e|] eqn:H7.
  { intros H. inversion H; subst; simpl.
    repeat split; auto 10; try discriminate.
    intros _. now apply punctuator_match. }
  destruct (re_match STRING_LITERAL_re text) as [e|] eqn:H8;
    [|discriminate].
  intros H. inversion H; subst; simpl.
  repeat split; auto 10; discriminate.
Qed.

(** X3. Every token [tokenize] returns carries one of the eight token
    categories, never a comment category.  A [KEYWORD] lexeme is one of the
    thirteen reserved words and an [IDENTIFIER] lexeme never is, and it
    begins with a letter or an underscore.  An [OPERATOR] lexeme is one of
    the listed one- or two-character operators, and a [PUNCTUATOR] lexeme
    is one of [{ } ( ) ; ,]: the angle brackets of the punctuator rule
    never reach the output, the operator rule takes them first. *)
Theorem tokenize_token_shapes (text : string) (toks : list token) :
  tokenize text = Some toks -> Forall token_shape toks.
Proof. apply (tokenize_forall token_shape scan_token_shape). Qed.

Lemma tokenize_token_shapes_witness :
  Forall token_shape
         [("KEYWORD", "if"); ("PUNCTUATOR", "("); ("IDENTIFIER", "a");
          ("OPERATOR", "<"); ("IDENTIFIER", "iffy"); ("PUNCTUATOR", ")")].
Proof.
  apply (tokenize_token_shapes "if (a < iffy)"). vm_compute. reflexivity.
Defined.

Lemma token_shape_identifier_ok (t : token) : token_shape t -> identifier_ok t.
Proof.
  intros (_ & _ & Hid & _) Ht. destruct (Hid Ht) as (Hk & c & s & Hs & Hc).
  split; intros E.
  - rewrite E in Hs. inversion Hs. subst. discriminate.
  - apply Hk. rewrite E. unfold keywords. simpl. tauto.
Qed.

(** X5. Longest match for operators: when the remaining text begins with
    one of the two-character operators, the round emits that operator
    whole, as one [OPERATOR] token, and goes on right behind it; the
    scanning loop appends exactly that token. *)
Theorem two_character_operator_is_one_token (w rest : string) :
  In w long_operators ->
  scan (w ++ rest) = Emit ("OPERATOR", w) rest
  /\ forall fuel text acc,
       lstrip text = (w ++ rest)%string ->
       tokenize_loop (S fuel) text acc
       = tokenize_loop fuel rest (acc ++ [("OPERATOR", w)]).
Proof.
  intros Hin.
  assert (Hscan : scan (w ++ rest) = Emit ("OPERATOR", w) rest).
  { unfold long_operators in Hin. simpl in Hin.
    repeat destruct Hin as [<-|Hin]; try contradiction; reflexivity. }
  split; [exact Hscan|]. intros fuel text acc Hstrip. cbn [tokenize_loop].
  assert (Hne : is_empty (w ++ rest) = false).
  { unfold long_operators in Hin. simpl in Hin.
    repeat destruct Hin as [<-|Hin]; try contradiction; reflexivity. }
  assert (Hne' : is_empty text = false).
  { destruct text; [|reflexivity]. simpl in Hstrip. rewrite <- Hstrip in Hne.
    discriminate. }
  now rewrite Hne', Hstrip, Hne, Hscan.
Qed.

Lemma two_character_operator_is_one_token_witness :
  scan "<<= x" = Emit ("OPERATOR", "<<") "= x".
Proof.
  apply (two_character_operator_is_one_token "<<" "= x").
  unfold long_operators. simpl. tauto.
Defined.

(* ================================================================== *)
(** ** The scanner only drops characters *)

Lemma subsequence_empty (t : string) : subsequence EmptyString t.
Proof. induction t; constructor; assumption. Qed.

Lemma subsequence_refl (t : string) : subsequence t t.
Proof.
  induction t; [constructor|now apply subsequence_take].
Qed.

Lemma subsequence_trans (s t u : string) :
  subsequence s t -> subsequence t u -> subsequence s u.
Proof.
  intros Hst Htu. revert s Hst.
  induction Htu as [|c t u Htu IH|c t u Htu IH]; intros s Hst.
  - assumption.
  - constructor. now apply IH.
  - inversion Hst; subst.
    + apply subsequence_skip. now apply IH.
    + apply subsequence_take. now apply IH.
Qed.

Lemma subsequence_prepend (w s t : string) :
  subsequence s t -> subsequence (w ++ s) (w ++ t).
Proof.
  intros H. induction w; simpl; [assumption|now apply subsequence_take].
Qed.

Lemma subsequence_length (s t : string) :
  subsequence s t -> String.length s <= String.length t.
Proof. induction 1; simpl; lia. Qed.

Lemma subsequence_slice_from (n : nat) (t : string) :
  subsequence (slice_from n t) t.
Proof.
  revert t. induction n as [|n IH]; intros [|c t]; cbn [slice_from];
    try apply subsequence_refl.
  constructor. apply IH.
Qed.

Lemma subsequence_lstrip (t : string) : subsequence (lstrip t) t.
Proof.
  induction t as [|c t IH]; simpl; [constructor|].
  destruct (is_space c); [now constructor|apply subsequence_refl].
Qed.

Lemma slice_from_add (n m : nat) (t : string) :
  slice_from (n + m) t = slice_from m (slice_from n t).
Proof.
  revert t. induction n as [|n IH]; intros t; [reflexivity|].
  destruct t as [|c t]; cbn [slice_from Nat.add]; [now destruct m|apply IH].
Qed.

Lemma subsequence_later (pos e : nat) (t : string) :
  pos <= e -> subsequence (slice_from e t) (slice_from pos t).
Proof.
  intros Hle. replace e with (pos + (e - pos)) by lia.
  rewrite slice_from_add. apply subsequence_slice_from.
Qed.

Lemma slice_from_get (t : string) (i : nat) (c : ascii) :
  get i t = Some c -> slice_from i t = String c (slice_from (S i) t).
Proof.
  intros H. rewrite get_slice_from in H.
  destruct (slice_from i t) as [|d r] eqn:Hs; [discriminate|]. inv_some.
  now rewrite (slice_from_S _ _ _ _ Hs).
Qed.

Lemma sub_loop_subsequence (pattern : regex) (s : string) (fuel : nat) :
  forall pos, subsequence (sub_loop fuel pattern s pos) (slice_from pos s).
Proof.
  induction fuel as [|f IH]; intros pos; cbn [sub_loop];
    [apply subsequence_empty|].
  assert (Hkeep : subsequence
                    match get pos s with
                    | Some c => String c (sub_loop f pattern s (S pos))
                    | None => EmptyString
                    end (slice_from pos s)).
  { destruct (get pos s) as [c|] eqn:Hg; [|apply subsequence_empty].
    rewrite (slice_from_get _ _ _ Hg). apply subsequence_take. apply IH. }
  destruct (run s pattern pos Some) as [e|]; [|exact Hkeep].
  destruct (Nat.ltb_spec pos e); [|exact Hkeep].
  eapply subsequence_trans; [apply IH|]. apply subsequence_later. lia.
Qed.

Lemma strip_comments_subsequence (text : string) :
  subsequence (strip_comments text) text.
Proof.
  unfold strip_comments, re_sub_empty.
  eapply subsequence_trans; [apply (sub_loop_subsequence _ _ _ 0)|].
  apply (sub_loop_subsequence _ _ _ 0).
Qed.

Lemma lexemes_app (l1 l2 : list token) :
  lexemes (l1 ++ l2) = (lexemes l1 ++ lexemes l2)%string.
Proof.
  induction l1 as [|t l1 IH]; simpl; [reflexivity|].
  rewrite IH. clear IH. induction (snd t) as [|c w IHw]; simpl; congruence.
Qed.

Lemma tokenize_loop_subsequence (fuel : nat) :
  forall text acc toks,
    tokenize_loop fuel text acc = Some toks ->
    exists new, toks = (acc ++ new)%list /\ subsequence (lexemes new) text.
Proof.
  induction fuel as [|fuel IH]; intros text acc toks H; [discriminate|].
  cbn [tokenize_loop] in H.
  destruct (is_empty text).
  { inv_some. exists []. rewrite app_nil_r. split; [reflexivity|].
    apply subsequence_empty. }
  destruct (is_empty (lstrip text)) eqn:Hne.
  { inv_some. exists []. rewrite app_nil_r. split; [reflexivity|].
    apply subsequence_empty. }
  pose proof (scan_makes_progress _ Hne) as Hscan.
  destruct (scan (lstrip text)) as [[ty v] r|r].
  - destruct Hscan as (_ & Hjoin & _).
    apply IH in H as (new & -> & Hsub). exists ((ty, v) :: new).
    split; [now rewrite <- app_assoc|].
    eapply subsequence_trans; [|apply subsequence_lstrip].
    rewrite Hjoin. simpl. now apply subsequence_prepend.
  - destruct Hscan as ((c & Hc) & _).
    apply IH in H as (new & -> & Hsub). exists new. split; [reflexivity|].
    eapply subsequence_trans; [|apply subsequence_lstrip].
    rewrite Hc. now apply subsequence_skip.
Qed.

(** X6. The scanner neither invents nor duplicates nor reorders
    characters: the lexemes of the tokens, one after the other, are the
    source text with some characters left out (comments, white space and
    characters no rule matches), so together they are never longer than
    the text. *)
Theorem lexemes_are_subsequence (text : string) (toks : list token) :
  tokenize text = Some toks ->
  subsequence (lexemes toks) (strip_comments text)
  /\ subsequence (strip_comments text) text
  /\ subsequence (lexemes toks) text
  /\ String.length (lexemes toks) <= String.length text.
Proof.
  intros H. unfold tokenize, tokenize_fuel in H.
  apply tokenize_loop_subsequence in H as (new & -> & Hsub). simpl.
  pose proof (strip_comments_subsequence text) as Hs.
  assert (Hall : subsequence (lexemes new) text)
    by (eapply subsequence_trans; eassumption).
  repeat split; try assumption. now apply subsequence_length.
Qed.

Lemma lexemes_are_subsequence_witness :
  subsequence "x=5" "x /* y */ = 5 // z".
Proof.
  apply (lexemes_are_subsequence "x /* y */ = 5 // z"
           [("IDENTIFIER", "x"); ("OPERATOR", "="); ("CONSTANT_INT", "5")]).
  vm_compute. reflexivity.
Defined.

(* ================================================================== *)
(** ** Every walk is made of guarded advances and logged errors *)

Lemma walk_trans (a b c : Parser) : walk a b -> walk b c -> walk a c.
Proof.
  induction 1 as [a|a b t Hc _ IH|a b msg _ IH]; intros H.
  - assumption.
  - eapply walk_consume; eauto.
  - eapply walk_error; eauto.
Qed.

Lemma walk_one_consume (a : Parser) (t : token) :
  current_token a = Some t -> walk a (consume a).
Proof. intros Hc. eapply walk_consume; [exact Hc|constructor]. Qed.

Lemma walk_one_error (a : Parser) (msg : string) : walk a (error msg a).
Proof. eapply walk_error. constructor. Qed.

Lemma walk_expect (ty : string) (ev : option string) (a : Parser) :
  walk a (expect ty ev a).
Proof.
  unfold expect, match_. destruct (current_token a) as [[ty' v]|] eqn:Hc.
  - destruct (_ && _); cbn [snd];
      [eapply walk_one_consume; eassumption|apply walk_one_error].
  - apply walk_one_error.
Qed.

Lemma walk_type (a : Parser) : walk a (type a).
Proof.
  unfold type. destruct (current_token a) as [[ty v]|] eqn:Hc.
  - destruct (_ && _);
      [eapply walk_one_consume; eassumption|apply walk_one_error].
  - apply walk_one_error.
Qed.

Lemma walk_compare_op (a : Parser) : walk a (compare_op a).
Proof.
  unfold compare_op. destruct (current_token a) as [[ty v]|] eqn:Hc.
  - destruct (_ && _);
      [eapply walk_one_consume; eassumption|apply walk_one_error].
  - apply walk_one_error.
Qed.

Lemma walk_output_item (a : Parser) : walk a (output_item a).
Proof.
  unfold output_item. destruct (current_token a) as [[ty v]|] eqn:Hc;
    [|apply walk_one_error].
  destruct (ty =? "STRING_LITERAL")%string;
    [eapply walk_one_consume; eassumption|].
  destruct (ty =? "IDENTIFIER")%string; [|apply walk_one_error].
  destruct (v =? "endl")%string; eapply walk_one_consume; eassumption.
Qed.

Lemma walk_after_program (a : Parser) : walk a (after_program a).
Proof.
  unfold after_program. destruct (current_token a);
    [apply walk_one_error|constructor].
Qed.

(** Go on from the end of a walk already known. *)
Ltac then_walk H := eapply walk_trans; [exact H|].

Lemma identifier_list_loop_walks f : walks identifier_list_loop f.
Proof.
  unfold walks. induction f as [|f IH]; intros a b H; [discriminate|].
  cbn [identifier_list_loop] in H.
  destruct (value_in [","] a); [|inv_some; constructor].
  then_walk (walk_expect "PUNCTUATOR" (Some ",") a).
  then_walk (walk_expect "IDENTIFIER" None
               (expect "PUNCTUATOR" (Some ",") a)).
  now apply IH.
Qed.

Lemma declaration_statement_walks f : walks declaration_statement f.
Proof.
  intros a b H. unfold declaration_statement, identifier_list in H.
  then_walk (walk_type a). then_walk (walk_expect "IDENTIFIER" None (type a)).
  eapply identifier_list_loop_walks; eassumption.
Qed.

Lemma output_list_loop_walks f : walks output_list_loop f.
Proof.
  unfold walks. induction f as [|f IH]; intros a b H; [discriminate|].
  cbn [output_list_loop] in H.
  destruct (value_in ["<<"] a); [|inv_some; constructor].
  then_walk (walk_expect "OPERATOR" (Some "<<") a).
  then_walk (walk_output_item (expect "OPERATOR" (Some "<<") a)).
  now apply IH.
Qed.

Lemma output_statement_walks f : walks output_statement f.
Proof.
  intros a b H. unfold output_statement, output_list in H.
  then_walk (walk_expect "IDENTIFIER" None a).
  then_walk (walk_expect "OPERATOR" (Some "<<") (expect "IDENTIFIER" None a)).
  then_walk (walk_output_item
               (expect "OPERATOR" (Some "<<") (expect "IDENTIFIER" None a))).
  eapply output_list_loop_walks; eassumption.
Qed.

Lemma expression_group_walks (f : nat) :
  walks expression f /\ walks expression_loop f /\ walks term f
  /\ walks term_loop f /\ walks factor f.
Proof.
  unfold walks. induction f as [|f (IHe & IHel & IHt & IHtl & IHf)].
  { repeat split; intros; discriminate. }
  split; [|split; [|split; [|split]]]; intros a b H.
  - cbn [expression] in H. unbind H. then_walk (IHt _ _ Hs). now apply IHel.
  - cbn [expression_loop] in H.
    destruct (value_in ["+"; "-"] a) eqn:Hv; [|inv_some; constructor].
    apply value_in_some in Hv as [t Hc]. unbind H.
    then_walk (walk_one_consume a t Hc). then_walk (IHt _ _ Hs).
    now apply IHel.
  - cbn [term] in H. unbind H. then_walk (IHf _ _ Hs). now apply IHtl.
  - cbn [term_loop] in H.
    destruct (value_in ["*"; "/"] a) eqn:Hv; [|inv_some; constructor].
    apply value_in_some in Hv as [t Hc]. unbind H.
    then_walk (walk_one_consume a t Hc). then_walk (IHf _ _ Hs).
    now apply IHtl.
  - cbn [factor] in H.
    destruct (current_token a) as [[ty v]|] eqn:Hc;
      [|inv_some; apply walk_one_error].
    case_if H Hat; [inv_some; eapply walk_one_consume; eassumption|].
    case_if H Hp; [|inv_some; apply walk_one_error].
    unbind H. inv_some.
    then_walk (walk_expect "PUNCTUATOR" (Some "(") a).
    then_walk (IHe _ _ Hs). apply walk_expect.
Qed.

Lemma expression_walks f : walks expression f.
Proof. apply expression_group_walks. Qed.

Lemma condition_walks f : walks condition f.
Proof.
  intros a b H. unfold condition in H. unbind H.
  then_walk (expression_walks _ _ _ Hs). then_walk (walk_compare_op s).
  eapply expression_walks; eassumption.
Qed.

Lemma statement_group_walks (f : nat) :
  walks statement_list f /\ walks statement f /\ walks if_statement f
  /\ walks block f.
Proof.
  unfold walks. induction f as [|f (IHsl & IHs & IHi & IHb)].
  { repeat split; intros; discriminate. }
  split; [|split; [|split]]; intros a b H.
  - cbn [statement_list] in H.
    destruct (current_token a) as [[ty v]|]; [|inv_some; constructor].
    case_if H Hv; [|inv_some; constructor].
    unbind H. then_walk (IHs _ _ Hs).
    case_if H He; [inv_some; constructor|now apply IHsl].
  - cbn [statement] in H.
    destruct (current_token a) as [[ty v]|] eqn:Hc; [|inv_some; constructor].
    case_if H Hty.
    { unbind H. inv_some. then_walk (declaration_statement_walks _ _ _ Hs).
      apply walk_expect. }
    case_if H Hid.
    { case_if H Hlt; [|inv_some; apply walk_one_error].
      case_if H Heq.
      { unbind H. inv_some. unfold assignment_statement in Hs.
        then_walk (walk_expect "IDENTIFIER" None a).
        then_walk (walk_expect "OPERATOR" (Some "=")
                     (expect "IDENTIFIER" None a)).
        then_walk (expression_walks _ _ _ Hs). apply walk_expect. }
      case_if H Hop; [|inv_some; apply walk_one_error].
      unbind H. inv_some. then_walk (output_statement_walks _ _ _ Hs).
      apply walk_expect. }
    case_if H Hif; [now apply IHi|].
    case_if H Hret.
    { unbind H. inv_some. unfold return_statement in Hs.
      then_walk (walk_expect "KEYWORD" (Some "return") a).
      then_walk (expression_walks _ _ _ Hs). apply walk_expect. }
    inv_some. then_walk (walk_one_error a statement_error).
    eapply walk_one_consume. exact Hc.
  - cbn [if_statement] in H. unbind H. unbind H.
    then_walk (walk_expect "KEYWORD" (Some "if") a).
    then_walk (walk_expect "PUNCTUATOR" (Some "(")
                 (expect "KEYWORD" (Some "if") a)).
    then_walk (condition_walks _ _ _ Hs).
    then_walk (walk_expect "PUNCTUATOR" (Some ")") s).
    then_walk (IHb _ _ Hs0).
    case_if H Hel; [|inv_some; constructor].
    then_walk (walk_expect "KEYWORD" (Some "else") s0). now apply IHb.
  - cbn [block] in H. unbind H. inv_some.
    then_walk (walk_expect "PUNCTUATOR" (Some "{") a).
    then_walk (IHsl _ _ Hs). apply walk_expect.
Qed.

Lemma unbounded_parse_walks (fuel : nat) (toks : list token) (v : bool) (b : Parser) :
  unbounded_parse fuel toks = Some (v, b) -> walk (init toks) b.
Proof.
  unfold unbounded_parse, program, function_definition. intros H. unbind H. inv_some.
  then_walk (walk_type (init toks)).
  then_walk (walk_expect "IDENTIFIER" None (type (init toks))).
  then_walk (walk_expect "PUNCTUATOR" (Some "(")
               (expect "IDENTIFIER" None (type (init toks)))).
  then_walk (walk_expect "PUNCTUATOR" (Some ")")
               (expect "PUNCTUATOR" (Some "(")
                  (expect "IDENTIFIER" None (type (init toks))))).
  then_walk (proj2 (proj2 (proj2 (statement_group_walks fuel))) _ _ Hs).
  apply walk_after_program.
Qed.

Lemma Forall2_snoc {A B : Type} (R : A -> B -> Prop) (l : list A)
      (l' : list B) (x : A) (y : B) :
  Forall2 R l l' -> R x y -> Forall2 R (l ++ [x]) (l' ++ [y]).
Proof. intros H Hxy. apply Forall2_app; [assumption|]. now repeat constructor. Qed.

Lemma walk_keeps_log_in_order (a b : Parser) :
  walk a b ->
  forall idxs, log_in_order a idxs ->
  exists more, log_in_order b (idxs ++ more).
Proof.
  induction 1 as [a|a b t Hc _ IH|a b msg _ IH]; intros idxs (Hl & Hs & Hb).
  - exists []. rewrite app_nil_r. repeat split; assumption.
  - apply IH. split; [exact Hl|]. split; [exact Hs|].
    eapply Forall_impl; [|exact Hb]. simpl. intros. lia.
  - destruct (IH (idxs ++ [token_index a])%list) as (more & Hm).
    + split; [|split].
      * simpl. apply Forall2_snoc; [assumption|]. now exists msg.
      * now apply StronglySorted_snoc.
      * simpl. apply Forall_app. split; [assumption|]. now repeat constructor.
    + exists (token_index a :: more). now rewrite <- app_assoc in Hm.
Qed.

(* ================================================================== *)
(** ** Procedures one by one *)

Lemma identifier_list_sound f : sound identifier_list f.
Proof.
  intros a b HI H. unfold identifier_list in H.
  pose proof (expect_step "IDENTIFIER" None a HI) as H0. then_step H0.
  eapply identifier_list_loop_sound; eauto with walker.
Qed.

Lemma output_list_sound f : sound output_list f.
Proof.
  intros a b HI H. unfold output_list in H.
  pose proof (expect_step "OPERATOR" (Some "<<") a HI) as H0.
  pose proof (output_item_step _ (so_inv _ _ H0)) as H1.
  then_step H0. then_step H1.
  eapply output_list_loop_sound; eauto with walker.
Qed.

Lemma procedures_sound (f : nat) (p : nat -> Parser -> option Parser) :
  In p procedures -> sound p f.
Proof.
  unfold procedures. simpl.
  intros [<-|[<-|[<-|[<-|[<-|[<-|[<-|[<-|[<-|[<-|[<-|[<-|[<-|[<-|[<-|[<-|[]]]]]]]]]]]]]]]]].
  - apply program_sound.
  - apply program_sound.
  - apply block_sound.
  - apply statement_list_sound.
  - apply statement_sound.
  - apply declaration_statement_sound.
  - apply identifier_list_sound.
  - apply assignment_statement_sound.
  - apply statement_group_sound.
  - apply condition_sound.
  - apply output_statement_sound.
  - apply output_list_sound.
  - apply return_statement_sound.
  - apply expression_sound.
  - apply term_sound.
  - apply factor_sound.
Qed.

(** X8. Every grammar procedure, started on a consistent walker, leaves
    the token sequence untouched, never moves the cursor back nor past the
    end, only appends to the error log, and hands back a consistent walker
    (the current token is the one under the cursor). *)
Theorem procedures_keep_the_walker_consistent
        (p : nat -> Parser -> option Parser) (f : nat) (a b : Parser) :
  In p procedures -> Inv a -> p f a = Some b ->
  tokens b = tokens a
  /\ token_index a <= token_index b <= List.length (tokens a)
  /\ (exists l, errors b = (errors a ++ l)%list)
  /\ current_token b = nth_error (tokens b) (token_index b).
Proof.
  intros Hp HI H.
  destruct (procedures_sound f p Hp a b HI H)
    as [T Hi He _ (Hc & Hle & _)].
  rewrite T in Hle. repeat split; assumption.
Qed.

Lemma procedures_keep_the_walker_consistent_witness :
  exists b,
    expression 5 (init [("IDENTIFIER", "a"); ("OPERATOR", "+")]) = Some b
    /\ tokens b = [("IDENTIFIER", "a"); ("OPERATOR", "+")]
    /\ 0 <= token_index b <= 2
    /\ (exists l, errors b = l).
Proof.
  destruct (expression 5 (init [("IDENTIFIER", "a"); ("OPERATOR", "+")]))
    as [b|] eqn:H; [|vm_compute in H; discriminate].
  exists b. split; [reflexivity|].
  destruct (procedures_keep_the_walker_consistent expression 5
              (init [("IDENTIFIER", "a"); ("OPERATOR", "+")]) b)
    as (T & Hi & He & _);
    [unfold procedures; simpl; tauto|apply init_inv|exact H|].
  split; [exact T|]. split; [exact Hi|exact He].
Defined.

(** X9. Once the error log is non-empty, [statement_list] tries one
    statement at most: whatever that statement does, the loop returns
    right after it. *)
Theorem statement_list_after_an_error (fuel : nat) (a : Parser) :
  Inv a -> errors a <> [] ->
  statement_list (S fuel) a
  = match current_token a with
    | Some (_, token_value) =>
        if negb (mem token_value ["}"]) then statement fuel a else Some a
    | None => Some a
    end.
Proof.
  intros HI He. cbn [statement_list].
  destruct (current_token a) as [[ty v]|]; [|reflexivity].
  destruct (negb (mem v ["}"])); [|reflexivity].
  destruct (statement fuel a) as [s|] eqn:Hs; [|reflexivity].
  unfold bind at 1.
  pose proof (statement_sound _ _ _ HI Hs) as H1.
  rewrite (has_errors_step a s H1); [reflexivity|].
  unfold has_errors. now destruct (errors a).
Qed.

Lemma statement_list_after_an_error_witness :
  statement_list 3
    (error "x" (init [("PUNCTUATOR", ";"); ("PUNCTUATOR", ";")]))
  = statement 2 (error "x" (init [("PUNCTUATOR", ";"); ("PUNCTUATOR", ";")])).
Proof.
  apply (statement_list_after_an_error 2
           (error "x" (init [("PUNCTUATOR", ";"); ("PUNCTUATOR", ";")]))).
  - apply (so_inv _ _ (error_step _ "x" (init_inv _))).
  - discriminate.
Defined.

Lemma walk_extends_log (a b : Parser) :
  walk a b -> exists l, errors b = (errors a ++ l)%list.
Proof.
  induction 1 as [a|a b t _ _ IH|a b msg _ IH].
  - exists []. now rewrite app_nil_r.
  - exact IH.
  - destruct IH as (l & Hl). simpl in Hl. rewrite <- app_assoc in Hl. eauto.
Qed.

Lemma skipn_app_position {A} (n : nat) (l r : list A) :
  n <= List.length (l ++ r) -> skipn n (l ++ r)%list = r -> n = List.length l.
Proof.
  intros Hle H. apply (f_equal (@List.length A)) in H.
  rewrite length_skipn, length_app in H. rewrite length_app in Hle. lia.
Qed.

(* ================================================================== *)
(** ** Comments *)

Lemma length_app_string (x y : string) :
  String.length (x ++ y) = String.length x + String.length y.
Proof. induction x as [|c x IH]; simpl; congruence. Qed.

Lemma app_assoc_string (x y z : string) :
  ((x ++ y) ++ z = x ++ (y ++ z))%string.
Proof. induction x as [|c x IH]; simpl; congruence. Qed.

Lemma app_empty_r (x : string) : (x ++ "")%string = x.
Proof. induction x as [|c x IH]; simpl; congruence. Qed.

Ltac lengths :=
  repeat first [rewrite length_app_string
               |progress cbn [String.length append]].

Lemma get_app_r (x y : string) (i : nat) :
  get (String.length x + i) (x ++ y) = get i y.
Proof. induction x as [|c x IH]; simpl; auto. Qed.

Lemma get_app_l (x y : string) :
  forall i, i < String.length x -> get i (x ++ y) = get i x.
Proof.
  induction x as [|c x IH]; intros [|i] H; simpl in *; try lia; auto.
  apply IH. lia.
Qed.

Lemma get_end (s : string) : get (String.length s) s = None.
Proof. induction s as [|c s IH]; simpl; auto. Qed.

Lemma get_some (s : string) :
  forall i, i < String.length s -> exists c, get i s = Some c.
Proof.
  induction s as [|c s IH]; intros [|i] H; simpl in *; try lia; eauto.
  apply IH. lia.
Qed.

Lemma has_at_app_r (w x y : string) :
  forall i, has_at (x ++ y) (String.length x + i) w = has_at y i w.
Proof.
  induction w as [|c w IH]; intros i; cbn [has_at]; [reflexivity|].
  rewrite get_app_r, <- Nat.add_succ_r, IH. reflexivity.
Qed.

Lemma has_at_cons (d : ascii) (t w : string) (i : nat) :
  has_at (String d t) (S i) w = has_at t i w.
Proof. exact (has_at_app_r w (String d "") t i). Qed.

Lemma occurs_has_at (w s : string) :
  occurs w s = false -> forall j, has_at s j w = false.
Proof.
  induction s as [|d s IH]; cbn [occurs]; intros H j;
    apply orb_false_elim in H as [H0 H1].
  - destruct w as [|c w]; [discriminate|]. cbn [has_at]. now destruct j.
  - destruct j as [|j]; [assumption|]. rewrite has_at_cons. now apply IH.
Qed.

Lemma occurs_char (c : ascii) (s : string) :
  occurs (String c "") s = false -> forall j, get j s <> Some c.
Proof.
  intros H j Hg. pose proof (occurs_has_at _ _ H j) as Hh.
  cbn [has_at] in Hh. rewrite Hg, Ascii.eqb_refl in Hh. discriminate.
Qed.

Lemma occurs_app_char (c : ascii) (x y : string) :
  occurs (String c "") x = false -> occurs (String c "") y = false ->
  occurs (String c "") (x ++ y) = false.
Proof.
  intros Hx Hy. induction x as [|d x IH]; [assumption|].
  cbn [occurs append] in *. apply orb_false_elim in Hx as [H0 H1].
  rewrite (IH H1), orb_false_r. cbn [has_at get] in *. assumption.
Qed.

(** Both comment patterns begin with a slash. *)
Lemma single_needs_slash (s : string) (j : nat) (k : nat -> option nat) :
  get j s <> Some "/"%char -> run s COMMENT_SINGLE_re j k = None.
Proof.
  intros H. unfold COMMENT_SINGLE_re. cbn [seqs run].
  destruct (get j s) as [d|]; [|reflexivity].
  destruct (Ascii.eqb "/" d) eqn:E; [|reflexivity].
  apply Ascii.eqb_eq in E. subst d. now elim H.
Qed.

Lemma multi_needs_opener (s : string) (j : nat) (k : nat -> option nat) :
  has_at s j "/*" = false -> run s COMMENT_MULTI_re j k = None.
Proof.
  intros H. unfold COMMENT_MULTI_re. cbn [seqs run]. cbn [has_at] in H.
  destruct (get j s) as [d|]; [|reflexivity].
  destruct (Ascii.eqb "/" d); [|reflexivity]. cbn [andb] in H.
  destruct (get (S j) s) as [d'|]; [|reflexivity].
  destruct (Ascii.eqb "*" d'); [discriminate|reflexivity].
Qed.

Lemma multi_needs_slash (s : string) (j : nat) (k : nat -> option nat) :
  get j s <> Some "/"%char -> run s COMMENT_MULTI_re j k = None.
Proof.
  intros H. apply multi_needs_opener. cbn [has_at].
  destruct (get j s) as [d|]; [|reflexivity].
  destruct (Ascii.eqb "/" d) eqn:E; [|reflexivity].
  apply Ascii.eqb_eq in E. subst d. now elim H.
Qed.

(** Where the pattern matches nowhere in a stretch [y], [re.sub] copies the
    stretch. *)
Lemma sub_loop_keep (p : regex) (s : string) :
  forall y x z f,
    s = (x ++ y ++ z)%string ->
    (forall i, i < String.length y ->
               run s p (String.length x + i) Some = None) ->
    sub_loop (String.length y + f) p s (String.length x)
    = (y ++ sub_loop f p s (String.length x + String.length y))%string.
Proof.
  induction y as [|d y IH]; intros x z f Hs Hfail.
  - simpl. now rewrite Nat.add_0_r.
  - cbn [String.length Nat.add sub_loop append].
    assert (Hg : get (String.length x) s = Some d).
    { rewrite Hs. rewrite <- (Nat.add_0_r (String.length x)).
      now rewrite get_app_r. }
    rewrite Hg.
    pose proof (Hfail 0 ltac:(simpl; lia)) as H0.
    rewrite Nat.add_0_r in H0. rewrite H0. f_equal.
    specialize (IH (x ++ String d "")%string z f).
    rewrite length_app_string in IH. cbn [String.length] in IH.
    rewrite Nat.add_1_r in IH. rewrite IH.
    + f_equal. f_equal. lia.
    + rewrite Hs, app_assoc_string. reflexivity.
    + intros i Hi. specialize (Hfail (S i) ltac:(simpl; lia)).
      now rewrite Nat.add_succ_r in Hfail.
Qed.

Lemma sub_loop_at_end (p : regex) (s : string) (f : nat) :
  run s p (String.length s) Some = None ->
  sub_loop f p s (String.length s) = "".
Proof.
  intros H. destruct f as [|f]; [reflexivity|].
  cbn [sub_loop]. now rewrite H, get_end.
Qed.

(** A text in which the pattern matches nowhere is left as it is. *)
Lemma re_sub_empty_keep (p : regex) (s : string) :
  (forall i, i <= String.length s -> run s p i Some = None) ->
  re_sub_empty p s = s.
Proof.
  intros H. unfold re_sub_empty.
  replace (S (String.length s)) with (String.length s + 1) by lia.
  change 0 with (String.length "") at 2.
  rewrite (sub_loop_keep p s s "" "" 1).
  - cbn [String.length Nat.add]. rewrite sub_loop_at_end; [apply app_empty_r|].
    apply H. lia.
  - now rewrite app_empty_r.
  - intros i Hi. apply H. simpl. lia.
Qed.

Lemma strip_comments_keep (s : string) :
  occurs "/" s = false -> strip_comments s = s.
Proof.
  intros H. pose proof (occurs_char _ _ H) as Hno. unfold strip_comments.
  rewrite (re_sub_empty_keep COMMENT_MULTI_re s).
  - apply re_sub_empty_keep. intros i _. apply single_needs_slash, Hno.
  - intros i _. apply multi_needs_slash, Hno.
Qed.

Lemma sub_loop_keep_first (p : regex) (y z : string) (f : nat) :
  (forall i, i < String.length y -> run (y ++ z) p i Some = None) ->
  sub_loop (String.length y + f) p (y ++ z) 0
  = (y ++ sub_loop f p (y ++ z) (String.length y))%string.
Proof.
  intros H. exact (sub_loop_keep p (y ++ z) y "" z f eq_refl H).
Qed.

Lemma sub_loop_keep_last (p : regex) (x y : string) (f : nat) :
  String.length y <= f ->
  (forall i, i <= String.length y ->
             run (x ++ y) p (String.length x + i) Some = None) ->
  sub_loop f p (x ++ y) (String.length x) = y.
Proof.
  intros Hle H.
  replace f with (String.length y + (f - String.length y)) by lia.
  rewrite (sub_loop_keep p (x ++ y) y x "" _).
  - rewrite <- length_app_string, sub_loop_at_end; [apply app_empty_r|].
    rewrite length_app_string. apply H. lia.
  - now rewrite app_empty_r.
  - intros i Hi. apply H. lia.
Qed.

Lemma sub_loop_cut (p : regex) (s : string) (pos e f : nat) :
  run s p pos Some = Some e -> pos < e ->
  sub_loop (S f) p s pos = sub_loop f p s e.
Proof.
  intros H Hlt. cbn [sub_loop]. rewrite H.
  apply Nat.ltb_lt in Hlt. now rewrite Hlt.
Qed.

(** The lazy repetition of the any-character class stops at the first
    position where the rest of the pattern matches. *)
Lemma lazy_scan (s : string) (k : nat -> option nat) (e : nat) :
  forall n i fuel,
    n <= fuel ->
    (forall j, j < n -> k (i + j) = None /\ get (i + j) s <> None) ->
    k (i + n) = Some e ->
    lazy_star (run s (Cls any_char)) fuel i k = Some e.
Proof.
  induction n as [|n IH]; intros i fuel Hle Hbefore Hk.
  - rewrite Nat.add_0_r in Hk. destruct fuel; simpl; now rewrite Hk.
  - destruct fuel as [|fuel]; [lia|]. cbn [lazy_star].
    destruct (Hbefore 0 ltac:(lia)) as (H0 & Hg).
    rewrite Nat.add_0_r in H0, Hg. rewrite H0. cbn [run].
    destruct (get i s) as [d|]; [|congruence]. cbn [any_char].
    rewrite (proj2 (Nat.ltb_lt i (S i)) (Nat.lt_succ_diag_r i)).
    apply IH; [lia| |].
    + intros j Hj. specialize (Hbefore (S j) ltac:(lia)).
      now rewrite Nat.add_succ_r in Hbefore.
    + now rewrite Nat.add_succ_r in Hk.
Qed.

Lemma closer_test (s : string) (j : nat) :
  run s (Seq (Chr "*") (Chr "/")) j Some
  = if has_at s j "*/" then Some (S (S j)) else None.
Proof.
  cbn [run has_at]. destruct (get j s) as [d|]; [|reflexivity].
  destruct (Ascii.eqb "*" d); [|reflexivity]. cbn [andb].
  destruct (get (S j) s) as [d'|]; [|reflexivity].
  destruct (Ascii.eqb "/" d'); reflexivity.
Qed.

(** A comment body without [*/], followed by a star, does not end early. *)
Lemma no_closer_inside (c r : string) :
  occurs "*/" c = false ->
  forall j, j < String.length c ->
            has_at (c ++ String "*" r) j "*/" = false.
Proof.
  induction c as [|d c IH]; intros H j Hj; [simpl in Hj; lia|].
  cbn [occurs] in H. apply orb_false_elim in H as [H0 H1].
  destruct j as [|j].
  - destruct c as [|d' c].
    + cbn [append has_at get]. now rewrite andb_false_r.
    + exact H0.
  - cbn [append]. rewrite has_at_cons. apply IH; [assumption|].
    simpl in Hj. lia.
Qed.

Lemma run_chr_at (s : string) (c : ascii) (i : nat) (k : nat -> option nat) :
  get i s = Some c -> run s (Chr c) i k = k (S i).
Proof. intros H. cbn [run]. now rewrite H, Ascii.eqb_refl. Qed.

Lemma run_lazy (s : string) (a : regex) (i : nat) (k : nat -> option nat) :
  run s (LazyStar a) i k
  = lazy_star (run s a) (S (String.length s - i)) i k.
Proof. reflexivity. Qed.

Lemma run_star (s : string) (a : regex) (i : nat) (k : nat -> option nat) :
  run s (Star a) i k = star (run s a) (S (String.length s - i)) i k.
Proof. reflexivity. Qed.

Lemma multi_match (a c b : string) :
  occurs "*/" c = false ->
  run (a ++ "/*" ++ c ++ "*/" ++ b) COMMENT_MULTI_re (String.length a) Some
  = Some (String.length (a ++ "/*" ++ c ++ "*/")).
Proof.
  intros Hc. set (s := (a ++ "/*" ++ c ++ "*/" ++ b)%string).
  assert (Hs : s = ((a ++ "/*") ++ c ++ "*/" ++ b)%string)
    by (unfold s; now rewrite app_assoc_string).
  assert (Hp : String.length (a ++ "/*") = S (S (String.length a)))
    by (rewrite length_app_string; simpl; lia).
  assert (G0 : get (String.length a) s = Some "/"%char).
  { unfold s. rewrite <- (Nat.add_0_r (String.length a)).
    now rewrite get_app_r. }
  assert (G1 : get (S (String.length a)) s = Some "*"%char).
  { unfold s. rewrite <- Nat.add_1_r. now rewrite get_app_r. }
  unfold COMMENT_MULTI_re. cbn [seqs].
  rewrite run_seq, (run_chr_at _ _ _ _ G0).
  rewrite run_seq, (run_chr_at _ _ _ _ G1).
  rewrite run_seq, run_lazy. rewrite <- Hp.
  apply (lazy_scan s _ _ (String.length c)).
  - rewrite Hs, !length_app_string. lia.
  - intros j Hj. rewrite closer_test, Hs, has_at_app_r, get_app_r.
    rewrite (no_closer_inside c ("/" ++ b) Hc j Hj
             : has_at (c ++ "*/" ++ b) j "*/" = false).
    split; [reflexivity|]. rewrite (get_app_l _ _ _ Hj).
    destruct (get_some c j Hj) as (d & ->). discriminate.
  - rewrite closer_test, Hs, has_at_app_r.
    rewrite <- (Nat.add_0_r (String.length c)), has_at_app_r.
    cbn [has_at append get Ascii.eqb Bool.eqb andb]. f_equal.
    lengths. lia.
Qed.

Lemma block_comment_stripped (a c b : string) :
  occurs "/" a = false -> occurs "/" b = false -> occurs "*/" c = false ->
  strip_comments (a ++ "/*" ++ c ++ "*/" ++ b) = (a ++ b)%string.
Proof.
  intros Ha Hb Hc. unfold strip_comments.
  assert (H1 : re_sub_empty COMMENT_MULTI_re (a ++ "/*" ++ c ++ "*/" ++ b)
               = (a ++ b)%string).
  { unfold re_sub_empty. set (s := (a ++ "/*" ++ c ++ "*/" ++ b)%string).
    assert (Hs : s = ((a ++ "/*" ++ c ++ "*/") ++ b)%string)
      by (unfold s; now rewrite !app_assoc_string).
    assert (Hl : S (String.length s)
                 = String.length a + S (String.length b + (String.length c + 4))).
    { unfold s. rewrite !length_app_string. simpl. lia. }
    rewrite Hl. unfold s.
    rewrite sub_loop_keep_first.
    - fold s. f_equal.
      rewrite (sub_loop_cut _ s _ _ _ (multi_match a c b Hc)).
      + rewrite Hs. apply sub_loop_keep_last; [lia|].
        intros i _. apply multi_needs_slash.
        rewrite get_app_r. apply (occurs_char _ _ Hb).
      + rewrite length_app_string. simpl. lia.
    - intros i Hi. apply multi_needs_slash.
      rewrite (get_app_l _ _ _ Hi). apply (occurs_char _ _ Ha). }
  rewrite H1. apply re_sub_empty_keep. intros i _.
  apply single_needs_slash, occurs_char, occurs_app_char; assumption.
Qed.

Lemma run_cls_at (s : string) (p : ascii -> bool) (d : ascii) (i : nat)
      (k : nat -> option nat) :
  get i s = Some d -> p d = true -> run s (Cls p) i k = k (S i).
Proof. intros H Hd. cbn [run]. now rewrite H, Hd. Qed.

Lemma run_cls_stop (s : string) (p : ascii -> bool) (i : nat)
      (k : nat -> option nat) :
  match get i s with Some d => p d = false | None => True end ->
  run s (Cls p) i k = None.
Proof.
  intros H. cbn [run]. destruct (get i s) as [d|]; [now rewrite H|reflexivity].
Qed.

(** The greedy repetition of a character class runs to the end of the
    stretch of characters of the class, when what follows matches there. *)
Lemma star_scan (s : string) (p : ascii -> bool) (k : nat -> option nat)
      (e : nat) :
  forall n i fuel,
    n <= fuel ->
    (forall j, j < n -> exists d, get (i + j) s = Some d /\ p d = true) ->
    match get (i + n) s with Some d => p d = false | None => True end ->
    k (i + n) = Some e ->
    star (run s (Cls p)) fuel i k = Some e.
Proof.
  induction n as [|n IH]; intros i fuel Hle Hin Hstop Hk.
  - rewrite Nat.add_0_r in Hk, Hstop. destruct fuel; cbn [star]; auto.
    now rewrite (run_cls_stop _ _ _ _ Hstop).
  - destruct fuel as [|fuel]; [lia|]. cbn [star].
    destruct (Hin 0 ltac:(lia)) as (d & Hg & Hd).
    rewrite Nat.add_0_r in Hg. rewrite (run_cls_at _ _ _ _ _ Hg Hd).
    rewrite (proj2 (Nat.ltb_lt i (S i)) (Nat.lt_succ_diag_r i)).
    rewrite (IH (S i) fuel); [reflexivity|lia| | |].
    + intros j Hj. specialize (Hin (S j) ltac:(lia)).
      now rewrite Nat.add_succ_r in Hin.
    + now rewrite Nat.add_succ_r in Hstop.
    + now rewrite Nat.add_succ_r in Hk.
Qed.

Lemma dot_not_newline (d : ascii) : d <> newline -> dot d = true.
Proof.
  intros H. unfold dot, is_newline, code.
  destruct (Nat.eqb_spec (nat_of_ascii d) 10) as [E|]; [|reflexivity].
  elim H. rewrite <- (ascii_nat_embedding d), E. reflexivity.
Qed.

Lemma single_match (a c b : string) :
  occurs (String newline "") c = false -> at_line_end b ->
  run (a ++ "//" ++ c ++ b) COMMENT_SINGLE_re (String.length a) Some
  = Some (String.length (a ++ "//" ++ c)).
Proof.
  intros Hc Hb. set (s := (a ++ "//" ++ c ++ b)%string).
  assert (Hs : s = ((a ++ "//") ++ c ++ b)%string)
    by (unfold s; now rewrite app_assoc_string).
  assert (Hp : String.length (a ++ "//") = S (S (String.length a)))
    by (lengths; lia).
  assert (G0 : get (String.length a) s = Some "/"%char).
  { unfold s. rewrite <- (Nat.add_0_r (String.length a)).
    now rewrite get_app_r. }
  assert (G1 : get (S (String.length a)) s = Some "/"%char).
  { unfold s. rewrite <- Nat.add_1_r. now rewrite get_app_r. }
  unfold COMMENT_SINGLE_re. cbn [seqs].
  rewrite run_seq, (run_chr_at _ _ _ _ G0).
  rewrite run_seq, (run_chr_at _ _ _ _ G1).
  rewrite run_star, <- Hp.
  apply (star_scan s dot Some _ (String.length c)).
  - rewrite Hs. lengths. lia.
  - intros j Hj. rewrite Hs, get_app_r, (get_app_l _ _ _ Hj).
    destruct (get_some c j Hj) as (d & Hd). exists d. split; [assumption|].
    apply dot_not_newline. intros ->. exact (occurs_char _ _ Hc j Hd).
  - rewrite Hs, get_app_r. rewrite <- (Nat.add_0_r (String.length c)).
    rewrite get_app_r. destruct b as [|d b]; [exact I|]. simpl in Hb.
    subst d. reflexivity.
  - f_equal. lengths. lia.
Qed.

Lemma occurs_longer (c : ascii) (w s : string) :
  occurs (String c "") s = false -> occurs (String c w) s = false.
Proof.
  induction s as [|d s IH]; cbn [occurs has_at get]; [reflexivity|].
  intros H. apply orb_false_elim in H as [H0 H1]. rewrite (IH H1).
  destruct (Ascii.eqb c d); [discriminate|reflexivity].
Qed.

Lemma head_not_star (c b : string) :
  occurs "*" c = false -> at_line_end b -> get 0 (c ++ b) <> Some "*"%char.
Proof.
  intros Hc Hb. destruct c as [|d c].
  - destruct b as [|d b]; [discriminate|]. simpl in *. subst d. discriminate.
  - exact (occurs_char _ _ Hc 0).
Qed.

Lemma no_opener_head (d : ascii) (t : string) :
  get 0 t <> Some "*"%char -> has_at (String d t) 0 "/*" = false.
Proof.
  intros H. cbn [has_at get]. destruct (Ascii.eqb "/" d); [|reflexivity].
  destruct (get 0 t) as [d'|]; [|reflexivity].
  destruct (Ascii.eqb "*" d') eqn:E; [|reflexivity].
  apply Ascii.eqb_eq in E. subst d'. now elim H.
Qed.

Lemma no_opener_in_line (c b : string) :
  occurs "*" c = false -> occurs "/" b = false -> at_line_end b ->
  occurs "/*" (c ++ b) = false.
Proof.
  intros Hc Hb Hl. induction c as [|d c IH].
  - now apply occurs_longer.
  - pose proof Hc as Hc'. cbn [occurs] in Hc'.
    apply orb_false_elim in Hc' as [_ H1].
    cbn [append occurs]. rewrite (IH H1), orb_false_r.
    apply no_opener_head, head_not_star; assumption.
Qed.

Lemma no_opener_with_line_comment (a c b : string) :
  occurs "/" a = false -> occurs "*" c = false -> occurs "/" b = false ->
  at_line_end b ->
  occurs "/*" (a ++ "//" ++ c ++ b) = false.
Proof.
  intros Ha Hc Hb Hl. induction a as [|d a IH].
  - cbn [append occurs]. rewrite (no_opener_in_line c b Hc Hb Hl).
    rewrite orb_false_r.
    rewrite (no_opener_head "/" (c ++ b) (head_not_star c b Hc Hl)).
    rewrite orb_false_r. apply no_opener_head. discriminate.
  - cbn [occurs] in Ha. apply orb_false_elim in Ha as [H0 H1].
    pose proof (IH H1) as IH'. cbn [append] in IH'.
    cbn [append occurs]. rewrite IH', orb_false_r.
    cbn [has_at get] in *. destruct (Ascii.eqb "/" d); [discriminate|reflexivity].
Qed.

Lemma line_comment_stripped (a c b : string) :
  occurs "/" a = false -> occurs "/" b = false ->
  occurs (String newline "") c = false -> occurs "*" c = false ->
  at_line_end b ->
  strip_comments (a ++ "//" ++ c ++ b) = (a ++ b)%string.
Proof.
  intros Ha Hb Hn Hc Hl. unfold strip_comments.
  rewrite (re_sub_empty_keep COMMENT_MULTI_re).
  - unfold re_sub_empty. set (s := (a ++ "//" ++ c ++ b)%string).
    assert (Hs : s = ((a ++ "//" ++ c) ++ b)%string)
      by (unfold s; now rewrite !app_assoc_string).
    assert (Hf : S (String.length s)
                 = String.length a + S (String.length b + (String.length c + 2))).
    { unfold s. lengths. lia. }
    rewrite Hf. unfold s. rewrite sub_loop_keep_first.
    + fold s. f_equal.
      rewrite (sub_loop_cut _ s _ _ _ (single_match a c b Hn Hl)).
      * rewrite Hs. apply sub_loop_keep_last; [lia|].
        intros i _. apply single_needs_slash.
        rewrite get_app_r. apply (occurs_char _ _ Hb).
      * lengths. lia.
    + intros i Hi. apply single_needs_slash.
      rewrite (get_app_l _ _ _ Hi). apply (occurs_char _ _ Ha).
  - intros i _. apply multi_needs_opener, occurs_has_at.
    now apply no_opener_with_line_comment.
Qed.

(** X12. A block comment is cut out before scanning, and nothing is put in
    its place: when the text around it has no slash and the comment body
    has no [*/], the text scans exactly as the two sides joined. *)
Theorem block_comment_is_cut_out (a c b : string) :
  occurs "/" a = false -> occurs "/" b = false -> occurs "*/" c = false ->
  strip_comments (a ++ "/*" ++ c ++ "*/" ++ b) = (a ++ b)%string
  /\ tokenize (a ++ "/*" ++ c ++ "*/" ++ b) = tokenize (a ++ b).
Proof.
  intros Ha Hb Hc.
  pose proof (block_comment_stripped a c b Ha Hb Hc) as H.
  split; [assumption|]. unfold tokenize, tokenize_fuel.
  rewrite H, strip_comments_keep; [reflexivity|].
  now apply occurs_app_char.
Qed.

Lemma block_comment_is_cut_out_witness :
  tokenize "in/* a * b */t; x" = tokenize "int; x".
Proof.
  apply (block_comment_is_cut_out "in" " a * b " "t; x"); reflexivity.
Defined.

(** X13. A line comment is cut out up to the end of its line: when the
    text before it and the text from the line break on have no slash, and
    the comment has no star, the text scans exactly as without it. *)
Theorem line_comment_is_cut_out (a c b : string) :
  occurs "/" a = false -> occurs "/" b = false ->
  occurs (String newline "") c = false -> occurs "*" c = false ->
  at_line_end b ->
  strip_comments (a ++ "//" ++ c ++ b) = (a ++ b)%string
  /\ tokenize (a ++ "//" ++ c ++ b) = tokenize (a ++ b).
Proof.
  intros Ha Hb Hn Hc Hl.
  pose proof (line_comment_stripped a c b Ha Hb Hn Hc Hl) as H.
  split; [assumption|]. unfold tokenize, tokenize_fuel.
  rewrite H, strip_comments_keep; [reflexivity|].
  now apply occurs_app_char.
Qed.

Lemma line_comment_is_cut_out_witness :
  tokenize ("x = 1; // set x" ++ String newline "y = 2;")
  = tokenize ("x = 1; " ++ String newline "y = 2;").
Proof.
  apply (line_comment_is_cut_out "x = 1; " " set x" (String newline "y = 2;"));
    reflexivity.
Defined.

(* ================================================================== *)
(** ** Constants and literals *)

Lemma star_cls_inv (t : string) (p : ascii -> bool) (k : nat -> option nat) :
  forall fuel i e,
    star (run t (Cls p)) fuel i k = Some e ->
    exists j, i <= j /\ stretch t p i j /\ k j = Some e.
Proof.
  assert (Hhere : forall i e, k i = Some e ->
            exists j, i <= j /\ stretch t p i j /\ k j = Some e).
  { intros i e H. exists i. split; [lia|]. split; [|assumption].
    intros x Hx. lia. }
  induction fuel as [|f IH]; intros i e H; cbn [star] in H; [auto|].
  destruct (get i t) as [c|] eqn:Hg;
    [|rewrite run_cls_stop in H by (now rewrite Hg); auto].
  destruct (p c) eqn:Hp;
    [|rewrite run_cls_stop in H by (now rewrite Hg); auto].
  rewrite (run_cls_at _ _ _ _ _ Hg Hp) in H.
  rewrite (proj2 (Nat.ltb_lt i (S i)) (Nat.lt_succ_diag_r i)) in H.
  destruct (star (run t (Cls p)) f (S i) k) as [e'|] eqn:Hs; [|auto].
  inv_some. destruct (IH _ _ Hs) as (j & Hj & Hst & Hk).
  exists j. split; [lia|]. split; [|assumption].
  intros x Hx. destruct (Nat.eq_dec x i) as [->|]; [eauto|].
  apply Hst. lia.
Qed.

Lemma plus_cls_inv (t : string) (p : ascii -> bool) (k : nat -> option nat)
      (i e : nat) :
  run t (plus (Cls p)) i k = Some e ->
  exists j, i < j /\ stretch t p i j /\ k j = Some e.
Proof.
  unfold plus. rewrite run_seq. intros H.
  destruct (get i t) as [c|] eqn:Hg;
    [|rewrite run_cls_stop in H by (now rewrite Hg); discriminate].
  destruct (p c) eqn:Hp;
    [|rewrite run_cls_stop in H by (now rewrite Hg); discriminate].
  rewrite (run_cls_at _ _ _ _ _ Hg Hp), run_star in H.
  apply star_cls_inv in H as (j & Hj & Hst & Hk).
  exists j. split; [lia|]. split; [|assumption].
  intros x Hx. destruct (Nat.eq_dec x i) as [->|]; [eauto|].
  apply Hst. lia.
Qed.

Lemma get_shift (t : string) (i x : nat) :
  get x (slice_from i t) = get (i + x) t.
Proof.
  revert t. induction i as [|i IH]; intros [|c t]; cbn [slice_from];
    try reflexivity; try apply IH.
Qed.

Lemma slice_to_add (a b : nat) (t : string) :
  slice_to (a + b) t = (slice_to a t ++ slice_to b (slice_from a t))%string.
Proof.
  revert t. induction a as [|a IH]; intros t; cbn [Nat.add].
  - destruct t; reflexivity.
  - destruct t as [|c t]; cbn [slice_to slice_from append].
    + now destruct b.
    + now rewrite IH.
Qed.

Lemma stretch_slice (p : ascii -> bool) :
  forall n t, stretch t p 0 n ->
              all_in p (slice_to n t) = true
              /\ String.length (slice_to n t) = n.
Proof.
  induction n as [|n IH]; intros t H.
  - destruct t; split; reflexivity.
  - destruct (H 0 ltac:(lia)) as (c & Hg & Hc).
    destruct t as [|d t]; [discriminate|]. simpl in Hg. inv_some.
    cbn [slice_to all_in String.length]. rewrite Hc.
    destruct (IH t) as (Ha & Hl).
    + intros x Hx. apply (H (S x)). lia.
    + rewrite Ha, Hl. split; reflexivity.
Qed.

Lemma stretch_from (t : string) (p : ascii -> bool) (i j : nat) :
  stretch t p i j -> stretch (slice_from i t) p 0 (j - i).
Proof. intros H x Hx. rewrite get_shift. apply H. lia. Qed.

Lemma stretch_number (t : string) (i j : nat) :
  i < j -> stretch t is_digit i j ->
  is_number (slice_to (j - i) (slice_from i t)).
Proof.
  intros Hlt H. destruct (stretch_slice _ _ _ (stretch_from _ _ _ _ H))
    as (Ha & Hl).
  split; [|assumption]. intros E. rewrite E in Hl. simpl in Hl. lia.
Qed.

Lemma bnd_end (t : string) (j e : nat) : run t Bnd j Some = Some e -> e = j.
Proof.
  cbn [run]. destruct (at_boundary t j); [|discriminate]. congruence.
Qed.

Lemma run_chr_inv (t : string) (c : ascii) (i e : nat)
      (k : nat -> option nat) :
  run t (Chr c) i k = Some e -> get i t = Some c /\ k (S i) = Some e.
Proof.
  cbn [run]. destruct (get i t) as [d|]; [|discriminate].
  destruct (Ascii.eqb c d) eqn:E; [|discriminate].
  apply Ascii.eqb_eq in E. subst d. auto.
Qed.

Lemma int_match (t : string) (e : nat) :
  re_match CONSTANT_INT_re t = Some e -> is_number (slice_to e t).
Proof.
  unfold re_match, CONSTANT_INT_re. cbn [seqs]. rewrite run_seq, run_bnd.
  destruct (at_boundary t 0); [|discriminate]. rewrite run_seq. intros H.
  apply plus_cls_inv in H as (j & Hj & Hst & Hk). apply bnd_end in Hk.
  subst e. pose proof (stretch_number t 0 j Hj Hst) as Hn.
  now rewrite Nat.sub_0_r in Hn.
Qed.

Lemma float_match (t : string) (e : nat) :
  re_match CONSTANT_FLOAT_re t = Some e ->
  exists d1 d2, slice_to e t = (d1 ++ "." ++ d2)%string
                /\ is_number d1 /\ is_number d2.
Proof.
  unfold re_match, CONSTANT_FLOAT_re. cbn [seqs]. rewrite run_seq, run_bnd.
  destruct (at_boundary t 0); [|discriminate]. rewrite run_seq. intros H.
  apply plus_cls_inv in H as (j1 & Hj1 & Hs1 & H). rewrite run_seq in H.
  apply run_chr_inv in H as (Hg & H). rewrite run_seq in H.
  apply plus_cls_inv in H as (j2 & Hj2 & Hs2 & Hk). apply bnd_end in Hk.
  subst e.
  exists (slice_to j1 t), (slice_to (j2 - S j1) (slice_from (S j1) t)).
  split; [|split].
  - replace j2 with (j1 + S (j2 - S j1)) at 1 by lia.
    rewrite slice_to_add, (slice_from_get _ _ _ Hg). reflexivity.
  - pose proof (stretch_number t 0 j1 Hj1 Hs1) as Hn.
    now rewrite Nat.sub_0_r in Hn.
  - now apply stretch_number.
Qed.

Lemma slice_to_S_get (c : ascii) :
  forall n r, get n r = Some c ->
              slice_to (S n) r = (slice_to n r ++ String c "")%string.
Proof.
  induction n as [|n IH]; intros [|d r] H; try discriminate.
  - simpl in H. inv_some. now destruct r.
  - simpl in H. cbn [slice_to append] in *. now rewrite (IH r H).
Qed.

Lemma string_match (t : string) (e : nat) :
  re_match STRING_LITERAL_re t = Some e ->
  exists body, slice_to e t = String dquote (body ++ String dquote "").
Proof.
  unfold re_match, STRING_LITERAL_re. cbn [seqs]. rewrite run_seq.
  intros H. apply run_chr_inv in H as (H0 & H). rewrite run_seq in H.
  apply run_advances in H as (j & Hj & Hk).
  apply run_chr_inv in Hk as (Hg & Hk). inv_some.
  destruct t as [|c r]; [discriminate|]. simpl in H0. inv_some.
  destruct j as [|j]; [simpl in Hj; lia|]. cbn [get] in Hg.
  exists (slice_to j r).
  change (slice_to (S (S j)) (String dquote r))
    with (String dquote (slice_to (S j) r)).
  now rewrite (slice_to_S_get _ _ _ Hg).
Qed.

Lemma preprocessor_match (t : string) (e : nat) :
  re_match PREPROCESSOR_re t = Some e ->
  exists sp w, slice_to e t = String "#" (sp ++ w)
               /\ all_in is_space sp = true
               /\ (w = "include" \/ w = "define").
Proof.
  unfold re_match, PREPROCESSOR_re. cbn [seqs]. rewrite run_seq.
  intros H. apply run_chr_inv in H as (H0 & H).
  rewrite run_seq, run_star in H.
  apply star_cls_inv in H as (j & Hj & Hst & Hk).
  rewrite run_seq, run_alts in Hk.
  apply first_alt_lit_inv in Hk as (w & Hin & Hw & Hk). apply bnd_end in Hk.
  subst e. destruct t as [|c r]; [discriminate|]. simpl in H0. inv_some.
  destruct j as [|j]; [lia|].
  apply has_at_prefix in Hw as (rest & Hrest).
  exists (slice_to j r), w. split; [|split].
  - rewrite slice_to_add. cbn [slice_to slice_from append] in *.
    now rewrite Hrest, slice_to_app.
  - apply (stretch_slice is_space j r). intros x Hx.
    apply (Hst (S x)). lia.
  - destruct Hin as [<-|[<-|[]]]; auto.
Qed.

Lemma scan_literal_shape (text : string) (tok : token) (r : string) :
  is_empty text = false -> scan text = Emit tok r -> literal_shape tok.
Proof.
  intros _. unfold scan. rewrite first_match_TOKEN_TYPES.
  unfold literal_shape.
  destruct (re_match KEYWORD_re text) as [e|] eqn:H1.
  { intros H. inversion H; subst; simpl. repeat split; discriminate. }
  destruct (re_match IDENTIFIER_re text) as [e|] eqn:H2.
  { intros H. inversion H; subst; simpl. repeat split; discriminate. }
  destruct (re_match PREPROCESSOR_re text) as [e|] eqn:H3.
  { intros H. inversion H; subst; simpl.
    split; [discriminate|]. split; [discriminate|]. split; [discriminate|].
    intros _. now apply preprocessor_match. }
  destruct (re_match CONSTANT_FLOAT_re text) as [e|] eqn:H4.
  { intros H. inversion H; subst; simpl.
    split; [discriminate|]. split; [|split; discriminate].
    intros _. now apply float_match. }
  destruct (re_match CONSTANT_INT_re text) as [e|] eqn:H5.
  { intros H. inversion H; subst; simpl.
    split; [|repeat split; discriminate].
    intros _. now apply int_match. }
  destruct (re_match OPERATOR_re text) as [e|] eqn:H6.
  { intros H. inversion H; subst; simpl. repeat split; discriminate. }
  destruct (re_match PUNCTUATOR_re text) as [e|] eqn:H7.
  { intros H. inversion H; subst; simpl. repeat split; discriminate. }
  destruct (re_match STRING_LITERAL_re text) as [e|] eqn:H8; [|discriminate].
  intros H. inversion H; subst; simpl.
  split; [discriminate|]. split; [discriminate|]. split; [|discriminate].
  intros _. now apply string_match.
Qed.

(** X14. The four literal categories hold what their names say: in the
    output of [tokenize] a [CONSTANT_INT] lexeme is a non-empty string of
    digits, a [CONSTANT_FLOAT] lexeme is two such strings joined by a dot, a
    [STRING_LITERAL] lexeme begins and ends with a double quote, and a
    [PREPROCESSOR] lexeme is a hash sign, white space if any, and [include]
    or [define]. *)
Theorem tokenize_literal_shapes (text : string) (toks : list token) :
  tokenize text = Some toks -> Forall literal_shape toks.
Proof. apply (tokenize_forall literal_shape scan_literal_shape). Qed.

Lemma tokenize_literal_shapes_witness :
  Forall literal_shape
         [("PREPROCESSOR", "# include"); ("CONSTANT_FLOAT", "3.14");
          ("CONSTANT_INT", "42");
          ("STRING_LITERAL", String dquote ("hi" ++ String dquote ""))].
Proof.
  apply (tokenize_literal_shapes
           ("# include 3.14 42 " ++ String dquote ("hi" ++ String dquote ""))).
  vm_compute. reflexivity.
Defined.

(* ================================================================== *)
(** ** Numbers are scanned whole *)

Lemma digit_is_word (c : ascii) : is_digit c = true -> is_word c = true.
Proof.
  unfold is_digit, is_word. intros ->. now rewrite orb_true_r.
Qed.

Lemma digit_starts_no_word_rule (c : ascii) :
  is_digit c = true ->
  first KEYWORD_re c = false /\ first IDENTIFIER_re c = false
  /\ first PREPROCESSOR_re c = false.
Proof.
  destruct c as [b0 b1 b2 b3 b4 b5 b6 b7].
  destruct b0, b1, b2, b3, b4, b5, b6, b7; intros H;
    vm_compute in H; try discriminate H; vm_compute; auto.
Qed.

Lemma all_in_get (p : ascii -> bool) :
  forall s j, all_in p s = true -> j < String.length s ->
              exists c, get j s = Some c /\ p c = true.
Proof.
  induction s as [|d s IH]; intros j H Hj; [simpl in Hj; lia|].
  cbn [all_in] in H. apply andb_prop in H as [Hd Hs].
  destruct j as [|j]; [simpl; eauto|]. simpl in Hj. apply (IH j Hs). lia.
Qed.

Lemma head_outside_get (p : ascii -> bool) (r : string) :
  head_outside p r ->
  match get 0 r with Some d => p d = false | None => True end.
Proof. destruct r; simpl; auto. Qed.

(** One or more digits, taken greedily, reach the end of a number. *)
Lemma plus_digits_run (x d r : string) (k : nat -> option nat) (e : nat) :
  is_number d -> head_outside is_digit r ->
  k (String.length x + String.length d) = Some e ->
  run (x ++ d ++ r) (plus (Cls is_digit)) (String.length x) k = Some e.
Proof.
  intros (Hne & Hd) Hr Hk. destruct d as [|c d]; [congruence|].
  cbn [all_in] in Hd. apply andb_prop in Hd as [Hc Hd].
  set (t := (x ++ String c d ++ r)%string).
  assert (Ht : t = ((x ++ String c "") ++ d ++ r)%string)
    by (unfold t; now rewrite app_assoc_string).
  assert (Hx : String.length (x ++ String c "") = S (String.length x))
    by (lengths; lia).
  assert (G0 : get (String.length x) t = Some c).
  { unfold t. rewrite <- (Nat.add_0_r (String.length x)).
    now rewrite get_app_r. }
  unfold plus. rewrite run_seq, (run_cls_at _ _ _ _ _ G0 Hc), run_star.
  rewrite <- Hx. apply (star_scan t is_digit k e (String.length d)).
  - rewrite Ht. lengths. lia.
  - intros j Hj. rewrite Ht, get_app_r, (get_app_l _ _ _ Hj).
    now apply all_in_get.
  - rewrite Ht, get_app_r. rewrite <- (Nat.add_0_r (String.length d)).
    rewrite get_app_r. now apply head_outside_get.
  - rewrite Hx. cbn [String.length] in Hk.
    now rewrite Nat.add_succ_r in Hk.
Qed.

Lemma word_after (x r : string) :
  head_outside is_word r -> word_at (x ++ r) (String.length x) = false.
Proof.
  intros Hr. unfold word_at. rewrite <- (Nat.add_0_r (String.length x)).
  rewrite get_app_r. destruct r as [|c r]; [reflexivity|]. exact Hr.
Qed.

Lemma boundary_after_digits (y d r : string) :
  is_number d -> head_outside is_word r ->
  at_boundary ((y ++ d) ++ r) (String.length (y ++ d)) = true.
Proof.
  intros (Hne & Hd) Hr. unfold at_boundary.
  rewrite (word_after (y ++ d) r Hr).
  assert (Hl : String.length (y ++ d)
               = S (String.length y + (String.length d - 1))).
  { rewrite length_app_string. destruct d; [congruence|]. simpl. lia. }
  rewrite Hl. unfold word_at.
  rewrite !app_assoc_string, get_app_r.
  assert (Hlt : String.length d - 1 < String.length d).
  { destruct d; [congruence|]. simpl. lia. }
  rewrite (get_app_l _ _ _ Hlt).
  destruct (all_in_get is_digit d _ Hd Hlt) as (c & -> & Hc).
  now rewrite (digit_is_word c Hc).
Qed.

Lemma boundary_before_number (c : ascii) (r : string) :
  is_digit c = true -> at_boundary (String c r) 0 = true.
Proof.
  intros H. unfold at_boundary, word_at. simpl. now apply digit_is_word.
Qed.

Lemma word_rules_fail_on_digit (c : ascii) (r : string) :
  is_digit c = true ->
  re_match KEYWORD_re (String c r) = None
  /\ re_match IDENTIFIER_re (String c r) = None
  /\ re_match PREPROCESSOR_re (String c r) = None.
Proof.
  intros H. destruct (digit_starts_no_word_rule c H) as (F1 & F2 & F3).
  repeat split.
  - destruct (re_match KEYWORD_re (String c r)) as [e|] eqn:E; [|reflexivity].
    apply re_match_first in E as (c' & r' & Hs & Hf); [|reflexivity].
    inversion Hs; subst. congruence.
  - destruct (re_match IDENTIFIER_re (String c r)) as [e|] eqn:E; [|reflexivity].
    apply re_match_first in E as (c' & r' & Hs & Hf); [|reflexivity].
    inversion Hs; subst. congruence.
  - destruct (re_match PREPROCESSOR_re (String c r)) as [e|] eqn:E; [|reflexivity].
    apply re_match_first in E as (c' & r' & Hs & Hf); [|reflexivity].
    inversion Hs; subst. congruence.
Qed.

Lemma head_outside_weaken (p q : ascii -> bool) (r : string) :
  (forall c, q c = true -> p c = true) -> head_outside p r -> head_outside q r.
Proof.
  intros Hpq. destruct r as [|c r]; [auto|]. simpl. intros Hp.
  destruct (q c) eqn:E; [|reflexivity]. apply Hpq in E. congruence.
Qed.

Lemma all_in_app (p : ascii -> bool) (x y : string) :
  all_in p (x ++ y) = all_in p x && all_in p y.
Proof.
  induction x as [|c x IH]; simpl; [reflexivity|].
  now rewrite IH, andb_assoc.
Qed.

Lemma float_matches (d1 d2 rest : string) :
  is_number d1 -> is_number d2 -> head_outside is_word rest ->
  re_match CONSTANT_FLOAT_re (d1 ++ "." ++ d2 ++ rest)
  = Some (String.length (d1 ++ "." ++ d2)).
Proof.
  intros H1 H2 Hr. set (t := (d1 ++ "." ++ d2 ++ rest)%string).
  assert (Ht : t = ((d1 ++ ".") ++ d2 ++ rest)%string)
    by (unfold t; now rewrite app_assoc_string).
  assert (Ht' : t = ((d1 ++ "." ++ d2) ++ rest)%string)
    by (unfold t; now rewrite !app_assoc_string).
  unfold re_match, CONSTANT_FLOAT_re. cbn [seqs]. rewrite run_seq, run_bnd.
  assert (B0 : at_boundary t 0 = true).
  { unfold t. destruct H1 as (Hne & Hd). destruct d1 as [|c d1]; [congruence|].
    cbn [all_in] in Hd. apply andb_prop in Hd as [Hc _].
    now apply boundary_before_number. }
  rewrite B0, run_seq.
  apply (plus_digits_run "" d1 ("." ++ d2 ++ rest)); [assumption|reflexivity|].
  cbn [String.length Nat.add]. rewrite run_seq.
  assert (G : get (String.length d1) t = Some "."%char).
  { unfold t. rewrite <- (Nat.add_0_r (String.length d1)).
    now rewrite get_app_r. }
  rewrite (run_chr_at _ _ _ _ G), run_seq.
  replace (S (String.length d1)) with (String.length (d1 ++ "."))
    by (lengths; lia).
  fold t. rewrite Ht.
  apply (plus_digits_run (d1 ++ ".") d2 rest); [assumption| |].
  - apply (head_outside_weaken is_word); [apply digit_is_word|assumption].
  - rewrite run_bnd, <- length_app_string.
    rewrite <- (app_assoc_string (d1 ++ ".") d2 rest).
    rewrite (boundary_after_digits (d1 ++ ".") d2 rest H2 Hr).
    now rewrite (app_assoc_string d1 "." d2).
Qed.

Lemma int_matches (d rest : string) :
  is_number d -> head_outside is_word rest ->
  re_match CONSTANT_INT_re (d ++ rest) = Some (String.length d).
Proof.
  intros Hd Hr. unfold re_match, CONSTANT_INT_re. cbn [seqs].
  rewrite run_seq, run_bnd.
  assert (B0 : at_boundary (d ++ rest) 0 = true).
  { destruct Hd as (Hne & Hd). destruct d as [|c d]; [congruence|].
    cbn [all_in] in Hd. apply andb_prop in Hd as [Hc _].
    now apply boundary_before_number. }
  rewrite B0, run_seq.
  apply (plus_digits_run "" d rest); [assumption| |].
  - apply (head_outside_weaken is_word); [apply digit_is_word|assumption].
  - cbn [String.length Nat.add]. rewrite run_bnd.
    pose proof (boundary_after_digits "" d rest Hd Hr) as B.
    cbn [append] in B. now rewrite B.
Qed.

(** The float rule needs a dot right after the leading digits. *)
Lemma float_fails_without_dot (d rest : string) :
  is_number d -> head_outside is_word rest ->
  head_outside (Ascii.eqb ".") rest ->
  re_match CONSTANT_FLOAT_re (d ++ rest) = None.
Proof.
  intros (Hne & Hd) Hr Hdot.
  destruct (re_match CONSTANT_FLOAT_re (d ++ rest)) as [e|] eqn:E;
    [|reflexivity]. exfalso.
  unfold re_match, CONSTANT_FLOAT_re in E. cbn [seqs] in E.
  rewrite run_seq, run_bnd in E.
  destruct (at_boundary (d ++ rest) 0); [|discriminate].
  rewrite run_seq in E. apply plus_cls_inv in E as (j & Hj & Hst & Hk).
  rewrite run_seq in Hk. apply run_chr_inv in Hk as (Hg & _).
  destruct (Nat.lt_trichotomy j (String.length d)) as [Hlt|[->|Hgt]].
  - rewrite (get_app_l _ _ _ Hlt) in Hg.
    destruct (all_in_get is_digit d j Hd Hlt) as (c & Hc & Hdig).
    rewrite Hc in Hg. inv_some. discriminate.
  - rewrite <- (Nat.add_0_r (String.length d)), get_app_r in Hg.
    destruct rest as [|c rest]; [discriminate|]. simpl in Hg, Hdot.
    inv_some. discriminate.
  - destruct (Hst (String.length d) ltac:(lia)) as (c & Hc & Hdig).
    rewrite <- (Nat.add_0_r (String.length d)), get_app_r in Hc.
    destruct rest as [|c' rest]; [discriminate|]. simpl in Hc, Hr.
    inv_some. apply digit_is_word in Hdig. congruence.
Qed.

Lemma word_rules_fail_on_number (d r : string) :
  is_number d ->
  re_match KEYWORD_re (d ++ r) = None
  /\ re_match IDENTIFIER_re (d ++ r) = None
  /\ re_match PREPROCESSOR_re (d ++ r) = None.
Proof.
  intros (Hne & Hd). destruct d as [|c d]; [congruence|].
  cbn [all_in] in Hd. apply andb_prop in Hd as [Hc _].
  apply (word_rules_fail_on_digit c (d ++ r) Hc).
Qed.

(** X15. A number is scanned whole.  Digits, a dot and digits, followed by
    the end of the text or a non-word character, become one
    [CONSTANT_FLOAT] token; digits followed by the end of the text or a
    character that is neither a word character nor a dot become one
    [CONSTANT_INT] token.  The scan goes on right after the number. *)
Theorem numbers_are_single_tokens (d1 d2 rest : string) :
  is_number d1 -> is_number d2 -> head_outside is_word rest ->
  scan (d1 ++ "." ++ d2 ++ rest)
  = Emit ("CONSTANT_FLOAT", (d1 ++ "." ++ d2)%string) rest
  /\ (head_outside (Ascii.eqb ".") rest ->
      scan (d1 ++ rest) = Emit ("CONSTANT_INT", d1) rest).
Proof.
  intros H1 H2 Hr. split.
  - unfold scan. rewrite first_match_TOKEN_TYPES.
    destruct (word_rules_fail_on_number d1 ("." ++ d2 ++ rest) H1)
      as (F1 & F2 & F3).
    rewrite F1, F2, F3, (float_matches d1 d2 rest H1 H2 Hr).
    replace (d1 ++ "." ++ d2 ++ rest)%string
      with ((d1 ++ "." ++ d2) ++ rest)%string
      by (now rewrite !app_assoc_string).
    now rewrite slice_to_app, slice_from_app.
  - intros Hdot. unfold scan. rewrite first_match_TOKEN_TYPES.
    destruct (word_rules_fail_on_number d1 rest H1) as (F1 & F2 & F3).
    rewrite F1, F2, F3, (float_fails_without_dot d1 rest H1 Hr Hdot).
    rewrite (int_matches d1 rest H1 Hr).
    now rewrite slice_to_app, slice_from_app.
Qed.

Lemma numbers_are_single_tokens_witness :
  scan "3.14;" = Emit ("CONSTANT_FLOAT", "3.14") ";"
  /\ scan "3;" = Emit ("CONSTANT_INT", "3") ";".
Proof.
  destruct (numbers_are_single_tokens "3" "14" ";") as (H1 & H2);
    try (split; [discriminate|reflexivity]); try reflexivity.
  split; [exact H1|]. apply H2. reflexivity.
Defined.

(* ================================================================== *)
(** ** Characters outside every rule *)

Lemma unknown_character_scan (c : ascii) (rest : string) :
  unknown_character c = true -> scan (String c rest) = Skip rest.
Proof.
  destruct c as [b0 b1 b2 b3 b4 b5 b6 b7].
  destruct b0, b1, b2, b3, b4, b5, b6, b7; intros H;
    vm_compute in H; try discriminate H; vm_compute; reflexivity.
Qed.

(** X17. A character that no rule can start with is a silent lexical
    error: the round emits nothing and drops exactly that character, and
    the scanning loop goes on with the text behind it and the same
    tokens. *)
Theorem unknown_character_is_skipped (c : ascii) (rest : string) :
  unknown_character c = true ->
  scan (String c rest) = Skip rest
  /\ forall fuel text acc,
       lstrip text = String c rest ->
       tokenize_loop (S fuel) text acc = tokenize_loop fuel rest acc.
Proof.
  intros Hc. pose proof (unknown_character_scan c rest Hc) as Hscan.
  split; [exact Hscan|]. intros fuel text acc Hstrip. cbn [tokenize_loop].
  assert (Hne : is_empty text = false).
  { destruct text; [discriminate Hstrip|reflexivity]. }
  rewrite Hne, Hstrip. cbn [is_empty]. now rewrite Hscan.
Qed.

Lemma unknown_character_is_skipped_witness :
  scan "@x" = Skip "x"
  /\ tokenize_loop 3 " @x" [] = tokenize_loop 2 "x" [].
Proof.
  destruct (unknown_character_is_skipped "@" "x" eq_refl) as (H1 & H2).
  split; [exact H1|]. apply H2. reflexivity.
Defined.

(* ================================================================== *)
(** ** Calls under the limit against calls with stack to spare *)

Lemma then_Returned (s : Parser) (k : Parser -> option outcome) :
  then_ (Some (Returned s)) k = k s.
Proof. reflexivity. Qed.

Lemma then_Raised (s : Parser) (k : Parser -> option outcome) :
  then_ (Some (Raised s)) k = Some (Raised s).
Proof. reflexivity. Qed.

Lemma then_inv (m : option outcome) (k : Parser -> option outcome)
      (o : outcome) :
  then_ m k = Some o ->
  (exists c, m = Some (Raised c) /\ o = Raised c)
  \/ (exists s, m = Some (Returned s) /\ k s = Some o).
Proof.
  unfold then_. destruct m as [[s|c]|]; intros H; [eauto| |discriminate].
  left. exists c. split; congruence.
Qed.

Lemma sim_returned (a : Parser) : sim a (Some (Returned a)) (Some a).
Proof.
  split; [|reflexivity]. intros b H. inversion H. constructor.
Qed.

Lemma sim_none (a : Parser) : sim a None None.
Proof. split; [discriminate|reflexivity]. Qed.

(** A call and what follows it. *)
Lemma sim_then (a : Parser) (o : option outcome) (r : option Parser)
      (kb : Parser -> option outcome) (k : Parser -> option Parser) :
  sim a o r -> (forall s, sim s (kb s) (k s)) ->
  sim a (then_ o kb) (bind r k).
Proof.
  intros (Hw & Ho) Hk. split.
  - intros b H. apply bind_Some in H as (s & Hr & Hs).
    eapply walk_trans; [exact (Hw _ Hr)|exact (proj1 (Hk s) _ Hs)].
  - destruct o as [[s|c]|].
    + rewrite then_Returned, Ho. unfold bind.
      destruct (Hk s) as (Hws & Hos). destruct (kb s) as [[b|c]|]; auto.
      destruct Hos as (Hc & Hb). split; [|assumption].
      eapply walk_trans; [exact (Hw _ Ho)|exact Hc].
    + rewrite then_Raised. destruct Ho as (Hc & Hb). split; [assumption|].
      intros b H. apply bind_Some in H as (s & Hr & Hs).
      eapply walk_trans; [exact (Hb _ Hr)|exact (proj1 (Hk s) _ Hs)].
    + rewrite Ho. reflexivity.
Qed.

(** A method that only moves or logs, and what follows it. *)
Lemma sim_leaf_then (n depth : nat) (f : Parser -> Parser) (a : Parser)
      (kb : Parser -> option outcome) (r : option Parser) :
  walk a (f a) -> sim (f a) (kb (f a)) r ->
  sim a (then_ (leaf n f depth a) kb) r.
Proof.
  intros Hf (Hw & Ho). unfold leaf. split.
  - intros b H. eapply walk_trans; [exact Hf|exact (Hw _ H)].
  - destruct (n <=? depth).
    + rewrite then_Returned. destruct (kb (f a)) as [[b|c]|]; auto.
      destruct Ho as (Hc & Hb). split; [|assumption].
      eapply walk_trans; eassumption.
    + rewrite then_Raised. split; [constructor|].
      intros b H. eapply walk_trans; [exact Hf|exact (Hw _ H)].
Qed.

Lemma sim_leaf (n depth : nat) (f : Parser -> Parser) (a : Parser) :
  walk a (f a) -> sim a (leaf n f depth a) (Some (f a)).
Proof.
  intros Hf. unfold leaf. split.
  - intros b H. inversion H. subst. assumption.
  - destruct (n <=? depth); [reflexivity|]. split; [constructor|].
    intros b H. inversion H. subst. assumption.
Qed.

Lemma sim_entered (depth : nat) (a : Parser) (body : nat -> option outcome)
      (r : option Parser) :
  (forall d, sim a (body d) r) -> sim a (entered depth a body) r.
Proof.
  intros H. destruct depth as [|d]; [|apply H]. cbn [entered].
  split; [exact (proj1 (H 0))|]. split; [constructor|exact (proj1 (H 0))].
Qed.

Lemma sim_if (c : bool) (a : Parser) (o1 o2 : option outcome)
      (r1 r2 : option Parser) :
  sim a o1 r1 -> sim a o2 r2 ->
  sim a (if c then o1 else o2) (if c then r1 else r2).
Proof. now destruct c. Qed.

Ltac leaf_walk :=
  first [apply walk_expect | apply walk_type | apply walk_compare_op
        |apply walk_output_item | apply walk_one_error
        |eapply walk_one_consume; eassumption].

Ltac sim_leaves :=
  repeat match goal with
         | |- sim _ (entered _ _ _) _ => apply sim_entered; intros ?
         | |- sim _ (then_ (leaf _ _ _ _) _) _ =>
             apply sim_leaf_then; [leaf_walk|]
         | |- sim _ (leaf _ _ _ _) _ => apply sim_leaf; leaf_walk
         | |- sim _ (Some (Returned _)) _ => apply sim_returned
         | |- sim _ None _ => apply sim_none
         end.

Lemma identifier_list_loop_sims f :
  sims Bounded.identifier_list_loop identifier_list_loop f.
Proof.
  induction f as [|f IH]; intros depth a;
    cbn [Bounded.identifier_list_loop identifier_list_loop]; [apply sim_none|].
  destruct (value_in [","] a); sim_leaves. apply IH.
Qed.

Lemma identifier_list_sims f : sims Bounded.identifier_list identifier_list f.
Proof.
  intros depth a. unfold Bounded.identifier_list, identifier_list.
  sim_leaves. apply identifier_list_loop_sims.
Qed.

Lemma declaration_statement_sims f :
  sims Bounded.declaration_statement declaration_statement f.
Proof.
  intros depth a. unfold Bounded.declaration_statement, declaration_statement.
  sim_leaves. apply identifier_list_sims.
Qed.

Lemma output_list_loop_sims f :
  sims Bounded.output_list_loop output_list_loop f.
Proof.
  induction f as [|f IH]; intros depth a;
    cbn [Bounded.output_list_loop output_list_loop]; [apply sim_none|].
  destruct (value_in ["<<"] a); sim_leaves. apply IH.
Qed.

Lemma output_list_sims f : sims Bounded.output_list output_list f.
Proof.
  intros depth a. unfold Bounded.output_list, output_list.
  sim_leaves. apply output_list_loop_sims.
Qed.

Lemma output_statement_sims f :
  sims Bounded.output_statement output_statement f.
Proof.
  intros depth a. unfold Bounded.output_statement, output_statement.
  sim_leaves. apply output_list_sims.
Qed.

Lemma expression_group_sims (f : nat) :
  sims Bounded.expression expression f
  /\ sims Bounded.expression_loop expression_loop f
  /\ sims Bounded.term term f
  /\ sims Bounded.term_loop term_loop f
  /\ sims Bounded.factor factor f.
Proof.
  unfold sims. induction f as [|f (IHe & IHel & IHt & IHtl & IHf)].
  { split; [|split; [|split; [|split]]]; intros depth a; apply sim_none. }
  split; [|split; [|split; [|split]]]; intros depth a.
  - cbn [Bounded.expression expression]. apply sim_entered. intros d.
    apply sim_then; [apply IHt|intros s; apply IHel].
  - cbn [Bounded.expression_loop expression_loop].
    destruct (value_in ["+"; "-"] a) eqn:Hv; [|apply sim_returned].
    apply value_in_some in Hv as (t & Ht).
    apply sim_leaf_then; [leaf_walk|].
    apply sim_then; [apply IHt|intros s; apply IHel].
  - cbn [Bounded.term term]. apply sim_entered. intros d.
    apply sim_then; [apply IHf|intros s; apply IHtl].
  - cbn [Bounded.term_loop term_loop].
    destruct (value_in ["*"; "/"] a) eqn:Hv; [|apply sim_returned].
    apply value_in_some in Hv as (t & Ht).
    apply sim_leaf_then; [leaf_walk|].
    apply sim_then; [apply IHf|intros s; apply IHtl].
  - cbn [Bounded.factor factor]. apply sim_entered. intros d.
    destruct (current_token a) as [[ty v]|] eqn:Hc; [|sim_leaves].
    destruct (_ || _); [sim_leaves|].
    destruct (v =? "(")%string; [|sim_leaves].
    apply sim_leaf_then; [leaf_walk|].
    apply sim_then; [apply IHe|intros s; sim_leaves].
Qed.

Lemma expression_sims f : sims Bounded.expression expression f.
Proof. apply expression_group_sims. Qed.

Lemma return_statement_sims f :
  sims Bounded.return_statement return_statement f.
Proof.
  intros depth a. unfold Bounded.return_statement, return_statement.
  sim_leaves. apply expression_sims.
Qed.

Lemma assignment_statement_sims f :
  sims Bounded.assignment_statement assignment_statement f.
Proof.
  intros depth a. unfold Bounded.assignment_statement, assignment_statement.
  sim_leaves. apply expression_sims.
Qed.

Lemma condition_sims f : sims Bounded.condition condition f.
Proof.
  intros depth a. unfold Bounded.condition, condition.
  apply sim_entered. intros d.
  apply sim_then; [apply expression_sims|intros s].
  sim_leaves. apply expression_sims.
Qed.

Lemma statement_group_sims (f : nat) :
  sims Bounded.statement_list statement_list f
  /\ sims Bounded.statement statement f
  /\ sims Bounded.if_statement if_statement f
  /\ sims Bounded.block block f.
Proof.
  unfold sims. induction f as [|f (IHsl & IHs & IHi & IHb)].
  { split; [|split; [|split]]; intros depth a; apply sim_none. }
  split; [|split; [|split]]; intros depth a.
  - cbn [Bounded.statement_list statement_list]. apply sim_entered. intros d.
    destruct (current_token a) as [[ty v]|]; [|apply sim_returned].
    destruct (negb (mem v ["}"])); [|apply sim_returned].
    apply sim_then; [apply IHs|intros s].
    destruct (has_errors s); [apply sim_returned|apply IHsl].
  - cbn [Bounded.statement statement]. apply sim_entered. intros d.
    destruct (current_token a) as [[ty v]|] eqn:Hc; [|apply sim_returned].
    destruct (_ && _).
    { apply sim_then; [apply declaration_statement_sims|intros s; sim_leaves]. }
    destruct (ty =? "IDENTIFIER")%string.
    { destruct (_ <? _); [|sim_leaves].
      destruct (_ =? "=")%string.
      { apply sim_then; [apply assignment_statement_sims|intros s; sim_leaves]. }
      destruct (_ && _); [|sim_leaves].
      apply sim_then; [apply output_statement_sims|intros s; sim_leaves]. }
    destruct (_ && _); [apply IHi|].
    destruct (_ && _).
    { apply sim_then; [apply return_statement_sims|intros s; sim_leaves]. }
    apply sim_leaf_then; [leaf_walk|]. apply sim_leaf.
    eapply walk_one_consume. simpl. exact Hc.
  - cbn [Bounded.if_statement if_statement]. apply sim_entered. intros d.
    sim_leaves.
    apply sim_then; [apply condition_sims|intros s].
    sim_leaves.
    apply sim_then; [apply IHb|intros s'].
    destruct (value_in ["else"] s'); [|apply sim_returned].
    sim_leaves. apply IHb.
  - cbn [Bounded.block block]. apply sim_entered. intros d.
    sim_leaves.
    apply sim_then; [apply IHsl|intros s; sim_leaves].
Qed.

Lemma block_sims f : sims Bounded.block block f.
Proof. apply statement_group_sims. Qed.

Lemma program_sims f : sims Bounded.program program f.
Proof.
  intros depth a.
  unfold Bounded.program, program, Bounded.function_definition,
    function_definition.
  sim_leaves. apply block_sims.
Qed.

Lemma try_block_sims (fuel depth : nat) (a : Parser) :
  sim a (try_block fuel depth a)
      (call self <- program fuel a;; Some (after_program self)).
Proof.
  unfold try_block. apply sim_then; [apply program_sims|intros s].
  unfold after_program. destruct (current_token s); sim_leaves.
Qed.

(* ================================================================== *)
(** ** More fuel and more frames *)

Lemma leaf_stable (n depth depth' : nat) (f : Parser -> Parser) (a : Parser)
      (o : outcome) :
  leaf n f depth a = Some o -> depth <= depth' ->
  (raised o = true -> depth' = depth) ->
  leaf n f depth' a = Some o.
Proof.
  unfold leaf. intros H Hd Hr. destruct (Nat.leb_spec n depth).
  - destruct (Nat.leb_spec n depth'); [assumption|lia].
  - inv_some. rewrite (Hr eq_refl).
    destruct (Nat.leb_spec n depth); [lia|reflexivity].
Qed.

Lemma then_stable (P : Prop) (m m' : option outcome)
      (k k' : Parser -> option outcome) (o : outcome) :
  then_ m k = Some o -> (raised o = true -> P) ->
  (forall o1, m = Some o1 -> (raised o1 = true -> P) -> m' = Some o1) ->
  (forall s, k s = Some o -> k' s = Some o) ->
  then_ m' k' = Some o.
Proof.
  intros H Hr Hm Hk. apply then_inv in H as [(c & H1 & ->)|(s & H1 & H2)].
  - rewrite (Hm _ H1 Hr). reflexivity.
  - rewrite (Hm _ H1); [|discriminate]. rewrite then_Returned. now apply Hk.
Qed.

Lemma entered_stable (depth depth' : nat) (a : Parser)
      (body body' : nat -> option outcome) (o : outcome) :
  entered depth a body = Some o -> depth <= depth' ->
  (raised o = true -> depth' = depth) ->
  (forall d d', body d = Some o -> d <= d' ->
                (raised o = true -> d' = d) -> body' d' = Some o) ->
  entered depth' a body' = Some o.
Proof.
  intros H Hd Hr Hb. destruct depth as [|d]; cbn [entered] in H.
  - inv_some. now rewrite (Hr eq_refl).
  - destruct depth' as [|d']; [lia|]. cbn [entered].
    apply (Hb d d' H); [lia|]. intros Ho. specialize (Hr Ho). lia.
Qed.

(** One step of a proof that a procedure is [stable]: the hypothesis and
    the goal are the same code at two depths. *)
Ltac stable_step :=
  match goal with
  | H : entered _ _ _ = Some _ |- entered _ _ _ = Some _ =>
      eapply entered_stable; [exact H|assumption|assumption|];
      clear H; intros ? ? H ? ?; cbv beta in *
  | H : then_ _ _ = Some _ |- then_ _ _ = Some _ =>
      eapply then_stable; [exact H|eassumption| |];
      [clear H; intros ? H ?|clear H; intros ? H]; cbv beta in *
  | H : leaf _ _ _ _ = Some _ |- leaf _ _ _ _ = Some _ =>
      eapply leaf_stable; [exact H|assumption|assumption]
  | H : Some ?o = Some _ |- Some ?o = Some _ => exact H
  end.

Ltac stable_by IH := eapply IH; [eassumption|lia|assumption|assumption].

Lemma identifier_list_loop_stable f : stable Bounded.identifier_list_loop f.
Proof.
  induction f as [|f IH]; intros depth a o fuel' depth' H Hf Hd Hr;
    [discriminate|]. destruct fuel' as [|f']; [lia|].
  cbn [Bounded.identifier_list_loop] in *. revert H.
  destruct (value_in [","] a); intros H; [|exact H].
  repeat stable_step. stable_by IH.
Qed.

Lemma identifier_list_stable f : stable Bounded.identifier_list f.
Proof.
  intros depth a o fuel' depth' H Hf Hd Hr. unfold Bounded.identifier_list in *.
  repeat stable_step. stable_by identifier_list_loop_stable.
Qed.

Lemma declaration_statement_stable f : stable Bounded.declaration_statement f.
Proof.
  intros depth a o fuel' depth' H Hf Hd Hr.
  unfold Bounded.declaration_statement in *.
  repeat stable_step. stable_by identifier_list_stable.
Qed.

Lemma output_list_loop_stable f : stable Bounded.output_list_loop f.
Proof.
  induction f as [|f IH]; intros depth a o fuel' depth' H Hf Hd Hr;
    [discriminate|]. destruct fuel' as [|f']; [lia|].
  cbn [Bounded.output_list_loop] in *. revert H.
  destruct (value_in ["<<"] a); intros H; [|exact H].
  repeat stable_step. stable_by IH.
Qed.

Lemma output_list_stable f : stable Bounded.output_list f.
Proof.
  intros depth a o fuel' depth' H Hf Hd Hr. unfold Bounded.output_list in *.
  repeat stable_step. stable_by output_list_loop_stable.
Qed.

Lemma output_statement_stable f : stable Bounded.output_statement f.
Proof.
  intros depth a o fuel' depth' H Hf Hd Hr.
  unfold Bounded.output_statement in *.
  repeat stable_step. stable_by output_list_stable.
Qed.

Lemma expression_group_stable (f : nat) :
  stable Bounded.expression f /\ stable Bounded.expression_loop f
  /\ stable Bounded.term f /\ stable Bounded.term_loop f
  /\ stable Bounded.factor f.
Proof.
  unfold stable. induction f as [|f (IHe & IHel & IHt & IHtl & IHf)].
  { split; [|split; [|split; [|split]]]; intros; discriminate. }
  split; [|split; [|split; [|split]]];
    intros depth a o fuel' depth' H Hf Hd Hr;
    (destruct fuel' as [|f']; [lia|]).
  - cbn [Bounded.expression] in *. repeat stable_step.
    + stable_by IHt.
    + stable_by IHel.
  - cbn [Bounded.expression_loop] in *. revert H.
    destruct (value_in ["+"; "-"] a); intros H; [|exact H].
    repeat stable_step.
    + stable_by IHt.
    + stable_by IHel.
  - cbn [Bounded.term] in *. repeat stable_step.
    + stable_by IHf.
    + stable_by IHtl.
  - cbn [Bounded.term_loop] in *. revert H.
    destruct (value_in ["*"; "/"] a); intros H; [|exact H].
    repeat stable_step.
    + stable_by IHf.
    + stable_by IHtl.
  - cbn [Bounded.factor] in *. stable_step. revert H.
    destruct (current_token a) as [[ty v]|]; intros H; [|stable_step].
    revert H. destruct (_ || _); intros H; [stable_step|].
    revert H. destruct (v =? "(")%string; intros H; [|stable_step].
    repeat stable_step. stable_by IHe.
Qed.

Lemma expression_stable f : stable Bounded.expression f.
Proof. apply expression_group_stable. Qed.

Lemma return_statement_stable f : stable Bounded.return_statement f.
Proof.
  intros depth a o fuel' depth' H Hf Hd Hr.
  unfold Bounded.return_statement in *.
  repeat stable_step. stable_by expression_stable.
Qed.

Lemma assignment_statement_stable f : stable Bounded.assignment_statement f.
Proof.
  intros depth a o fuel' depth' H Hf Hd Hr.
  unfold Bounded.assignment_statement in *.
  repeat stable_step. stable_by expression_stable.
Qed.

Lemma condition_stable f : stable Bounded.condition f.
Proof.
  intros depth a o fuel' depth' H Hf Hd Hr. unfold Bounded.condition in *.
  repeat stable_step; stable_by expression_stable.
Qed.

Lemma statement_group_stable (f : nat) :
  stable Bounded.statement_list f /\ stable Bounded.statement f
  /\ stable Bounded.if_statement f /\ stable Bounded.block f.
Proof.
  unfold stable. induction f as [|f (IHsl & IHs & IHi & IHb)].
  { split; [|split; [|split]]; intros; discriminate. }
  split; [|split; [|split]];
    intros depth a o fuel' depth' H Hf Hd Hr;
    (destruct fuel' as [|f']; [lia|]).
  - cbn [Bounded.statement_list] in *. stable_step. revert H.
    destruct (current_token a) as [[ty v]|]; intros H; [|exact H].
    revert H. destruct (negb (mem v ["}"])); intros H; [|exact H].
    stable_step; [stable_by IHs|].
    revert H. destruct (has_errors s); intros H; [exact H|].
    stable_by IHsl.
  - cbn [Bounded.statement] in *. stable_step. revert H.
    destruct (current_token a) as [[ty v]|]; intros H; [|exact H].
    revert H. destruct (_ && _); intros H.
    { repeat stable_step. stable_by declaration_statement_stable. }
    revert H. destruct (ty =? "IDENTIFIER")%string; intros H.
    { revert H. destruct (_ <? _); intros H; [|stable_step].
      revert H. destruct (_ =? "=")%string; intros H.
      { repeat stable_step. stable_by assignment_statement_stable. }
      revert H. destruct (_ && _); intros H; [|stable_step].
      repeat stable_step. stable_by output_statement_stable. }
    revert H. destruct (_ && _); intros H; [stable_by IHi|].
    revert H. destruct (_ && _); intros H.
    { repeat stable_step. stable_by return_statement_stable. }
    repeat stable_step.
  - cbn [Bounded.if_statement] in *. repeat stable_step.
    + stable_by condition_stable.
    + stable_by IHb.
    + revert H. destruct (value_in ["else"] s3); intros H; [|exact H].
      repeat stable_step. stable_by IHb.
  - cbn [Bounded.block] in *. repeat stable_step. stable_by IHsl.
Qed.

Lemma program_stable f : stable Bounded.program f.
Proof.
  intros depth a o fuel' depth' H Hf Hd Hr.
  unfold Bounded.program, Bounded.function_definition in *.
  repeat stable_step.
  destruct (statement_group_stable f) as (_ & _ & _ & Hb). stable_by Hb.
Qed.

Lemma try_block_stable (fuel fuel' depth depth' : nat) (a : Parser)
      (o : outcome) :
  try_block fuel depth a = Some o ->
  fuel <= fuel' -> depth <= depth' ->
  (raised o = true -> depth' = depth) ->
  try_block fuel' depth' a = Some o.
Proof.
  intros H Hf Hd Hr. unfold try_block in *. stable_step.
  - stable_by program_stable.
  - revert H. destruct (current_token s); intros H; [stable_step|exact H].
Qed.

(* ================================================================== *)
(** ** Enough frames *)

Lemma leaf_roomy (n depth : nat) (f : Parser -> Parser) (a : Parser)
      (o : outcome) :
  n <= depth -> leaf n f depth a = Some o -> raised o = false.
Proof.
  unfold leaf. intros Hn H. destruct (Nat.leb_spec n depth); [|lia].
  inv_some. reflexivity.
Qed.

Lemma then_roomy (m : option outcome) (k : Parser -> option outcome)
      (o : outcome) :
  then_ m k = Some o ->
  (forall o1, m = Some o1 -> raised o1 = false) ->
  (forall s, k s = Some o -> raised o = false) ->
  raised o = false.
Proof.
  intros H Hm Hk. apply then_inv in H as [(c & H1 & ->)|(s & H1 & H2)].
  - exact (Hm _ H1).
  - exact (Hk _ H2).
Qed.

Lemma entered_roomy (depth : nat) (a : Parser) (body : nat -> option outcome)
      (o : outcome) :
  entered depth a body = Some o -> 1 <= depth ->
  (forall d, depth = S d -> body d = Some o -> raised o = false) ->
  raised o = false.
Proof.
  intros H Hd Hb. destruct depth as [|d]; [lia|]. exact (Hb d eq_refl H).
Qed.

Ltac roomy_step :=
  match goal with
  | H : entered _ _ _ = Some ?o |- raised ?o = false =>
      eapply entered_roomy; [exact H|lia|];
      clear H; intros ? ? H; subst; cbv beta in *
  | H : then_ _ _ = Some ?o |- raised ?o = false =>
      eapply then_roomy; [exact H| |];
      [clear H; intros ? H|clear H; intros ? H]; cbv beta in *
  | H : leaf _ _ _ _ = Some ?o |- raised ?o = false =>
      eapply leaf_roomy; [|exact H]; lia
  | H : Some ?o = Some (Returned _) |- raised _ = false =>
      inversion H; reflexivity
  | H : Some (Returned _) = Some ?o |- raised _ = false =>
      inversion H; reflexivity
  end.

Ltac roomy_by IH := eapply IH; [|eassumption]; lia.

Lemma identifier_list_loop_roomy f : roomy 2 Bounded.identifier_list_loop f.
Proof.
  induction f as [|f IH]; intros depth a o Hd H; [discriminate|].
  cbn [Bounded.identifier_list_loop] in H. revert H.
  destruct (value_in [","] a); intros H; [|roomy_step].
  repeat roomy_step. roomy_by IH.
Qed.

Lemma identifier_list_roomy f : roomy 3 Bounded.identifier_list f.
Proof.
  intros depth a o Hd H. unfold Bounded.identifier_list in H.
  repeat roomy_step. roomy_by identifier_list_loop_roomy.
Qed.

Lemma declaration_statement_roomy f : roomy 4 Bounded.declaration_statement f.
Proof.
  intros depth a o Hd H. unfold Bounded.declaration_statement in H.
  repeat roomy_step. roomy_by identifier_list_roomy.
Qed.

Lemma output_list_loop_roomy f : roomy 2 Bounded.output_list_loop f.
Proof.
  induction f as [|f IH]; intros depth a o Hd H; [discriminate|].
  cbn [Bounded.output_list_loop] in H. revert H.
  destruct (value_in ["<<"] a); intros H; [|roomy_step].
  repeat roomy_step. roomy_by IH.
Qed.

Lemma output_list_roomy f : roomy 3 Bounded.output_list f.
Proof.
  intros depth a o Hd H. unfold Bounded.output_list in H.
  repeat roomy_step. roomy_by output_list_loop_roomy.
Qed.

Lemma output_statement_roomy f : roomy 4 Bounded.output_statement f.
Proof.
  intros depth a o Hd H. unfold Bounded.output_statement in H.
  repeat roomy_step. roomy_by output_list_roomy.
Qed.

Lemma expression_group_roomy (f : nat) :
  roomy 3 Bounded.expression f /\ roomy 2 Bounded.expression_loop f
  /\ roomy 3 Bounded.term f /\ roomy 2 Bounded.term_loop f
  /\ roomy 3 Bounded.factor f.
Proof.
  unfold roomy. induction f as [|f (IHe & IHel & IHt & IHtl & IHf)].
  { split; [|split; [|split; [|split]]]; intros; discriminate. }
  split; [|split; [|split; [|split]]]; intros depth a o Hd H.
  - cbn [Bounded.expression] in H. repeat roomy_step.
    + roomy_by IHt.
    + roomy_by IHel.
  - cbn [Bounded.expression_loop] in H. revert H.
    destruct (value_in ["+"; "-"] a); intros H; [|roomy_step].
    repeat roomy_step.
    + roomy_by IHt.
    + roomy_by IHel.
  - cbn [Bounded.term] in H. repeat roomy_step.
    + roomy_by IHf.
    + roomy_by IHtl.
  - cbn [Bounded.term_loop] in H. revert H.
    destruct (value_in ["*"; "/"] a); intros H; [|roomy_step].
    repeat roomy_step.
    + roomy_by IHf.
    + roomy_by IHtl.
  - cbn [Bounded.factor] in H. roomy_step. revert H.
    destruct (current_token a) as [[ty v]|]; intros H; [|roomy_step].
    revert H. destruct (_ || _); intros H; [roomy_step|].
    revert H. destruct (v =? "(")%string; intros H; [|roomy_step].
    repeat roomy_step. roomy_by IHe.
Qed.

Lemma expression_roomy f : roomy 3 Bounded.expression f.
Proof. apply expression_group_roomy. Qed.

Lemma return_statement_roomy f : roomy 4 Bounded.return_statement f.
Proof.
  intros depth a o Hd H. unfold Bounded.return_statement in H.
  repeat roomy_step. roomy_by expression_roomy.
Qed.

Lemma assignment_statement_roomy f : roomy 4 Bounded.assignment_statement f.
Proof.
  intros depth a o Hd H. unfold Bounded.assignment_statement in H.
  repeat roomy_step. roomy_by expression_roomy.
Qed.

Lemma condition_roomy f : roomy 4 Bounded.condition f.
Proof.
  intros depth a o Hd H. unfold Bounded.condition in H.
  repeat roomy_step; roomy_by expression_roomy.
Qed.

Lemma statement_group_roomy (f : nat) :
  roomy 4 Bounded.statement_list f /\ roomy 4 Bounded.statement f
  /\ roomy 4 Bounded.if_statement f /\ roomy 4 Bounded.block f.
Proof.
  unfold roomy. induction f as [|f (IHsl & IHs & IHi & IHb)].
  { split; [|split; [|split]]; intros; discriminate. }
  split; [|split; [|split]]; intros depth a o Hd H.
  - cbn [Bounded.statement_list] in H. roomy_step. revert H.
    destruct (current_token a) as [[ty v]|]; intros H; [|roomy_step].
    revert H. destruct (negb (mem v ["}"])); intros H; [|roomy_step].
    roomy_step; [roomy_by IHs|].
    revert H. destruct (has_errors s); intros H; [roomy_step|].
    roomy_by IHsl.
  - cbn [Bounded.statement] in H. roomy_step. revert H.
    destruct (current_token a) as [[ty v]|]; intros H; [|roomy_step].
    revert H. destruct (_ && _); intros H.
    { repeat roomy_step. roomy_by declaration_statement_roomy. }
    revert H. destruct (ty =? "IDENTIFIER")%string; intros H.
    { revert H. destruct (_ <? _); intros H; [|roomy_step].
      revert H. destruct (_ =? "=")%string; intros H.
      { repeat roomy_step. roomy_by assignment_statement_roomy. }
      revert H. destruct (_ && _); intros H; [|roomy_step].
      repeat roomy_step. roomy_by output_statement_roomy. }
    revert H. destruct (_ && _); intros H; [roomy_by IHi|].
    revert H. destruct (_ && _); intros H.
    { repeat roomy_step. roomy_by return_statement_roomy. }
    repeat roomy_step.
  - cbn [Bounded.if_statement] in H. repeat roomy_step.
    + roomy_by condition_roomy.
    + roomy_by IHb.
    + revert H. destruct (value_in ["else"] s3); intros H; [|roomy_step].
      repeat roomy_step. roomy_by IHb.
  - cbn [Bounded.block] in H. repeat roomy_step. roomy_by IHsl.
Qed.

Lemma program_roomy f : roomy 6 Bounded.program f.
Proof.
  intros depth a o Hd H.
  unfold Bounded.program, Bounded.function_definition in H.
  repeat roomy_step.
  destruct (statement_group_roomy f) as (_ & _ & _ & Hb). roomy_by Hb.
Qed.

Lemma try_block_roomy (fuel depth : nat) (a : Parser) (o : outcome) :
  fuel + 6 <= depth -> try_block fuel depth a = Some o -> raised o = false.
Proof.
  intros Hd H. unfold try_block in H. roomy_step.
  - roomy_by program_roomy.
  - revert H. destruct (current_token s); intros H; roomy_step.
Qed.

(* ================================================================== *)
(** ** [parse] under the limit *)

Lemma walk_step_ok (a b : Parser) : Inv a -> walk a b -> step_ok a b.
Proof.
  intros HI H. induction H as [a|a b t Hc _ IH|a b msg _ IH].
  - now apply step_refl.
  - pose proof (consume_step a t HI Hc) as H1.
    eapply step_trans; [exact H1|]. apply IH. exact (so_inv _ _ H1).
  - pose proof (error_step a msg HI) as H1.
    eapply step_trans; [exact H1|]. apply IH. exact (so_inv _ _ H1).
Qed.

Lemma parse_inv (fuel depth : nat) (toks : list token) (v : bool)
      (o : outcome) :
  parse fuel depth toks = Some (v, o) ->
  try_block fuel depth (init toks) = Some o
  /\ v = negb (has_errors (state o)).
Proof.
  unfold parse. destruct (try_block fuel depth (init toks)) as [o'|];
    [|discriminate]. intros H. inversion H. subst. auto.
Qed.

Lemma parse_eq (fuel depth : nat) (toks : list token) (o : outcome) :
  try_block fuel depth (init toks) = Some o ->
  parse fuel depth toks = Some (negb (has_errors (state o)), o).
Proof. unfold parse. now intros ->. Qed.

(** However [parse] ends, the walker has walked from its initial state. *)
Lemma parse_cut (fuel depth : nat) (toks : list token) (v : bool)
      (o : outcome) :
  parse fuel depth toks = Some (v, o) ->
  v = negb (has_errors (state o)) /\ walk (init toks) (state o).
Proof.
  intros H. apply parse_inv in H as (H & Hv). split; [assumption|].
  destruct (try_block_sims fuel depth (init toks)) as (Hw & Ho).
  rewrite H in Ho. destruct o as [b|c]; simpl.
  - exact (Hw _ Ho).
  - exact (proj1 Ho).
Qed.

Lemma unbounded_parse_eq (fuel : nat) (toks : list token) (b : Parser) :
  (call self <- program fuel (init toks);; Some (after_program self)) = Some b
  <-> unbounded_parse fuel toks = Some (negb (has_errors b), b).
Proof.
  unfold unbounded_parse, bind. destruct (program fuel (init toks)) as [s|];
    [|split; discriminate].
  split; intros H; inversion H; congruence.
Qed.

Lemma unbounded_parse_inv (fuel : nat) (toks : list token) (v : bool)
      (b : Parser) :
  unbounded_parse fuel toks = Some (v, b) ->
  (call self <- program fuel (init toks);; Some (after_program self)) = Some b
  /\ v = negb (has_errors b).
Proof.
  unfold unbounded_parse, bind. destruct (program fuel (init toks)) as [s|];
    [|discriminate]. intros H. inversion H. auto.
Qed.

(** A [parse] that was not cut is the walk with stack to spare. *)
Lemma parse_returned (fuel depth : nat) (toks : list token) (v : bool)
      (b : Parser) :
  parse fuel depth toks = Some (v, Returned b) ->
  unbounded_parse fuel toks = Some (v, b).
Proof.
  intros H. apply parse_inv in H as (H & ->).
  destruct (try_block_sims fuel depth (init toks)) as (_ & Ho).
  rewrite H in Ho. now apply unbounded_parse_eq.
Qed.

(** Where the walk with stack to spare returns, [parse] ends at every
    depth: with the same result, or cut on the way to it. *)
Lemma parse_follows (fuel depth : nat) (toks : list token) (v' : bool)
      (b : Parser) :
  unbounded_parse fuel toks = Some (v', b) ->
  exists v o,
    parse fuel depth toks = Some (v, o)
    /\ ((o = Returned b /\ v = v')
        \/ (raised o = true /\ walk (state o) b)).
Proof.
  intros H. apply unbounded_parse_inv in H as (H & ->).
  destruct (try_block_sims fuel depth (init toks)) as (_ & Ho).
  destruct (try_block fuel depth (init toks)) as [[s|c]|] eqn:Ht.
  - rewrite H in Ho. inversion Ho. subst s.
    exists (negb (has_errors b)), (Returned b).
    split; [now apply parse_eq in Ht|]. left. auto.
  - exists (negb (has_errors c)), (Raised c).
    split; [now apply parse_eq in Ht|]. right.
    split; [reflexivity|]. exact (proj2 Ho _ H).
  - congruence.
Qed.

Lemma parse_stable (fuel fuel' depth depth' : nat) (toks : list token)
      (v : bool) (o : outcome) :
  parse fuel depth toks = Some (v, o) ->
  fuel <= fuel' -> depth <= depth' ->
  (raised o = true -> depth' = depth) ->
  parse fuel' depth' toks = Some (v, o).
Proof.
  intros H Hf Hd Hr. apply parse_inv in H as (H & ->).
  apply parse_eq. eapply try_block_stable; eassumption.
Qed.

Lemma parse_roomy (fuel depth : nat) (toks : list token) (v : bool)
      (o : outcome) :
  fuel + 6 <= depth -> parse fuel depth toks = Some (v, o) ->
  raised o = false.
Proof.
  intros Hd H. apply parse_inv in H as (H & _).
  eapply try_block_roomy; eassumption.
Qed.

(** With frames to spare [parse] is the walk with stack to spare. *)
Lemma parse_with_room (fuel0 fuel depth : nat) (toks : list token)
      (v : bool) (b : Parser) :
  unbounded_parse fuel0 toks = Some (v, b) ->
  fuel0 <= fuel -> fuel0 + 6 <= depth ->
  parse fuel depth toks = Some (v, Returned b).
Proof.
  intros H Hf Hd.
  destruct (parse_follows fuel0 (fuel0 + 6) toks v b H)
    as (v1 & o & Hp & [(-> & ->)|(Hr & _)]).
  - eapply parse_stable; [exact Hp|assumption|assumption|discriminate].
  - rewrite (parse_roomy _ _ _ _ _ (le_n _) Hp) in Hr. discriminate.
Qed.

(** A cut walk has logged no more than the whole walk. *)
Lemma cut_log_is_prefix (c b : Parser) :
  walk c b -> errors b = [] -> errors c = [].
Proof.
  intros H Hb. apply walk_extends_log in H as (l & Hl).
  rewrite Hl in Hb. now apply app_eq_nil in Hb.
Qed.

(* ================================================================== *)
(** ** Every walk under the limit ends *)

Lemma lexeme_ok_separator (toks : list token) :
  Forall lexeme_ok toks -> Forall separator_ok toks.
Proof.
  apply Forall_impl. intros t (Hc & _ & Hs). split; assumption.
Qed.

(** Where a call under the limit ends, the walker has walked there. *)
Lemma sim_walk (a : Parser) (m : option outcome) (r : option Parser)
      (o : outcome) :
  sim a m r -> m = Some o -> walk a (state o).
Proof.
  intros (Hw & Ho) ->. destruct o as [b|c]; simpl.
  - exact (Hw _ Ho).
  - exact (proj1 Ho).
Qed.

Lemma fit_walk (a b : Parser) (r : nat) : fit a r -> walk a b -> fit b r.
Proof.
  intros (HI & Hok & Hr) H. pose proof (walk_step_ok _ _ HI H) as Hs.
  split; [exact (so_inv _ _ Hs)|]. split.
  - now rewrite (so_tokens _ _ Hs).
  - pose proof (remaining_step _ _ Hs). lia.
Qed.

Lemma fit_consume (a : Parser) (t : token) (r : nat) :
  fit a r -> current_token a = Some t -> fit (consume a) (pred r) /\ 0 < r.
Proof.
  intros H Hc. pose proof (fit_walk _ _ _ H (walk_one_consume _ _ Hc)) as H1.
  destruct H as (HI & _ & Hr). pose proof (remaining_consume _ _ HI Hc).
  destruct H1 as (HI1 & Hok1 & _).
  split; [split; [assumption|split; [assumption|lia]]|lia].
Qed.

(** A call that moves the cursor leaves fewer tokens. *)
Lemma fit_advance (a b : Parser) (r : nat) :
  fit a r -> walk a b -> token_index a < token_index b ->
  fit b (pred r) /\ 0 < r.
Proof.
  intros H Hw Hlt. destruct (fit_walk _ _ _ H Hw) as (HI1 & Hok1 & _).
  destruct H as (HI & _ & Hr). pose proof (walk_step_ok _ _ HI Hw) as Hs.
  pose proof (so_tokens _ _ Hs) as Ht. pose proof HI1 as HI1'.
  destruct HI1' as (_ & Hle & _). unfold remaining in Hr. rewrite Ht in Hle.
  split; [split; [assumption|split; [assumption|]]|lia].
  unfold remaining. rewrite Ht. lia.
Qed.

Lemma ends_then (a : Parser) (m : option outcome) (r : option Parser)
      (k : Parser -> option outcome) :
  sim a m r -> (exists o, m = Some o) ->
  (forall s, m = Some (Returned s) -> walk a s -> exists o, k s = Some o) ->
  exists o, then_ m k = Some o.
Proof.
  intros Hs (o & Hm) Hk. pose proof (sim_walk _ _ _ _ Hs Hm) as Hw. subst m.
  destruct o as [b|c]; [|rewrite then_Raised; eauto].
  rewrite then_Returned. now apply Hk.
Qed.

Lemma ends_leaf_then (n depth : nat) (f : Parser -> Parser) (a : Parser)
      (k : Parser -> option outcome) :
  (exists o, k (f a) = Some o) ->
  exists o, then_ (leaf n f depth a) k = Some o.
Proof.
  intros Hk. unfold leaf. destruct (n <=? depth).
  - now rewrite then_Returned.
  - rewrite then_Raised. eauto.
Qed.

Lemma ends_leaf (n depth : nat) (f : Parser -> Parser) (a : Parser) :
  exists o, leaf n f depth a = Some o.
Proof. unfold leaf. eauto. Qed.

Lemma ends_entered (depth : nat) (a : Parser)
      (body : nat -> option outcome) :
  (forall d, depth = S d -> exists o, body d = Some o) ->
  exists o, entered depth a body = Some o.
Proof.
  intros H. destruct depth as [|d]; cbn [entered]; eauto.
Qed.

(** One step of a proof that a procedure [ends]: past the entry, past a
    method that only moves or logs, to the end. *)
Ltac ends_step H :=
  match goal with
  | |- exists o, entered _ _ _ = Some o =>
      apply ends_entered; intros ? ->
  | |- exists o, then_ (leaf _ ?f _ ?a) _ = Some o =>
      apply ends_leaf_then;
      apply (fun H' => fit_walk a (f a) _ H' ltac:(leaf_walk)) in H
  | |- exists o, leaf _ _ _ _ = Some o => apply ends_leaf
  | |- exists o, Some _ = Some o => eexists; reflexivity
  end.

Lemma comma_is_consumed (a : Parser) (r : nat) :
  fit a r -> value_in [","] a = true ->
  expect "PUNCTUATOR" (Some ",") a = consume a
  /\ fit (consume a) (pred r) /\ 0 < r.
Proof.
  intros H Hv. apply value_in_one in Hv as (ty & Hc).
  pose proof H as (HI & Hok & _).
  assert (Hty : ty = "PUNCTUATOR").
  { rewrite Forall_forall in Hok. destruct HI as (Hn & _).
    rewrite Hn in Hc. apply nth_error_In in Hc.
    exact (proj1 (Hok _ Hc) eq_refl). }
  subst ty. split; [|eapply fit_consume; eassumption].
  exact (expect_consume_eq _ _ _ _ Hc (or_intror eq_refl)).
Qed.

Lemma shift_is_consumed (a : Parser) (r : nat) :
  fit a r -> value_in ["<<"] a = true ->
  expect "OPERATOR" (Some "<<") a = consume a
  /\ fit (consume a) (pred r) /\ 0 < r.
Proof.
  intros H Hv. apply value_in_one in Hv as (ty & Hc).
  pose proof H as (HI & Hok & _).
  assert (Hty : ty = "OPERATOR").
  { rewrite Forall_forall in Hok. destruct HI as (Hn & _).
    rewrite Hn in Hc. apply nth_error_In in Hc.
    exact (proj2 (Hok _ Hc) eq_refl). }
  subst ty. split; [|eapply fit_consume; eassumption].
  exact (expect_consume_eq _ _ _ _ Hc (or_intror eq_refl)).
Qed.

Lemma identifier_list_loop_ends f : ends Bounded.identifier_list_loop f.
Proof.
  induction f as [|f IH]; intros depth a r H Hf; [lia|].
  cbn [Bounded.identifier_list_loop].
  destruct (value_in [","] a) eqn:Hv; [|eauto].
  destruct (comma_is_consumed _ _ H Hv) as (He & H1 & Hr).
  apply ends_leaf_then. rewrite He. ends_step H1.
  apply (IH _ _ _ H1). lia.
Qed.

Lemma identifier_list_ends f : ends Bounded.identifier_list f.
Proof.
  intros depth a r H Hf. unfold Bounded.identifier_list.
  repeat ends_step H. apply (identifier_list_loop_ends _ _ _ _ H). lia.
Qed.

Lemma declaration_statement_ends f : ends Bounded.declaration_statement f.
Proof.
  intros depth a r H Hf. unfold Bounded.declaration_statement.
  repeat ends_step H. apply (identifier_list_ends _ _ _ _ H). lia.
Qed.

Lemma output_list_loop_ends f : ends Bounded.output_list_loop f.
Proof.
  induction f as [|f IH]; intros depth a r H Hf; [lia|].
  cbn [Bounded.output_list_loop].
  destruct (value_in ["<<"] a) eqn:Hv; [|eauto].
  destruct (shift_is_consumed _ _ H Hv) as (He & H1 & Hr).
  apply ends_leaf_then. rewrite He. ends_step H1.
  apply (IH _ _ _ H1). lia.
Qed.

Lemma output_list_ends f : ends Bounded.output_list f.
Proof.
  intros depth a r H Hf. unfold Bounded.output_list.
  repeat ends_step H. apply (output_list_loop_ends _ _ _ _ H). lia.
Qed.

Lemma output_statement_ends f : ends Bounded.output_statement f.
Proof.
  intros depth a r H Hf. unfold Bounded.output_statement.
  repeat ends_step H. apply (output_list_ends _ _ _ _ H). lia.
Qed.

(** A call known to end, and what follows it. *)
Ltac ends_call S IH H :=
  eapply ends_then;
  [apply S
  |apply (IH _ _ _ H); lia
  |let s := fresh "s" in
   let E := fresh "E" in
   let W := fresh "W" in
   intros s E W; apply (fit_walk _ _ _ H) in W].

Lemma expression_group_ends (f : nat) :
  ends Bounded.expression f /\ ends Bounded.expression_loop f
  /\ ends Bounded.term f /\ ends Bounded.term_loop f
  /\ ends Bounded.factor f.
Proof.
  unfold ends. induction f as [|f (IHe & IHel & IHt & IHtl & IHf)].
  { split; [|split; [|split; [|split]]]; intros; lia. }
  destruct (expression_group_sims f) as (Se & Sel & St & Stl & Sf).
  split; [|split; [|split; [|split]]]; intros depth a r H Hf.
  - cbn [Bounded.expression]. ends_step H.
    ends_call St IHt H. apply (IHel _ _ _ W). lia.
  - cbn [Bounded.expression_loop].
    destruct (value_in ["+"; "-"] a) eqn:Hv; [|eauto].
    apply value_in_some in Hv as (t & Hc).
    destruct (fit_consume _ _ _ H Hc) as (H1 & Hr).
    apply ends_leaf_then.
    ends_call St IHt H1. apply (IHel _ _ _ W). lia.
  - cbn [Bounded.term]. ends_step H.
    ends_call Sf IHf H. apply (IHtl _ _ _ W). lia.
  - cbn [Bounded.term_loop].
    destruct (value_in ["*"; "/"] a) eqn:Hv; [|eauto].
    apply value_in_some in Hv as (t & Hc).
    destruct (fit_consume _ _ _ H Hc) as (H1 & Hr).
    apply ends_leaf_then.
    ends_call Sf IHf H1. apply (IHtl _ _ _ W). lia.
  - cbn [Bounded.factor]. ends_step H.
    destruct (current_token a) as [[ty v]|] eqn:Hc; [|apply ends_leaf].
    destruct (_ || _); [apply ends_leaf|].
    destruct (v =? "(")%string; [|apply ends_leaf].
    ends_step H. ends_call Se IHe H. apply ends_leaf.
Qed.

Lemma expression_ends f : ends Bounded.expression f.
Proof. apply expression_group_ends. Qed.

Lemma return_statement_ends f : ends Bounded.return_statement f.
Proof.
  intros depth a r H Hf. unfold Bounded.return_statement.
  repeat ends_step H. apply (expression_ends _ _ _ _ H). lia.
Qed.

Lemma assignment_statement_ends f : ends Bounded.assignment_statement f.
Proof.
  intros depth a r H Hf. unfold Bounded.assignment_statement.
  repeat ends_step H. apply (expression_ends _ _ _ _ H). lia.
Qed.

Lemma condition_ends f : ends Bounded.condition f.
Proof.
  intros depth a r H Hf. unfold Bounded.condition. ends_step H.
  ends_call (expression_sims f) (expression_ends f) H.
  ends_step W. apply (expression_ends _ _ _ _ W). lia.
Qed.

(** A statement that returns with an empty log has moved the cursor. *)
Lemma statement_moves (f depth : nat) (a s : Parser) (t : token) :
  Inv a -> current_token a = Some t ->
  Bounded.statement f depth a = Some (Returned s) ->
  has_errors s = false -> token_index a < token_index s.
Proof.
  intros HI Hc H Hs. destruct (statement_group_sims f) as (_ & Ss & _).
  destruct (Ss depth a) as (_ & Ho). rewrite H in Ho.
  eapply statement_progress; eassumption.
Qed.

Lemma statement_group_ends (f : nat) :
  ends Bounded.statement_list f /\ ends Bounded.statement f
  /\ ends Bounded.if_statement f /\ ends Bounded.block f.
Proof.
  unfold ends. induction f as [|f (IHsl & IHs & IHi & IHb)].
  { split; [|split; [|split]]; intros; lia. }
  destruct (statement_group_sims f) as (Ssl & Ss & Si & Sb).
  split; [|split; [|split]]; intros depth a r H Hf.
  - cbn [Bounded.statement_list]. ends_step H.
    destruct (current_token a) as [[ty v]|] eqn:Hc; [|eauto].
    destruct (negb (mem v ["}"])); [|eauto].
    eapply ends_then; [apply Ss|apply (IHs _ _ _ H); lia|].
    intros s E W. destruct (has_errors s) eqn:Hs; [eauto|].
    pose proof (statement_moves _ _ _ _ _ (proj1 H) Hc E Hs) as Hlt.
    destruct (fit_advance _ _ _ H W Hlt) as (H1 & Hr).
    apply (IHsl _ _ _ H1). lia.
  - cbn [Bounded.statement]. ends_step H.
    destruct (current_token a) as [[ty v]|] eqn:Hc; [|eauto].
    destruct (_ && _).
    { ends_call (declaration_statement_sims f)
        (declaration_statement_ends f) H.
      apply ends_leaf. }
    destruct (ty =? "IDENTIFIER")%string.
    { destruct (_ <? _); [|apply ends_leaf].
      destruct (_ =? "=")%string.
      { ends_call (assignment_statement_sims f)
          (assignment_statement_ends f) H.
        apply ends_leaf. }
      destruct (_ && _); [|apply ends_leaf].
      ends_call (output_statement_sims f) (output_statement_ends f) H.
      apply ends_leaf. }
    destruct (_ && _); [apply (IHi _ _ _ H); lia|].
    destruct (_ && _).
    { ends_call (return_statement_sims f) (return_statement_ends f) H.
      apply ends_leaf. }
    apply ends_leaf_then. apply ends_leaf.
  - cbn [Bounded.if_statement]. ends_step H. ends_step H. ends_step H.
    ends_call (condition_sims f) (condition_ends f) H.
    ends_step W. ends_call Sb IHb W.
    destruct (value_in ["else"] s0); [|eauto].
    ends_step W0. apply (IHb _ _ _ W0). lia.
  - cbn [Bounded.block]. ends_step H. ends_step H.
    ends_call Ssl IHsl H. apply ends_leaf.
Qed.

Lemma program_ends f : ends Bounded.program f.
Proof.
  intros depth a r H Hf.
  unfold Bounded.program, Bounded.function_definition.
  repeat ends_step H.
  destruct (statement_group_ends f) as (_ & _ & _ & Hb).
  apply (Hb _ _ _ H). lia.
Qed.

Lemma try_block_ends (fuel depth : nat) (a : Parser) (r : nat) :
  fit a r -> r + depth < fuel -> exists o, try_block fuel depth a = Some o.
Proof.
  intros H Hf. unfold try_block.
  ends_call (program_sims fuel) (program_ends fuel) H.
  destruct (current_token s); [apply ends_leaf|eauto].
Qed.

(** [parse] ends on every sequence of tokens in which the comma and [<<]
    are classified as the scanner classifies them, at every depth. *)
Lemma separated_parse_ends (toks : list token) (depth : nat) :
  Forall separator_ok toks ->
  exists v o,
    forall fuel, List.length toks + depth < fuel ->
                 parse fuel depth toks = Some (v, o).
Proof.
  intros Hok.
  assert (Hfit : fit (init toks) (List.length toks)).
  { split; [apply init_inv|]. split; [assumption|].
    unfold remaining, init. simpl. lia. }
  destruct (try_block_ends (S (List.length toks + depth)) depth _ _ Hfit
              (Nat.lt_succ_diag_r _)) as (o & Ho).
  exists (negb (has_errors (state o))), o. intros fuel Hf.
  apply parse_eq in Ho.
  eapply parse_stable; [exact Ho|lia|apply le_n|reflexivity].
Qed.

(** A walk is cut inside [program]: in the frame of [parse] nothing is
    called that [program] has not had the frames for. *)
Lemma cut_inside_program (fuel depth : nat) (toks : list token)
      (v v' : bool) (c b : Parser) :
  parse fuel depth toks = Some (v, Raised c) ->
  unbounded_parse fuel toks = Some (v', b) ->
  exists s, program fuel (init toks) = Some s
            /\ b = after_program s /\ walk c s.
Proof.
  intros H Hu. apply parse_inv in H as (H & _).
  apply unbounded_parse_inv in Hu as (Hu & _).
  apply bind_Some in Hu as (s & Hs & Hb). inversion Hb; subst b.
  exists s. split; [assumption|]. split; [reflexivity|].
  unfold try_block in H.
  apply then_inv in H as [(c' & H & Hc)|(s' & H & Hk)].
  - inversion Hc; subst c'.
    destruct (program_sims fuel depth (init toks)) as (_ & Ho).
    rewrite H in Ho. exact (proj2 Ho _ Hs).
  - exfalso. destruct depth as [|d]; [discriminate H|].
    destruct (current_token s'); [|discriminate Hk].
    unfold leaf in Hk. cbn [Nat.leb] in Hk. discriminate Hk.
Qed.

(* ================================================================== *)
(** ** What [parse] returns *)

Lemma return_zero_program : Program return_zero_tokens.
Proof.
  apply (Program_intro ("KEYWORD", "int") ("IDENTIFIER", "main")
           (lbrace :: [kw_return; ("CONSTANT_INT", "0"); semicolon]
                   ++ [rbrace])).
  - split; simpl; auto.
  - reflexivity.
  - constructor.
    apply (StatementList_cons
             ([kw_return; ("CONSTANT_INT", "0")] ++ [semicolon]) []);
      [|constructor].
    apply Statement_return, ReturnStatement_intro.
    apply (Expression_intro [("CONSTANT_INT", "0")] []); [|constructor].
    apply (Term_intro [("CONSTANT_INT", "0")] []); [|constructor].
    constructor. right. now left.
Qed.


Lemma verdict_iff (self : Parser) :
  negb (has_errors self) = true <-> errors self = [].
Proof.
  unfold has_errors. destruct (errors self); simpl; split;
    congruence || discriminate.
Qed.

(** C1, as the code has it.  However [parse] ends, the verdict is [true]
    exactly when the error log is empty.  When the verdict is [true] and
    the walk was not cut short by a swallowed [RecursionError], the cursor
    is at the end of the token sequence and there is no current token: a
    token left over after [program] adds an error.  On tokens in which a
    comma is a punctuator and [<<] an operator, as the scanner classifies
    them, [parse] ends, whatever the number of frames it is given. *)
Theorem parse_verdict (toks : list token) :
  (forall fuel depth v o,
     parse fuel depth toks = Some (v, o) ->
     (v = true <-> errors (state o) = [])
     /\ (v = true -> raised o = false ->
         token_index (state o) = List.length toks
         /\ current_token (state o) = None))
  /\ (Forall separator_ok toks ->
      forall depth,
      exists v o,
        parse (S (List.length toks + depth)) depth toks = Some (v, o)).
Proof.
  split.
  - intros fuel depth v o H.
    pose proof (parse_cut _ _ _ _ _ H) as (Hv & _).
    split; [rewrite Hv; apply verdict_iff|]. intros Hv' Hr.
    destruct o as [b|c]; [|discriminate]. cbn [state].
    apply parse_returned, unbounded_parse_sound in H as (Hstep & _ & Hend).
    assert (He : has_errors b = false).
    { cbn [state] in Hv. destruct (has_errors b); [|reflexivity].
      rewrite Hv in Hv'. discriminate. }
    specialize (Hend He). split; [|assumption].
    destruct Hstep as [T _ _ _ (Hc & Hle & _)].
    rewrite Hend in Hc. symmetry in Hc. apply nth_error_None in Hc.
    rewrite T in *. simpl in *. lia.
  - intros Hok depth.
    destruct (separated_parse_ends toks depth Hok) as (v & o & H).
    exists v, o. apply H. apply Nat.lt_succ_diag_r.
Qed.

Lemma parse_verdict_witness :
  exists b, parse 20 998 return_zero_tokens = Some (true, Returned b)
            /\ (true = true <-> errors b = [])
            /\ token_index b = 9 /\ current_token b = None.
Proof.
  eexists. split; [vm_compute; reflexivity|].
  destruct (parse_verdict return_zero_tokens) as (H & _).
  destruct (H 20 998 true _ eq_refl) as (Hiff & Hend).
  split; [exact Hiff|]. exact (Hend eq_refl eq_refl).
Defined.

(** C1 as stated fails.  The text [int main ( ) { return] followed by 400
    opening parentheses is scanned into 406 tokens.  With the 998 frames
    the default recursion limit leaves to [parse], the walk is cut by
    [RecursionError] in the 331st nested [factor]; nothing has been logged
    by then, the [except] clause lets the exception pass, and [parse]
    returns [true] with the cursor at 336 and 70 tokens unread. *)
Lemma deep_nesting_is_accepted :
  tokenize (open_parentheses_text 400) = Some (open_parentheses 400)
  /\ List.length (open_parentheses 400) = 406
  /\ exists c,
       parse 1200 998 (open_parentheses 400) = Some (true, Raised c)
       /\ errors c = []
       /\ token_index c = 336
       /\ current_token c = Some ("PUNCTUATOR", "(")
       /\ token_index c <> List.length (open_parentheses 400).
Proof.
  split; [vm_compute; reflexivity|]. split; [reflexivity|].
  destruct (parse 1200 998 (open_parentheses 400)) as [[v [b|c]]|] eqn:H;
    vm_compute in H; try discriminate H.
  exists c. inversion H; subst. repeat split; try reflexivity.
  vm_compute. discriminate.
Qed.

(** C5. The text [int main ( ) { x = 5 }] is scanned into nine tokens, and
    [parse] on them returns, given at least eight units of fuel and ten
    frames, with the verdict [false] and exactly one error:
    [PUNCTUATOR (;)] was expected at token index 8, where the closing brace
    stands. *)
Theorem missing_semicolon_one_error (fuel depth : nat) :
  8 <= fuel -> 10 <= depth ->
  tokenize missing_semicolon_text = Some missing_semicolon_tokens
  /\ exists b,
       parse fuel depth missing_semicolon_tokens = Some (false, Returned b)
       /\ errors b =
          ["Syntax Error at token index 8: Expected PUNCTUATOR (;), but found <PUNCTUATOR, }>."]
       /\ nth_error missing_semicolon_tokens 8 = Some ("PUNCTUATOR", "}")
       /\ token_index b = 9.
Proof.
  intros Hf Hd. split; [vm_compute; reflexivity|].
  destruct (parse 8 10 missing_semicolon_tokens) as [[v [b|c]]|] eqn:H;
    [|vm_compute in H; discriminate H..].
  exists b.
  pose proof (parse_stable _ _ _ _ _ _ _ H Hf Hd
                ltac:(discriminate)) as H'.
  vm_compute in H. inversion H; subst.
  repeat split; assumption || reflexivity.
Qed.

Lemma missing_semicolon_one_error_witness :
  exists b,
    parse 8 998 missing_semicolon_tokens = Some (false, Returned b)
    /\ List.length (errors b) = 1.
Proof.
  destruct (missing_semicolon_one_error 8 998 (le_n 8))
    as (_ & b & H & E & _); [lia|].
  exists b. split; [assumption|]. rewrite E. reflexivity.
Defined.

(** C7. The cursor never goes down: not over any sequence of advance and
    expect operations, whatever the walker they start from.  And over one
    [parse], however it ends, the values the cursor takes, oldest first,
    start at 0, never decrease and never exceed the length of the token
    sequence. *)
Theorem cursor_monotone_and_bounded :
  (forall ops1 ops2 self,
     token_index (apply_ops ops1 self)
     <= token_index (apply_ops (ops1 ++ ops2) self))
  /\ (forall fuel depth toks v o,
        parse fuel depth toks = Some (v, o) ->
        (exists rest, cursor_trace (state o) = 0 :: rest)
        /\ StronglySorted le (cursor_trace (state o))
        /\ Forall (fun i => i <= List.length toks) (cursor_trace (state o))
        /\ token_index (state o) <= List.length toks).
Proof.
  split.
  - intros ops1 ops2 self. unfold apply_ops. rewrite fold_left_app.
    generalize (fold_left apply_op ops1 self) as a.
    induction ops2 as [|op ops IH]; intros a; simpl; [lia|].
    etransitivity; [apply (apply_op_index a op)|apply IH].
  - intros fuel depth toks v o H. apply parse_cut in H as (_ & Hw).
    apply (walk_step_ok _ _ (init_inv toks)) in Hw.
    destruct Hw as [T _ _ [l C] (_ & Hle & Hs & Hall)].
    simpl in T, C. rewrite T in Hle.
    split; [eauto|]. split; [assumption|]. split; [|assumption].
    eapply Forall_impl; [|exact Hall]. simpl. intros. lia.
Qed.

Lemma cursor_monotone_and_bounded_witness :
  exists b,
    parse 20 998 return_zero_tokens = Some (true, Returned b)
    /\ cursor_trace b = [0; 1; 2; 3; 4; 5; 6; 7; 8; 9]
    /\ StronglySorted le (cursor_trace b).
Proof.
  eexists. split; [vm_compute; reflexivity|]. split; [reflexivity|].
  apply (proj2 cursor_monotone_and_bounded 20 998 return_zero_tokens true
               (Returned _)).
  vm_compute. reflexivity.
Defined.

(** C10. On the empty token sequence [parse] returns, given at least two
    units of fuel and five frames, with the verdict [false]; the log holds
    the missing type at token index 0 first, then the end-of-file errors
    for the identifier, both parentheses and both braces; the cursor stays
    at 0. *)
Theorem parse_empty_reports_errors (fuel depth : nat) :
  2 <= fuel -> 5 <= depth ->
  exists b,
    parse fuel depth [] = Some (false, Returned b)
    /\ errors b =
       ["Syntax Error at token index 0: Expected a Type (int, float, double, char).";
        "Syntax Error at token index 0: Expected IDENTIFIER , but found end of file.";
        "Syntax Error at token index 0: Expected PUNCTUATOR ((), but found end of file.";
        "Syntax Error at token index 0: Expected PUNCTUATOR ()), but found end of file.";
        "Syntax Error at token index 0: Expected PUNCTUATOR ({), but found end of file.";
        "Syntax Error at token index 0: Expected PUNCTUATOR (}), but found end of file."]
    /\ token_index b = 0.
Proof.
  intros Hf Hd.
  destruct (parse 2 5 []) as [[v [b|c]]|] eqn:H;
    [|vm_compute in H; discriminate H..].
  exists b.
  pose proof (parse_stable _ _ _ _ _ _ _ H Hf Hd
                ltac:(discriminate)) as H'.
  vm_compute in H. inversion H; subst.
  repeat split; assumption || reflexivity.
Qed.

Lemma parse_empty_reports_errors_witness :
  exists b, parse 2 998 [] = Some (false, Returned b)
            /\ List.length (errors b) = 6.
Proof.
  destruct (parse_empty_reports_errors 2 998 (le_n 2)) as (b & H & E & _);
    [lia|].
  exists b. split; [assumption|]. rewrite E. reflexivity.
Defined.

Lemma classified_parse_ends (toks : list token) (depth : nat) :
  Forall lexeme_ok toks ->
  exists v o,
    forall fuel, need (List.length toks) 9 <= fuel ->
                 parse fuel depth toks = Some (v, o).
Proof.
  intros Hok.
  destruct (unbounded_parse_total toks _ Hok (le_n _)) as (v' & b & Hp).
  destruct (parse_follows _ depth _ _ _ Hp) as (v & o & H & _).
  exists v, o. intros fuel Hle.
  eapply parse_stable; [exact H|assumption|apply le_n|reflexivity].
Qed.

Lemma fit_here (a : Parser) :
  Inv a -> Forall separator_ok (tokens a) -> fit a (remaining a).
Proof.
  intros HI Hok. split; [assumption|]. split; [assumption|apply le_n].
Qed.

Lemma comma_round_advances (a : Parser) :
  Inv a -> Forall separator_ok (tokens a) -> value_in [","] a = true ->
  token_index a
  < token_index (expect "IDENTIFIER" None (expect "PUNCTUATOR" (Some ",") a)).
Proof.
  intros HI Hok Hv.
  destruct (comma_is_consumed _ _ (fit_here _ HI Hok) Hv)
    as (-> & (HI1 & _) & _).
  apply index_consume_step. now apply expect_step.
Qed.

Lemma shift_round_advances (a : Parser) :
  Inv a -> Forall separator_ok (tokens a) -> value_in ["<<"] a = true ->
  token_index a
  < token_index (output_item (expect "OPERATOR" (Some "<<") a)).
Proof.
  intros HI Hok Hv.
  destruct (shift_is_consumed _ _ (fit_here _ HI Hok) Hv)
    as (-> & (HI1 & _) & _).
  apply index_consume_step. now apply output_item_step.
Qed.

Lemma operator_round_advances (p : nat -> Parser -> option Parser)
      (l : list string) (f : nat) (a b : Parser) :
  sound p f -> Inv a -> value_in l a = true -> p f (consume a) = Some b ->
  token_index a < token_index b.
Proof.
  intros Hp HI Hv H. apply value_in_some in Hv as (t & Hc).
  pose proof (consume_step _ _ HI Hc) as H1.
  apply index_consume_step. exact (Hp _ _ (so_inv _ _ H1) H).
Qed.

(** C9. The walker always comes to an end on what the scanner hands it.
    For every text and every number of frames, [parse] ends on the tokens
    of the text, with fuel linear in their number, and more fuel does not
    change the result.  It ends as well on every sequence of tokens in
    which a comma is a punctuator and [<<] an operator, as the scanner
    classifies them, given more fuel than there are tokens and frames: a
    walk that descends without reading is cut by the [RecursionError] that
    [parse] swallows.  On such tokens each round of a loop moves the
    cursor: the rounds of [identifier_list] and [output_list] past the
    comma and the [<<], those of [expression] and [term] past the
    operator, and a round of [statement_list] moves the cursor or leaves
    the log non-empty, and then the loop is left. *)
Theorem parse_terminates :
  (forall text depth,
     exists toks v o,
       tokenize text = Some toks
       /\ Forall separator_ok toks
       /\ forall fuel, need (List.length toks) 9 <= fuel ->
                       parse fuel depth toks = Some (v, o))
  /\ (forall toks depth,
        Forall separator_ok toks ->
        exists v o,
          forall fuel, List.length toks + depth < fuel ->
                       parse fuel depth toks = Some (v, o))
  /\ (forall a,
        Inv a -> Forall separator_ok (tokens a) ->
        (value_in [","] a = true ->
         token_index a
         < token_index (expect "IDENTIFIER" None
                          (expect "PUNCTUATOR" (Some ",") a)))
        /\ (value_in ["<<"] a = true ->
            token_index a
            < token_index (output_item (expect "OPERATOR" (Some "<<") a)))
        /\ (forall f b, value_in ["+"; "-"] a = true ->
                        term f (consume a) = Some b ->
                        token_index a < token_index b)
        /\ (forall f b, value_in ["*"; "/"] a = true ->
                        factor f (consume a) = Some b ->
                        token_index a < token_index b)
        /\ (forall f b t, current_token a = Some t ->
                          statement f a = Some b ->
                          has_errors b = true
                          \/ token_index a < token_index b)).
Proof.
  split; [|split].
  - intros text depth.
    destruct (tokenize_total text) as (toks & Ht & _ & Hok).
    destruct (classified_parse_ends toks depth Hok) as (v & o & Hp).
    exists toks, v, o. auto using lexeme_ok_separator.
  - intros toks depth Hok. now apply separated_parse_ends.
  - intros a HI Hok. split; [|split; [|split; [|split]]].
    + now apply comma_round_advances.
    + now apply shift_round_advances.
    + intros f b Hv H.
      exact (operator_round_advances term _ f a b (term_sound f) HI Hv H).
    + intros f b Hv H.
      exact (operator_round_advances factor _ f a b (factor_sound f) HI Hv H).
    + intros f b t Hc H. destruct (has_errors b) eqn:Hb; [now left|right].
      eapply statement_progress; eassumption.
Qed.

Lemma parse_terminates_witness :
  (exists v o, parse 1006 998 stuck_parenthesis = Some (v, o))
  /\ token_index (init [("PUNCTUATOR", ","); ("IDENTIFIER", "x")])
     < token_index
         (expect "IDENTIFIER" None
            (expect "PUNCTUATOR" (Some ",")
               (init [("PUNCTUATOR", ","); ("IDENTIFIER", "x")]))).
Proof.
  destruct parse_terminates as (_ & Hends & Hrounds). split.
  - destruct (Hends stuck_parenthesis 998) as (v & o & H).
    + repeat constructor; simpl; discriminate.
    + exists v, o. apply H. vm_compute. lia.
  - apply (Hrounds (init [("PUNCTUATOR", ","); ("IDENTIFIER", "x")])).
    + apply init_inv.
    + repeat constructor; simpl; discriminate.
    + reflexivity.
Defined.

(* ================================================================== *)
(** ** [parse] and the grammar *)

(** X1. A walk that was not cut short accepts programs only: whenever
    [parse] returns [true] and no [RecursionError] was swallowed, the token
    sequence is a program of the grammar. *)
Theorem parse_accepts_only_programs (fuel depth : nat) (toks : list token)
        (o : outcome) :
  parse fuel depth toks = Some (true, o) -> raised o = false ->
  Program toks.
Proof.
  intros H Hr. destruct o as [b|c]; [|discriminate].
  apply parse_returned in H. eapply accepted_is_program; eassumption.
Qed.

Lemma parse_accepts_only_programs_witness : Program return_zero_tokens.
Proof.
  apply (parse_accepts_only_programs 20 998 return_zero_tokens
           (Returned
              (after_program
                 (match program 20 (init return_zero_tokens) with
                  | Some b => b
                  | None => init []
                  end)))).
  - vm_compute. reflexivity.
  - reflexivity.
Defined.

Lemma accepted_at_every_depth (toks : list token) :
  Program toks -> Forall identifier_ok toks ->
  (forall depth,
   exists fuel0 o,
     errors (state o) = []
     /\ forall fuel, fuel0 <= fuel ->
                     parse fuel depth toks = Some (true, o))
  /\ exists fuel0 b,
       errors b = []
       /\ forall fuel depth,
            fuel0 <= fuel -> fuel0 + 6 <= depth ->
            parse fuel depth toks = Some (true, Returned b).
Proof.
  intros Hprog Hok.
  destruct (program_is_accepted toks Hprog Hok) as (f0 & b & He & Hacc).
  pose proof (Hacc f0 (le_n _)) as H0. split.
  - intros depth.
    destruct (parse_follows _ depth _ _ _ H0)
      as (v & o & H & [(-> & ->)|(Hr & Hw)]).
    + exists f0, (Returned b). split; [assumption|]. intros fuel Hle.
      eapply parse_stable; [exact H|assumption|apply le_n|reflexivity].
    + exists f0, o. pose proof (cut_log_is_prefix _ _ Hw He) as Hc.
      split; [assumption|]. intros fuel Hle.
      pose proof (parse_cut _ _ _ _ _ H) as (Hv & _).
      assert (v = true) as -> by (rewrite Hv; now apply verdict_iff).
      eapply parse_stable; [exact H|assumption|apply le_n|reflexivity].
  - exists f0, b. split; [assumption|]. intros fuel depth Hf Hd.
    eapply parse_with_room; eassumption.
Qed.

(** X2. Every program of the grammar is accepted: when the identifiers are
    as the scanner produces them (none spelled as a closing brace or as
    [else]), [parse] returns [true] with an empty log once it has enough
    fuel, whatever the number of frames, and more fuel changes nothing.
    With frames to spare the walk is not cut. *)
Theorem parse_accepts_every_program (toks : list token) :
  Program toks -> Forall identifier_ok toks ->
  (forall depth,
   exists fuel0 o,
     errors (state o) = []
     /\ forall fuel, fuel0 <= fuel ->
                     parse fuel depth toks = Some (true, o))
  /\ exists fuel0 b,
       errors b = []
       /\ forall fuel depth,
            fuel0 <= fuel -> fuel0 + 6 <= depth ->
            parse fuel depth toks = Some (true, Returned b).
Proof. apply accepted_at_every_depth. Qed.

Lemma parse_accepts_every_program_witness :
  exists fuel0 o,
    errors (state o) = []
    /\ forall fuel, fuel0 <= fuel ->
                    parse fuel 998 return_zero_tokens = Some (true, o).
Proof.
  apply (parse_accepts_every_program return_zero_tokens).
  - exact return_zero_program.
  - apply Forall_forall. intros t Hin. simpl in Hin.
    repeat destruct Hin as [<-|Hin]; try contradiction;
      intros H; simpl in H; try discriminate; split; discriminate.
Defined.

Lemma scanned_identifiers (text : string) (toks : list token) :
  tokenize text = Some toks -> Forall identifier_ok toks.
Proof.
  intros Ht. eapply Forall_impl; [exact token_shape_identifier_ok|].
  eapply tokenize_forall; [exact scan_token_shape|eassumption].
Qed.

(** The scanner followed by the walk with stack to spare. *)
Lemma scanned_verdict (text : string) :
  exists toks v b,
    tokenize text = Some toks
    /\ Forall lexeme_ok toks
    /\ unbounded_parse (need (List.length toks) 9) toks = Some (v, b)
    /\ (v = true <-> Program toks).
Proof.
  destruct (tokenize_total text) as (toks & Ht & _ & Hok).
  destruct (unbounded_parse_total toks _ Hok (le_n _)) as (v & b & Hp).
  exists toks, v, b. split; [assumption|]. split; [assumption|].
  split; [assumption|]. split.
  - intros ->. eapply accepted_is_program; eassumption.
  - intros Hprog.
    destruct (program_is_accepted toks Hprog (scanned_identifiers _ _ Ht))
      as (f0 & b' & _ & Hacc).
    pose proof (Hacc _ (Nat.le_max_l f0 (need (List.length toks) 9))) as H1.
    pose proof (unbounded_parse_mono _ _ _ _
                  (Nat.le_max_r f0 (need (List.length toks) 9)) Hp) as H2.
    congruence.
Qed.

(** The scanner followed by [parse]. *)
Lemma front_end_verdict (text : string) (depth : nat) :
  exists toks v o,
    tokenize text = Some toks
    /\ (forall fuel, need (List.length toks) 9 <= fuel ->
                     parse fuel depth toks = Some (v, o))
    /\ (Program toks -> v = true)
    /\ (v = true -> raised o = false -> Program toks)
    /\ (need (List.length toks) 9 + 6 <= depth -> raised o = false).
Proof.
  destruct (scanned_verdict text) as (toks & v' & b & Ht & Hok & Hp & Hv).
  destruct (parse_follows _ depth _ _ _ Hp) as (v & o & H & Hcase).
  exists toks, v, o. split; [assumption|].
  assert (Hall : forall fuel, need (List.length toks) 9 <= fuel ->
                              parse fuel depth toks = Some (v, o)).
  { intros fuel Hle.
    eapply parse_stable; [exact H|assumption|apply le_n|reflexivity]. }
  split; [assumption|]. split; [|split].
  - intros Hprog.
    destruct (proj1 (accepted_at_every_depth toks Hprog
                       (scanned_identifiers _ _ Ht)) depth)
      as (f0 & o' & _ & Hacc).
    pose proof (Hacc _ (Nat.le_max_l f0 (need (List.length toks) 9))) as H1.
    pose proof (Hall _ (Nat.le_max_r f0 (need (List.length toks) 9))) as H2.
    congruence.
  - intros -> Hr. destruct o as [b'|c]; [|discriminate].
    apply parse_returned in H. eapply accepted_is_program; eassumption.
  - intros Hd. eapply parse_roomy; eassumption.
Qed.

(** X4. Scanner and walker together: for every source text and every
    number of frames, the scanner returns a token sequence on which
    [parse] ends, with fuel linear in the number of tokens.  A program of
    the grammar always gets the verdict [true].  A verdict [true] from a
    walk that was not cut short means the tokens form a program, and with
    frames to spare (a number linear in the number of tokens) no walk is
    cut short. *)
Theorem front_end_decides_grammar (text : string) (depth : nat) :
  exists toks v o,
    tokenize text = Some toks
    /\ (forall fuel, need (List.length toks) 9 <= fuel ->
                     parse fuel depth toks = Some (v, o))
    /\ (Program toks -> v = true)
    /\ (v = true -> raised o = false -> Program toks)
    /\ (need (List.length toks) 9 + 6 <= depth -> raised o = false).
Proof. apply front_end_verdict. Qed.

(** X7. The error log is in token order, however [parse] ends: every line
    was written at a position of the cursor, these positions never go
    down from one line to the next, and none lies beyond the end of the
    token sequence. *)
Theorem errors_are_in_token_order (fuel depth : nat) (toks : list token)
        (v : bool) (o : outcome) :
  parse fuel depth toks = Some (v, o) ->
  exists idxs,
    Forall2 error_line idxs (errors (state o))
    /\ StronglySorted le idxs
    /\ Forall (fun i => i <= List.length toks) idxs.
Proof.
  intros H. apply parse_cut in H as (_ & Hw).
  destruct (walk_keeps_log_in_order _ _ Hw [])
    as (idxs & Hl & Hs & Hb).
  { repeat split; constructor. }
  pose proof (walk_step_ok _ _ (init_inv toks) Hw) as Hstep.
  destruct Hstep as [T _ _ _ (_ & Hle & _)]. rewrite T in Hle. simpl in *.
  exists idxs. split; [assumption|]. split; [assumption|].
  eapply Forall_impl; [|exact Hb]. simpl. intros. lia.
Qed.

Lemma errors_are_in_token_order_witness :
  exists idxs,
    Forall2 error_line idxs
      ["Syntax Error at token index 8: Expected PUNCTUATOR (;), but found <PUNCTUATOR, }>."]
    /\ StronglySorted le idxs
    /\ Forall (fun i => i <= 9) idxs.
Proof.
  destruct (parse 8 998 missing_semicolon_tokens) as [[v o]|] eqn:H;
    [|vm_compute in H; discriminate].
  destruct (errors_are_in_token_order _ _ _ _ _ H) as (idxs & Hl & Hs & Hb).
  vm_compute in H. inversion H; subst. exists idxs. auto.
Defined.

(** The [try] block from the point where [type] has been called. *)
Lemma try_block_after_type (fuel d : nat) (a : Parser) (o : outcome) :
  try_block fuel (S (S (S (S d)))) a = Some o -> walk (type a) (state o).
Proof.
  unfold try_block, Bounded.program, Bounded.function_definition.
  cbn [entered]. unfold leaf at 1. cbn [Nat.leb]. rewrite then_Returned.
  intros H. apply then_inv in H as [(c & H & ->)|(s & H & Ho)].
  - assert (Hs : sim (type a)
                   (Some (Raised c))
                   (block fuel
                      (expect "PUNCTUATOR" (Some ")")
                         (expect "PUNCTUATOR" (Some "(")
                            (expect "IDENTIFIER" None (type a)))))).
    { rewrite <- H. sim_leaves. apply block_sims. }
    exact (proj1 (proj2 Hs)).
  - assert (Hs : sim (type a)
                   (Some (Returned s))
                   (block fuel
                      (expect "PUNCTUATOR" (Some ")")
                         (expect "PUNCTUATOR" (Some "(")
                            (expect "IDENTIFIER" None (type a)))))).
    { rewrite <- H. sim_leaves. apply block_sims. }
    destruct Hs as (Hw & Hr). eapply walk_trans; [exact (Hw _ Hr)|].
    destruct (current_token s); [|inv_some; constructor].
    unfold leaf in Ho. destruct (1 <=? _); inv_some;
      [apply walk_one_error|constructor].
Qed.

(** X10. A token sequence that does not begin with one of the type
    keywords is never accepted: with the four frames it takes to reach the
    first error, however [parse] ends, the verdict is [false] and the first
    line of the log is the missing-type error at token index 0. *)
Theorem missing_type_is_reported_first (fuel depth : nat)
        (toks : list token) (v : bool) (o : outcome) :
  (forall t, hd_error toks = Some t -> ~ is_type_token t) ->
  4 <= depth ->
  parse fuel depth toks = Some (v, o) ->
  v = false /\ exists l, errors (state o) = type_error_line :: l.
Proof.
  intros Hno Hd H.
  assert (Ht : type (init toks)
               = error "Expected a Type (int, float, double, char)."
                       (init toks)).
  { unfold type. destruct toks as [|[ty w] toks]; [reflexivity|].
    cbn [init current_token].
    destruct ((ty =? "KEYWORD")%string && mem w type_names) eqn:Hb;
      [|reflexivity].
    exfalso. apply (Hno (ty, w) eq_refl). apply andb_prop in Hb as [H1 H2].
    apply String.eqb_eq in H1. apply mem_In in H2. now split. }
  apply parse_inv in H as (H & Hv).
  destruct depth as [|[|[|[|d]]]]; try lia.
  apply try_block_after_type, walk_extends_log in H as (l & Hl).
  rewrite Ht in Hl. simpl in Hl.
  split; [|now exists l]. rewrite Hv. unfold has_errors. now rewrite Hl.
Qed.

Lemma missing_type_is_reported_first_witness :
  exists o l,
    parse 9 998 [("IDENTIFIER", "main"); ("PUNCTUATOR", "(")]
    = Some (false, o)
    /\ errors (state o) = type_error_line :: l.
Proof.
  destruct (parse 9 998 [("IDENTIFIER", "main"); ("PUNCTUATOR", "(")])
    as [[v o]|] eqn:H; [|vm_compute in H; discriminate].
  destruct (missing_type_is_reported_first 9 998
              [("IDENTIFIER", "main"); ("PUNCTUATOR", "(")] v o)
    as (-> & l & Hl).
  - intros t Ht. simpl in Ht. inversion Ht. intros [Hk _]. discriminate.
  - lia.
  - exact H.
  - exists o, l. split; [reflexivity|assumption].
Defined.

Lemma leftover_with_stack_to_spare
        (prog : list token) (t : token) (extra : list token) :
  Program prog -> Forall identifier_ok (prog ++ t :: extra) ->
  exists fuel0 b,
    errors b = [leftover_line (List.length prog) t]
    /\ token_index b = List.length prog
    /\ forall fuel, fuel0 <= fuel ->
                    unbounded_parse fuel (prog ++ t :: extra) = Some (false, b).
Proof.
  intros [t0 name blk Ht Hn Hblk] Hok.
  set (head := t0 :: name :: lparen :: rparen :: blk) in *.
  set (all := (head ++ t :: extra)%list) in *.
  pose proof (init_inv all) as I0.
  assert (R0 : rest (init all)
               = t0 :: name :: lparen :: rparen :: (blk ++ t :: extra)%list)
    by reflexivity.
  destruct (type_reads _ _ _ I0 R0 Ht) as (E0 & I1 & R1 & L1).
  destruct (identifier_reads _ _ _ I1 R1 Hn) as (E1 & I2 & R2 & L2).
  destruct (expect_reads "PUNCTUATOR" "(" (Some "(") _ _ I2 R2)
    as (E2 & I3 & R3 & L3); [now right|].
  destruct (expect_reads "PUNCTUATOR" ")" (Some ")") _ _ I3 R3)
    as (E3 & I4 & R4 & L4); [now right|].
  destruct (block_reads _ Hblk _ (t :: extra) I4) as (f & b & Hb & Lb & Rb);
    [assumption|simpl in *; congruence|assumption|exact I|].
  pose proof (block_sound _ _ _ I4 Hb) as S5.
  assert (I5 : Inv b) by exact (so_inv _ _ S5).
  assert (T5 : tokens b = all) by (rewrite (so_tokens _ _ S5); reflexivity).
  assert (Hc : current_token b = Some t)
    by (apply (rest_cons_current b t extra I5 Rb)).
  assert (He : errors b = []) by (simpl in *; congruence).
  assert (Hi : token_index b = List.length head).
  { destruct I5 as (_ & Hle & _). unfold rest in Rb. rewrite T5 in Rb, Hle.
    exact (skipn_app_position _ _ _ Hle Rb). }
  exists f, (after_program b). unfold after_program. rewrite Hc.
  split; [|split].
  - cbn [error errors]. rewrite He, Hi. reflexivity.
  - exact Hi.
  - intros fuel Hle. apply (unbounded_parse_mono f); [assumption|].
    unfold unbounded_parse, program, function_definition.
    fold all. rewrite E0, E1, E2, E3, (bind_eq _ _ _ Hb).
    unfold after_program, has_errors. rewrite Hc. cbn [error errors].
    rewrite He. reflexivity.
Qed.

(** X11. Tokens left over after a complete program cost exactly one error:
    when the sequence is a program of the grammar followed by at least one
    more token, [parse], given frames to spare, returns [false], the cursor
    stops at the first left-over token and the log holds the single line
    naming that token and its index.  Whatever the number of frames, that
    is what [parse] returns when the walk is not cut short; a walk cut
    short by a swallowed [RecursionError] never comes to the left-over
    token, and [parse] returns [true] with an empty log. *)
Theorem leftover_token_is_the_only_error
        (prog : list token) (t : token) (extra : list token) :
  Program prog -> Forall identifier_ok (prog ++ t :: extra) ->
  exists fuel0 b,
    errors b = [leftover_line (List.length prog) t]
    /\ token_index b = List.length prog
    /\ (forall fuel depth,
          fuel0 <= fuel -> fuel0 + 6 <= depth ->
          parse fuel depth (prog ++ t :: extra) = Some (false, Returned b))
    /\ (forall fuel depth v o,
          parse fuel depth (prog ++ t :: extra) = Some (v, o) ->
          if raised o then v = true /\ errors (state o) = []
          else v = false /\ o = Returned b).
Proof.
  intros Hprog Hok.
  destruct (leftover_with_stack_to_spare prog t extra Hprog Hok)
    as (f0 & b & He & Hi & Hp).
  exists f0, b. split; [assumption|]. split; [assumption|]. split.
  { intros fuel depth Hf Hd.
    eapply parse_with_room; [apply (Hp f0 (le_n _))|assumption|assumption]. }
  intros fuel depth v o H.
  pose proof (Hp _ (Nat.le_max_r fuel f0)) as Hu.
  apply (fun H => parse_stable _ _ _ _ _ _ _ H (Nat.le_max_l fuel f0)
                    (le_n depth) (fun _ => eq_refl)) in H.
  destruct o as [b'|c]; cbn [raised state].
  - apply parse_returned in H. rewrite Hu in H. inversion H. auto.
  - destruct (cut_inside_program _ _ _ _ _ _ _ H Hu) as (s & _ & Hb & Hw).
    apply parse_cut in H as (Hv & _). cbn [state] in Hv.
    assert (Hs : errors s = []).
    { unfold after_program in Hb. destruct (current_token s) eqn:Hc.
      - subst b. cbn [error errors] in He.
        destruct (errors s); [reflexivity|].
        destruct l; discriminate He.
      - subst s. exfalso.
        apply unbounded_parse_sound in Hu as ([T _ _ _ (Hn & _)] & _).
        rewrite Hn, T, Hi in Hc. cbn [init tokens] in Hc.
        rewrite nth_error_app2, Nat.sub_diag in Hc; [discriminate|apply le_n]. }
    pose proof (cut_log_is_prefix _ _ Hw Hs) as Hc.
    split; [|assumption]. rewrite Hv. now apply verdict_iff.
Qed.

Lemma leftover_token_is_the_only_error_witness :
  exists fuel0 b,
    errors b
    = ["Syntax Error at token index 9: Unexpected token <PUNCTUATOR, ;> after program end."]
    /\ token_index b = 9
    /\ forall fuel depth,
         fuel0 <= fuel -> fuel0 + 6 <= depth ->
         parse fuel depth (return_zero_tokens ++ [semicolon])
         = Some (false, Returned b).
Proof.
  destruct (leftover_token_is_the_only_error return_zero_tokens semicolon [])
    as (f & b & He & Hi & Hp & _).
  - apply return_zero_program.
  - apply Forall_forall. intros x Hx. simpl in Hx. intros Hk.
    repeat (destruct Hx as [<-|Hx]; [try discriminate Hk|]);
      try contradiction; split; discriminate.
  - exists f, b. split; [rewrite He; reflexivity|].
    split; [rewrite Hi; reflexivity|exact Hp].
Defined.

(* ================================================================== *)
(** ** The driver's report *)

Lemma program_not_empty : ~ Program [].
Proof. intros H. inversion H. Qed.

Lemma fmt_token_head (t : token) : exists s, fmt_token t = String "<" s.
Proof. unfold fmt_token. simpl. eauto. Qed.

Lemma verdict_line_in (toks : list token) (tail : list string) (l : string) :
  (l = success_line \/ l = failure_line) ->
  In l (scanning_line :: map fmt_token toks
          ++ [separator; parsing_line] ++ tail)%list ->
  In l tail.
Proof.
  intros Hl [H|H].
  - destruct Hl as [-> | ->]; discriminate.
  - apply in_app_or in H as [H|H].
    + apply in_map_iff in H as (t & Ht & _).
      destruct (fmt_token_head t) as (s & Hs). rewrite Hs in Ht.
      destruct Hl as [-> | ->]; discriminate.
    + destruct H as [H|[H|H]]; [| |assumption];
        destruct Hl as [-> | ->]; discriminate.
Qed.

Lemma report_outcome (code : string) (depth : nat) :
  exists toks fuel0,
    tokenize code = Some toks
    /\ forall fuel, fuel0 <= fuel ->
       exists out status,
         report fuel depth code = Some (out, status)
         /\ (status = 0 <-> toks <> [])
         /\ (status = 0 \/ status = 1)
         /\ (Program toks -> In success_line out)
         /\ (In failure_line out -> toks <> [] /\ ~ Program toks)
         /\ (need (List.length toks) 9 + 6 <= depth ->
             In success_line out -> Program toks).
Proof.
  destruct (front_end_verdict code depth)
    as (toks & v & o & Ht & Hp & Hacc & Hsound & Hroom).
  exists toks, (need (List.length toks) 9). split; [assumption|].
  intros fuel Hle. unfold report. rewrite (bind_eq _ _ _ Ht).
  destruct toks as [|t toks].
  - exists [scanning_line; no_tokens_line], 1. split; [reflexivity|].
    split; [split; [discriminate|congruence]|]. split; [now right|].
    split; [|split].
    + intros H. now apply program_not_empty in H.
    + intros [H|[H|[]]]; discriminate.
    + intros _ [H|[H|[]]]; discriminate.
  - rewrite (bind_eq _ _ _ (Hp fuel Hle)). destruct v.
    + eexists _, 0. split; [reflexivity|].
      split; [split; [discriminate|reflexivity]|]. split; [now left|].
      split; [|split].
      * intros _. rewrite app_comm_cons. apply in_or_app. right. now left.
      * intros H. exfalso.
        rewrite app_comm_cons, <- app_assoc in H.
        apply (verdict_line_in (t :: toks) [success_line] failure_line) in H;
          [|now right]. destruct H as [H|[]]. discriminate.
      * intros Hd _. apply (Hsound eq_refl). now apply Hroom.
    + eexists _, 0. split; [reflexivity|].
      split; [split; [discriminate|reflexivity]|]. split; [now left|].
      assert (Hno : ~ Program (t :: toks)).
      { intros H. apply Hacc in H. discriminate. }
      split; [|split].
      * intros H. contradiction.
      * intros _. split; [discriminate|assumption].
      * intros _ H. exfalso.
        rewrite app_comm_cons, <- app_assoc in H.
        apply (verdict_line_in (t :: toks) _ success_line) in H;
          [|now left]. destruct H as [H|H]; [discriminate|].
        apply in_map_iff in H as (e & Hline & _). discriminate.
Qed.

(** X16. The driver always comes to an end, whatever the recursion limit.
    It exits with status 0 exactly when it was given one path, the file
    could be read and its text holds at least one token; syntax errors do
    not change the exit status.  When the tokens form a program of the
    grammar the success line is printed, and the failure line is printed
    only when they do not.  The success line alone does not tell that the
    tokens form a program, since a walk cut short by the recursion limit
    can leave the log empty; it does when the frames left to [parse] are
    enough for the number of tokens. *)
Theorem main_outcome (argv : list string)
        (read_file : string -> option string) (depth : nat) :
  exists fuel0, forall fuel, fuel0 <= fuel ->
  exists out status,
    main fuel depth argv read_file = Some (out, status)
    /\ (status = 0 \/ status = 1)
    /\ (status = 0 <->
        exists script path code toks,
          argv = [script; path] /\ read_file path = Some code
          /\ tokenize code = Some toks /\ toks <> [])
    /\ ((exists script path code toks,
           argv = [script; path] /\ read_file path = Some code
           /\ tokenize code = Some toks /\ Program toks) ->
        In success_line out)
    /\ (In failure_line out ->
        exists script path code toks,
          argv = [script; path] /\ read_file path = Some code
          /\ tokenize code = Some toks /\ toks <> [] /\ ~ Program toks)
    /\ (In success_line out ->
        exists script path code toks,
          argv = [script; path] /\ read_file path = Some code
          /\ tokenize code = Some toks /\ toks <> []
          /\ (need (List.length toks) 9 + 6 <= depth -> Program toks)).
Proof.
  destruct argv as [|script [|path [|extra argv]]].
  1, 2, 4:
    exists 0; intros fuel _; exists [usage_line], 1;
    (split; [reflexivity|]); (split; [now right|]);
    repeat split;
    try (intros (s & p & c & ts & E & _); discriminate E);
    try (intros H; discriminate H);
    try (intros [H|[]]; discriminate H).
  cbn [main]. destruct (read_file path) as [code|] eqn:Hread.
  - destruct (report_outcome code depth) as (toks & fuel0 & Ht & Hrep).
    exists fuel0. intros fuel Hle.
    destruct (Hrep fuel Hle)
      as (out & status & Hr & Hs & H01 & Hok & Hbad & Hroom).
    exists out, status. split; [assumption|]. split; [assumption|].
    split; [|split; [|split]].
    + rewrite Hs. split.
      * intros H. exists script, path, code, toks. auto.
      * intros (s & p & c & ts & E & Hrd & Htk & Hne).
        inversion E; subst. congruence.
    + intros (s & p & c & ts & E & Hrd & Htk & Hprog).
      inversion E; subst. apply Hok.
      assert (ts = toks) by congruence. now subst.
    + intros H. destruct (Hbad H) as (H1 & H2).
      exists script, path, code, toks. auto.
    + intros H. exists script, path, code, toks.
      split; [reflexivity|]. split; [assumption|]. split; [assumption|].
      split; [|intros Hd; now apply Hroom].
      intros ->. destruct out as [|l out]; [destruct H|].
      unfold report in Hr. rewrite (bind_eq _ _ _ Ht) in Hr.
      inversion Hr; subst. destruct H as [H|[H|[]]]; discriminate.
  - exists 0. intros fuel _. eexists _, 1. split; [reflexivity|].
    split; [now right|]. repeat split.
    + intros H. discriminate H.
    + intros (s & p & c & ts & E & Hrd & _). inversion E; subst. congruence.
    + intros (s & p & c & ts & E & Hrd & _). inversion E; subst. congruence.
    + intros [H|[]]. discriminate H.
    + intros [H|[]]. discriminate H.
Qed.

(* ================================================================== *)
(** ** Sample runs of [parse] *)

Example parse_return_zero :
  option_map fst (parse 20 998 return_zero_tokens) = Some true.
Proof. vm_compute. reflexivity. Qed.

Example parse_if_else :
  match tokenize "int main ( ) { if ( a < b ) { return a ; } else { return b ; } }" with
  | Some toks => option_map fst (parse 40 998 toks)
  | None => None
  end = Some true.
Proof. vm_compute. reflexivity. Qed.

Example parse_output :
  match tokenize "int main ( ) { cout << x << endl ; return 0 ; }" with
  | Some toks => option_map fst (parse 40 998 toks)
  | None => None
  end = Some true.
Proof. vm_compute. reflexivity. Qed.

(** With frames to spare the 400 parentheses are walked to the end and
    rejected. *)
Example parse_open_parentheses_with_room :
  option_map (fun r => (fst r, raised (snd r),
                        token_index (state (snd r)),
                        List.length (errors (state (snd r)))))
             (parse 2000 5000 (open_parentheses 400))
  = Some (false, false, 406, 403).
Proof. vm_compute. reflexivity. Qed.

(** A parenthesis that is not a punctuator is never consumed: [factor]
    logs an error and descends again, until the limit cuts the walk. *)
Example parse_stuck_parenthesis :
  option_map (fun r => (fst r, raised (snd r),
                        token_index (state (snd r))))
             (parse 1200 998 stuck_parenthesis)
  = Some (false, true, 6).
Proof. vm_compute. reflexivity. Qed.

(** A program nested 400 deep with a semicolon after it: the walk is cut
    before it comes to the semicolon, and [parse] returns [true] with an
    empty log.  With frames to spare the semicolon is reported. *)
Example parse_deep_program_with_leftover :
  option_map (fun r => (fst r, raised (snd r),
                        List.length (errors (state (snd r)))))
             (parse 3000 998 (nested_return 400 ++ [("PUNCTUATOR", ";")]))
  = Some (true, true, 0)
  /\ option_map (fun r => (fst r, raised (snd r),
                           errors (state (snd r))))
                (parse 3000 5000
                   (nested_return 400 ++ [("PUNCTUATOR", ";")]))
     = Some (false, false,
             ["Syntax Error at token index 809: Unexpected token <PUNCTUATOR, ;> after program end."]).
Proof. split; vm_compute; reflexivity. Qed.
